(** * Attendance pipeline: message assembly, event filtering, player
      statistics and similarity grouping.

    A shallow embedding of the TypeScript sources
    - [1-parse-messages]           (class WhatsAppParser),
    - [2-filter-messages-per-day]  (class MessageFilter),
    - [3-create-stats]             (class PlayerStatsAnalyzer),
    - [4-csv-converter] / final grouping (cleanName, groupSimilarPlayers,
      consolidateGroup, in its two revisions),
    followed by the properties established about them.

    JavaScript strings are sequences of UTF-16 code units; they are modelled
    as [list N].  Regular expressions are modelled by a small backtracking
    matcher over a syntax that covers the operators used in the sources. *)

From Stdlib Require Import String Ascii.
From Stdlib Require Import List NArith ZArith Bool Arith Lia.
From Stdlib Require Import Permutation Sorted QArith.
Close Scope Q_scope.
Import ListNotations.

Set Implicit Arguments.

(* ===================================================================== *)
(** * JavaScript strings *)
(* ===================================================================== *)

Module JsString.

(** A string is the list of its UTF-16 code units. *)
Definition jsstring := list N.

Definition cu_eqb (a b : N) : bool := N.eqb a b.

Fixpoint eqb (a b : jsstring) : bool :=
  match a, b with
  | [], [] => true
  | x :: a', y :: b' => N.eqb x y && eqb a' b'
  | _, _ => false
  end.

(** ** String literals: decoding of the UTF-8 bytes of a Rocq string into
       UTF-16 code units. *)

Definition utf16_of_codepoint (cp : N) : jsstring :=
  if (cp <? 65536)%N then [cp]
  else let v := (cp - 65536)%N in
       [(55296 + N.shiftr v 10)%N; (56320 + N.land v 1023)%N].

Definition cont (b : N) : N := N.land b 63.

Fixpoint utf8_decode (bs : list N) : jsstring :=
  match bs with
  | [] => []
  | b0 :: r0 =>
    if (b0 <? 128)%N then b0 :: utf8_decode r0
    else if (b0 <? 224)%N then
      match r0 with
      | b1 :: r1 =>
          utf16_of_codepoint (N.land b0 31 * 64 + cont b1) ++ utf8_decode r1
      | [] => []
      end
    else if (b0 <? 240)%N then
      match r0 with
      | b1 :: b2 :: r2 =>
          utf16_of_codepoint (N.land b0 15 * 4096 + cont b1 * 64 + cont b2)
            ++ utf8_decode r2
      | _ => []
      end
    else
      match r0 with
      | b1 :: b2 :: b3 :: r3 =>
          utf16_of_codepoint
            (N.land b0 7 * 262144 + cont b1 * 4096 + cont b2 * 64 + cont b3)
            ++ utf8_decode r3
      | _ => []
      end
  end.

Definition js (s : string) : jsstring :=
  utf8_decode (map N_of_ascii (list_ascii_of_string s)).

(** ** Character classes of the ECMAScript grammar *)

(** [WhiteSpace] and [LineTerminator]: what [\s] matches and what
    [String.prototype.trim] removes. *)
Definition isWhiteSpace (c : N) : bool :=
  ((9 <=? c) && (c <=? 13) || (c =? 32) || (c =? 160) || (c =? 5760)
   || (8192 <=? c) && (c <=? 8202) || (c =? 8232) || (c =? 8233)
   || (c =? 8239) || (c =? 8287) || (c =? 12288) || (c =? 65279))%N.

(** [LineTerminator]: what [.] refuses. *)
Definition isLineTerminator (c : N) : bool :=
  ((c =? 10) || (c =? 13) || (c =? 8232) || (c =? 8233))%N.

(** [\d] *)
Definition isDigit (c : N) : bool := ((48 <=? c) && (c <=? 57))%N.

(** [\w] *)
Definition isWord (c : N) : bool :=
  ((97 <=? c) && (c <=? 122) || (65 <=? c) && (c <=? 90)
   || (48 <=? c) && (c <=? 57) || (c =? 95))%N.

(** ** trim *)

Fixpoint trimStart (s : jsstring) : jsstring :=
  match s with
  | c :: s' => if isWhiteSpace c then trimStart s' else s
  | [] => []
  end.

Definition trimEnd (s : jsstring) : jsstring := rev (trimStart (rev s)).

Definition trim (s : jsstring) : jsstring := trimEnd (trimStart s).

(** ** Case mapping

    [toLowerCase] and [toUpperCase] follow the Unicode default case
    conversion on Basic Latin and Latin-1 Supplement, the repertoire of
    the chat export, together with the code units outside that range whose
    lower case lies inside it.  Every other code unit is left as it is:
    on a letter of another script (Latin Extended, Greek, Cyrillic) the
    host changes the case and these definitions do not, and
    [toUpperCase] also leaves the few units outside the two blocks whose
    upper case lies inside them (long s, dotless i, the ligatures).  Whether a
    lower-cased text contains, starts with or equals a text of the
    repertoire is the same either way, since no code unit left out here
    has its lower case in the repertoire. *)

Definition lowerUnit (c : N) : jsstring :=
  if ((65 <=? c) && (c <=? 90))%N then [(c + 32)%N]
  else if ((192 <=? c) && (c <=? 222) && negb (c =? 215))%N then [(c + 32)%N]
  else if (c =? 304)%N then [105; 775]%N           (* U+0130 *)
  else if (c =? 376)%N then [255]%N                (* U+0178 *)
  else if (c =? 7838)%N then [223]%N               (* U+1E9E *)
  else if (c =? 8490)%N then [107]%N               (* U+212A KELVIN SIGN *)
  else if (c =? 8491)%N then [229]%N               (* U+212B ANGSTROM SIGN *)
  else [c].

Definition upperUnit (c : N) : jsstring :=
  if ((97 <=? c) && (c <=? 122))%N then [(c - 32)%N]
  else if (c =? 181)%N then [924]%N                (* U+00B5 *)
  else if (c =? 223)%N then [83; 83]%N             (* U+00DF *)
  else if ((224 <=? c) && (c <=? 254) && negb (c =? 247))%N then [(c - 32)%N]
  else if (c =? 255)%N then [376]%N
  else [c].

Definition toLowerCase (s : jsstring) : jsstring := flat_map lowerUnit s.
Definition toUpperCase (s : jsstring) : jsstring := flat_map upperUnit s.

(** ** Searching *)

Fixpoint startsWith (s p : jsstring) : bool :=
  match p, s with
  | [], _ => true
  | x :: p', y :: s' => N.eqb x y && startsWith s' p'
  | _ :: _, [] => false
  end.

Fixpoint includes (s p : jsstring) : bool :=
  startsWith s p ||
  match s with
  | [] => false
  | _ :: s' => includes s' p
  end.

(** ** split and join on a one-unit separator *)

Fixpoint split (sep : N) (s : jsstring) : list jsstring :=
  match s with
  | [] => [[]]
  | c :: s' =>
    match split sep s' with
    | w :: ws => if N.eqb c sep then [] :: w :: ws else (c :: w) :: ws
    | [] => [[c]]
    end
  end.

Fixpoint join (sep : jsstring) (ws : list jsstring) : jsstring :=
  match ws with
  | [] => []
  | [w] => w
  | w :: ws' => w ++ sep ++ join sep ws'
  end.

(** [charAt(0)] and [slice(1)] *)
Definition charAt0 (s : jsstring) : jsstring := firstn 1 s.
Definition slice1 (s : jsstring) : jsstring := skipn 1 s.

(** ** [Number(text)] on the texts the sources apply it to, runs of decimal
       digits captured by [\d]: their decimal value, 0 for the empty text.
       [None] stands for NaN. *)

Fixpoint digitsValue (acc : Z) (s : jsstring) : option Z :=
  match s with
  | [] => Some acc
  | c :: s' =>
    if isDigit c then digitsValue (10 * acc + (Z.of_N c - 48))%Z s' else None
  end.

Definition Number_ (s : jsstring) : option Z := digitsValue 0%Z s.

(** [a < b] on strings: by code units, a proper prefix first. *)
Fixpoint ltb (a b : jsstring) : bool :=
  match a, b with
  | _, [] => false
  | [], _ :: _ => true
  | x :: a', y :: b' => (x <? y)%N || (N.eqb x y && ltb a' b')
  end.

End JsString.

Import JsString.

(* ===================================================================== *)
(** * Regular expressions *)
(* ===================================================================== *)

Module Regex.

(** The operators occurring in the patterns of the sources: classes,
    quantified classes (greedy or lazy), concatenation, capture groups and
    the two anchors.  Groups are neither nested nor optional there, so the
    captures are the list of group texts in order. *)
Inductive regex : Type :=
| Eps
| Class (p : N -> bool)
| Cat (r1 r2 : regex)
| Rep (p : N -> bool) (lo : nat) (hi : option nat) (greedy : bool)
| Group (r : regex)
| Bol
| Eol.

Section Matcher.
Variable R : Type.

Definition roomLeft (hi : option nat) : bool :=
  match hi with Some O => false | _ => true end.

(** A quantified class, with backtracking into the continuation [k].
    [pre] is the consumed input, most recent unit first. *)
Fixpoint rep (p : N -> bool) (greedy : bool) (lo : nat) (hi : option nat)
    (pre s : jsstring) (k : jsstring -> jsstring -> option R) {struct s}
    : option R :=
  let stop := match lo with O => k pre s | S _ => None end in
  let more :=
    match s with
    | c :: s' =>
      if p c && roomLeft hi
      then rep p greedy (Nat.pred lo) (option_map Nat.pred hi) (c :: pre) s' k
      else None
    | [] => None
    end in
  if greedy
  then match more with Some r => Some r | None => stop end
  else match stop with Some r => Some r | None => more end.

Fixpoint run (r : regex) (pre s : jsstring) (caps : list jsstring)
    (k : jsstring -> jsstring -> list jsstring -> option R) : option R :=
  match r with
  | Eps => k pre s caps
  | Class p =>
    match s with
    | c :: s' => if p c then k (c :: pre) s' caps else None
    | [] => None
    end
  | Cat r1 r2 =>
    run r1 pre s caps (fun pre' s' caps' => run r2 pre' s' caps' k)
  | Rep p lo hi greedy =>
    rep p greedy lo hi pre s (fun pre' s' => k pre' s' caps)
  | Group r1 =>
    run r1 pre s caps (fun pre' s' caps' =>
      k pre' s' (caps' ++ [rev (firstn (length pre' - length pre) pre')]))
  | Bol => match pre with [] => k pre s caps | _ => None end
  | Eol => match s with [] => k pre s caps | _ => None end
  end.

End Matcher.

(** A successful match: the captures, the matched text and what follows. *)
Record matchResult := {
  captures : list jsstring;
  matched : jsstring;
  rest : jsstring
}.

(** Match attempt at the current position. *)
Definition matchHere (r : regex) (pre s : jsstring) : option matchResult :=
  run r pre s [] (fun pre' s' caps =>
    Some {| captures := caps;
            matched := rev (firstn (length pre' - length pre) pre');
            rest := s' |}).

(** [RegExp.prototype.exec] without the global flag: leftmost match.  The
    result also gives the text before the match. *)
Fixpoint execFrom (r : regex) (pre s : jsstring)
    : option (jsstring * matchResult) :=
  match matchHere r pre s with
  | Some m => Some (rev pre, m)
  | None =>
    match s with
    | [] => None
    | c :: s' => execFrom r (c :: pre) s'
    end
  end.

Definition exec (r : regex) (s : jsstring) : option (jsstring * matchResult) :=
  execFrom r [] s.

(** [str.match(re)] for a pattern without the global flag: the captures. *)
Definition match_ (r : regex) (s : jsstring) : option (list jsstring) :=
  option_map (fun bm => captures (snd bm)) (exec r s).

(** [re.test(str)] *)
Definition test (r : regex) (s : jsstring) : bool :=
  match exec r s with Some _ => true | None => false end.

(** [str.replace(re, by)] without the global flag: first match only. *)
Definition replaceFirst (r : regex) (by_ : jsstring) (s : jsstring) : jsstring :=
  match exec r s with
  | Some (before, m) => before ++ by_ ++ rest m
  | None => s
  end.

(** [str.replace(re, by)] with the global flag.  [skip] counts the units of
    the current match that are still to be dropped. *)
Fixpoint replaceAllFrom (r : regex) (by_ : jsstring) (skip : nat)
    (pre s : jsstring) : jsstring :=
  match skip with
  | S n =>
    match s with
    | c :: s' => replaceAllFrom r by_ n (c :: pre) s'
    | [] => []
    end
  | O =>
    match matchHere r pre s with
    | Some m =>
      match s with
      | c :: s' =>
        match length (matched m) with
        | O => by_ ++ c :: replaceAllFrom r by_ 0 (c :: pre) s'
        | S n => by_ ++ replaceAllFrom r by_ n (c :: pre) s'
        end
      | [] => by_
      end
    | None =>
      match s with
      | c :: s' => c :: replaceAllFrom r by_ 0 (c :: pre) s'
      | [] => []
      end
    end
  end.

Definition replaceAll (r : regex) (by_ : jsstring) (s : jsstring) : jsstring :=
  replaceAllFrom r by_ 0 [] s.

(** Notation for patterns. *)
Definition lit (c : N) : regex := Class (N.eqb c).
Definition star (p : N -> bool) : regex := Rep p 0 None true.
Definition plus (p : N -> bool) : regex := Rep p 1 None true.
Definition opt (p : N -> bool) : regex := Rep p 0 (Some 1) true.
Definition times (p : N -> bool) (lo hi : nat) : regex := Rep p lo (Some hi) true.

Fixpoint seq (rs : list regex) : regex :=
  match rs with
  | [] => Eps
  | [r] => r
  | r :: rs' => Cat r (seq rs')
  end.

(** Literal text. *)
Definition text (s : jsstring) : regex := seq (map lit s).

(** Canonicalize of the ignore-case flag (non-Unicode mode): the upper case
    of the unit when that is a single unit, never from outside Basic Latin
    into it. *)
Definition canonicalize (c : N) : N :=
  match upperUnit c with
  | [u] => if ((128 <=? c) && (u <? 128))%N then c else u
  | _ => c
  end.

Definition liti (c : N) : regex :=
  Class (fun x => N.eqb (canonicalize x) (canonicalize c)).

Definition texti (s : jsstring) : regex := seq (map liti s).

Definition anyOf (cs : jsstring) (c : N) : bool := existsb (N.eqb c) cs.
Definition anyOfi (cs : jsstring) (c : N) : bool :=
  existsb (fun x => N.eqb (canonicalize c) (canonicalize x)) cs.
Definition noneOf (cs : jsstring) (c : N) : bool := negb (anyOf cs c).

(** [.] *)
Definition dot (c : N) : bool := negb (isLineTerminator c).

End Regex.

Import Regex.


(* ===================================================================== *)
(** * The host: clock and console *)
(* ===================================================================== *)

Module Host.

Inductive ConsoleLine : Type :=
| Warn (text : jsstring)
| Log (text : jsstring).

(** [ticks] counts the readings of the system clock made so far; [console]
    holds the lines printed so far, oldest first. *)
Record World := { ticks : nat; console : list ConsoleLine }.

Definition M (A : Type) : Type := World -> A * World.

Definition ret {A} (a : A) : M A := fun w => (a, w).

Definition bind {A B} (m : M A) (f : A -> M B) : M B :=
  fun w => let (a, w') := m w in f a w'.

Definition print (l : ConsoleLine) : M unit :=
  fun w => (tt, {| ticks := ticks w; console := console w ++ [l] |}).

Definition initialWorld : World := {| ticks := 0; console := [] |}.

(** A time value in milliseconds since the epoch; [None] is the NaN of an
    invalid Date. *)
Definition Date := option Z.

(** [a > b] on Dates: the comparison of their time values, false on NaN. *)
Definition dateGt (a b : Date) : bool :=
  match a, b with
  | Some x, Some y => (y <? x)%Z
  | _, _ => false
  end.

End Host.

Import Host.

Declare Scope host_scope.
Notation "x <- m ;; k" := (bind m (fun x => k))
  (at level 61, m at next level, right associativity) : host_scope.
Notation "m ;;; k" := (bind m (fun _ => k))
  (at level 61, right associativity) : host_scope.
Open Scope host_scope.

(* ===================================================================== *)
(** * The Date constructor (ECMAScript, Date objects) *)
(* ===================================================================== *)

Module JsDate.

Local Open Scope Z_scope.

Definition msPerDay : Z := 86400000.

Definition DayFromYear (y : Z) : Z :=
  365 * (y - 1970) + (y - 1969) / 4 - (y - 1901) / 100 + (y - 1601) / 400.

Definition InLeapYear (y : Z) : bool :=
  (y mod 4 =? 0) && (negb (y mod 100 =? 0) || (y mod 400 =? 0)).

(** Days of the year before month index [m] (0 = January). *)
Definition DaysBeforeMonth (leap : bool) (m : Z) : Z :=
  let l := if leap then 1 else 0 in
  if m =? 0 then 0 else if m =? 1 then 31 else if m =? 2 then 59 + l
  else if m =? 3 then 90 + l else if m =? 4 then 120 + l
  else if m =? 5 then 151 + l else if m =? 6 then 181 + l
  else if m =? 7 then 212 + l else if m =? 8 then 243 + l
  else if m =? 9 then 273 + l else if m =? 10 then 304 + l
  else 334 + l.

Definition MakeDay (year month date : Z) : Z :=
  let ym := year + month / 12 in
  let mn := month mod 12 in
  DayFromYear ym + DaysBeforeMonth (InLeapYear ym) mn + date - 1.

Definition MakeTime (hour min sec ms : Z) : Z :=
  hour * 3600000 + min * 60000 + sec * 1000 + ms.

Definition MakeDate (day time : Z) : Z := day * msPerDay + time.

Definition TimeClip (t : Z) : Date :=
  if 8640000000000000 <? Z.abs t then None else Some t.

(** The arguments handed to [new Date(year, monthIndex, day, hours,
    minutes, seconds)].  The first three come from [Number(...)] and may be
    NaN ([None]). *)
Record DateArgs := {
  year : option Z;
  monthIndex : option Z;
  day : option Z;
  hours : Z;
  minutes : Z;
  seconds : Z
}.

Section LocalTime.

(** Offset of the host's local time from UTC, in milliseconds, as a function
    of the local time value. *)
Variable localTZA : Z -> Z.

Definition UTC (t : Z) : Z := t - localTZA t.

Definition newDate (a : DateArgs) : Date :=
  match year a, monthIndex a, day a with
  | Some y, Some m, Some d =>
    let yr := if (0 <=? y) && (y <=? 99) then 1900 + y else y in
    TimeClip (UTC (MakeDate (MakeDay yr m d)
                     (MakeTime (hours a) (minutes a) (seconds a) 0)))
  | _, _, _ => None
  end.

End LocalTime.

End JsDate.

Import JsDate.

(* ===================================================================== *)
(** * Arrays: sort *)
(* ===================================================================== *)

Module JsArray.

Section Sort.

Variable A : Type.

(** The comparator: negative when the first argument goes first. *)
Variable compare : A -> A -> Z.

(** [Array.prototype.sort(compare)] for a comparator that orders the
    elements consistently: the language fixes the result as the sorted
    order in which elements that compare equal keep their relative order.
    It is computed here by insertion from the right. *)
Fixpoint insert (x : A) (sorted : list A) : list A :=
  match sorted with
  | [] => [x]
  | y :: sorted' =>
    if (compare x y <=? 0)%Z then x :: sorted else y :: insert x sorted'
  end.

Definition sort (l : list A) : list A := fold_right insert [] l.

End Sort.

(** [results.map(f)] where [f] may throw: the results, or [None] as soon as
    one call throws. *)
Fixpoint mapOrThrow (A B : Type) (f : A -> option B) (l : list A)
    : option (list B) :=
  match l with
  | [] => Some []
  | x :: l' =>
    match f x with
    | Some y =>
      match mapOrThrow f l' with
      | Some ys => Some (y :: ys)
      | None => None
      end
    | None => None
    end
  end.

End JsArray.

(* ===================================================================== *)
(** * WhatsAppParser (1-parse-messages) *)
(* ===================================================================== *)

(** The interface [WhatsAppMessage], declared alike by the parser and by the
    filter. *)
Record WhatsAppMessage := {
  timestamp : jsstring;
  sender : jsstring;
  content : jsstring;
  rawMessage : jsstring
}.

(** U+200E LEFT-TO-RIGHT MARK, the invisible unit of the chat export. *)
Definition LRM : N := 8206%N.

Module WhatsAppParser.

(** [\d{1,2}\/\d{1,2}\/\d{2,4}] *)
Definition headerDate : regex :=
  seq [times isDigit 1 2; lit 47; times isDigit 1 2; lit 47; times isDigit 2 4].

(** [\d{1,2}:\d{2}:\d{2}\s*[ap]\.\s*m\.] *)
Definition headerTime : regex :=
  seq [times isDigit 1 2; lit 58; times isDigit 2 2; lit 58; times isDigit 2 2;
       star isWhiteSpace; Class (anyOf (js "ap")); lit 46; star isWhiteSpace;
       lit 109; lit 46].

(** [/^\[(date),\s*(time)\]\s*([^:]+):\s*(.{0,})/], where the source writes
    the last group with a star *)
Definition messagePattern : regex :=
  seq [Bol; lit 91; Group headerDate; lit 44; star isWhiteSpace;
       Group headerTime; lit 93; star isWhiteSpace;
       Group (plus (noneOf (js ":"))); lit 58; star isWhiteSpace;
       Group (star dot)].

(** [/^\[(date),\s*(time)\]\s*([^:]*?):\s*<LRM>(.{0,})$/], likewise *)
Definition systemPattern : regex :=
  seq [Bol; lit 91; Group headerDate; lit 44; star isWhiteSpace;
       Group headerTime; lit 93; star isWhiteSpace;
       Group (Rep (noneOf (js ":")) 0 None false); lit 58; star isWhiteSpace;
       lit LRM; Group (star dot); Eol].

(** [line.match(this.messagePattern) || line.match(this.systemPattern)] *)
Definition messageMatch (line : jsstring) : option (list jsstring) :=
  match match_ messagePattern line with
  | Some caps => Some caps
  | None => match_ systemPattern line
  end.

(** The parser's [messages] field together with the local [currentMessage]. *)
Record Assembly := {
  messages : list WhatsAppMessage;
  currentMessage : option WhatsAppMessage
}.

(** [this.messages.push(currentMessage)] when there is one. *)
Definition flush (a : Assembly) : list WhatsAppMessage :=
  match currentMessage a with
  | Some m => messages a ++ [m]
  | None => messages a
  end.

(** The message started by a header line, from the groups of the match. *)
Definition startMessage (caps : list jsstring) (line : jsstring)
    : WhatsAppMessage :=
  let date := nth 0 caps [] in
  let time := nth 1 caps [] in
  let sender := nth 2 caps [] in
  let content := nth 3 caps [] in
  {| timestamp := date ++ js ", " ++ time;
     sender := trim sender;
     content := content;
     rawMessage := line |}.

(** [currentMessage.content += '\n' + line] and the same for [rawMessage]. *)
Definition continueMessage (m : WhatsAppMessage) (line : jsstring)
    : WhatsAppMessage :=
  {| timestamp := timestamp m;
     sender := sender m;
     content := content m ++ [10%N] ++ line;
     rawMessage := rawMessage m ++ [10%N] ++ line |}.

(** One iteration of [for (let i = 0; i < lines.length; i++)]. *)
Definition assembleLine (a : Assembly) (rawLine : jsstring) : Assembly :=
  let line := trim rawLine in
  match line with
  | [] => a
  | _ :: _ =>
    match messageMatch line with
    | Some caps =>
      {| messages := flush a;
         currentMessage := Some (startMessage caps line) |}
    | None =>
      match currentMessage a with
      | Some m =>
        {| messages := messages a;
           currentMessage := Some (continueMessage m line) |}
      | None => a
      end
    end
  end.

(** The loop over the lines and the final push; [before] is the content of
    [this.messages] on entry (empty for a new parser). *)
Definition assemble (before : list WhatsAppMessage) (lines : list jsstring)
    : list WhatsAppMessage :=
  flush (fold_left assembleLine lines
           {| messages := before; currentMessage := None |}).

(** [parseFile] on the text of the file; [None] is a failed read, answered
    with the empty list. *)
Definition parseFile (before : list WhatsAppMessage) (file : option jsstring)
    : list WhatsAppMessage :=
  match file with
  | Some text => assemble before (split 10 text)
  | None => []
  end.

End WhatsAppParser.

(* ===================================================================== *)
(** * MessageFilter (2-filter-messages-per-day) *)
(* ===================================================================== *)

Module MessageFilter.

Record FilteredEvent := {
  eventName : jsstring;
  eventDate : jsstring;
  dayOfWeek : jsstring;
  time : jsstring;
  location : jsstring;
  players : list jsstring;
  totalPlayers : nat;
  messageTimestamp : jsstring;
  eventSender : jsstring;
  originalMessage : WhatsAppMessage
}.

Definition allowedDays : list jsstring :=
  [js "viernes"; js "vienes"; js "miércoles"; js "miercoles";
   js "miercoles"; js "miércoles"].

(** ** parseTimestamp *)

(** [\d{1,2}\/\d{1,2}\/\d{2,4}] *)
Definition datePattern : regex :=
  seq [times isDigit 1 2; lit 47; times isDigit 1 2; lit 47; times isDigit 2 4].

(** [\d{1,2}:\d{2}:\d{2}] and [\d{1,2}:\d{2}] *)
Definition timeSecondsPattern : regex :=
  seq [times isDigit 1 2; lit 58; times isDigit 2 2; lit 58; times isDigit 2 2].
Definition timeMinutesPattern : regex :=
  seq [times isDigit 1 2; lit 58; times isDigit 2 2].

(** [[ap]\.?\s*m\.?] under the ignore-case flag *)
Definition periodPattern : regex :=
  seq [Class (anyOfi (js "ap")); opt (N.eqb 46); star isWhiteSpace;
       liti 109; opt (N.eqb 46)].

Definition formats : list regex :=
  [ seq [Bol; Group datePattern; lit 44; star isWhiteSpace;
         Group timeSecondsPattern; star isWhiteSpace; Group periodPattern; Eol];
    seq [Bol; Group datePattern; lit 44; star isWhiteSpace;
         Group timeMinutesPattern; star isWhiteSpace; Group periodPattern; Eol];
    seq [Bol; Group datePattern; lit 44; star isWhiteSpace;
         Group timeSecondsPattern; Eol];
    seq [Bol; Group datePattern; Eol] ].

(** The loop [for (const format of formats)]: captures of the first format
    that matches. *)
Fixpoint firstMatch (fs : list regex) (s : jsstring) : option (list jsstring) :=
  match fs with
  | [] => None
  | f :: fs' =>
    match match_ f s with
    | Some caps => Some caps
    | None => firstMatch fs' s
    end
  end.

(** [x || 0] for a component of [timePart.split(':').map(Number)]:
    [undefined], NaN and 0 all give 0. *)
Definition orZero (x : option (option Z)) : Z :=
  match x with
  | Some (Some n) => n
  | _ => 0%Z
  end.

(** [n] of an array element that may be missing: [undefined] converts to
    NaN. *)
Definition orNaN (x : option (option Z)) : option Z :=
  match x with
  | Some n => n
  | None => None
  end.

(** The body of [if (match) { ... }] up to the arguments of [new Date]. *)
Definition dateArgsOfMatch (caps : list jsstring) : DateArgs :=
  let datePart := nth 0 caps [] in
  let timePart := nth_error caps 1 in
  let period := nth_error caps 2 in
  let dmy := map Number_ (split 47 datePart) in
  let day := orNaN (nth_error dmy 0) in
  let month := orNaN (nth_error dmy 1) in
  let year := orNaN (nth_error dmy 2) in
  let '(hours, minutes, seconds) :=
    match timePart with
    | Some ((_ :: _) as tp) =>
      let timeComponents := map Number_ (split 58 tp) in
      let hours := orZero (nth_error timeComponents 0) in
      let minutes := orZero (nth_error timeComponents 1) in
      let seconds := orZero (nth_error timeComponents 2) in
      let hours :=
        match period with
        | Some ((_ :: _) as per) =>
          let isPM := includes (toLowerCase per) (js "p") in
          let isAM := includes (toLowerCase per) (js "a") in
          if isPM && negb (hours =? 12)%Z then (hours + 12)%Z
          else if isAM && (hours =? 12)%Z then 0%Z
          else hours
        | _ => hours
        end in
      (hours, minutes, seconds)
    | _ => (0%Z, 0%Z, 0%Z)
    end in
  let fullYear :=
    option_map (fun y => if (y <? 100)%Z then (2000 + y)%Z else y) year in
  {| JsDate.year := fullYear;
     monthIndex := option_map (fun m => (m - 1)%Z) month;
     JsDate.day := day;
     hours := hours; minutes := minutes; seconds := seconds |}.

Definition cleanTimestamp (timestamp : jsstring) : jsstring :=
  trim (replaceAll (Class (N.eqb LRM)) [] timestamp).

(** The arguments of [new Date] when one of the four formats matches. *)
Definition matchedDateArgs (timestamp : jsstring) : option DateArgs :=
  option_map dateArgsOfMatch (firstMatch formats (cleanTimestamp timestamp)).

Definition quote : jsstring := [34%N].

Definition unrecognisedWarning (timestamp : jsstring) : ConsoleLine :=
  Warn (js "⚠️  Formato de timestamp no reconocido: "
          ++ quote ++ timestamp ++ quote).

Section Hosted.

Variable localTZA : Z -> Z.

(** [clock n] is the n-th reading of the system clock, in milliseconds. *)
Variable clock : nat -> Z.

(** [new Date()] *)
Definition now : M Date :=
  fun w => (Some (clock (ticks w)),
            {| ticks := S (ticks w); console := console w |}).

(** [parseTimestamp].  On a string argument no statement of the [try] block
    throws, so the [catch] branch does not occur. *)
Definition parseTimestamp (timestamp : jsstring) : M Date :=
  match matchedDateArgs timestamp with
  | Some args => ret (newDate localTZA args)
  | None => print (unrecognisedWarning timestamp) ;;; now
  end.

End Hosted.

(** ** extractDateFromTimestamp *)

Definition extractDateFromTimestamp (timestamp : jsstring) : jsstring :=
  trim (nth 0 (split 44 (cleanTimestamp timestamp)) []).

(** ** normalizeDayName and isAllowedDay *)

Definition dayMappings : list (jsstring * jsstring) :=
  [ (js "vienes", js "viernes"); (js "viernes", js "viernes");
    (js "miercoles", js "miércoles"); (js "miércoles", js "miércoles") ].

Fixpoint ownProperty (o : list (jsstring * jsstring)) (k : jsstring)
    : option jsstring :=
  match o with
  | [] => None
  | (k', v) :: o' => if eqb k' k then Some v else ownProperty o' k
  end.

(** The lower-case names that an object literal inherits from
    [Object.prototype]; their values are objects, hence truthy. *)
Definition inheritedLowerCaseNames : list jsstring :=
  [js "constructor"; js "__proto__"].

(** What [dayMappings[normalized] || normalized] evaluates to. *)
Inductive DayValue : Type :=
| DayText (s : jsstring)
| Inherited (name : jsstring).

Definition normalizeDayName (day : jsstring) : DayValue :=
  let normalized := trim (toLowerCase day) in
  match ownProperty dayMappings normalized with
  | Some ((_ :: _) as v) => DayText v
  | Some [] => DayText normalized
  | None =>
    if existsb (eqb normalized) inheritedLowerCaseNames
    then Inherited normalized
    else DayText normalized
  end.

Definition isAllowedDay (day : jsstring) : bool :=
  let normalized := trim (toLowerCase day) in
  existsb (fun allowedDay => eqb (toLowerCase allowedDay) normalized)
          allowedDays.

(** ** parseEventFromMessage *)

(** The local variables of the extraction loop. *)
Record Extraction := {
  xName : jsstring;
  xDay : jsstring;
  xTime : jsstring;
  xLocation : jsstring;
  xPlayers : list jsstring
}.

Definition noExtraction : Extraction :=
  {| xName := []; xDay := []; xTime := []; xLocation := []; xPlayers := [] |}.

(** [/^\d+\.\s*/] *)
Definition playerLineTest : regex :=
  seq [Bol; plus isDigit; lit 46; star isWhiteSpace].

(** [/^\d+\.\s*-?\s*(.+)/] *)
Definition playerLinePattern : regex :=
  seq [Bol; plus isDigit; lit 46; star isWhiteSpace; opt (N.eqb 45);
       star isWhiteSpace; Group (plus dot)].

(** [/<LRM><[^>]+>/], the mark left by an edited message *)
Definition editedMark : regex :=
  seq [lit LRM; lit 60; plus (noneOf (js ">")); lit 62].

(** [line.replace(/label/i, '').trim()] *)
Definition afterLabel (label line : jsstring) : jsstring :=
  trim (replaceFirst (texti label) [] line).

(** One iteration of [for (const line of lines)]. *)
Definition extractLine (x : Extraction) (line : jsstring) : Extraction :=
  let trimmedLine := trim line in
  match trimmedLine with
  | [] => x
  | _ :: _ =>
    let lower := toLowerCase trimmedLine in
    if includes lower (js "pichanga") || includes lower (js "ipi") then
      {| xName := trimmedLine; xDay := xDay x; xTime := xTime x;
         xLocation := xLocation x; xPlayers := xPlayers x |}
    else if startsWith lower (js "día:") then
      {| xName := xName x; xDay := afterLabel (js "día:") trimmedLine;
         xTime := xTime x; xLocation := xLocation x; xPlayers := xPlayers x |}
    else if startsWith lower (js "hora:") then
      {| xName := xName x; xDay := xDay x;
         xTime := afterLabel (js "hora:") trimmedLine;
         xLocation := xLocation x; xPlayers := xPlayers x |}
    else if startsWith lower (js "lugar:") then
      {| xName := xName x; xDay := xDay x; xTime := xTime x;
         xLocation := afterLabel (js "lugar:") trimmedLine;
         xPlayers := xPlayers x |}
    else if test playerLineTest trimmedLine then
      match match_ playerLinePattern trimmedLine with
      | Some caps =>
        let playerName := trim (nth 0 caps []) in
        let playerName := trim (replaceFirst editedMark [] playerName) in
        match playerName with
        | [] => x
        | _ :: _ =>
          if eqb playerName (js "-") then x
          else {| xName := xName x; xDay := xDay x; xTime := xTime x;
                  xLocation := xLocation x;
                  xPlayers := xPlayers x ++ [playerName] |}
        end
      | None => x
      end
    else x
  end.

Definition extract (message : WhatsAppMessage) : Extraction :=
  fold_left extractLine (split 10 (content message)) noExtraction.

(** [parseEventFromMessage]: [None] is the [null] result.  Nothing in the
    [try] block throws on a well-typed message.  The last branch is not
    reached: an allowed day is an own key of [dayMappings] (lemma
    [normalizeDayName_allowed] below). *)
Definition parseEventFromMessage (message : WhatsAppMessage)
    : option FilteredEvent :=
  let x := extract message in
  if negb (isAllowedDay (xDay x)) then None
  else
    match normalizeDayName (xDay x) with
    | DayText d =>
      Some {| eventName := xName x;
              eventDate := extractDateFromTimestamp (timestamp message);
              dayOfWeek := d;
              time := xTime x;
              location := xLocation x;
              players := xPlayers x;
              totalPlayers := length (xPlayers x);
              messageTimestamp := timestamp message;
              eventSender := sender message;
              originalMessage := message |}
    | Inherited _ => None
    end.

(** The loop of [processMessages] over the messages: the events of the
    messages that yield one, in the order of the messages. *)
Definition parsedEvents (messages : list WhatsAppMessage)
    : list FilteredEvent :=
  fold_left (fun events message =>
               match parseEventFromMessage message with
               | Some event => events ++ [event]
               | None => events
               end) messages [].

(** ** removeDuplicates *)

(** [`${event.dayOfWeek}_${event.eventDate}`] *)
Definition eventKey (event : FilteredEvent) : jsstring :=
  dayOfWeek event ++ js "_" ++ eventDate event.

(** A [Map] with string keys: the entries in insertion order. *)
Definition EventMap := list (jsstring * FilteredEvent).

Fixpoint mapGet (m : EventMap) (key : jsstring) : option FilteredEvent :=
  match m with
  | [] => None
  | (k, v) :: m' => if eqb k key then Some v else mapGet m' key
  end.

(** [Map.prototype.set]: an existing key keeps its place. *)
Fixpoint mapSet (m : EventMap) (key : jsstring) (value : FilteredEvent)
    : EventMap :=
  match m with
  | [] => [(key, value)]
  | (k, v) :: m' =>
    if eqb k key then (k, value) :: m' else (k, v) :: mapSet m' key value
  end.

Definition mapValues (m : EventMap) : list FilteredEvent := map snd m.

Definition replacementLines (key : jsstring) (existingEvent event : FilteredEvent)
    : list ConsoleLine :=
  [ Log (js "🔄 Reemplazando evento duplicado: " ++ key);
    Log (js "   Anterior: " ++ eventSender existingEvent ++ js " - "
           ++ messageTimestamp existingEvent);
    Log (js "   Nuevo: " ++ eventSender event ++ js " - "
           ++ messageTimestamp event) ].

Definition printAll (ls : list ConsoleLine) : M unit :=
  fun w => (tt, {| ticks := ticks w; console := console w ++ ls |}).

Section Dedup.

Variable localTZA : Z -> Z.
Variable clock : nat -> Z.

(** One iteration of [for (const event of events)].  Nothing in its [try]
    block throws, [parseTimestamp] catching its own errors. *)
Definition dedupStep (eventMap : EventMap) (event : FilteredEvent)
    : M EventMap :=
  let key := eventKey event in
  match mapGet eventMap key with
  | None => ret (mapSet eventMap key event)
  | Some existingEvent =>
    currentTime <- parseTimestamp localTZA clock (messageTimestamp event) ;;
    existingTime <-
      parseTimestamp localTZA clock (messageTimestamp existingEvent) ;;
    if dateGt currentTime existingTime then
      printAll (replacementLines key existingEvent event) ;;;
      ret (mapSet eventMap key event)
    else ret eventMap
  end.

Fixpoint dedupLoop (events : list FilteredEvent) (eventMap : EventMap)
    : M EventMap :=
  match events with
  | [] => ret eventMap
  | event :: events' =>
    eventMap' <- dedupStep eventMap event ;;
    dedupLoop events' eventMap'
  end.

Definition removeDuplicates (events : list FilteredEvent)
    : M (list FilteredEvent) :=
  eventMap <- dedupLoop events [] ;;
  ret (mapValues eventMap).

End Dedup.

End MessageFilter.

(* ===================================================================== *)
(** * PlayerStatsAnalyzer (3-create-stats) *)
(* ===================================================================== *)

Module PlayerStatsAnalyzer.

Record FilteredEvent := {
  eventName : jsstring;
  eventDate : jsstring;
  dayOfWeek : jsstring;
  time : jsstring;
  location : jsstring;
  players : list jsstring;
  totalPlayers : nat;
  messageTimestamp : jsstring;
  eventSender : jsstring
}.

Record PlayerStats := {
  name : jsstring;
  cleanName : jsstring;
  attendance : Z;
  events : list jsstring;
  variations : list jsstring
}.

(** [Object.entries(this.playerAliases)]: the keys are not array indices,
    so the entries come in the order of the literal. *)
Definition playerAliases : list (jsstring * jsstring) :=
  [ (js "conde", js "Spectre"); (js "Spectre", js "Spectre");
    (js "Dayler", js "Dayler"); (js "Deyler", js "Dayler");
    (js "Kenyi", js "Sebas"); (js "Sebas", js "Sebas");
    (js "Sebastian", js "Sebas") ].

(** ** cleanPlayerName *)

(** [/\([^)]*\)/], [/\[[^\]]*\]/], [/\{[^}]*\}/] *)
Definition enclosed (opening closing : N) : regex :=
  seq [lit opening; star (fun c => negb (N.eqb c closing)); lit closing].

(** [/\s*go\s*$/i] *)
Definition trailingGo : regex :=
  seq [star isWhiteSpace; liti 103; liti 111; star isWhiteSpace; Eol].

(** [/\s*-\s*$/] *)
Definition trailingHyphen : regex :=
  seq [star isWhiteSpace; lit 45; star isWhiteSpace; Eol].

(** The class of the emoji pattern.  The pattern has no [u] flag, so the
    class holds the code units of the listed emoji, the halves of surrogate
    pairs included. *)
Definition emojiUnits : jsstring := js "🔥⭐✨💪👑🏆⚽".

(** [/\s+/g] replaced by one space *)
Definition collapseSpaces (s : jsstring) : jsstring :=
  replaceAll (plus isWhiteSpace) (js " ") s.

(** The chain of replacements, up to [trim]. *)
Definition strip (playerName : jsstring) : jsstring :=
  let s := replaceAll (enclosed 40 41) [] playerName in
  let s := replaceAll (enclosed 91 93) [] s in
  let s := replaceAll (enclosed 123 125) [] s in
  let s := replaceAll (Class (anyOf [LRM; 60; 62]%N)) [] s in
  let s := replaceFirst trailingGo [] s in
  let s := replaceFirst trailingHyphen [] s in
  let s := replaceAll (Class (anyOf emojiUnits)) [] s in
  trim (collapseSpaces s).

(** [word.charAt(0).toUpperCase() + word.slice(1)] *)
Definition capitalize (word : jsstring) : jsstring :=
  toUpperCase (charAt0 word) ++ slice1 word.

Definition cleanPlayerName (playerName : jsstring) : jsstring :=
  match strip playerName with
  | [] => []
  | (_ :: _) as cleaned =>
    join (js " ") (map capitalize (split 32 (toLowerCase cleaned)))
  end.

(** ** normalizePlayerName *)

(** [word.charAt(0).toUpperCase() + word.slice(1).toLowerCase()] *)
Definition titleCase (word : jsstring) : jsstring :=
  toUpperCase (charAt0 word) ++ toLowerCase (slice1 word).

Definition titleCaseWords (s : jsstring) : jsstring :=
  join (js " ") (map titleCase (split 32 s)).

(** The loop over the alias entries: the first entry whose lower-cased key
    is the text. *)
Fixpoint findAlias (aliases : list (jsstring * jsstring)) (normalized : jsstring)
    : option jsstring :=
  match aliases with
  | [] => None
  | (alias, mainName) :: aliases' =>
    if eqb (toLowerCase alias) normalized then Some mainName
    else findAlias aliases' normalized
  end.

Section Aliases.

(** The alias table; [playerAliases] in the source. *)
Variable aliases : list (jsstring * jsstring).

Definition normalizePlayerName (cleanName : jsstring) : jsstring :=
  let normalized := toLowerCase (trim (collapseSpaces cleanName)) in
  match findAlias aliases normalized with
  | Some mainName => mainName
  | None => titleCaseWords cleanName
  end.

(** ** processPlayers *)

(** A [Map<string, PlayerStats>]: entries in insertion order. *)
Definition PlayerMap := list (jsstring * PlayerStats).

Fixpoint has (m : PlayerMap) (key : jsstring) : bool :=
  match m with
  | [] => false
  | (k, _) :: m' => eqb k key || has m' key
  end.

Fixpoint get (m : PlayerMap) (key : jsstring) : option PlayerStats :=
  match m with
  | [] => None
  | (k, v) :: m' => if eqb k key then Some v else get m' key
  end.

(** Mutation of the object stored under [key]. *)
Fixpoint update (m : PlayerMap) (key : jsstring) (f : PlayerStats -> PlayerStats)
    : PlayerMap :=
  match m with
  | [] => []
  | (k, v) :: m' =>
    if eqb k key then (k, f v) :: m' else (k, v) :: update m' key f
  end.

(** [array.includes(x)] *)
Definition arrayIncludes (l : list jsstring) (x : jsstring) : bool :=
  existsb (eqb x) l.

Definition pushUnique (l : list jsstring) (x : jsstring) : list jsstring :=
  if arrayIncludes l x then l else l ++ [x].

(** [`${event.eventDate} (${event.dayOfWeek})`] *)
Definition eventKey (event : FilteredEvent) : jsstring :=
  eventDate event ++ js " (" ++ dayOfWeek event ++ js ")".

Definition newStats (normalizedName : jsstring) : PlayerStats :=
  {| name := normalizedName; cleanName := normalizedName;
     attendance := 0; events := []; variations := [] |}.

Definition attend (key playerName : jsstring) (p : PlayerStats) : PlayerStats :=
  {| name := name p; cleanName := cleanName p;
     attendance := (attendance p + 1)%Z;
     events := pushUnique (events p) key;
     variations := pushUnique (variations p) (trim playerName) |}.

(** [!playerName || playerName.trim() === '' || playerName === '-'] *)
Definition skipped (playerName : jsstring) : bool :=
  match playerName with
  | [] => true
  | _ :: _ => eqb (trim playerName) [] || eqb playerName (js "-")
  end.

(** One iteration of [for (const playerName of event.players)]. *)
Definition processPlayer (key : jsstring) (playerMap : PlayerMap)
    (playerName : jsstring) : PlayerMap :=
  if skipped playerName then playerMap
  else
    let cleanName := cleanPlayerName playerName in
    let normalizedName := normalizePlayerName cleanName in
    match normalizedName with
    | [] => playerMap
    | _ :: _ =>
      let playerMap :=
        if has playerMap normalizedName then playerMap
        else playerMap ++ [(normalizedName, newStats normalizedName)] in
      update playerMap normalizedName (attend key playerName)
    end.

Definition processEvent (playerMap : PlayerMap) (event : FilteredEvent)
    : PlayerMap :=
  fold_left (processPlayer (eventKey event)) (players event) playerMap.

Definition processPlayers (events : list FilteredEvent) : PlayerMap :=
  fold_left processEvent events [].

(** ** analyzePlayerStats *)

(** [(a, b) => b.attendance - a.attendance] *)
Definition byAttendance (a b : PlayerStats) : Z :=
  (attendance b - attendance a)%Z.

(** The result of [analyzePlayerStats]: of the metadata, the two counts;
    the date of generation and the description are left out, and so is what
    the method prints. *)
Record PlayerRanking := {
  metadataTotalEvents : nat;
  metadataTotalPlayers : nat;
  rankings : list PlayerStats
}.

(** [data] is the content of the file, [None] when reading or parsing it
    throws. *)
Definition analyzePlayerStats (data : option (list FilteredEvent))
    : PlayerRanking :=
  match data with
  | Some events =>
    let playerMap := processPlayers events in
    let rankings := JsArray.sort byAttendance (map snd playerMap) in
    {| metadataTotalEvents := length events;
       metadataTotalPlayers := length rankings;
       rankings := rankings |}
  | None =>
    {| metadataTotalEvents := 0; metadataTotalPlayers := 0; rankings := [] |}
  end.

End Aliases.

(** ** exportDetailedStats *)

(** An entry of [aliasesUsed]. *)
Record AliasUse := {
  mainName : jsstring;
  aliasVariations : list jsstring;
  aliasAttendance : Z
}.

(** [ranking.rankings.filter((p) => p.variations.length > 1).map(...)] *)
Definition aliasesUsed (ranking : PlayerRanking) : list AliasUse :=
  map (fun p => {| mainName := name p;
                   aliasVariations := variations p;
                   aliasAttendance := attendance p |})
      (filter (fun p => (1 <? length (variations p))%nat) (rankings ranking)).

(** [suggestions.playersToReview]: name and attendance of the first twenty
    players with three attendances or more and a single variation. *)
Definition playersToReview (ranking : PlayerRanking) : list (jsstring * Z) :=
  map (fun p => (name p, attendance p))
      (firstn 20
         (filter (fun p => (3 <=? attendance p)%Z
                           && (length (variations p) =? 1)%nat)
                 (rankings ranking))).

(** ** printStatistics: the distribution *)

(** The ranges; [None] is the open upper end. *)
Definition ranges : list (Z * option Z) :=
  [ (20, None); (15, Some 19); (10, Some 14); (5, Some 9); (1, Some 4) ]%Z.

(** [att >= range.min && (range.max === Infinity ? true : att <= range.max)] *)
Definition inRange (range : Z * option Z) (att : Z) : bool :=
  (fst range <=? att)%Z
  && match snd range with
     | None => true
     | Some max => (att <=? max)%Z
     end.

(** The counts printed for the ranges, in order. *)
Definition distribution (ranking : PlayerRanking) : list nat :=
  let attendances := map attendance (rankings ranking) in
  map (fun range => length (filter (inRange range) attendances)) ranges.

End PlayerStatsAnalyzer.

(* ===================================================================== *)
(** * Final grouping (the two revisions of the consolidation script) *)
(* ===================================================================== *)

Module FinalGrouping.

(** An entry of [rankings] as read from the ranking file.  [events] and
    [variations] may be missing there ([None]); the code guards both with
    [||]. *)
Record Player := {
  name : jsstring;
  cleanName : jsstring;
  attendance : Z;
  events : option (list jsstring);
  variations : option (list jsstring)
}.

Record ConsolidatedPlayer := {
  consolidatedName : jsstring;
  totalAttendance : Z;
  consolidatedVariations : jsstring
}.

(** [SIMILARITY_THRESHOLDS]: 0.9, 0.8, 0.7 *)
Definition SIMILARITY_THRESHOLDS (level : nat) : Q :=
  match level with
  | 1%nat => 9 # 10
  | 2%nat => 8 # 10
  | _ => 7 # 10
  end.

Definition SIMILARITY_LEVEL : nat := 2.

(** [MIN_ATTENDANCE] of the revision that filters *)
Definition MIN_ATTENDANCE : Z := 2.

(** [[...new Set(xs)]]: the first occurrence of each text, in order. *)
Fixpoint uniqueFrom (seen xs : list jsstring) : list jsstring :=
  match xs with
  | [] => []
  | x :: xs' =>
    if existsb (eqb x) seen then uniqueFrom seen xs'
    else x :: uniqueFrom (x :: seen) xs'
  end.

Definition unique (xs : list jsstring) : list jsstring := uniqueFrom [] xs.

(** [player.variations || [player.name]] *)
Definition variationsOf (player : Player) : list jsstring :=
  match variations player with
  | Some vs => vs
  | None => [name player]
  end.

(** [player.events || []] *)
Definition eventsOf (player : Player) : list jsstring :=
  match events player with
  | Some es => es
  | None => []
  end.

(** The accumulation of [group.forEach]. *)
Definition sumAttendance (group : list Player) : Z :=
  fold_left (fun total player => (total + attendance player)%Z) group 0%Z.

Definition allVariations (group : list Player) : list jsstring :=
  fold_left (fun all player => all ++ variationsOf player) group [].

Definition allEvents (group : list Player) : list jsstring :=
  fold_left (fun all player => all ++ eventsOf player) group [].

Section Similarity.

(** [String.prototype.normalize('NFD')], canonical decomposition. *)
Variable normalizeNFD : jsstring -> jsstring.

(** [compareTwoStrings] of the string-similarity package: a ratio of two
    counts, between 0 and 1. *)
Variable compareTwoStrings : jsstring -> jsstring -> Q.

Definition isCombiningMark (c : N) : bool := ((768 <=? c) && (c <=? 879))%N.

Definition cleanName_ (name : jsstring) : jsstring :=
  let s := normalizeNFD name in
  let s := replaceAll (Class isCombiningMark) [] s in
  let s := replaceAll (Class (fun c => negb (isWord c || isWhiteSpace c))) [] s in
  let s := replaceAll (plus isWhiteSpace) (js " ") s in
  toLowerCase (trim s).

(** [processed.has(i)] on the set of indices *)
Definition processedHas (processed : list nat) (i : nat) : bool :=
  existsb (Nat.eqb i) processed.

(** The test of the inner loop. *)
Definition similar (player otherPlayer : Player) : bool :=
  Qle_bool (SIMILARITY_THRESHOLDS SIMILARITY_LEVEL)
           (compareTwoStrings (cleanName_ (name player))
                              (cleanName_ (name otherPlayer))).

(** The objects pushed into a group are the entries of [players]
    themselves.  Such a reference is modelled by the index of the entry
    together with the entry. *)
Definition Entry : Type := nat * Player.

(** One call of the inner [players.forEach((otherPlayer, otherIndex) => ...)]
    for the seed [player] at [index]; the state is the group and the set
    [processed]. *)
Definition collect (seed : Entry) (st : list Entry * list nat) (other : Entry)
    : list Entry * list nat :=
  let '(index, player) := seed in
  let '(group, processed) := st in
  let '(otherIndex, otherPlayer) := other in
  if (otherIndex <=? index)%nat || processedHas processed otherIndex then st
  else if similar player otherPlayer
       then (group ++ [other], otherIndex :: processed)
       else st.

(** One call of the outer [players.forEach((player, index) => ...)]. *)
Definition openGroup (indexed : list Entry)
    (st : list (list Entry) * list nat) (seed : Entry)
    : list (list Entry) * list nat :=
  let '(groups, processed) := st in
  if processedHas processed (fst seed) then st
  else
    let '(group, processed') :=
      fold_left (collect seed) indexed ([seed], processed) in
    (groups ++ [group], fst seed :: processed').

(** The pairs [(index, player)] that [forEach] hands to its callback. *)
Definition indexed (players : list Player) : list Entry :=
  combine (List.seq 0 (length players)) players.

(** The groups as lists of references. *)
Definition groupEntries (players : list Player) : list (list Entry) :=
  fst (fold_left (openGroup (indexed players)) (indexed players) ([], [])).

Definition groupSimilarPlayers (players : list Player) : list (list Player) :=
  map (map snd) (groupEntries players).

End Similarity.

(** ** processPlayersData: outcome and order *)

(** What [processPlayersData] does with the file: it returns early, writes
    records to the CSV file, or exits on an exception. *)
Inductive Outcome : Type :=
| NoRankings
| Written (records : list ConsolidatedPlayer)
| Failed.

(** [(a, b) => b.totalAttendance - a.totalAttendance] *)
Definition byTotalAttendance (a b : ConsolidatedPlayer) : Z :=
  (totalAttendance b - totalAttendance a)%Z.

(** ** consolidateGroup, revision with the seed's name *)

Module V4.

(** [group[0].name]; [None] when the group is empty, where the access
    throws. *)
Definition getOriginalName (group : list Player) : option jsstring :=
  match group with
  | [] => None
  | first :: _ => Some (name first)
  end.

Definition consolidateGroup (group : list Player) : option ConsolidatedPlayer :=
  let totalAttendance := sumAttendance group in
  let uniqueVariations := unique (allVariations group) in
  match getOriginalName group with
  | Some finalName =>
    Some {| consolidatedName := finalName;
            totalAttendance := totalAttendance;
            consolidatedVariations := join (js ", ") uniqueVariations |}
  | None => None
  end.

(** [rankings] is [jsonData.rankings], [None] when the property is missing.
    What the function prints is left out. *)
Definition processPlayersData (normalizeNFD : jsstring -> jsstring)
    (compareTwoStrings : jsstring -> jsstring -> Q)
    (rankings : option (list Player)) : Outcome :=
  match rankings with
  | None | Some [] => NoRankings
  | Some ((_ :: _) as players) =>
    let groups := groupSimilarPlayers normalizeNFD compareTwoStrings players in
    match JsArray.mapOrThrow consolidateGroup groups with
    | Some consolidatedPlayers =>
      let filteredPlayers :=
        filter (fun player => (MIN_ATTENDANCE <=? totalAttendance player)%Z)
               consolidatedPlayers in
      Written (JsArray.sort byTotalAttendance filteredPlayers)
    | None => Failed
    end
  end.

End V4.

(** ** consolidateGroup, revision with the most frequent name *)

Module V5.

(** A value stored in the object [frequency]: a count, or the text that
    [+ 1] makes of an inherited function. *)
Inductive Count : Type :=
| Times (n : Z)
| Text (s : jsstring).

(** The object [frequency]: its own properties in creation order. *)
Definition Frequency := list (jsstring * Count).

(** The own property under the key. *)
Fixpoint count (frequency : Frequency) (key : jsstring) : option Count :=
  match frequency with
  | [] => None
  | (k, v) :: f' => if eqb k key then Some v else count f' key
  end.

(** The names under which [Object.prototype] carries a function; an object
    literal inherits them, and [__proto__], whose value is
    [Object.prototype] itself. *)
Definition inheritedFunctions : list jsstring :=
  [ js "constructor"; js "toString"; js "toLocaleString"; js "valueOf";
    js "hasOwnProperty"; js "isPrototypeOf"; js "propertyIsEnumerable";
    js "__defineGetter__"; js "__defineSetter__"; js "__lookupGetter__";
    js "__lookupSetter__" ].

(** [value + 1] for a value that is there: a count goes up by one, a text
    gets the digit appended. *)
Definition addOne (v : Count) : Count :=
  match v with
  | Times n => Times (n + 1)
  | Text s => Text (s ++ js "1")
  end.

Section Prototype.

(** [String(Object.prototype[name])] for the name of an inherited function:
    the source text of the built-in, which the implementation chooses. *)
Variable functionSource : jsstring -> jsstring.

(** [frequency[name] = (frequency[name] || 0) + 1].  An own value is a
    positive count or a non-empty text, hence truthy.  Without an own
    property the value read is the inherited one: for [__proto__] the
    prototype object, and the assignment of the resulting text goes to the
    inherited setter, which ignores a value that is no object; for the name
    of an inherited function that function, whose text with a 1 appended
    becomes an own property; for any other name [undefined], so that the
    count starts at 1. *)
Fixpoint increment (frequency : Frequency) (key : jsstring) : Frequency :=
  match frequency with
  | [] =>
    if eqb key (js "__proto__") then []
    else if existsb (eqb key) inheritedFunctions
         then [(key, Text (functionSource key ++ js "1"))]
         else [(key, Times 1)]
  | (k, v) :: f' =>
    if eqb k key then (k, addOne v) :: f' else (k, v) :: increment f' key
  end.

(** An array index: the canonical decimal text of an integer below
    [2^32 - 1]. *)
Definition arrayIndex (key : jsstring) : option Z :=
  match key with
  | [] => None
  | c :: rest =>
    if (N.eqb c 48 && negb (eqb rest [])) then None
    else match Number_ key with
         | Some n => if (n <? 4294967295)%Z then Some n else None
         | None => None
         end
  end.

Fixpoint insertIndex (n : Z) (key : jsstring) (sorted : list (Z * jsstring))
    : list (Z * jsstring) :=
  match sorted with
  | [] => [(n, key)]
  | (m, k) :: sorted' =>
    if (n <? m)%Z then (n, key) :: sorted else (m, k) :: insertIndex n key sorted'
  end.

(** [Object.keys]: array indices in ascending order, then the other keys in
    creation order. *)
Definition objectKeys (frequency : Frequency) : list jsstring :=
  let indices :=
    fold_left (fun acc kv =>
                 match arrayIndex (fst kv) with
                 | Some n => insertIndex n (fst kv) acc
                 | None => acc
                 end) frequency [] in
  let others :=
    filter (fun k => match arrayIndex k with Some _ => false | None => true end)
           (map fst frequency) in
  map snd indices ++ others.

(** [frequency[a] > frequency[b]] for two own keys: counts compare as
    numbers and texts as strings; of a count and a text the text converts to
    a number first, and the text of a function, being no numeric literal,
    converts to NaN, so that the comparison is false. *)
Definition moreFrequent (frequency : Frequency) (a b : jsstring) : bool :=
  match count frequency a, count frequency b with
  | Some (Times x), Some (Times y) => (y <? x)%Z
  | Some (Text s), Some (Text t) => ltb t s
  | _, _ => false
  end.

(** [None] when there is no key: [reduce] of an empty array without an
    initial value throws. *)
Definition getMostFrequentName (variations : list jsstring) : option jsstring :=
  let frequency := fold_left increment variations [] in
  match objectKeys frequency with
  | [] => None
  | k :: keys =>
    Some (fold_left (fun a b => if moreFrequent frequency a b then a else b)
                    keys k)
  end.

Definition consolidateGroup (group : list Player) : option ConsolidatedPlayer :=
  let totalAttendance := sumAttendance group in
  let uniqueVariations := unique (allVariations group) in
  match getMostFrequentName uniqueVariations with
  | Some finalName =>
    Some {| consolidatedName := finalName;
            totalAttendance := totalAttendance;
            consolidatedVariations := join (js ", ") uniqueVariations |}
  | None => None
  end.

(** The revision without the filter. *)
Definition processPlayersData (normalizeNFD : jsstring -> jsstring)
    (compareTwoStrings : jsstring -> jsstring -> Q)
    (rankings : option (list Player)) : Outcome :=
  match rankings with
  | None | Some [] => NoRankings
  | Some ((_ :: _) as players) =>
    let groups := groupSimilarPlayers normalizeNFD compareTwoStrings players in
    match JsArray.mapOrThrow consolidateGroup groups with
    | Some consolidatedPlayers =>
      Written (JsArray.sort byTotalAttendance consolidatedPlayers)
    | None => Failed
    end
  end.

End Prototype.

End V5.

End FinalGrouping.

(* ===================================================================== *)
(** * JSONToCSVConverter (4-csv-converter) *)
(* ===================================================================== *)

Module JSONToCSVConverter.

(** The quotation mark, U+0022. *)
Definition quotationMark : N := 34%N.

Definition escapeCSVField (field : jsstring) : jsstring :=
  if includes field (js ",") || includes field [quotationMark]
     || includes field [10%N]
  then [quotationMark]
         ++ replaceAll (lit quotationMark) [quotationMark; quotationMark] field
         ++ [quotationMark]
  else field.

End JSONToCSVConverter.

(* ===================================================================== *)
(** * Vocabulary of the statements *)
(* ===================================================================== *)

Module Vocabulary.

Import MessageFilter.

(** The instant that [parseTimestamp] computes for the timestamp of an
    event when one of the four formats matches it. *)
Definition instantOf (localTZA : Z -> Z) (e : FilteredEvent) : option Z :=
  match matchedDateArgs (messageTimestamp e) with
  | Some a => newDate localTZA a
  | None => None
  end.

(** The key as the pair (day, date text). *)
Definition pairKey (e : FilteredEvent) : jsstring * jsstring :=
  (dayOfWeek e, eventDate e).

(** The timestamp of the event matches none of the formats. *)
Definition unrecognised (e : FilteredEvent) : Prop :=
  matchedDateArgs (messageTimestamp e) = None.

(** Well-formed event maps: every entry sits under the key of its event and
    no key occurs twice. *)
Definition wellKeyed (m : EventMap) : Prop :=
  (forall k v, In (k, v) m -> k = eventKey v) /\ NoDup (map fst m).

(** The map holds the keys of the events seen so far, and only events seen
    so far. *)
Definition covers (done : list FilteredEvent) (m : EventMap) : Prop :=
  (forall e, In e done -> In (eventKey e) (map fst m))
  /\ (forall k v, In (k, v) m -> In v done).

(** [v], met in [done], beats every earlier event of its key strictly and is
    not beaten by any later one: it is the first of the latest events of its
    key. *)
Definition firstLatest (localTZA : Z -> Z) (done : list FilteredEvent)
    (v : FilteredEvent) : Prop :=
  exists l1 l2 t,
    done = l1 ++ v :: l2
    /\ instantOf localTZA v = Some t
    /\ (forall e, In e l1 -> eventKey e = eventKey v ->
          exists t', instantOf localTZA e = Some t' /\ (t' < t)%Z)
    /\ (forall e, In e l2 -> eventKey e = eventKey v ->
          exists t', instantOf localTZA e = Some t' /\ (t' <= t)%Z).

Definition latestKept (localTZA : Z -> Z) (done : list FilteredEvent)
    (m : EventMap) : Prop :=
  forall k v, In (k, v) m -> firstLatest localTZA done v.

(** A host for the examples: local time five hours behind UTC, and a clock
    that advances by one millisecond per reading. *)
Definition limaTZA : Z -> Z := fun _ => (-18000000)%Z.
Definition sampleClock : nat -> Z := fun n => (1753500000000 + Z.of_nat n)%Z.

Definition sampleMessage (ts : jsstring) : WhatsAppMessage :=
  {| timestamp := ts; sender := js "Ana"; content := []; rawMessage := [] |}.

(** An event of Friday 25/07/25 announced at the given timestamp. *)
Definition sampleEvent (ts : jsstring) (roster : list jsstring) : FilteredEvent :=
  {| eventName := js "Pichanga";
     eventDate := js "25/07/25";
     dayOfWeek := js "viernes";
     time := js "9:00";
     location := js "Potokar";
     players := roster;
     totalPlayers := length roster;
     messageTimestamp := ts;
     eventSender := js "Ana";
     originalMessage := sampleMessage ts |}.

(** **** Lines of an event message *)

(** The line names no event (no pichanga, no ipi) and starts, in any letter
    case, with the label. *)
Definition labelLine (label rawLine : jsstring) : bool :=
  let lower := toLowerCase (trim rawLine) in
  negb (includes lower (js "pichanga") || includes lower (js "ipi"))
  && startsWith lower label.

(** The text after a label of [n] units, trimmed. *)
Definition afterUnits (n : nat) (rawLine : jsstring) : jsstring :=
  trim (skipn n (trim rawLine)).

(** A roster entry as [parseEventFromMessage] stores it. *)
Definition rosterToken (p : jsstring) : Prop :=
  p <> [] /\ p <> js "-" /\ trim p = p.

(** Three Friday events with the rosters [A, B], [A , C] and [B]; the
    second spells A with a trailing space. *)
Definition fridayEvent (date : jsstring) (roster : list jsstring)
    : PlayerStatsAnalyzer.FilteredEvent :=
  {| PlayerStatsAnalyzer.eventName := js "Pichanga";
     PlayerStatsAnalyzer.eventDate := date;
     PlayerStatsAnalyzer.dayOfWeek := js "viernes";
     PlayerStatsAnalyzer.time := js "9:00";
     PlayerStatsAnalyzer.location := js "Potokar";
     PlayerStatsAnalyzer.players := roster;
     PlayerStatsAnalyzer.totalPlayers := length roster;
     PlayerStatsAnalyzer.messageTimestamp := date ++ js ", 9:00:00 a. m.";
     PlayerStatsAnalyzer.eventSender := js "Ana" |}.

Definition threeFridays : list PlayerStatsAnalyzer.FilteredEvent :=
  [ fridayEvent (js "11/07/25") [js "A"; js "B"];
    fridayEvent (js "18/07/25") [js "A "; js "C"];
    fridayEvent (js "25/07/25") [js "B"] ].

(** The same with a fourth Friday on which A and B play. *)
Definition fourFridays : list PlayerStatsAnalyzer.FilteredEvent :=
  threeFridays ++ [fridayEvent (js "01/08/25") [js "A"; js "B"]].

(** **** Message assembly, as the specification words it *)

Definition isBlank (rawLine : jsstring) : bool :=
  match trim rawLine with [] => true | _ :: _ => false end.

(** The line, trimmed, matches one of the two header patterns. *)
Definition isHeader (rawLine : jsstring) : bool :=
  match WhatsAppParser.messageMatch (trim rawLine) with
  | Some _ => true
  | None => false
  end.

(** The message that a header line starts. *)
Definition headerMessage (rawLine : jsstring) : WhatsAppMessage :=
  match WhatsAppParser.messageMatch (trim rawLine) with
  | Some caps => WhatsAppParser.startMessage caps (trim rawLine)
  | None => {| timestamp := []; sender := []; content := []; rawMessage := [] |}
  end.

(** The lines cut at the headers: the lines before the first header, then
    each header with the lines that follow it up to the next header.  Blank
    lines are left out. *)
Fixpoint segments (lines : list jsstring)
    : list jsstring * list (jsstring * list jsstring) :=
  match lines with
  | [] => ([], [])
  | l :: ls =>
    let '(lead, segs) := segments ls in
    if isBlank l then (lead, segs)
    else if isHeader l then ([], (l, lead) :: segs)
    else (l :: lead, segs)
  end.

(** The message of a header and its continuation lines. *)
Definition messageOf (seg : jsstring * list jsstring) : WhatsAppMessage :=
  fold_left (fun m l => WhatsAppParser.continueMessage m (trim l))
            (snd seg) (headerMessage (fst seg)).

(** The buffered message, extended by the lines before the next header. *)
Definition buffered (cur : option WhatsAppMessage) (lead : list jsstring)
    : list WhatsAppMessage :=
  match cur with
  | Some m =>
    [fold_left (fun m l => WhatsAppParser.continueMessage m (trim l)) lead m]
  | None => []
  end.

(** The text appended for continuation lines: each line, trimmed, after a
    line feed. *)
Definition continuation (lines : list jsstring) : jsstring :=
  concat (map (fun l => [10%N] ++ trim l) lines).

(** **** Matching *)

(** The pattern [r] can take the text [a] when [s] follows, recording the
    groups [groups]: whenever the rest of the match succeeds from there, the
    match of [r] followed by that rest succeeds with the same result. *)
Definition Matches (r : regex) (a s : jsstring) (groups : list jsstring)
    : Prop :=
  forall (R : Type) (pre : jsstring) (caps : list jsstring)
         (k : jsstring -> jsstring -> list jsstring -> option R) (res : R),
    k (rev a ++ pre) s (caps ++ groups) = Some res ->
    run r pre (a ++ s) caps k = Some res.

(** What a successful run of [r] took: after the consumed text [pre] (most
    recent unit first) it took [a], leaving [s], and recorded [groups]. *)
Inductive Takes
    : regex -> jsstring -> jsstring -> jsstring -> list jsstring -> Prop :=
| TakesEps (pre s : jsstring) : Takes Eps pre [] s []
| TakesClass (p : N -> bool) (c : N) (pre s : jsstring) :
    p c = true -> Takes (Class p) pre [c] s []
| TakesCat (r1 r2 : regex) (pre a1 a2 s : jsstring) (g1 g2 : list jsstring) :
    Takes r1 pre a1 (a2 ++ s) g1 ->
    Takes r2 (rev a1 ++ pre) a2 s g2 ->
    Takes (Cat r1 r2) pre (a1 ++ a2) s (g1 ++ g2)
| TakesRep (p : N -> bool) (lo : nat) (hi : option nat) (greedy : bool)
      (pre a s : jsstring) :
    Forall (fun c => p c = true) a ->
    lo <= length a ->
    match hi with Some h => length a <= h | None => True end ->
    Takes (Rep p lo hi greedy) pre a s []
| TakesGroup (r : regex) (pre a s : jsstring) (g : list jsstring) :
    Takes r pre a s g -> Takes (Group r) pre a s (g ++ [a])
| TakesBol (s : jsstring) : Takes Bol [] [] s []
| TakesEol (pre : jsstring) : Takes Eol pre [] [] [].

(** **** The shapes of a timestamp *)

(** Between [lo] and [hi] digits. *)
Definition digitRun (lo hi : nat) (s : jsstring) : Prop :=
  Forall (fun c => isDigit c = true) s /\ lo <= length s <= hi.

Definition whiteSpaceRun (s : jsstring) : Prop :=
  Forall (fun c => isWhiteSpace c = true) s.

(** [d/m/y] *)
Definition dateText (s : jsstring) : Prop :=
  exists D Mo Y,
    digitRun 1 2 D /\ digitRun 1 2 Mo /\ digitRun 2 4 Y
    /\ s = D ++ js "/" ++ Mo ++ js "/" ++ Y.

(** [h:mm:ss] *)
Definition timeSecondsText (s : jsstring) : Prop :=
  exists H MI S,
    digitRun 1 2 H /\ digitRun 2 2 MI /\ digitRun 2 2 S
    /\ s = H ++ js ":" ++ MI ++ js ":" ++ S.

(** [h:mm] *)
Definition timeMinutesText (s : jsstring) : Prop :=
  exists H MI,
    digitRun 1 2 H /\ digitRun 2 2 MI /\ s = H ++ js ":" ++ MI.

(** The meridiem: a or p, an optional dot, white space, m, an optional
    dot, in either letter case. *)
Definition periodText (s : jsstring) : Prop :=
  exists mer dot1 ws em dot2,
    In mer (js "apAP") /\ In dot1 [[]; js "."] /\ whiteSpaceRun ws
    /\ In em (js "mM") /\ In dot2 [[]; js "."]
    /\ s = [mer] ++ dot1 ++ ws ++ [em] ++ dot2.

(** The four shapes of a timestamp, each with the groups that
    [parseTimestamp] reads from it: date, time to the second and meridiem;
    date, time to the minute and meridiem; date and time to the second;
    the date alone. *)
Inductive timestampShape : jsstring -> list jsstring -> Prop :=
| ShapeSecondsPeriod (date ws1 time ws2 period : jsstring) :
    dateText date -> whiteSpaceRun ws1 -> timeSecondsText time ->
    whiteSpaceRun ws2 -> periodText period ->
    timestampShape (date ++ js "," ++ ws1 ++ time ++ ws2 ++ period)
                   [date; time; period]
| ShapeMinutesPeriod (date ws1 time ws2 period : jsstring) :
    dateText date -> whiteSpaceRun ws1 -> timeMinutesText time ->
    whiteSpaceRun ws2 -> periodText period ->
    timestampShape (date ++ js "," ++ ws1 ++ time ++ ws2 ++ period)
                   [date; time; period]
| ShapeSeconds (date ws1 time : jsstring) :
    dateText date -> whiteSpaceRun ws1 -> timeSecondsText time ->
    timestampShape (date ++ js "," ++ ws1 ++ time) [date; time]
| ShapeDate (date : jsstring) :
    dateText date -> timestampShape date [date].

(** The text has one of the four shapes. *)
Definition timestampShaped (s : jsstring) : Prop :=
  exists groups, timestampShape s groups.

(** The seeds of the groups: their first entries. *)
Definition seeds (groups : list (list FinalGrouping.Entry))
    : list FinalGrouping.Entry :=
  flat_map (firstn 1) groups.

(** A group: a seed followed by later entries similar to it. *)
Definition seeded (normalizeNFD : jsstring -> jsstring)
    (compareTwoStrings : jsstring -> jsstring -> Q)
    (g : list FinalGrouping.Entry) : Prop :=
  exists seed members,
    g = seed :: members
    /\ Forall (fun e => fst seed < fst e
                        /\ FinalGrouping.similar normalizeNFD compareTwoStrings
                             (snd seed) (snd e) = true) members.

(** The state of the outer loop of the clustering: the processed indices
    are those of the entries placed in groups, each once. *)
Definition clustered (normalizeNFD : jsstring -> jsstring)
    (compareTwoStrings : jsstring -> jsstring -> Q)
    (full : list FinalGrouping.Entry)
    (groups : list (list FinalGrouping.Entry)) (processed : list nat) : Prop :=
  NoDup processed
  /\ Permutation (map fst (concat groups)) processed
  /\ (forall e, In e (concat groups) -> In e full)
  /\ Forall (seeded normalizeNFD compareTwoStrings) groups.

(** Sum of a list of integers. *)
Definition sumZ (l : list Z) : Z := fold_right Z.add 0%Z l.

(** A sample ranking: two spellings of one player and a third player. *)
Definition samplePlayer (n : jsstring) (a : Z) (vs : list jsstring)
    : FinalGrouping.Player :=
  {| FinalGrouping.name := n;
     FinalGrouping.cleanName := n;
     FinalGrouping.attendance := a;
     FinalGrouping.events := Some [];
     FinalGrouping.variations := Some vs |}.

Definition sampleRanking : list FinalGrouping.Player :=
  [ samplePlayer (js "Jose Perez") 5 [js "Jose Perez"; js "jose perez"];
    samplePlayer (js "Ana") 4 [js "Ana"];
    samplePlayer (js "Jose Peres") 2 [js "Jose Peres"; js "Jose Perez"] ].

(** Stand-ins for the two library functions in the examples: texts without
    accents are their own decomposition, and two names count as similar when
    they agree on their first nine units. *)
Definition sampleNFD (s : jsstring) : jsstring := s.
Definition sampleCompare (a b : jsstring) : Q :=
  if eqb (firstn 9 a) (firstn 9 b) then 1%Q else 0%Q.

(** The letter-case variants of a text of Basic Latin letters. *)
Fixpoint caseVariants (s : jsstring) : list jsstring :=
  match s with
  | [] => [[]]
  | c :: s' =>
    flat_map (fun v => [c :: v; (c - 32)%N :: v]) (caseVariants s')
  end.

(** **** Order of first appearance *)

(** An event of Wednesday 30/07/25 announced at the given timestamp. *)
Definition wednesdayEvent (ts : jsstring) (roster : list jsstring)
    : FilteredEvent :=
  {| eventName := js "Pichanga";
     eventDate := js "30/07/25";
     dayOfWeek := js "miércoles";
     time := js "9:00";
     location := js "Potokar";
     players := roster;
     totalPlayers := length roster;
     messageTimestamp := ts;
     eventSender := js "Ana";
     originalMessage := sampleMessage ts |}.

(** The first occurrence of each text, in order. *)
Fixpoint firstOccurrences (xs : list jsstring) : list jsstring :=
  match xs with
  | [] => []
  | x :: xs' => x :: filter (fun y => negb (eqb y x)) (firstOccurrences xs')
  end.

(** **** Attendance *)

(** The roster entries of the events, each with the key of its event, in
    the order in which the two loops of [processPlayers] visit them. *)
Definition occurrences (events : list PlayerStatsAnalyzer.FilteredEvent)
    : list (jsstring * jsstring) :=
  flat_map (fun e => map (fun t => (PlayerStatsAnalyzer.eventKey e, t))
                         (PlayerStatsAnalyzer.players e)) events.

(** The name under which a roster entry is counted, if it is counted. *)
Definition countedAs (aliases : list (jsstring * jsstring))
    (playerName : jsstring) : option jsstring :=
  if PlayerStatsAnalyzer.skipped playerName then None
  else match PlayerStatsAnalyzer.normalizePlayerName aliases
               (PlayerStatsAnalyzer.cleanPlayerName playerName) with
       | [] => None
       | c :: n => Some (c :: n)
       end.

(** The entry is counted for the player [n]. *)
Definition countsFor (aliases : list (jsstring * jsstring)) (n : jsstring)
    (kt : jsstring * jsstring) : bool :=
  match countedAs aliases (snd kt) with
  | Some m => eqb m n
  | None => false
  end.

(** The names of the counted entries, in order. *)
Fixpoint countedNames (aliases : list (jsstring * jsstring))
    (l : list (jsstring * jsstring)) : list jsstring :=
  match l with
  | [] => []
  | kt :: l' =>
    match countedAs aliases (snd kt) with
    | Some n => n :: countedNames aliases l'
    | None => countedNames aliases l'
    end
  end.

(** The record of the player [n] after the entries [occ] counted for it:
    one attendance per entry, the keys of their events and their trimmed
    spellings, each once, in order of first appearance. *)
Definition statsFrom (n : jsstring) (occ : list (jsstring * jsstring))
    : option PlayerStatsAnalyzer.PlayerStats :=
  match occ with
  | [] => None
  | _ :: _ =>
    Some {| PlayerStatsAnalyzer.name := n;
            PlayerStatsAnalyzer.cleanName := n;
            PlayerStatsAnalyzer.attendance := Z.of_nat (length occ);
            PlayerStatsAnalyzer.events := firstOccurrences (map fst occ);
            PlayerStatsAnalyzer.variations :=
              firstOccurrences (map (fun kt => trim (snd kt)) occ) |}
  end.

(** One step of the two loops of [processPlayers], on an entry with the key
    of its event. *)
Definition record (aliases : list (jsstring * jsstring))
    (m : PlayerStatsAnalyzer.PlayerMap) (kt : jsstring * jsstring)
    : PlayerStatsAnalyzer.PlayerMap :=
  PlayerStatsAnalyzer.processPlayer aliases (fst kt) m (snd kt).

(** The attendances of the records of the map. *)
Definition attendances (m : PlayerStatsAnalyzer.PlayerMap) : list Z :=
  map (fun kp => PlayerStatsAnalyzer.attendance (snd kp)) m.

(** **** Clustering, first fit *)

(** No entry of a group resembles the seed of an earlier group. *)
Definition firstFit (normalizeNFD : jsstring -> jsstring)
    (compareTwoStrings : jsstring -> jsstring -> Q)
    (groups : list (list FinalGrouping.Entry)) : Prop :=
  forall G1 g G2 s e,
    groups = G1 ++ g :: G2 -> In s (seeds G1) -> In e g ->
    FinalGrouping.similar normalizeNFD compareTwoStrings (snd s) (snd e)
    = false.

(** Every later entry that resembles a seed has been placed in a group. *)
Definition absorbed (normalizeNFD : jsstring -> jsstring)
    (compareTwoStrings : jsstring -> jsstring -> Q)
    (full : list FinalGrouping.Entry)
    (groups : list (list FinalGrouping.Entry)) (processed : list nat) : Prop :=
  forall s e,
    In s (seeds groups) -> In e full -> fst s < fst e ->
    FinalGrouping.similar normalizeNFD compareTwoStrings (snd s) (snd e)
    = true ->
    In (fst e) processed.

(** **** Keys of the frequency object *)

(** The names that every object inherits from [Object.prototype]. *)
Definition inheritedNames : list jsstring :=
  [ js "constructor"; js "__proto__"; js "toString"; js "toLocaleString";
    js "valueOf"; js "hasOwnProperty"; js "isPrototypeOf";
    js "propertyIsEnumerable"; js "__defineGetter__"; js "__defineSetter__";
    js "__lookupGetter__"; js "__lookupSetter__" ].

(** A key that the frequency object counts in order of arrival: neither an
    array index, which [Object.keys] moves to the front, nor a name
    inherited from [Object.prototype], whose first count starts from the
    inherited value. *)
Definition ordinaryKey (k : jsstring) : Prop :=
  FinalGrouping.V5.arrayIndex k = None /\ ~ In k inheritedNames.

(** The same as a test. *)
Definition isInherited (k : jsstring) : bool :=
  existsb (eqb k) inheritedNames.

Definition isOrdinaryKey (k : jsstring) : bool :=
  match FinalGrouping.V5.arrayIndex k with
  | Some _ => false
  | None => negb (isInherited k)
  end.

(** How often the text occurs in the list. *)
Definition occurrencesIn (k : jsstring) (vs : list jsstring) : Z :=
  Z.of_nat (length (filter (eqb k) vs)).

(** The count under a key of the frequency object, 0 when there is none. *)
Definition countOf (f : FinalGrouping.V5.Frequency) (k : jsstring) : Z :=
  match FinalGrouping.V5.count f k with
  | Some (FinalGrouping.V5.Times n) => n
  | _ => 0%Z
  end.

(** The frequency object holds counts only, no text. *)
Definition countsOnly (f : FinalGrouping.V5.Frequency) : Prop :=
  Forall (fun kv => exists n, snd kv = FinalGrouping.V5.Times n) f.

(** A stand-in for the source text of the built-in functions in the
    examples. *)
Definition sampleSource (name : jsstring) : jsstring :=
  js "function " ++ name ++ js "() { [native code] }".

(** Two of the players of [sampleRanking], as a group. *)
Definition sampleGroup : list FinalGrouping.Player :=
  [ samplePlayer (js "Jose Perez") 5 [js "Jose Perez"; js "jose perez"];
    samplePlayer (js "Jose Peres") 2 [js "Jose Peres"; js "Jose Perez"] ].

(** **** Reading a CSV field *)

(** The rest of a quoted field, after its opening mark: up to the first
    quotation mark that is not doubled; a doubled mark stands for one. *)
Fixpoint readQuoted (s : jsstring) : option (jsstring * jsstring) :=
  match s with
  | [] => None
  | c :: s' =>
    if N.eqb c 34 then
      match s' with
      | c' :: s'' =>
        if N.eqb c' 34
        then match readQuoted s'' with
             | Some (f, r) => Some (34%N :: f, r)
             | None => None
             end
        else Some ([], s')
      | [] => Some ([], [])
      end
    else match readQuoted s' with
         | Some (f, r) => Some (c :: f, r)
         | None => None
         end
  end.

(** A field without quotation: up to the next comma or line feed. *)
Fixpoint readBare (s : jsstring) : jsstring * jsstring :=
  match s with
  | [] => ([], [])
  | c :: s' =>
    if N.eqb c 44 || N.eqb c 10 then ([], s)
    else let '(f, r) := readBare s' in (c :: f, r)
  end.

(** The field at the start of the text and what follows it. *)
Definition readField (s : jsstring) : option (jsstring * jsstring) :=
  match s with
  | c :: s' => if N.eqb c 34 then readQuoted s' else Some (readBare s)
  | [] => Some ([], [])
  end.

(** **** Rankings *)

(** Descending order of attendance. *)
Definition descending (A : Type) (key : A -> Z) (l : list A) : Prop :=
  StronglySorted (fun a b => (key b <= key a)%Z) l.

(** The elements with the key [n], in their order in the list. *)
Definition withKey (A : Type) (key : A -> Z) (n : Z) (l : list A) : list A :=
  filter (fun a => (key a =? n)%Z) l.

End Vocabulary.


Unset Implicit Arguments.

(* ===================================================================== *)
(** * Properties of the string operations *)
(* ===================================================================== *)

Module StringFacts.

Lemma eqb_refl (s : jsstring) : eqb s s = true.
Proof.
  induction s as [|c s IH]; simpl; [reflexivity|].
  now rewrite N.eqb_refl, IH.
Qed.

Lemma eqb_eq (a b : jsstring) : eqb a b = true <-> a = b.
Proof.
  split.
  - revert b; induction a as [|x a IH]; intros [|y b]; simpl; try discriminate.
    + reflexivity.
    + intros H. apply andb_true_iff in H as [Hx Hab].
      apply N.eqb_eq in Hx. f_equal; [assumption | now apply IH].
  - intros ->. apply eqb_refl.
Qed.

Lemma eqb_neq (a b : jsstring) : eqb a b = false <-> a <> b.
Proof.
  split.
  - intros H Heq. apply eqb_eq in Heq. congruence.
  - intros H. destruct (eqb a b) eqn:E; [|reflexivity].
    apply eqb_eq in E. contradiction.
Qed.

Lemma eqb_sym (a b : jsstring) : eqb a b = eqb b a.
Proof.
  destruct (eqb a b) eqn:E.
  - apply eqb_eq in E. subst. symmetry. apply eqb_refl.
  - symmetry. apply eqb_neq. apply eqb_neq in E. congruence.
Qed.

End StringFacts.

Import StringFacts.

(* ===================================================================== *)
(** * MessageFilter: the event map *)
(* ===================================================================== *)

Module EventMapFacts.

Import MessageFilter.

Lemma mapGet_None (m : EventMap) (k : jsstring) :
  mapGet m k = None <-> ~ In k (map fst m).
Proof.
  induction m as [|[k' v] m IH]; simpl.
  - tauto.
  - destruct (eqb k' k) eqn:E.
    + apply eqb_eq in E. split; [discriminate | tauto].
    + apply eqb_neq in E. rewrite IH. tauto.
Qed.

Lemma mapGet_Some_In (m : EventMap) (k : jsstring) (v : FilteredEvent) :
  mapGet m k = Some v -> In (k, v) m.
Proof.
  induction m as [|[k' v'] m IH]; simpl; [discriminate|].
  destruct (eqb k' k) eqn:E.
  - apply eqb_eq in E. intros [= ->]. left. now subst.
  - intros H. right. now apply IH.
Qed.

Lemma In_mapGet (m : EventMap) (k : jsstring) (v : FilteredEvent) :
  NoDup (map fst m) -> In (k, v) m -> mapGet m k = Some v.
Proof.
  induction m as [|[k' v'] m IH]; simpl; [tauto|].
  intros Hnd [H|H].
  - inversion H; subst. now rewrite eqb_refl.
  - inversion Hnd as [|? ? Hnot Hnd']; subst.
    destruct (eqb k' k) eqn:E.
    + apply eqb_eq in E. subst. exfalso. apply Hnot.
      change k with (fst (k, v)). now apply in_map.
    + now apply IH.
Qed.

Lemma mapSet_fresh (m : EventMap) (k : jsstring) (v : FilteredEvent) :
  mapGet m k = None -> mapSet m k v = m ++ [(k, v)].
Proof.
  induction m as [|[k' v'] m IH]; simpl; [reflexivity|].
  destruct (eqb k' k) eqn:E; [discriminate|].
  intros H. now rewrite IH.
Qed.

Lemma mapSet_keys (m : EventMap) (k : jsstring) (v v0 : FilteredEvent) :
  mapGet m k = Some v0 -> map fst (mapSet m k v) = map fst m.
Proof.
  induction m as [|[k' v'] m IH]; simpl; [discriminate|].
  destruct (eqb k' k) eqn:E; simpl; [reflexivity|].
  intros H. now rewrite IH.
Qed.

Lemma mapSet_In_NoDup (m : EventMap) (k : jsstring) (v : FilteredEvent)
    (k' : jsstring) (v' : FilteredEvent) :
  NoDup (map fst m) ->
  In (k', v') (mapSet m k v) ->
  (k' = k /\ v' = v) \/ (k' <> k /\ In (k', v') m).
Proof.
  induction m as [|[k0 v0] m IH]; simpl.
  - intros _ [H|[]]. inversion H. now left.
  - intros Hnd. inversion Hnd as [|? ? Hnot Hnd']; subst.
    destruct (eqb k0 k) eqn:E.
    + apply eqb_eq in E. subst k0. intros [H|H].
      * inversion H. now left.
      * right. split; [|now right].
        intros ->. apply Hnot. change k with (fst (k, v')). now apply in_map.
    + apply eqb_neq in E. intros [H|H].
      * inversion H; subst. right. split; [assumption | now left].
      * destruct (IH Hnd' H) as [?|[? ?]]; [now left | right; split; auto].
Qed.

Lemma In_mapSet_other (m : EventMap) (k : jsstring) (v : FilteredEvent)
    (k' : jsstring) (v' : FilteredEvent) :
  k' <> k -> In (k', v') m -> In (k', v') (mapSet m k v).
Proof.
  intros Hne. induction m as [|[k0 v0] m IH]; simpl; [tauto|].
  destruct (eqb k0 k) eqn:E.
  - apply eqb_eq in E. subst k0. intros [H|H].
    + inversion H. congruence.
    + now right.
  - intros [H|H]; [now left | right; now apply IH].
Qed.

Lemma mapGet_mapSet_same (m : EventMap) (k : jsstring) (v : FilteredEvent) :
  mapGet (mapSet m k v) k = Some v.
Proof.
  induction m as [|[k0 v0] m IH]; simpl.
  - now rewrite eqb_refl.
  - destruct (eqb k0 k) eqn:E; simpl; rewrite E; [reflexivity | assumption].
Qed.

Lemma mapGet_mapSet_other (m : EventMap) (k k' : jsstring) (v : FilteredEvent) :
  k' <> k -> mapGet (mapSet m k v) k' = mapGet m k'.
Proof.
  intros Hne. induction m as [|[k0 v0] m IH]; simpl.
  - destruct (eqb k k') eqn:E; [|reflexivity].
    apply eqb_eq in E. congruence.
  - destruct (eqb k0 k) eqn:E; simpl.
    + apply eqb_eq in E. subst k0.
      destruct (eqb k k') eqn:E'; [|reflexivity].
      apply eqb_eq in E'. congruence.
    + destruct (eqb k0 k'); [reflexivity | assumption].
Qed.

End EventMapFacts.


(* ===================================================================== *)
(** * MessageFilter: parseTimestamp and removeDuplicates *)
(* ===================================================================== *)

Module DedupFacts.

Import MessageFilter Vocabulary EventMapFacts.

Section Hosted.

Variable localTZA : Z -> Z.
Variable clock : nat -> Z.

Local Abbreviation parseTimestamp := (parseTimestamp localTZA clock).
Local Abbreviation dedupStep := (dedupStep localTZA clock).
Local Abbreviation dedupLoop := (dedupLoop localTZA clock).
Local Abbreviation removeDuplicates := (removeDuplicates localTZA clock).
Local Abbreviation instantOf := (instantOf localTZA).
Local Abbreviation firstLatest := (firstLatest localTZA).
Local Abbreviation latestKept := (latestKept localTZA).

Lemma parseTimestamp_recognised (ts : jsstring) (a : DateArgs) (w : World) :
  matchedDateArgs ts = Some a ->
  parseTimestamp ts w = (newDate localTZA a, w).
Proof. intros H. unfold MessageFilter.parseTimestamp. now rewrite H. Qed.

Lemma parseTimestamp_fallback (ts : jsstring) (w : World) :
  matchedDateArgs ts = None ->
  parseTimestamp ts w =
    (Some (clock (ticks w)),
     {| ticks := S (ticks w);
        console := console w ++ [unrecognisedWarning ts] |}).
Proof. intros H. unfold MessageFilter.parseTimestamp. now rewrite H. Qed.

Lemma parseTimestamp_valid (e : FilteredEvent) (t : Z) (w : World) :
  instantOf e = Some t ->
  parseTimestamp (messageTimestamp e) w = (Some t, w).
Proof.
  unfold Vocabulary.instantOf. intros H.
  destruct (matchedDateArgs (messageTimestamp e)) as [a|] eqn:E; [|discriminate].
  rewrite (parseTimestamp_recognised _ _ w E). now rewrite H.
Qed.

(** *** One step of the loop *)

Lemma dedupStep_fresh (m : EventMap) (e : FilteredEvent) (w : World) :
  mapGet m (eventKey e) = None ->
  dedupStep m e w = (m ++ [(eventKey e, e)], w).
Proof.
  intros H. unfold MessageFilter.dedupStep. rewrite H. unfold ret.
  now rewrite mapSet_fresh.
Qed.

Lemma dedupStep_present (m : EventMap) (e old : FilteredEvent) (w : World) :
  mapGet m (eventKey e) = Some old ->
  exists w', (dedupStep m e w = (m, w')
              \/ dedupStep m e w = (mapSet m (eventKey e) e, w')).
Proof.
  intros H. unfold MessageFilter.dedupStep. rewrite H. unfold bind.
  destruct (parseTimestamp (messageTimestamp e) w) as [t2 w1].
  destruct (parseTimestamp (messageTimestamp old) w1) as [t1 w2].
  destruct (dateGt t2 t1).
  - eexists. right. reflexivity.
  - eexists. left. reflexivity.
Qed.

Lemma dedupStep_valid (m : EventMap) (e old : FilteredEvent) (te to_ : Z)
    (w : World) :
  mapGet m (eventKey e) = Some old ->
  instantOf e = Some te -> instantOf old = Some to_ ->
  exists w',
    dedupStep m e w =
      ((if (to_ <? te)%Z then mapSet m (eventKey e) e else m), w').
Proof.
  intros H He Ho. unfold MessageFilter.dedupStep. rewrite H. unfold bind.
  rewrite (parseTimestamp_valid _ _ w He), (parseTimestamp_valid _ _ w Ho).
  simpl. destruct (to_ <? te)%Z; eexists; reflexivity.
Qed.

(** *** Well-formed maps: every entry sits under the key of its event and
        no key occurs twice. *)

Lemma wellKeyed_nil : wellKeyed [].
Proof. split; [intros ? ? [] | constructor]. Qed.

Lemma wellKeyed_fresh (m : EventMap) (e : FilteredEvent) :
  wellKeyed m -> mapGet m (eventKey e) = None ->
  wellKeyed (m ++ [(eventKey e, e)]).
Proof.
  intros [Hk Hnd] Hnone. split.
  - intros k v Hin. apply in_app_or in Hin as [Hin|[Hin|[]]].
    + now apply Hk.
    + now inversion Hin.
  - rewrite map_app. simpl.
    apply mapGet_None in Hnone. apply NoDup_app.
    + assumption.
    + constructor; [intros [] | constructor].
    + intros a Ha [<-|[]]. contradiction.
Qed.

Lemma wellKeyed_set (m : EventMap) (e old : FilteredEvent) :
  wellKeyed m -> mapGet m (eventKey e) = Some old ->
  wellKeyed (mapSet m (eventKey e) e).
Proof.
  intros [Hk Hnd] Hsome. split.
  - intros k v Hin.
    destruct (mapSet_In_NoDup _ _ _ _ _ Hnd Hin) as [[-> ->]|[_ Hin']].
    + reflexivity.
    + now apply Hk.
  - now rewrite (mapSet_keys _ _ e _ Hsome).
Qed.

Lemma dedupStep_wellKeyed (m : EventMap) (e : FilteredEvent) (w : World) :
  wellKeyed m -> wellKeyed (fst (dedupStep m e w)).
Proof.
  intros Hwk. destruct (mapGet m (eventKey e)) as [old|] eqn:E.
  - destruct (dedupStep_present _ _ _ w E) as [w' [H|H]]; rewrite H; simpl.
    + assumption.
    + now apply (wellKeyed_set _ _ old).
  - rewrite (dedupStep_fresh _ _ w E). simpl. now apply wellKeyed_fresh.
Qed.

Lemma dedupLoop_wellKeyed (events : list FilteredEvent) (m : EventMap)
    (w : World) :
  wellKeyed m -> wellKeyed (fst (dedupLoop events m w)).
Proof.
  revert m w. induction events as [|e events IH]; intros m w Hwk; simpl.
  - assumption.
  - unfold bind. pose proof (dedupStep_wellKeyed _ e w Hwk) as Hs.
    destruct (dedupStep m e w) as [m' w']. simpl in Hs. now apply IH.
Qed.

Lemma wellKeyed_values (m : EventMap) :
  wellKeyed m -> map eventKey (mapValues m) = map fst m.
Proof.
  intros [Hk _]. unfold mapValues. rewrite map_map.
  apply map_ext_in. intros [k v] Hin. simpl. symmetry. now apply Hk.
Qed.

Lemma removeDuplicates_values (events : list FilteredEvent) (w : World) :
  fst (removeDuplicates events w) = mapValues (fst (dedupLoop events [] w)).
Proof.
  unfold MessageFilter.removeDuplicates, bind, ret.
  now destruct (dedupLoop events [] w).
Qed.

(** At most one event per key in the result. *)
Lemma removeDuplicates_NoDup (events : list FilteredEvent) (w : World) :
  NoDup (map eventKey (fst (removeDuplicates events w))).
Proof.
  rewrite removeDuplicates_values.
  pose proof (dedupLoop_wellKeyed events _ w wellKeyed_nil) as Hwk.
  rewrite (wellKeyed_values _ Hwk). apply Hwk.
Qed.

(** *** Every key of the input keeps an event, and every event of the result
        is one of the input. *)

Lemma dedupStep_covers (done : list FilteredEvent) (m : EventMap)
    (e : FilteredEvent) (w : World) :
  wellKeyed m -> covers done m ->
  covers (done ++ [e]) (fst (dedupStep m e w)).
Proof.
  intros [Hk Hnd] [Hc1 Hc2].
  destruct (mapGet m (eventKey e)) as [old|] eqn:E.
  - destruct (dedupStep_present _ _ _ w E) as [w' [H|H]]; rewrite H; simpl.
    + split.
      * intros x Hx. apply in_app_or in Hx as [Hx|[<-|[]]]; [now apply Hc1|].
        apply mapGet_Some_In in E. change (eventKey e) with (fst (eventKey e, old)).
        now apply in_map.
      * intros k v Hin. apply in_or_app. left. now apply Hc2 with k.
    + split.
      * intros x Hx. rewrite (mapSet_keys _ _ e _ E).
        apply in_app_or in Hx as [Hx|[<-|[]]]; [now apply Hc1|].
        apply mapGet_Some_In in E. change (eventKey e) with (fst (eventKey e, old)).
        now apply in_map.
      * intros k v Hin. apply in_or_app.
        destruct (mapSet_In_NoDup _ _ _ _ _ Hnd Hin) as [[-> ->]|[_ Hin']].
        -- right. now left.
        -- left. now apply Hc2 with k.
  - rewrite (dedupStep_fresh _ _ w E). simpl. split.
    + intros x Hx. rewrite map_app. apply in_or_app.
      apply in_app_or in Hx as [Hx|[<-|[]]]; [left; now apply Hc1|].
      right. now left.
    + intros k v Hin. apply in_or_app.
      apply in_app_or in Hin as [Hin|[Hin|[]]].
      * left. now apply Hc2 with k.
      * inversion Hin. right. now left.
Qed.

Lemma dedupLoop_covers (events done : list FilteredEvent) (m : EventMap)
    (w : World) :
  wellKeyed m -> covers done m ->
  covers (done ++ events) (fst (dedupLoop events m w)).
Proof.
  revert done m w. induction events as [|e events IH]; intros done m w Hwk Hc.
  - simpl. now rewrite app_nil_r.
  - simpl. unfold bind.
    pose proof (dedupStep_wellKeyed _ e w Hwk) as Hs.
    pose proof (dedupStep_covers _ _ e w Hwk Hc) as Hc'.
    destruct (dedupStep m e w) as [m' w']. simpl in Hs, Hc'.
    replace (done ++ e :: events) with ((done ++ [e]) ++ events)
      by (now rewrite <- app_assoc).
    now apply IH.
Qed.

Lemma removeDuplicates_keeps_keys (events : list FilteredEvent) (w : World)
    (e : FilteredEvent) :
  In e events ->
  exists e', In e' (fst (removeDuplicates events w))
             /\ eventKey e' = eventKey e.
Proof.
  intros Hin. rewrite removeDuplicates_values.
  pose proof (dedupLoop_wellKeyed events _ w wellKeyed_nil) as Hwk.
  assert (Hc0 : covers [] []) by (split; [intros ? [] | intros ? ? []]).
  pose proof (dedupLoop_covers events _ _ w wellKeyed_nil Hc0) as [Hc _].
  simpl in Hc. specialize (Hc e Hin).
  apply in_map_iff in Hc as [[k v] [Hk Hkv]]. simpl in Hk. subst k.
  exists v. split.
  - unfold mapValues. change v with (snd (eventKey e, v)). now apply in_map.
  - symmetry. now apply (proj1 Hwk).
Qed.

Lemma removeDuplicates_subset (events : list FilteredEvent) (w : World)
    (o : FilteredEvent) :
  In o (fst (removeDuplicates events w)) -> In o events.
Proof.
  rewrite removeDuplicates_values. intros Hin.
  assert (Hc0 : covers [] []) by (split; [intros ? [] | intros ? ? []]).
  pose proof (dedupLoop_covers events _ _ w wellKeyed_nil Hc0) as [_ Hc].
  simpl in Hc. unfold mapValues in Hin.
  apply in_map_iff in Hin as [[k v] [<- Hkv]]. simpl. now apply Hc with k.
Qed.

(** *** With every timestamp recognised: the event kept under a key is the
        first of the latest ones. *)

Lemma firstLatest_later (done : list FilteredEvent) (v e : FilteredEvent) :
  firstLatest done v ->
  (eventKey e = eventKey v ->
     exists te t, instantOf e = Some te /\ instantOf v = Some t /\ (te <= t)%Z) ->
  firstLatest (done ++ [e]) v.
Proof.
  intros (l1 & l2 & t & -> & Ht & H1 & H2) He.
  exists l1, (l2 ++ [e]), t. repeat split; try assumption.
  - now rewrite <- app_assoc.
  - intros x Hx Hkey. apply in_app_or in Hx as [Hx|[<-|[]]]; [now apply H2|].
    destruct (He Hkey) as (te & t0 & Hte & Ht0 & Hle).
    exists te. split; [assumption|]. congruence.
Qed.

Lemma firstLatest_replace (done : list FilteredEvent) (old e : FilteredEvent)
    (te : Z) :
  firstLatest done old -> eventKey old = eventKey e ->
  instantOf e = Some te ->
  (forall t, instantOf old = Some t -> (t < te)%Z) ->
  firstLatest (done ++ [e]) e.
Proof.
  intros (l1 & l2 & t & -> & Ht & H1 & H2) Hkey Hte Hlt.
  specialize (Hlt t Ht).
  exists (l1 ++ old :: l2), [], te. repeat split; try assumption.
  - intros x Hx Hkx. rewrite <- Hkey in Hkx.
    apply in_app_or in Hx as [Hx|[<-|Hx]].
    + destruct (H1 x Hx Hkx) as (t' & Ht' & Hl). exists t'. split; [assumption|lia].
    + exists t. split; [assumption|lia].
    + destruct (H2 x Hx Hkx) as (t' & Ht' & Hl). exists t'. split; [assumption|lia].
  - intros x [].
Qed.

Lemma dedupStep_latestKept (done : list FilteredEvent) (m : EventMap)
    (e : FilteredEvent) (te : Z) (w : World) :
  wellKeyed m -> covers done m -> latestKept done m ->
  instantOf e = Some te ->
  latestKept (done ++ [e]) (fst (dedupStep m e w)).
Proof.
  intros [Hk Hnd] [Hc1 Hc2] Hl Hte.
  destruct (mapGet m (eventKey e)) as [old|] eqn:E.
  - (* the key is present *)
    pose proof (mapGet_Some_In _ _ _ E) as Hold.
    pose proof (Hk _ _ Hold) as Hkold.
    destruct (Hl _ _ Hold) as (l1 & l2 & to_ & Hdone & Hto & H1 & H2).
    destruct (dedupStep_valid _ _ _ _ _ w E Hte Hto) as [w' Hstep].
    rewrite Hstep. simpl.
    destruct (to_ <? te)%Z eqn:Hcmp.
    + apply Z.ltb_lt in Hcmp. intros k v Hin.
      destruct (mapSet_In_NoDup _ _ _ _ _ Hnd Hin) as [[-> ->]|[Hne Hin']].
      * apply (firstLatest_replace _ old _ te); try congruence.
        now apply Hl with (eventKey e).
      * apply firstLatest_later; [now apply Hl with k|].
        intros Hkey. exfalso. apply Hne. rewrite (Hk _ _ Hin'). congruence.
    + apply Z.ltb_ge in Hcmp. intros k v Hin.
      apply firstLatest_later; [now apply Hl with k|].
      intros Hkey. exists te, to_. split; [assumption|]. split; [|assumption].
      assert (v = old) as ->; [|assumption].
      assert (Hkv : k = eventKey e) by (rewrite (Hk _ _ Hin); congruence).
      subst k. pose proof (In_mapGet _ _ _ Hnd Hin). congruence.
  - (* a new key *)
    rewrite (dedupStep_fresh _ _ w E). simpl.
    apply mapGet_None in E. intros k v Hin.
    apply in_app_or in Hin as [Hin|[Hin|[]]].
    + apply firstLatest_later; [now apply Hl with k|].
      intros Hkey. exfalso. apply E. rewrite Hkey, <- (Hk _ _ Hin).
      change k with (fst (k, v)). now apply in_map.
    + inversion Hin; subst. exists done, [], te. repeat split; trivial.
      * intros x Hx Hkx. exfalso. apply E. rewrite <- Hkx. now apply Hc1.
      * intros x [].
Qed.

Lemma dedupLoop_latestKept (events done : list FilteredEvent) (m : EventMap)
    (w : World) :
  wellKeyed m -> covers done m -> latestKept done m ->
  (forall e, In e events -> exists t, instantOf e = Some t) ->
  latestKept (done ++ events) (fst (dedupLoop events m w)).
Proof.
  revert done m w.
  induction events as [|e events IH]; intros done m w Hwk Hc Hl Hv.
  - simpl. now rewrite app_nil_r.
  - simpl. unfold bind.
    destruct (Hv e (or_introl eq_refl)) as [te Hte].
    pose proof (dedupStep_wellKeyed _ e w Hwk) as Hs.
    pose proof (dedupStep_covers _ _ e w Hwk Hc) as Hc'.
    pose proof (dedupStep_latestKept _ _ e te w Hwk Hc Hl Hte) as Hl'.
    destruct (dedupStep m e w) as [m' w']. simpl in Hs, Hc', Hl'.
    replace (done ++ e :: events) with ((done ++ [e]) ++ events)
      by (now rewrite <- app_assoc).
    apply IH; try assumption.
    intros x Hx. apply Hv. now right.
Qed.

Lemma removeDuplicates_firstLatest (events : list FilteredEvent) (w : World)
    (o : FilteredEvent) :
  (forall e, In e events -> exists t, instantOf e = Some t) ->
  In o (fst (removeDuplicates events w)) -> firstLatest events o.
Proof.
  intros Hv. rewrite removeDuplicates_values. intros Hin.
  assert (Hc0 : covers [] []) by (split; [intros ? [] | intros ? ? []]).
  assert (Hl0 : latestKept [] []) by (intros ? ? []).
  pose proof (dedupLoop_latestKept events _ _ w wellKeyed_nil Hc0 Hl0 Hv) as Hl.
  simpl in Hl. unfold mapValues in Hin.
  apply in_map_iff in Hin as [[k v] [<- Hkv]]. simpl. now apply Hl with k.
Qed.

(** *** Two events of one key *)

Lemma removeDuplicates_pair (e1 e2 : FilteredEvent) (w : World) :
  eventKey e1 = eventKey e2 ->
  fst (removeDuplicates [e1; e2] w) =
    [ if dateGt (fst (parseTimestamp (messageTimestamp e2) w))
                (fst (parseTimestamp (messageTimestamp e1)
                        (snd (parseTimestamp (messageTimestamp e2) w))))
      then e2 else e1 ].
Proof.
  intros Hkey. rewrite removeDuplicates_values.
  simpl MessageFilter.dedupLoop. unfold bind at 1.
  rewrite (dedupStep_fresh [] e1 w eq_refl). simpl app.
  unfold bind at 1. unfold MessageFilter.dedupStep. cbn [mapGet mapSet].
  rewrite Hkey, eqb_refl. unfold bind.
  destruct (parseTimestamp (messageTimestamp e2) w) as [t2 w1]. simpl.
  destruct (parseTimestamp (messageTimestamp e1) w1) as [t1 w2]. simpl.
  destruct (dateGt t2 t1); reflexivity.
Qed.

Lemma pairKey_eventKey (e1 e2 : FilteredEvent) :
  pairKey e1 = pairKey e2 -> eventKey e1 = eventKey e2.
Proof.
  unfold pairKey, eventKey. intros H. inversion H as [[Hd Ht]].
  now rewrite Hd, Ht.
Qed.

(** A recognised timestamp whose Date is invalid. *)
Lemma parseTimestamp_invalid (e : FilteredEvent) (w : World) :
  ~ unrecognised e -> instantOf e = None ->
  parseTimestamp (messageTimestamp e) w = (None, w).
Proof.
  unfold unrecognised, Vocabulary.instantOf. intros Hr H.
  destruct (matchedDateArgs (messageTimestamp e)) as [a|] eqn:E;
    [|contradiction].
  rewrite (parseTimestamp_recognised _ _ w E). now rewrite H.
Qed.

(** C1 (as amended).  Deduplication by key.  Two events with the same (day, date) key
    leave one event.  With both timestamps recognised it is the second when
    its instant is strictly greater and the first otherwise, so also on
    equal instants.  A timestamp that matches no format does not make the
    comparison fail: [parseTimestamp] answers the reading of the clock for
    it, and the event is ranked by that reading.  An unrecognised second
    event therefore replaces a recognised first one whose instant lies
    before the reading of the clock; an unrecognised first event gives way
    only to a second whose instant lies after it; and of two unrecognised
    events the first is kept unless the clock runs backwards between the two
    readings.  Only a recognised timestamp whose Date is invalid cannot be
    compared, and then the first event is kept.  The result never holds two
    events of one key, and with recognised timestamps the event kept for a
    key is the first of the latest events of that key. *)
Theorem removeDuplicates_keeps_latest :
  (forall (w : World) (e1 e2 : FilteredEvent) (t1 t2 : Z),
      pairKey e1 = pairKey e2 ->
      instantOf e1 = Some t1 -> instantOf e2 = Some t2 ->
      fst (removeDuplicates [e1; e2] w) = [if (t1 <? t2)%Z then e2 else e1])
  /\ (forall (w : World) (e1 e2 : FilteredEvent) (t1 : Z),
      pairKey e1 = pairKey e2 ->
      instantOf e1 = Some t1 -> unrecognised e2 ->
      fst (removeDuplicates [e1; e2] w)
      = [if (t1 <? clock (ticks w))%Z then e2 else e1])
  /\ (forall (w : World) (e1 e2 : FilteredEvent) (t2 : Z),
      pairKey e1 = pairKey e2 ->
      unrecognised e1 -> instantOf e2 = Some t2 ->
      fst (removeDuplicates [e1; e2] w)
      = [if (clock (ticks w) <? t2)%Z then e2 else e1])
  /\ (forall (w : World) (e1 e2 : FilteredEvent),
      pairKey e1 = pairKey e2 ->
      unrecognised e1 -> unrecognised e2 ->
      fst (removeDuplicates [e1; e2] w)
      = [if (clock (S (ticks w)) <? clock (ticks w))%Z then e2 else e1])
  /\ (forall (w : World) (e1 e2 : FilteredEvent),
      pairKey e1 = pairKey e2 ->
      (~ unrecognised e1 /\ instantOf e1 = None)
      \/ (~ unrecognised e2 /\ instantOf e2 = None) ->
      fst (removeDuplicates [e1; e2] w) = [e1])
  /\ (forall (w : World) (events : list FilteredEvent),
      NoDup (map pairKey (fst (removeDuplicates events w))))
  /\ (forall (w : World) (events : list FilteredEvent) (o : FilteredEvent),
      (forall e, In e events -> exists t, instantOf e = Some t) ->
      In o (fst (removeDuplicates events w)) -> firstLatest events o).
Proof.
  split; [|split; [|split; [|split; [|split; [|split]]]]].
  - intros w e1 e2 t1 t2 Hk H1 H2.
    rewrite (removeDuplicates_pair e1 e2 w (pairKey_eventKey _ _ Hk)).
    rewrite (parseTimestamp_valid e2 t2 w H2). simpl.
    rewrite (parseTimestamp_valid e1 t1 w H1). reflexivity.
  - intros w e1 e2 t1 Hk H1 H2.
    rewrite (removeDuplicates_pair e1 e2 w (pairKey_eventKey _ _ Hk)).
    rewrite (parseTimestamp_fallback _ w H2). simpl.
    rewrite (parseTimestamp_valid e1 t1 _ H1). reflexivity.
  - intros w e1 e2 t2 Hk H1 H2.
    rewrite (removeDuplicates_pair e1 e2 w (pairKey_eventKey _ _ Hk)).
    rewrite (parseTimestamp_valid e2 t2 w H2). simpl.
    rewrite (parseTimestamp_fallback _ w H1). reflexivity.
  - intros w e1 e2 Hk H1 H2.
    rewrite (removeDuplicates_pair e1 e2 w (pairKey_eventKey _ _ Hk)).
    rewrite (parseTimestamp_fallback _ w H2). simpl.
    rewrite (parseTimestamp_fallback _ _ H1). reflexivity.
  - intros w e1 e2 Hk H.
    rewrite (removeDuplicates_pair e1 e2 w (pairKey_eventKey _ _ Hk)).
    destruct H as [[Hr Hn]|[Hr Hn]].
    + destruct (parseTimestamp (messageTimestamp e2) w) as [d2 w'].
      simpl. rewrite (parseTimestamp_invalid e1 w' Hr Hn). simpl.
      now destruct d2.
    + rewrite (parseTimestamp_invalid e2 w Hr Hn). reflexivity.
  - intros w events.
    apply (NoDup_map_inv (fun p => fst p ++ js "_" ++ snd p)).
    rewrite map_map. apply removeDuplicates_NoDup.
  - intros w events o. apply removeDuplicates_firstLatest.
Qed.

End Hosted.

Lemma removeDuplicates_keeps_latest_witness :
  let e1 := sampleEvent (js "25/07/25, 9:00:00 a. m.") [js "Juan"] in
  let e2 := sampleEvent (js "25/07/25, 12:13:12 p. m.") [js "Juan"; js "Ana"] in
  let e3 := sampleEvent (js "ayer") [] in
  let e4 := sampleEvent (js "hoy") [js "Ana"] in
  fst (removeDuplicates limaTZA sampleClock [e1; e2] initialWorld) = [e2]
  /\ fst (removeDuplicates limaTZA sampleClock [e2; e1] initialWorld) = [e2]
  /\ fst (removeDuplicates limaTZA sampleClock [e2; e2] initialWorld) = [e2]
  /\ fst (removeDuplicates limaTZA sampleClock [e2; e3] initialWorld) = [e3]
  /\ fst (removeDuplicates limaTZA sampleClock [e3; e2] initialWorld) = [e3]
  /\ fst (removeDuplicates limaTZA sampleClock [e3; e4] initialWorld) = [e3].
Proof.
  intros e1 e2 e3 e4.
  destruct (removeDuplicates_keeps_latest limaTZA sampleClock)
    as (Hvalid & Hsecond & Hfirst & Hboth & _).
  split; [|split; [|split; [|split; [|split]]]].
  - apply (Hvalid initialWorld e1 e2 1753452000000%Z 1753463592000%Z);
      vm_compute; reflexivity.
  - apply (Hvalid initialWorld e2 e1 1753463592000%Z 1753452000000%Z);
      vm_compute; reflexivity.
  - apply (Hvalid initialWorld e2 e2 1753463592000%Z 1753463592000%Z);
      vm_compute; reflexivity.
  - apply (Hsecond initialWorld e2 e3 1753463592000%Z);
      vm_compute; reflexivity.
  - apply (Hfirst initialWorld e3 e2 1753463592000%Z);
      vm_compute; reflexivity.
  - apply (Hboth initialWorld e3 e4); vm_compute; reflexivity.
Defined.

(** C1 (as stated) fails when the second of two events of one key has a
    timestamp that matches no format: it is not the first-seen event that
    is kept, the second replaces it. *)
Lemma removeDuplicates_unparsable_second_counterexample :
  let e1 := sampleEvent (js "25/07/25, 12:13:12 p. m.") [js "Juan"; js "Ana"] in
  let e2 := sampleEvent (js "ayer") [] in
  pairKey e1 = pairKey e2
  /\ instantOf limaTZA e1 = Some 1753463592000%Z
  /\ matchedDateArgs (messageTimestamp e2) = None
  /\ fst (removeDuplicates limaTZA sampleClock [e1; e2] initialWorld) = [e2]
  /\ e2 <> e1.
Proof.
  split; [|split; [|split; [|split]]]; try (vm_compute; reflexivity).
  vm_compute. discriminate.
Qed.

End DedupFacts.


(* ===================================================================== *)
(** * PlayerStatsAnalyzer: names and attendance *)
(* ===================================================================== *)

Module PlayerFacts.

Import PlayerStatsAnalyzer Vocabulary.

(** Case analysis on the comparisons of a code unit with constants. *)
Ltac unit_cases :=
  repeat match goal with
         | |- context [N.leb ?a ?b] => destruct (N.leb_spec a b)
         | |- context [N.eqb ?a ?b] => destruct (N.eqb_spec a b)
         | |- context [N.ltb ?a ?b] => destruct (N.ltb_spec a b)
         end; simpl; try lia.

(** The lower case of a unit is one unit, or the two units of U+0130. *)
Lemma lowerUnit_shape (c : N) :
  (exists y, lowerUnit c = [y]) \/ lowerUnit c = [105; 775]%N.
Proof.
  unfold lowerUnit.
  destruct ((65 <=? c) && (c <=? 90))%N; [left; eauto|].
  destruct ((192 <=? c) && (c <=? 222) && negb (c =? 215))%N; [left; eauto|].
  destruct (c =? 304)%N; [now right|].
  destruct (c =? 376)%N; [left; eauto|].
  destruct (c =? 7838)%N; [left; eauto|].
  destruct (c =? 8490)%N; [left; eauto|].
  destruct (c =? 8491)%N; left; eauto.
Qed.

(** A unit whose lower case is a Basic Latin letter other than k is that
    letter or its capital. *)
Lemma lowerUnit_letter (c t : N) :
  (97 <= t <= 122)%N -> t <> 107%N -> lowerUnit c = [t] ->
  c = t \/ c = (t - 32)%N.
Proof.
  intros Ht Hk. unfold lowerUnit.
  unit_cases; intros Hlow; inversion Hlow; subst; lia.
Qed.

Lemma toLowerCase_cons (c : N) (s : jsstring) :
  toLowerCase (c :: s) = lowerUnit c ++ toLowerCase s.
Proof. reflexivity. Qed.

(** The texts whose lower case is a given word of letters other than k are
    its letter-case variants. *)
Lemma toLowerCase_word (word s : jsstring) :
  Forall (fun t => (97 <= t <= 122)%N /\ t <> 107%N) word ->
  toLowerCase s = word -> In s (caseVariants word).
Proof.
  intros Hw. revert s. induction Hw as [|t word [Ht Hk] Hw IH]; intros s H.
  - destruct s as [|c s]; [now left|].
    rewrite toLowerCase_cons in H.
    destruct (lowerUnit_shape c) as [[y Hy]|Hy]; rewrite Hy in H; discriminate.
  - destruct s as [|c s]; [discriminate|].
    rewrite toLowerCase_cons in H.
    destruct (lowerUnit_shape c) as [[y Hy]|Hy]; rewrite Hy in H.
    + simpl in H. injection H as Hyt Hs. subst y.
      specialize (IH s Hs). simpl. apply in_flat_map.
      exists s. split; [assumption|].
      destruct (lowerUnit_letter c t Ht Hk Hy) as [->| ->]; simpl; auto.
    + simpl in H. injection H as Hyt Hs. rewrite <- Hs in Hw.
      inversion Hw as [|? ? [Hr _] _]. lia.
Qed.

(** *** Alias lookup *)

Lemma findAlias_Some (aliases : list (jsstring * jsstring))
    (normalized mainName : jsstring) :
  findAlias aliases normalized = Some mainName <->
  exists before alias after,
    aliases = before ++ (alias, mainName) :: after
    /\ toLowerCase alias = normalized
    /\ forall a m, In (a, m) before -> toLowerCase a <> normalized.
Proof.
  induction aliases as [|[a m] aliases IH]; simpl.
  - split; [discriminate|]. intros (before & alias & after & H & _).
    now destruct before.
  - destruct (eqb (toLowerCase a) normalized) eqn:E.
    + apply eqb_eq in E. split.
      * intros [= ->]. exists [], a, aliases. repeat split; trivial.
        intros ? ? [].
      * intros (before & alias & after & H & Hl & Hb).
        destruct before as [|[a' m'] before]; simpl in H.
        -- now inversion H.
        -- inversion H; subst. exfalso. apply (Hb a' m'); [now left | reflexivity].
    + apply eqb_neq in E. rewrite IH. split.
      * intros (before & alias & after & -> & Hl & Hb).
        exists ((a, m) :: before), alias, after. repeat split; trivial.
        intros a' m' [H|H]; [inversion H; now subst | now apply (Hb a' m')].
      * intros (before & alias & after & H & Hl & Hb).
        destruct before as [|[a' m'] before]; simpl in H.
        -- inversion H; subst. contradiction.
        -- inversion H; subst. exists before, alias, after.
           repeat split; trivial. intros a0 m0 Hin. apply (Hb a0 m0). now right.
Qed.

Lemma findAlias_None (aliases : list (jsstring * jsstring))
    (normalized : jsstring) :
  findAlias aliases normalized = None <->
  forall a m, In (a, m) aliases -> toLowerCase a <> normalized.
Proof.
  induction aliases as [|[a m] aliases IH]; simpl.
  - split; [intros _ ? ? [] | reflexivity].
  - destruct (eqb (toLowerCase a) normalized) eqn:E.
    + apply eqb_eq in E. split; [discriminate|].
      intros H. exfalso. apply (H a m); [now left | assumption].
    + apply eqb_neq in E. rewrite IH. split.
      * intros H a' m' [Hin|Hin]; [inversion Hin; now subst | now apply (H a' m')].
      * intros H a' m' Hin. apply (H a' m'). now right.
Qed.

(** The lower-cased, space-normalised form of each letter-case variant of
    conde is conde. *)
Lemma conde_variants_normalized :
  forallb (fun c => eqb (toLowerCase (trim (collapseSpaces c))) (js "conde"))
          (caseVariants (js "conde")) = true.
Proof. vm_compute. reflexivity. Qed.

Lemma conde_normalized (c : jsstring) :
  toLowerCase c = js "conde" ->
  toLowerCase (trim (collapseSpaces c)) = js "conde".
Proof.
  intros H. apply toLowerCase_word in H.
  - pose proof conde_variants_normalized as Hall.
    rewrite forallb_forall in Hall. apply eqb_eq. now apply Hall.
  - repeat constructor; vm_compute; intuition discriminate.
Qed.

(** C8.  Alias resolution.  The canonical name is the target of the first
    alias whose lower-cased key is the lower-cased cleaned token; with conde
    mapped to Spectre, alone or in the table of the source, every cleaned
    token that is conde in any letter case, and so every raw token that
    cleans to one, resolves to Spectre; a token that no alias matches
    resolves to the cleaned text with each word title-cased. *)
Theorem normalizePlayerName_alias_lookup :
  (forall (aliases : list (jsstring * jsstring)) (c mainName : jsstring),
      normalizePlayerName aliases c = mainName <->
      (exists before alias after,
          aliases = before ++ (alias, mainName) :: after
          /\ toLowerCase alias = toLowerCase (trim (collapseSpaces c))
          /\ forall a m, In (a, m) before ->
                toLowerCase a <> toLowerCase (trim (collapseSpaces c)))
      \/ ((forall a m, In (a, m) aliases ->
              toLowerCase a <> toLowerCase (trim (collapseSpaces c)))
          /\ mainName = titleCaseWords c))
  /\ (forall c : jsstring,
      toLowerCase c = js "conde" ->
      normalizePlayerName [(js "conde", js "Spectre")] c = js "Spectre"
      /\ normalizePlayerName playerAliases c = js "Spectre")
  /\ (forall raw : jsstring,
      toLowerCase (cleanPlayerName raw) = js "conde" ->
      normalizePlayerName playerAliases (cleanPlayerName raw) = js "Spectre")
  /\ (forall (aliases : list (jsstring * jsstring)) (c : jsstring),
      (forall a m, In (a, m) aliases ->
          toLowerCase a <> toLowerCase (trim (collapseSpaces c))) ->
      normalizePlayerName aliases c = titleCaseWords c).
Proof.
  assert (Hconde : forall c, toLowerCase c = js "conde" ->
            normalizePlayerName [(js "conde", js "Spectre")] c = js "Spectre"
            /\ normalizePlayerName playerAliases c = js "Spectre").
  { intros c H. unfold normalizePlayerName.
    rewrite (conde_normalized c H). split; reflexivity. }
  split; [|split; [|split]].
  - intros aliases c mainName. unfold normalizePlayerName.
    destruct (findAlias aliases _) as [m|] eqn:E.
    + split.
      * intros <-. left. now apply findAlias_Some.
      * intros [H|[H _]].
        -- apply findAlias_Some in H. congruence.
        -- apply findAlias_None in H. congruence.
    + split.
      * intros <-. right. split; [now apply findAlias_None | reflexivity].
      * intros [H|[_ H]].
        -- apply findAlias_Some in H. congruence.
        -- now subst.
  - exact Hconde.
  - intros raw H. now apply Hconde.
  - intros aliases c H. unfold normalizePlayerName.
    apply findAlias_None in H. now rewrite H.
Qed.

Lemma normalizePlayerName_alias_lookup_witness :
  normalizePlayerName playerAliases (cleanPlayerName (js " CoNdE (2) "))
    = js "Spectre"
  /\ normalizePlayerName playerAliases (js "juan PEREZ") = js "Juan Perez".
Proof.
  destruct normalizePlayerName_alias_lookup as (_ & _ & Hraw & Hnone).
  split.
  - apply Hraw. vm_compute. reflexivity.
  - rewrite (Hnone playerAliases (js "juan PEREZ")).
    + vm_compute. reflexivity.
    + intros a m Hin. vm_compute in Hin.
      repeat (destruct Hin as [Hin|Hin];
              [inversion Hin; subst; vm_compute; discriminate|]).
      destruct Hin.
Defined.

(** *** Attendance *)

Lemma processPlayer_counted (aliases : list (jsstring * jsstring))
    (key : jsstring) (m : PlayerMap) (playerName n : jsstring) :
  skipped playerName = false ->
  normalizePlayerName aliases (cleanPlayerName playerName) = n ->
  n <> [] ->
  processPlayer aliases key m playerName =
    update (if has m n then m else m ++ [(n, newStats n)]) n
           (attend key playerName).
Proof.
  intros Hs Hn Hne. unfold processPlayer. rewrite Hs, Hn.
  destruct n; [contradiction | reflexivity].
Qed.

(** A token that cleans to the empty text is not counted. *)
Lemma processPlayer_discards_empty (key : jsstring) (m : PlayerMap)
    (playerName : jsstring) :
  cleanPlayerName playerName = [] ->
  processPlayer playerAliases key m playerName = m.
Proof.
  intros H. unfold processPlayer. rewrite H.
  destruct (skipped playerName); reflexivity.
Qed.

Lemma cleanPlayerName_examples :
  cleanPlayerName (js "  Moises(4) ") = js "Moises"
  /\ cleanPlayerName (js "🔥Juan Pérez-") = js "Juan Pérez"
  /\ cleanPlayerName (js "Juan go") = js "Juan"
  /\ cleanPlayerName (js "(x) [y] {z} ⚽") = [].
Proof. vm_compute. repeat split. Qed.

(** Rewriting of one counted token; the side conditions are computed. *)
Ltac count_token key token canonical :=
  rewrite (processPlayer_counted playerAliases key _ token canonical);
  [|vm_compute; (reflexivity || discriminate)..].

(** C3 (as amended).  Three events with the rosters [A, B], [A , C] and [B],
    the first two under different keys: the identity A has attendance 2, the
    two event keys, and the single variation A, both spellings being trimmed
    before they are recorded. *)
Theorem processPlayers_three_rosters (e1 e2 e3 : FilteredEvent) :
  players e1 = [js "A"; js "B"] ->
  players e2 = [js "A "; js "C"] ->
  players e3 = [js "B"] ->
  eventKey e1 <> eventKey e2 ->
  get (processPlayers playerAliases [e1; e2; e3]) (js "A") =
    Some {| name := js "A"; cleanName := js "A"; attendance := 2;
            events := [eventKey e1; eventKey e2];
            variations := [js "A"] |}.
Proof.
  intros H1 H2 H3 Hne.
  unfold processPlayers. cbn [fold_left]. unfold processEvent.
  rewrite H1, H2, H3. cbn [fold_left].
  generalize dependent (eventKey e1). intros k1.
  generalize dependent (eventKey e2). intros k2 Hne.
  generalize (eventKey e3). intros k3.
  apply eqb_neq in Hne. rewrite eqb_sym in Hne.
  count_token k1 (js "A") (js "A").
  count_token k1 (js "B") (js "B").
  count_token k2 (js "A ") (js "A").
  count_token k2 (js "C") (js "C").
  count_token k3 (js "B") (js "B").
  cbn -[attend]. unfold attend, pushUnique. cbn -[eqb].
  rewrite Hne. reflexivity.
Qed.

Lemma processPlayers_three_rosters_witness :
  get (processPlayers playerAliases threeFridays) (js "A") =
    Some {| name := js "A"; cleanName := js "A"; attendance := 2;
            events := [js "11/07/25 (viernes)"; js "18/07/25 (viernes)"];
            variations := [js "A"] |}.
Proof.
  apply (processPlayers_three_rosters
           (fridayEvent (js "11/07/25") [js "A"; js "B"])
           (fridayEvent (js "18/07/25") [js "A "; js "C"])
           (fridayEvent (js "25/07/25") [js "B"]));
    try reflexivity.
  vm_compute. discriminate.
Defined.

(** C3 (as stated) fails on the three events of [threeFridays]: the identity
    A does not carry the two variations A and A-with-a-space. *)
Lemma processPlayers_both_spellings_counterexample :
  ~ (exists p,
        get (processPlayers playerAliases threeFridays) (js "A") = Some p
        /\ attendance p = 2%Z
        /\ length (events p) = 2
        /\ (forall v, In v (variations p) <-> v = js "A" \/ v = js "A ")).
Proof.
  intros (p & Hp & _ & _ & Hv).
  vm_compute in Hp. injection Hp as <-.
  specialize (Hv (js "A ")). simpl in Hv.
  destruct (proj2 Hv (or_intror eq_refl)) as [H|[]].
  vm_compute in H. discriminate.
Qed.

(** C4.  [cleanPlayerName] on names that end in go: the pattern for the
    trailing go also matches inside a word, so Diego is cleaned to Die and
    counted under that name. *)
Theorem cleanPlayerName_cuts_names_ending_in_go :
  cleanPlayerName (js "Diego") = js "Die"
  /\ cleanPlayerName (js "Rodrigo") = js "Rodri"
  /\ cleanPlayerName (js "Hugo") = js "Hu"
  /\ map fst (processPlayers playerAliases
                [fridayEvent (js "25/07/25") [js "Diego"; js "Die"]])
     = [js "Die"].
Proof. vm_compute. repeat split. Qed.

End PlayerFacts.


(* ===================================================================== *)
(** * Final grouping: consolidation and clustering *)
(* ===================================================================== *)

Module GroupingFacts.

Import FinalGrouping Vocabulary.

(** *** The accumulations of consolidateGroup *)

Lemma fold_left_add (l : list Player) (z : Z) :
  fold_left (fun total player => (total + attendance player)%Z) l z
  = (z + sumZ (map attendance l))%Z.
Proof.
  revert z. induction l as [|p l IH]; intros z; simpl.
  - lia.
  - rewrite IH. lia.
Qed.

Lemma sumAttendance_sum (group : list Player) :
  sumAttendance group = sumZ (map attendance group).
Proof. unfold sumAttendance. now rewrite fold_left_add. Qed.

Lemma fold_left_app_variations (l : list Player) (acc : list jsstring) :
  fold_left (fun all player => all ++ variationsOf player) l acc
  = acc ++ concat (map variationsOf l).
Proof.
  revert acc. induction l as [|p l IH]; intros acc; simpl.
  - now rewrite app_nil_r.
  - rewrite IH. now rewrite app_assoc.
Qed.

Lemma allVariations_concat (group : list Player) :
  allVariations group = concat (map variationsOf group).
Proof. unfold allVariations. now rewrite fold_left_app_variations. Qed.

(** *** unique: first occurrences, in order *)

Lemma existsb_eqb_In (x : jsstring) (l : list jsstring) :
  existsb (eqb x) l = true <-> In x l.
Proof.
  rewrite existsb_exists. split.
  - intros (y & Hy & E). apply eqb_eq in E. now subst.
  - intros H. exists x. split; [assumption | apply eqb_refl].
Qed.

Lemma uniqueFrom_In (xs seen : list jsstring) (x : jsstring) :
  In x (uniqueFrom seen xs) <-> In x xs /\ ~ In x seen.
Proof.
  revert seen. induction xs as [|z xs IH]; intros seen; simpl.
  - tauto.
  - destruct (existsb (eqb z) seen) eqn:E.
    + apply existsb_eqb_In in E. rewrite IH. split.
      * intros [H1 H2]. tauto.
      * intros [[->|H1] H2]; [contradiction | tauto].
    + assert (Hz : ~ In z seen).
      { intros H. apply existsb_eqb_In in H. congruence. }
      simpl. rewrite IH. simpl. split.
      * intros [->|[H1 H2]]; [tauto|]. split; [tauto|]. tauto.
      * intros [[->|H1] H2]; [now left|].
        destruct (list_eq_dec N.eq_dec z x) as [->|Hne]; [now left|].
        right. split; [assumption|]. intros [?|?]; contradiction.
Qed.

Lemma uniqueFrom_NoDup (xs seen : list jsstring) :
  NoDup (uniqueFrom seen xs).
Proof.
  revert seen. induction xs as [|z xs IH]; intros seen; simpl.
  - constructor.
  - destruct (existsb (eqb z) seen); [apply IH|].
    constructor; [|apply IH].
    rewrite uniqueFrom_In. simpl. tauto.
Qed.

Lemma uniqueFrom_order (xs seen a : list jsstring) (x : jsstring)
    (b : list jsstring) :
  uniqueFrom seen xs = a ++ x :: b ->
  exists a' b',
    xs = a' ++ x :: b' /\ ~ In x a' /\ ~ In x seen
    /\ (forall y, In y a -> In y a')
    /\ (forall y, In y a' -> In y a \/ In y seen).
Proof.
  revert seen a. induction xs as [|z xs IH]; intros seen a; simpl.
  - intros H. now destruct a.
  - destruct (existsb (eqb z) seen) eqn:E.
    + apply existsb_eqb_In in E. intros H.
      destruct (IH _ _ H) as (a' & b' & -> & Hx & Hs & H1 & H2).
      exists (z :: a'), b'. repeat split; trivial.
      * intros [->|Hin]; contradiction.
      * intros y Hy. right. now apply H1.
      * intros y [<-|Hy]; [now right | now apply H2].
    + assert (Hz : ~ In z seen).
      { intros H. apply existsb_eqb_In in H. congruence. }
      destruct a as [|a0 a]; simpl; intros H; injection H as Hhd Htl.
      * subst z. exists [], xs. repeat split; trivial; try (now intros []); try (now intros y []).
      * subst a0.
        destruct (IH _ _ Htl) as (a' & b' & -> & Hx & Hs & H1 & H2).
        exists (z :: a'), b'. simpl in Hs. repeat split; trivial.
        -- intros [->|Hin]; [apply Hs; now left | contradiction].
        -- intros Hin. apply Hs. now right.
        -- intros y [->|Hy]; [now left | right; now apply H1].
        -- intros y [<-|Hy]; [left; now left|].
           destruct (H2 y Hy) as [?|[<-|?]]; [left; now right | left; now left | now right].
Qed.

(** [unique] keeps exactly the texts of the list, once each, ordered by
    their first occurrence. *)
Lemma unique_spec (xs : list jsstring) :
  NoDup (unique xs)
  /\ (forall x, In x (unique xs) <-> In x xs)
  /\ (forall a x b, unique xs = a ++ x :: b ->
        exists a' b', xs = a' ++ x :: b' /\ ~ In x a'
                      /\ forall y, In y a <-> In y a').
Proof.
  split; [apply uniqueFrom_NoDup|]. split.
  - intros x. unfold unique. rewrite uniqueFrom_In. simpl. tauto.
  - intros a x b H.
    destruct (uniqueFrom_order _ _ _ _ _ H) as (a' & b' & -> & Hx & _ & H1 & H2).
    exists a', b'. repeat split; trivial.
    + apply H1.
    + intros Hy. destruct (H2 y Hy) as [?|[]]. assumption.
Qed.

(** *** The most frequent name exists as soon as there is a variation *)

Lemma objectKeys_fold_In (f : V5.Frequency) (acc : list (Z * jsstring))
    (k : jsstring) :
  In k (map snd acc) ->
  In k (map snd
          (fold_left (fun acc kv =>
                        match V5.arrayIndex (fst kv) with
                        | Some n => V5.insertIndex n (fst kv) acc
                        | None => acc
                        end) f acc)).
Proof.
  revert acc. induction f as [|[k' n'] f IH]; intros acc H; simpl; [assumption|].
  apply IH. destruct (V5.arrayIndex k') as [n|]; [|assumption].
  clear IH. induction acc as [|[m j] acc IHacc]; simpl in *; [tauto|].
  destruct (n <? m)%Z; simpl; tauto.
Qed.

Lemma insertIndex_In (n : Z) (k : jsstring) (acc : list (Z * jsstring)) :
  In k (map snd (V5.insertIndex n k acc)).
Proof.
  induction acc as [|[m j] acc IH]; simpl; [now left|].
  destruct (n <? m)%Z; simpl; tauto.
Qed.

Lemma objectKeys_In (f : V5.Frequency) (k : jsstring) :
  In k (map fst f) -> In k (V5.objectKeys f).
Proof.
  intros H. unfold V5.objectKeys. apply in_or_app.
  destruct (V5.arrayIndex k) as [n|] eqn:E.
  - left. generalize (@nil (Z * jsstring)).
    induction f as [|[k' n'] f IH]; intros acc; simpl in *; [tauto|].
    destruct H as [->|H].
    + rewrite E. apply objectKeys_fold_In. apply insertIndex_In.
    + now apply IH.
  - right. apply filter_In. split; [assumption|]. now rewrite E.
Qed.

Section Prototype.

Variable functionSource : jsstring -> jsstring.

Local Abbreviation increment := (V5.increment functionSource).
Local Abbreviation getMostFrequentName :=
  (V5.getMostFrequentName functionSource).

(** Every name but [__proto__] becomes an own key. *)
Lemma increment_In (f : V5.Frequency) (k : jsstring) :
  k <> js "__proto__" -> In k (map fst (increment f k)).
Proof.
  intros Hk. induction f as [|[k' n] f IH]; cbn [V5.increment].
  - apply eqb_neq in Hk. rewrite Hk.
    destruct (existsb (eqb k) V5.inheritedFunctions); now left.
  - destruct (eqb k' k) eqn:E; simpl.
    + apply eqb_eq in E. now left.
    + now right.
Qed.

Lemma increment_keeps (f : V5.Frequency) (k k0 : jsstring) :
  In k0 (map fst f) -> In k0 (map fst (increment f k)).
Proof.
  induction f as [|[k' n] f IH]; cbn [V5.increment map fst]; [intros []|].
  destruct (eqb k' k); simpl; tauto.
Qed.

Lemma frequency_keys (vs : list jsstring) (f : V5.Frequency) (k : jsstring) :
  (In k vs /\ k <> js "__proto__") \/ In k (map fst f) ->
  In k (map fst (fold_left increment vs f)).
Proof.
  revert f. induction vs as [|v vs IH]; intros f; cbn [fold_left].
  - intros [[[] _]|H]. exact H.
  - intros [[[->|H] Hk]|H]; apply IH.
    + right. now apply increment_In.
    + left. now split.
    + right. now apply increment_keeps.
Qed.

(** [__proto__] alone leaves the object without own keys. *)
Lemma frequency_prototype (vs : list jsstring) :
  (forall v, In v vs -> v = js "__proto__") ->
  fold_left increment vs [] = [].
Proof.
  induction vs as [|v vs IH]; intros H; [reflexivity|].
  cbn [fold_left V5.increment].
  rewrite (H v (or_introl eq_refl)), eqb_refl.
  apply IH. intros x Hx. apply H. now right.
Qed.

Lemma getMostFrequentName_some (vs : list jsstring) :
  (exists v, In v vs /\ v <> js "__proto__") ->
  exists n, getMostFrequentName vs = Some n.
Proof.
  intros (v & Hv & Hp).
  unfold V5.getMostFrequentName.
  assert (Hin : In v (V5.objectKeys (fold_left increment vs []))).
  { apply objectKeys_In. apply frequency_keys. left. now split. }
  destruct (V5.objectKeys _) as [|k keys]; [destruct Hin|]. eauto.
Qed.

Lemma getMostFrequentName_none (vs : list jsstring) :
  (forall v, In v vs -> v = js "__proto__") ->
  getMostFrequentName vs = None.
Proof.
  intros H. unfold V5.getMostFrequentName.
  now rewrite frequency_prototype.
Qed.

Lemma V4_consolidateGroup_value (p : Player) (group : list Player) :
  V4.consolidateGroup (p :: group) =
    Some {| consolidatedName := name p;
            totalAttendance := sumZ (map attendance (p :: group));
            consolidatedVariations :=
              join (js ", ")
                   (unique (concat (map variationsOf (p :: group)))) |}.
Proof.
  unfold V4.consolidateGroup. simpl V4.getOriginalName.
  now rewrite sumAttendance_sum, allVariations_concat.
Qed.

Lemma V5_consolidateGroup_value (group : list Player) :
  (exists v, In v (concat (map variationsOf group)) /\ v <> js "__proto__") ->
  exists n,
    V5.consolidateGroup functionSource group =
      Some {| consolidatedName := n;
              totalAttendance := sumZ (map attendance group);
              consolidatedVariations :=
                join (js ", ") (unique (concat (map variationsOf group))) |}.
Proof.
  intros (v & Hv & Hp). unfold V5.consolidateGroup.
  rewrite allVariations_concat.
  destruct (getMostFrequentName_some (unique (concat (map variationsOf group))))
    as [n Hn].
  - exists v. split; [|exact Hp].
    now apply (proj1 (proj2 (unique_spec (concat (map variationsOf group))))).
  - rewrite Hn. exists n. now rewrite sumAttendance_sum.
Qed.

(** With [__proto__] as the only spelling, or none, the reduction throws. *)
Lemma V5_consolidateGroup_throws (group : list Player) :
  (forall v, In v (concat (map variationsOf group)) -> v = js "__proto__") ->
  V5.consolidateGroup functionSource group = None.
Proof.
  intros H. unfold V5.consolidateGroup. rewrite allVariations_concat.
  rewrite getMostFrequentName_none; [reflexivity|].
  intros v Hv. apply H.
  now apply (proj1 (proj2 (unique_spec (concat (map variationsOf group))))).
Qed.

Lemma V5_consolidateGroup_total (group : list Player) (c : ConsolidatedPlayer) :
  V5.consolidateGroup functionSource group = Some c ->
  totalAttendance c = sumZ (map attendance group).
Proof.
  unfold V5.consolidateGroup.
  destruct (V5.getMostFrequentName _ _); [|discriminate].
  intros [= <-]. simpl. apply sumAttendance_sum.
Qed.

End Prototype.

(** C5.  Merge of a cluster.  In both revisions the consolidated record of a
    non-empty group has as [totalAttendance] the sum of the members'
    attendance and as [variations] the texts of the members' variation
    lists, each once, in the order of their first occurrence, joined by a
    comma and a space.  The revision that picks the most frequent name
    gives this record when the group has a variation other than
    [__proto__], whatever text the implementation gives its built-in
    functions; with no variation, or none but [__proto__], its frequency
    object has no key, the reduction throws and there is no record. *)
Theorem consolidateGroup_merge (functionSource : jsstring -> jsstring)
    (group : list Player) :
  group <> [] ->
  let merged := unique (concat (map variationsOf group)) in
  (exists c, V4.consolidateGroup group = Some c
             /\ totalAttendance c = sumZ (map attendance group)
             /\ consolidatedVariations c = join (js ", ") merged)
  /\ ((exists v, In v (concat (map variationsOf group))
                 /\ v <> js "__proto__") ->
      exists c, V5.consolidateGroup functionSource group = Some c
                /\ totalAttendance c = sumZ (map attendance group)
                /\ consolidatedVariations c = join (js ", ") merged)
  /\ ((forall v, In v (concat (map variationsOf group)) ->
                 v = js "__proto__") ->
      V5.consolidateGroup functionSource group = None)
  /\ NoDup merged
  /\ (forall v, In v merged <->
                exists p, In p group /\ In v (variationsOf p))
  /\ (forall a v b, merged = a ++ v :: b ->
        exists a' b', concat (map variationsOf group) = a' ++ v :: b'
                      /\ ~ In v a' /\ forall y, In y a <-> In y a').
Proof.
  intros Hne merged.
  destruct (unique_spec (concat (map variationsOf group))) as (Hnd & Hin & Hord).
  split; [|split; [|split; [|split; [|split]]]].
  - destruct group as [|p group]; [contradiction|].
    rewrite V4_consolidateGroup_value. eexists. split; [reflexivity|].
    split; reflexivity.
  - intros Hv.
    destruct (V5_consolidateGroup_value functionSource group Hv) as [n Hn].
    rewrite Hn. eexists. split; [reflexivity|]. split; reflexivity.
  - apply V5_consolidateGroup_throws.
  - exact Hnd.
  - intros v. unfold merged. rewrite Hin. rewrite in_concat. split.
    + intros (l & Hl & Hv). apply in_map_iff in Hl as (p & <- & Hp). eauto.
    + intros (p & Hp & Hv). exists (variationsOf p). split; [|assumption].
      now apply in_map.
  - exact Hord.
Qed.

Lemma consolidateGroup_merge_witness :
  (exists c, V5.consolidateGroup sampleSource sampleGroup = Some c
             /\ totalAttendance c = 7%Z
             /\ consolidatedVariations c
                = js "Jose Perez, jose perez, Jose Peres")
  /\ V5.consolidateGroup sampleSource
       [samplePlayer (js "Ana") 4 [js "__proto__"]] = None.
Proof.
  split.
  - destruct (consolidateGroup_merge sampleSource sampleGroup)
      as (_ & H & _).
    + discriminate.
    + destruct H as (c & Hc & Ht & Hv).
      * exists (js "Jose Perez"). split; [now left | discriminate].
      * exists c. split; [assumption|]. split; [exact Ht | exact Hv].
  - destruct (consolidateGroup_merge sampleSource
                [samplePlayer (js "Ana") 4 [js "__proto__"]])
      as (_ & _ & H & _).
    + discriminate.
    + apply H. intros v [<-|[]]. reflexivity.
Defined.

(** *** The clustering loop *)

Lemma processedHas_In (processed : list nat) (i : nat) :
  processedHas processed i = true <-> In i processed.
Proof.
  unfold processedHas. rewrite existsb_exists. split.
  - intros (j & Hj & E). apply Nat.eqb_eq in E. now subst.
  - intros H. exists i. split; [assumption | apply Nat.eqb_refl].
Qed.

Lemma indexed_fst (players : list Player) :
  map fst (indexed players) = List.seq 0 (length players).
Proof.
  unfold indexed. generalize 0.
  induction players as [|p players IH]; intros n; simpl; [reflexivity|].
  now rewrite IH.
Qed.

Lemma indexed_snd (players : list Player) :
  map snd (indexed players) = players.
Proof.
  unfold indexed. generalize 0.
  induction players as [|p players IH]; intros n; simpl; [reflexivity|].
  now rewrite IH.
Qed.

Lemma seq_sorted (n a : nat) : StronglySorted lt (List.seq a n).
Proof.
  revert a. induction n as [|n IH]; intros a; simpl; constructor.
  - apply IH.
  - apply Forall_forall. intros x Hx. apply in_seq in Hx. lia.
Qed.

Lemma sumZ_app (l1 l2 : list Z) : sumZ (l1 ++ l2) = (sumZ l1 + sumZ l2)%Z.
Proof. induction l1 as [|x l1 IH]; simpl; [reflexivity | rewrite IH; lia]. Qed.

Lemma sumZ_Permutation (l1 l2 : list Z) :
  Permutation l1 l2 -> sumZ l1 = sumZ l2.
Proof. induction 1; simpl; lia. Qed.

Lemma sumZ_concat (A : Type) (f : A -> Z) (ls : list (list A)) :
  sumZ (map f (concat ls)) = sumZ (map (fun l => sumZ (map f l)) ls).
Proof.
  induction ls as [|l ls IH]; simpl; [reflexivity|].
  now rewrite map_app, sumZ_app, IH.
Qed.

(** Entries with pairwise different indices are determined by their
    indices. *)
Lemma Permutation_by_index (l full : list Entry) :
  NoDup (map fst full) ->
  (forall e, In e l -> In e full) ->
  Permutation (map fst l) (map fst full) ->
  Permutation l full.
Proof.
  intros Hnd Hin Hperm.
  assert (Hinj : forall e e', In e full -> In e' full -> fst e = fst e' -> e = e').
  { clear l Hin Hperm. induction full as [|x full IH]; simpl; [tauto|].
    inversion Hnd as [|? ? Hx Hnd']; subst.
    intros e e' [<-|He] [<-|He'] Heq; trivial.
    - exfalso. apply Hx. rewrite Heq. now apply in_map.
    - exfalso. apply Hx. rewrite <- Heq. now apply in_map.
    - now apply IH. }
  apply NoDup_Permutation.
  - apply (NoDup_map_inv fst).
    apply (Permutation_NoDup (Permutation_sym Hperm) Hnd).
  - now apply (NoDup_map_inv fst).
  - intros e. split; [apply Hin|]. intros He.
    assert (Hf : In (fst e) (map fst l)).
    { apply (Permutation_in _ (Permutation_sym Hperm)). now apply in_map. }
    apply in_map_iff in Hf as (e' & Hfe & He').
    rewrite <- (Hinj e' e (Hin e' He') He Hfe). assumption.
Qed.

Section Similarity.

Variable normalizeNFD : jsstring -> jsstring.
Variable compareTwoStrings : jsstring -> jsstring -> Q.

Local Abbreviation similar := (similar normalizeNFD compareTwoStrings).
Local Abbreviation collect := (collect normalizeNFD compareTwoStrings).
Local Abbreviation openGroup := (openGroup normalizeNFD compareTwoStrings).
Local Abbreviation groupEntries := (groupEntries normalizeNFD compareTwoStrings).
Local Abbreviation groupSimilarPlayers :=
  (groupSimilarPlayers normalizeNFD compareTwoStrings).
Local Abbreviation seeded := (seeded normalizeNFD compareTwoStrings).
Local Abbreviation clustered := (clustered normalizeNFD compareTwoStrings).

(** What the inner loop adds to the group of [seed]: later entries, similar
    to the seed, never processed before. *)
Lemma collect_fold (seed : Entry) (l : list Entry) (group : list Entry)
    (processed : list nat) :
  NoDup processed ->
  exists added,
    fold_left (collect seed) l (group, processed)
      = (group ++ added, rev (map fst added) ++ processed)
    /\ Forall (fun e => In e l /\ fst seed < fst e
                        /\ similar (snd seed) (snd e) = true) added
    /\ NoDup (rev (map fst added) ++ processed).
Proof.
  revert group processed.
  induction l as [|[j q] l IH]; intros group processed Hnd.
  - exists []. simpl. rewrite app_nil_r. repeat split; trivial.
  - simpl fold_left. unfold FinalGrouping.collect at 2.
    destruct seed as [i p].
    destruct ((j <=? i) || processedHas processed j) eqn:Hskip.
    + destruct (IH group processed Hnd) as (added & Hf & Ha & Hn).
      exists added. split; [assumption|]. split; [|assumption].
      eapply Forall_impl; [|exact Ha]. intros e (He & H). split; [now right | exact H].
    + apply orb_false_iff in Hskip as [Hle Hproc].
      apply Nat.leb_gt in Hle.
      assert (Hnot : ~ In j processed).
      { intros H. apply processedHas_In in H. congruence. }
      destruct (FinalGrouping.similar normalizeNFD compareTwoStrings p q) eqn:Hsim.
      * assert (Hnd' : NoDup (j :: processed)) by now constructor.
        destruct (IH (group ++ [(j, q)]) (j :: processed) Hnd')
          as (added & Hf & Ha & Hn).
        exists ((j, q) :: added). split; [|split].
        -- etransitivity; [exact Hf|]. f_equal.
           ++ now rewrite <- app_assoc.
           ++ simpl. now rewrite <- app_assoc.
        -- constructor.
           ++ split; [now left|]. simpl. split; assumption.
           ++ eapply Forall_impl; [|exact Ha].
              intros e (He & H). split; [now right | exact H].
        -- simpl. now rewrite <- app_assoc.
      * destruct (IH group processed Hnd) as (added & Hf & Ha & Hn).
        exists added. split; [assumption|]. split; [|assumption].
        eapply Forall_impl; [|exact Ha].
        intros e (He & H). split; [now right | exact H].
Qed.

Lemma seeds_app (groups : list (list Entry)) (g : list Entry) :
  seeds (groups ++ [g]) = seeds groups ++ firstn 1 g.
Proof. unfold seeds. rewrite flat_map_app. simpl. now rewrite app_nil_r. Qed.

Lemma StronglySorted_snoc (l : list nat) (x : nat) :
  StronglySorted lt l -> (forall y, In y l -> y < x) ->
  StronglySorted lt (l ++ [x]).
Proof.
  induction 1 as [|a l Hs IH Ha]; intros Hx; simpl.
  - constructor; constructor.
  - constructor.
    + apply IH. intros y Hy. apply Hx. now right.
    + apply Forall_app. split; [assumption|].
      constructor; [|constructor]. apply Hx. now left.
Qed.

Lemma openGroup_fold (full l : list Entry) (groups : list (list Entry))
    (processed : list nat) :
  clustered full groups processed ->
  (forall e, In e l -> In e full) ->
  StronglySorted lt (map fst l) ->
  StronglySorted lt (map fst (seeds groups)) ->
  (forall s e, In s (seeds groups) -> In e l -> fst s < fst e) ->
  exists groups' processed',
    fold_left (openGroup full) l (groups, processed) = (groups', processed')
    /\ clustered full groups' processed'
    /\ (forall i, In i processed -> In i processed')
    /\ (forall e, In e l -> In (fst e) processed')
    /\ StronglySorted lt (map fst (seeds groups')).
Proof.
  revert groups processed.
  induction l as [|e l IH]; intros groups processed Hc Hfull Hsorted Hseeds Hlt.
  - exists groups, processed. simpl. repeat split; trivial; try apply Hc.
    intros e [].
  - simpl fold_left. unfold FinalGrouping.openGroup at 1.
    simpl in Hsorted. inversion Hsorted as [|? ? Hs' Hall]; subst.
    rewrite Forall_forall in Hall.
    destruct (processedHas processed (fst e)) eqn:Hp.
    + apply processedHas_In in Hp.
      destruct (IH groups processed Hc) as (g' & p' & Hf & Hc' & Hmono & Hcov & Hss);
        trivial.
      * intros x Hx. apply Hfull. now right.
      * intros s x Hs Hx. apply Hlt; [assumption | now right].
      * exists g', p'. repeat split; trivial; try apply Hc'.
        intros x [<-|Hx]; [now apply Hmono | now apply Hcov].
    + assert (Hnot : ~ In (fst e) processed).
      { intros H. apply processedHas_In in H. congruence. }
      destruct Hc as (Hnd & Hperm & Hin & Hseeded).
      destruct (collect_fold e full [e] processed Hnd) as (added & Hf & Ha & Hn).
      rewrite Hf. rewrite Forall_forall in Ha.
      assert (Hfresh : ~ In (fst e) (rev (map fst added) ++ processed)).
      { intros H. apply in_app_or in H as [H|H]; [|contradiction].
        apply in_rev in H. apply in_map_iff in H as (x & Hx & Hxa).
        destruct (Ha x Hxa) as (_ & Hl & _). lia. }
      destruct (IH (groups ++ [[e] ++ added])
                   (fst e :: rev (map fst added) ++ processed))
        as (g' & p' & Hf' & Hc' & Hmono & Hcov & Hss).
      * split; [now constructor|]. split; [|split].
        -- rewrite concat_app, map_app. simpl. rewrite app_nil_r.
           apply Permutation_trans with (fst e :: map fst (concat groups) ++ map fst added).
           ++ apply Permutation_sym, Permutation_middle.
           ++ apply perm_skip.
              apply Permutation_trans with (map fst added ++ map fst (concat groups)).
              ** apply Permutation_app_comm.
              ** apply Permutation_app; [apply Permutation_rev | assumption].
        -- intros x Hx. rewrite concat_app in Hx. simpl in Hx.
           rewrite app_nil_r in Hx.
           apply in_app_or in Hx as [Hx|[<-|Hx]].
           ++ now apply Hin.
           ++ apply Hfull. now left.
           ++ now apply (Ha x Hx).
        -- apply Forall_app. split; [assumption|]. constructor; [|constructor].
           exists e, added. split; [reflexivity|].
           apply Forall_forall. intros x Hx. now apply (Ha x Hx).
      * intros x Hx. apply Hfull. now right.
      * assumption.
      * rewrite seeds_app. simpl. rewrite map_app. simpl.
        apply StronglySorted_snoc; [assumption|].
        intros y Hy. apply in_map_iff in Hy as (s & <- & Hs).
        apply Hlt; [assumption | now left].
      * rewrite seeds_app. simpl. intros s x Hs Hx.
        apply in_app_or in Hs as [Hs|[<-|[]]].
        -- apply Hlt; [assumption | now right].
        -- apply Hall. now apply in_map.
      * exists g', p'. repeat split; trivial; try apply Hc'.
        -- intros i Hi. apply Hmono. right. apply in_or_app. now right.
        -- intros x [<-|Hx]; [apply Hmono; now left | now apply Hcov].
Qed.

Lemma groupEntries_clustered (players : list Player) :
  exists processed,
    clustered (indexed players) (groupEntries players) processed
    /\ (forall e, In e (indexed players) -> In (fst e) processed)
    /\ StronglySorted lt (map fst (seeds (groupEntries players))).
Proof.
  destruct (openGroup_fold (indexed players) (indexed players) [] [])
    as (g' & p' & Hf & Hc & _ & Hcov & Hss).
  - repeat split; try constructor. intros e [].
  - trivial.
  - rewrite indexed_fst. apply seq_sorted.
  - constructor.
  - intros s e [].
  - exists p'. unfold FinalGrouping.groupEntries. rewrite Hf. simpl. auto.
Qed.

Lemma groupEntries_Permutation (players : list Player) :
  Permutation (concat (groupEntries players)) (indexed players)
  /\ NoDup (map fst (concat (groupEntries players))).
Proof.
  destruct (groupEntries_clustered players)
    as (processed & (Hnd & Hperm & Hin & _) & Hcov & _).
  assert (Hseq : NoDup (map fst (indexed players))).
  { rewrite indexed_fst. apply seq_NoDup. }
  split.
  - apply Permutation_by_index; trivial.
    apply Permutation_trans with processed; [assumption|].
    apply NoDup_Permutation; trivial.
    intros i. split.
    + intros Hi. apply (Permutation_in _ (Permutation_sym Hperm)) in Hi.
      apply in_map_iff in Hi as (e & <- & He). apply in_map. now apply Hin.
    + intros Hi. apply in_map_iff in Hi as (e & <- & He). now apply Hcov.
  - apply (Permutation_NoDup (Permutation_sym Hperm) Hnd).
Qed.

Lemma groupSimilarPlayers_Permutation (players : list Player) :
  Permutation (concat (groupSimilarPlayers players)) players.
Proof.
  unfold FinalGrouping.groupSimilarPlayers. rewrite <- concat_map.
  rewrite <- (indexed_snd players) at 2.
  apply Permutation_map. apply groupEntries_Permutation.
Qed.

Lemma groupSimilarPlayers_nonempty (players : list Player) :
  Forall (fun g => g <> [] /\ forall p, In p g -> In p players)
         (groupSimilarPlayers players).
Proof.
  destruct (groupEntries_clustered players)
    as (processed & (_ & _ & Hin & Hs) & _ & _).
  unfold FinalGrouping.groupSimilarPlayers.
  apply Forall_forall. intros g Hg.
  apply in_map_iff in Hg as (ge & <- & Hge).
  rewrite Forall_forall in Hs. destruct (Hs ge Hge) as (seed & members & -> & _).
  split; [discriminate|].
  intros p Hp. apply in_map_iff in Hp as (e & <- & He).
  rewrite <- (indexed_snd players). apply in_map. apply Hin.
  apply in_concat. eauto.
Qed.

Lemma groupSimilarPlayers_sum (players : list Player) :
  sumZ (map (fun g => sumZ (map attendance g)) (groupSimilarPlayers players))
  = sumZ (map attendance players).
Proof.
  rewrite <- sumZ_concat. apply sumZ_Permutation, Permutation_map.
  apply groupSimilarPlayers_Permutation.
Qed.

End Similarity.

(** *** Consolidation of a list of groups *)

Lemma V4_consolidate_all (groups : list (list Player)) :
  Forall (fun g => g <> []) groups ->
  exists cs, map V4.consolidateGroup groups = map Some cs
             /\ map totalAttendance cs
                = map (fun g => sumZ (map attendance g)) groups.
Proof.
  induction 1 as [|g groups Hg _ (cs & Hcs & Ht)].
  - now exists [].
  - destruct g as [|p g]; [contradiction|].
    eexists (_ :: cs). simpl map. rewrite V4_consolidateGroup_value, Hcs.
    split; [reflexivity|]. simpl. now rewrite Ht.
Qed.

Lemma V5_consolidate_all (functionSource : jsstring -> jsstring)
    (groups : list (list Player)) :
  Forall (fun g => exists v, In v (concat (map variationsOf g))
                             /\ v <> js "__proto__") groups ->
  exists cs, map (V5.consolidateGroup functionSource) groups = map Some cs
             /\ map totalAttendance cs
                = map (fun g => sumZ (map attendance g)) groups.
Proof.
  induction 1 as [|g groups Hg _ (cs & Hcs & Ht)].
  - now exists [].
  - destruct (V5_consolidateGroup_value functionSource g Hg) as [n Hn].
    eexists (_ :: cs). simpl map. rewrite Hn, Hcs.
    split; [reflexivity|]. simpl. now rewrite Ht.
Qed.

Lemma V5_consolidate_totals (functionSource : jsstring -> jsstring)
    (groups : list (list Player)) (cs : list ConsolidatedPlayer) :
  map (V5.consolidateGroup functionSource) groups = map Some cs ->
  map totalAttendance cs = map (fun g => sumZ (map attendance g)) groups.
Proof.
  revert cs. induction groups as [|g groups IH]; intros [|c cs]; simpl;
    try discriminate; [reflexivity|].
  intros H. injection H as Hc Hcs.
  now rewrite (V5_consolidateGroup_total functionSource g c Hc), (IH cs Hcs).
Qed.

(** C10.  The similarity grouping is a partition.  The groups, as lists of
    references, are a rearrangement of the input entries, so every identity
    lies in exactly one cluster and no index occurs twice; the seeds come in
    input order; every other member of a group comes after its seed and its
    cleaned-name similarity to the seed is at least the threshold.  Hence the
    sums of attendance per group, and the [totalAttendance] of the
    consolidated records of either revision, add up to the attendance of the
    input.  The revision with the most frequent name has a record for every
    group when every player has a variation other than [__proto__]. *)
Theorem groupSimilarPlayers_partition
    (normalizeNFD : jsstring -> jsstring)
    (compareTwoStrings : jsstring -> jsstring -> Q)
    (functionSource : jsstring -> jsstring)
    (players : list Player) :
  let entries := groupEntries normalizeNFD compareTwoStrings players in
  let groups := groupSimilarPlayers normalizeNFD compareTwoStrings players in
  Permutation (concat entries) (indexed players)
  /\ NoDup (map fst (concat entries))
  /\ Permutation (concat groups) players
  /\ StronglySorted lt (map fst (seeds entries))
  /\ Forall (fun g =>
       exists seed members,
         g = seed :: members
         /\ Forall (fun e =>
              fst seed < fst e
              /\ (SIMILARITY_THRESHOLDS SIMILARITY_LEVEL
                  <= compareTwoStrings
                       (cleanName_ normalizeNFD (name (snd seed)))
                       (cleanName_ normalizeNFD (name (snd e))))%Q)
              members) entries
  /\ sumZ (map sumAttendance groups) = sumZ (map attendance players)
  /\ (exists cs, map V4.consolidateGroup groups = map Some cs
                 /\ sumZ (map totalAttendance cs)
                    = sumZ (map attendance players))
  /\ ((forall p, In p players ->
         exists v, In v (variationsOf p) /\ v <> js "__proto__") ->
      exists cs, map (V5.consolidateGroup functionSource) groups = map Some cs
                 /\ sumZ (map totalAttendance cs)
                    = sumZ (map attendance players))
  /\ (forall cs, map (V5.consolidateGroup functionSource) groups
                 = map Some cs ->
                 sumZ (map totalAttendance cs)
                 = sumZ (map attendance players)).
Proof.
  intros entries groups.
  pose proof (groupEntries_Permutation normalizeNFD compareTwoStrings players)
    as [Hperm Hnd].
  destruct (groupEntries_clustered normalizeNFD compareTwoStrings players)
    as (processed & (_ & _ & _ & Hs) & _ & Hss).
  pose proof (groupSimilarPlayers_nonempty normalizeNFD compareTwoStrings players)
    as Hne.
  pose proof (groupSimilarPlayers_sum normalizeNFD compareTwoStrings players)
    as Hsum.
  fold groups in Hne, Hsum. fold entries in Hperm, Hnd, Hs, Hss.
  split; [exact Hperm|]. split; [exact Hnd|].
  split; [apply groupSimilarPlayers_Permutation|]. split; [exact Hss|].
  split; [|split; [|split; [|split]]].
  - eapply Forall_impl; [|exact Hs].
    intros g (seed & members & -> & Hm). exists seed, members.
    split; [reflexivity|]. eapply Forall_impl; [|exact Hm].
    intros e [Hlt Hsim]. split; [assumption|].
    unfold similar in Hsim. now apply Qle_bool_iff in Hsim.
  - rewrite <- Hsum. f_equal. apply map_ext. intros g. apply sumAttendance_sum.
  - destruct (V4_consolidate_all groups) as (cs & Hcs & Ht).
    + eapply Forall_impl; [|exact Hne]. now intros g [H _].
    + exists cs. split; [assumption|]. now rewrite Ht.
  - intros Hv.
    destruct (V5_consolidate_all functionSource groups) as (cs & Hcs & Ht).
    + eapply Forall_impl; [|exact Hne]. intros g [Hg Hin].
      destruct g as [|p g]; [contradiction|].
      destruct (Hv p (Hin p (or_introl eq_refl))) as (v & Hin' & Hp).
      exists v. split; [|exact Hp]. simpl. apply in_or_app. now left.
    + exists cs. split; [assumption|]. now rewrite Ht.
  - intros cs Hcs.
    now rewrite (V5_consolidate_totals functionSource groups cs Hcs).
Qed.

Lemma groupSimilarPlayers_partition_witness :
  exists cs,
    map (V5.consolidateGroup sampleSource)
        (groupSimilarPlayers sampleNFD sampleCompare sampleRanking)
      = map Some cs
    /\ sumZ (map totalAttendance cs) = 11%Z.
Proof.
  destruct (groupSimilarPlayers_partition sampleNFD sampleCompare sampleSource
              sampleRanking)
    as (_ & _ & _ & _ & _ & _ & _ & H & _).
  apply H. intros p Hp. vm_compute in Hp.
  repeat (destruct Hp as [<-|Hp];
          [eexists; split; [now left | discriminate]|]).
  destruct Hp.
Defined.

End GroupingFacts.


(* ===================================================================== *)
(** * WhatsAppParser: message assembly *)
(* ===================================================================== *)

Module AssemblyFacts.

Import WhatsAppParser Vocabulary.

Lemma messageMatch_empty : messageMatch [] = None.
Proof. reflexivity. Qed.

(** The three cases of one iteration. *)
Lemma assembleLine_blank (a : Assembly) (l : jsstring) :
  isBlank l = true -> assembleLine a l = a.
Proof.
  unfold isBlank, assembleLine. destruct (trim l); [reflexivity | discriminate].
Qed.

Lemma assembleLine_header (a : Assembly) (l : jsstring) :
  isBlank l = false -> isHeader l = true ->
  assembleLine a l =
    {| messages := flush a; currentMessage := Some (headerMessage l) |}.
Proof.
  unfold isBlank, isHeader, headerMessage, assembleLine.
  destruct (trim l) as [|c t]; [discriminate|]. intros _.
  destruct (messageMatch (c :: t)); [reflexivity | discriminate].
Qed.

Lemma assembleLine_other (a : Assembly) (l : jsstring) :
  isBlank l = false -> isHeader l = false ->
  assembleLine a l =
    match currentMessage a with
    | Some m => {| messages := messages a;
                   currentMessage := Some (continueMessage m (trim l)) |}
    | None => a
    end.
Proof.
  unfold isBlank, isHeader, assembleLine.
  destruct (trim l) as [|c t]; [discriminate|]. intros _.
  destruct (messageMatch (c :: t)); [discriminate | reflexivity].
Qed.

Lemma isBlank_not_header (l : jsstring) : isBlank l = true -> isHeader l = false.
Proof.
  unfold isBlank, isHeader. destruct (trim l); [reflexivity | discriminate].
Qed.

Lemma assemble_fold (lines : list jsstring) (a : Assembly) :
  flush (fold_left assembleLine lines a)
  = messages a ++ buffered (currentMessage a) (fst (segments lines))
      ++ map messageOf (snd (segments lines)).
Proof.
  revert a. induction lines as [|l lines IH]; intros a.
  - simpl. unfold flush, buffered. destruct (currentMessage a); simpl.
    + reflexivity.
    + now rewrite app_nil_r.
  - simpl fold_left. simpl segments.
    destruct (segments lines) as [lead segs]. simpl in IH.
    destruct (isBlank l) eqn:Hb.
    + rewrite (assembleLine_blank a l Hb). now rewrite IH.
    + destruct (isHeader l) eqn:Hh.
      * rewrite (assembleLine_header a l Hb Hh), IH. simpl.
        unfold flush, buffered, messageOf. simpl.
        destruct (currentMessage a); simpl; now rewrite <- ?app_assoc.
      * rewrite (assembleLine_other a l Hb Hh).
        destruct (currentMessage a) eqn:Ec; rewrite IH; simpl;
          rewrite ?Ec; reflexivity.
Qed.

(** The assembler computes the messages of the segments. *)
Lemma assemble_segments (before : list WhatsAppMessage) (lines : list jsstring) :
  assemble before lines = before ++ map messageOf (snd (segments lines)).
Proof. unfold assemble. now rewrite assemble_fold. Qed.

Lemma segments_count (lines : list jsstring) :
  length (snd (segments lines)) = length (filter isHeader lines).
Proof.
  induction lines as [|l lines IH]; simpl; [reflexivity|].
  destruct (segments lines) as [lead segs]. simpl in IH.
  destruct (isBlank l) eqn:Hb.
  - now rewrite (isBlank_not_header l Hb).
  - destruct (isHeader l); simpl; now rewrite IH.
Qed.

(** Segments of a text cut in front of a header, or at its end. *)
Lemma segments_app (l1 l2 : list jsstring) :
  fst (segments l2) = [] ->
  segments (l1 ++ l2)
  = (fst (segments l1), snd (segments l1) ++ snd (segments l2)).
Proof.
  intros H. induction l1 as [|l l1 IH]; simpl.
  - rewrite <- H. now destruct (segments l2).
  - rewrite IH. destruct (segments l1) as [lead segs]. simpl.
    destruct (isBlank l); [reflexivity|]. destruct (isHeader l); reflexivity.
Qed.

Lemma segments_continuation (conts post : list jsstring) :
  Forall (fun l => isHeader l = false) conts ->
  segments (conts ++ post)
  = (filter (fun l => negb (isBlank l)) conts ++ fst (segments post),
     snd (segments post)).
Proof.
  induction 1 as [|l conts Hl _ IH]; simpl.
  - now destruct (segments post).
  - rewrite IH. rewrite Hl. destruct (isBlank l); reflexivity.
Qed.

Lemma segments_blank (l1 l2 : list jsstring) (blank : jsstring) :
  isBlank blank = true -> segments (l1 ++ blank :: l2) = segments (l1 ++ l2).
Proof.
  intros Hb. induction l1 as [|l l1 IH]; simpl.
  - rewrite Hb. now destruct (segments l2).
  - now rewrite IH.
Qed.

Lemma messageOf_fields (h : jsstring) (conts : list jsstring) :
  timestamp (messageOf (h, conts)) = timestamp (headerMessage h)
  /\ sender (messageOf (h, conts)) = sender (headerMessage h)
  /\ content (messageOf (h, conts))
     = content (headerMessage h) ++ continuation conts
  /\ rawMessage (messageOf (h, conts))
     = rawMessage (headerMessage h) ++ continuation conts.
Proof.
  unfold messageOf. simpl. generalize (headerMessage h).
  induction conts as [|c conts IH]; intros m; simpl.
  - unfold continuation. simpl. now rewrite !app_nil_r.
  - destruct (IH (continueMessage m (trim c))) as (Ht & Hs & Hc & Hr).
    rewrite Ht, Hs, Hc, Hr. unfold continuation. simpl.
    now rewrite <- !app_assoc.
Qed.

(** C7.  Message assembly.  The assembler appends to the messages already
    held one message per header line, so a new parser returns as many
    messages as there are header lines; the message of a header carries the
    header's timestamp and sender, and as content and raw text those of the
    header followed by every non-blank line up to the next header, each after
    a line feed, in order; lines before the first header are dropped, a blank
    line changes nothing, and the last message is flushed at the end. *)
Theorem assemble_messages :
  (forall before lines,
      assemble before lines = before ++ map messageOf (snd (segments lines)))
  /\ (forall lines,
      length (assemble [] lines) = length (filter isHeader lines))
  /\ (forall pre h conts post,
      isHeader h = true ->
      Forall (fun l => isHeader l = false) conts ->
      (post = [] \/ exists h' post', post = h' :: post' /\ isHeader h' = true) ->
      assemble [] (pre ++ h :: conts ++ post)
      = assemble [] pre
          ++ [messageOf (h, filter (fun l => negb (isBlank l)) conts)]
          ++ assemble [] post)
  /\ (forall h conts,
      timestamp (messageOf (h, conts)) = timestamp (headerMessage h)
      /\ sender (messageOf (h, conts)) = sender (headerMessage h)
      /\ content (messageOf (h, conts))
         = content (headerMessage h) ++ continuation conts
      /\ rawMessage (messageOf (h, conts))
         = rawMessage (headerMessage h) ++ continuation conts)
  /\ (forall pre rest,
      Forall (fun l => isHeader l = false) pre ->
      assemble [] (pre ++ rest) = assemble [] rest)
  /\ (forall before l1 blank l2,
      isBlank blank = true ->
      assemble before (l1 ++ blank :: l2) = assemble before (l1 ++ l2)).
Proof.
  split; [|split; [|split; [|split; [|split]]]].
  - apply assemble_segments.
  - intros lines. rewrite assemble_segments. simpl.
    rewrite length_map. apply segments_count.
  - intros pre h conts post Hh Hc Hpost.
    assert (Hb : isBlank h = false).
    { destruct (isBlank h) eqn:E; [|reflexivity].
      apply isBlank_not_header in E. congruence. }
    assert (Hp : fst (segments post) = []).
    { destruct Hpost as [->|(h' & post' & -> & Hh')]; [reflexivity|].
      simpl. destruct (segments post'). 
      destruct (isBlank h') eqn:E.
      - apply isBlank_not_header in E. congruence.
      - now rewrite Hh'. }
    rewrite !assemble_segments. simpl.
    rewrite segments_app.
    + simpl. rewrite (segments_continuation conts post Hc).
      rewrite Hb, Hh, Hp, app_nil_r. simpl. now rewrite map_app.
    + simpl. rewrite (segments_continuation conts post Hc).
      now rewrite Hb, Hh.
  - apply messageOf_fields.
  - intros pre rest Hpre. rewrite !assemble_segments. simpl. f_equal.
    now rewrite (segments_continuation pre rest Hpre).
  - intros before l1 blank l2 Hb. rewrite !assemble_segments.
    now rewrite (segments_blank l1 l2 blank Hb).
Qed.

Lemma assemble_messages_witness :
  map (fun m => (sender m, content m))
      (parseFile [] (Some (js "aviso sin fecha
[25/07/25, 12:13:12 p. m.] Ana: Pichanga viernes

1. Juan
[25/07/25, 12:14:00 p. m.] Luis: voy")))
  = [ (js "Ana", js "Pichanga viernes" ++ [10%N] ++ js "1. Juan");
      (js "Luis", js "voy") ].
Proof.
  destruct assemble_messages as (_ & _ & H & _).
  unfold parseFile.
  set (h1 := js "[25/07/25, 12:13:12 p. m.] Ana: Pichanga viernes").
  set (h2 := js "[25/07/25, 12:14:00 p. m.] Luis: voy").
  replace (split 10 _)
    with ([js "aviso sin fecha"] ++ h1 :: [[]; js "1. Juan"] ++ [h2])
    by (vm_compute; reflexivity).
  rewrite H.
  - vm_compute. reflexivity.
  - vm_compute. reflexivity.
  - repeat constructor.
  - right. exists h2, []. split; [reflexivity | vm_compute; reflexivity].
Defined.

End AssemblyFacts.


(* ===================================================================== *)
(** * trim and toLowerCase *)
(* ===================================================================== *)

Module TrimFacts.

Import PlayerFacts.

(** Units outside the capitals that the model covers are their own lower
    case. *)
Lemma lowerUnit_fixed (c : N) :
  ~ (65 <= c <= 90)%N -> ~ (192 <= c <= 222)%N ->
  c <> 304%N -> c <> 376%N -> c <> 7838%N -> c <> 8490%N -> c <> 8491%N ->
  lowerUnit c = [c].
Proof.
  intros H1 H2 H3 H4 H5 H6 H7. unfold lowerUnit.
  destruct ((65 <=? c) && (c <=? 90))%N eqn:E1.
  { apply andb_true_iff in E1. rewrite !N.leb_le in E1. lia. }
  destruct ((192 <=? c) && (c <=? 222) && negb (c =? 215))%N eqn:E2.
  { rewrite !andb_true_iff, !N.leb_le in E2. lia. }
  destruct (N.eqb_spec c 304); [contradiction|].
  destruct (N.eqb_spec c 376); [contradiction|].
  destruct (N.eqb_spec c 7838); [contradiction|].
  destruct (N.eqb_spec c 8490); [contradiction|].
  destruct (N.eqb_spec c 8491); [contradiction|].
  reflexivity.
Qed.

Lemma isWhiteSpace_spec (c : N) :
  isWhiteSpace c = true <->
  ((9 <= c <= 13) \/ c = 32 \/ c = 160 \/ c = 5760 \/ (8192 <= c <= 8202)
   \/ c = 8232 \/ c = 8233 \/ c = 8239 \/ c = 8287 \/ c = 12288
   \/ c = 65279)%N.
Proof.
  unfold isWhiteSpace.
  rewrite !orb_true_iff, !andb_true_iff, !N.leb_le, !N.eqb_eq. tauto.
Qed.

Lemma lowerUnit_whitespace (c : N) :
  isWhiteSpace c = true -> lowerUnit c = [c].
Proof.
  intros H. apply isWhiteSpace_spec in H. apply lowerUnit_fixed; lia.
Qed.

Lemma toLowerCase_app (a b : jsstring) :
  toLowerCase (a ++ b) = toLowerCase a ++ toLowerCase b.
Proof. unfold toLowerCase. apply flat_map_app. Qed.

Lemma toLowerCase_whitespace (ws : jsstring) :
  Forall (fun c => isWhiteSpace c = true) ws -> toLowerCase ws = ws.
Proof.
  induction 1 as [|c ws Hc _ IH]; [reflexivity|].
  rewrite toLowerCase_cons, IH, (lowerUnit_whitespace c Hc). reflexivity.
Qed.

Lemma trimStart_whitespace (ws s : jsstring) :
  Forall (fun c => isWhiteSpace c = true) ws ->
  trimStart (ws ++ s) = trimStart s.
Proof. induction 1 as [|c ws Hc _ IH]; simpl; [reflexivity | now rewrite Hc]. Qed.

Lemma trimStart_fixed (c : N) (s : jsstring) :
  isWhiteSpace c = false -> trimStart (c :: s) = c :: s.
Proof. intros H. simpl. now rewrite H. Qed.

(** [trimStart] removes a run of white space and stops at a unit that is
    not white space. *)
Lemma trimStart_split (s : jsstring) :
  exists ws, s = ws ++ trimStart s
             /\ Forall (fun c => isWhiteSpace c = true) ws
             /\ match trimStart s with
                | c :: _ => isWhiteSpace c = false
                | [] => True
                end.
Proof.
  induction s as [|c s (ws & Hs & Hws & Hhd)]; simpl.
  - exists []. repeat split. constructor.
  - destruct (isWhiteSpace c) eqn:E.
    + exists (c :: ws). simpl. split; [now f_equal|]. split; [|assumption].
      now constructor.
    + exists []. repeat split; [constructor | assumption].
Qed.

Lemma trimEnd_whitespace (s ws : jsstring) :
  Forall (fun c => isWhiteSpace c = true) ws ->
  trimEnd (s ++ ws) = trimEnd s.
Proof.
  intros H. unfold trimEnd. rewrite rev_app_distr.
  rewrite trimStart_whitespace; [reflexivity|].
  apply Forall_rev. assumption.
Qed.

Lemma trimEnd_split (s : jsstring) :
  exists ws, s = trimEnd s ++ ws
             /\ Forall (fun c => isWhiteSpace c = true) ws.
Proof.
  destruct (trimStart_split (rev s)) as (ws & Hs & Hws & _).
  exists (rev ws). split; [|now apply Forall_rev].
  unfold trimEnd. rewrite <- rev_app_distr, <- Hs. symmetry. apply rev_involutive.
Qed.

Lemma trimEnd_nil_whitespace (ws : jsstring) :
  Forall (fun c => isWhiteSpace c = true) ws -> trimEnd ws = [].
Proof.
  intros H. change ws with ([] ++ ws). now rewrite trimEnd_whitespace.
Qed.

(** White space around a text does not change what [trim] returns. *)
Lemma trim_whitespace_around (ws1 s ws2 : jsstring) :
  Forall (fun c => isWhiteSpace c = true) ws1 ->
  Forall (fun c => isWhiteSpace c = true) ws2 ->
  trim (ws1 ++ s ++ ws2) = trim s.
Proof.
  intros H1 H2. unfold trim. rewrite (trimStart_whitespace ws1 _ H1).
  destruct (trimStart_split s) as (ws & Hs & Hws & Hhd).
  destruct (trimStart s) as [|c t] eqn:E.
  - rewrite app_nil_r in Hs. subst s.
    rewrite trimStart_whitespace by assumption.
    assert (Hn : trimStart ws2 = []).
    { rewrite <- (app_nil_r ws2). now rewrite trimStart_whitespace. }
    now rewrite Hn.
  - rewrite Hs at 1. rewrite <- app_assoc.
    rewrite trimStart_whitespace by assumption.
    change ((c :: t) ++ ws2) with (c :: (t ++ ws2)).
    rewrite trimStart_fixed by assumption.
    change (c :: t ++ ws2) with ((c :: t) ++ ws2).
    now apply trimEnd_whitespace.
Qed.

(** The result of [trim] neither starts nor ends with white space. *)
Lemma trim_ends (s : jsstring) :
  match trim s with
  | c :: _ => isWhiteSpace c = false
  | [] => True
  end
  /\ match rev (trim s) with
     | c :: _ => isWhiteSpace c = false
     | [] => True
     end.
Proof.
  unfold trim.
  destruct (trimStart_split s) as (_ & _ & _ & Hhd).
  destruct (trimEnd_split (trimStart s)) as (ws & Hs & _).
  destruct (trimStart_split (rev (trimStart s))) as (_ & _ & _ & Hlast).
  split.
  - destruct (trimEnd (trimStart s)) as [|c t]; [exact I|].
    rewrite Hs in Hhd. exact Hhd.
  - unfold trimEnd. rewrite rev_involutive. exact Hlast.
Qed.

Lemma trim_fixed (s : jsstring) :
  match s with c :: _ => isWhiteSpace c = false | [] => True end ->
  match rev s with c :: _ => isWhiteSpace c = false | [] => True end ->
  trim s = s.
Proof.
  intros Hhd Hlast. unfold trim.
  assert (Hs : trimStart s = s).
  { destruct s as [|c t]; [reflexivity | now apply trimStart_fixed]. }
  rewrite Hs. unfold trimEnd.
  assert (Hr : trimStart (rev s) = rev s).
  { destruct (rev s) as [|c t]; [reflexivity | now apply trimStart_fixed]. }
  rewrite Hr. apply rev_involutive.
Qed.

Lemma trim_idempotent (s : jsstring) : trim (trim s) = trim s.
Proof. destruct (trim_ends s). now apply trim_fixed. Qed.

End TrimFacts.

(* ===================================================================== *)
(** * MessageFilter: allowed days and the events of a message *)
(* ===================================================================== *)

Module DayFacts.

Import MessageFilter Vocabulary TrimFacts.

(** The day, lower-cased and trimmed, as both functions compute it. *)
Lemma day_whitespace_around (ws1 day ws2 : jsstring) :
  Forall (fun c => isWhiteSpace c = true) ws1 ->
  Forall (fun c => isWhiteSpace c = true) ws2 ->
  trim (toLowerCase (ws1 ++ day ++ ws2)) = trim (toLowerCase day).
Proof.
  intros H1 H2. rewrite !toLowerCase_app.
  rewrite (toLowerCase_whitespace ws1 H1), (toLowerCase_whitespace ws2 H2).
  now apply trim_whitespace_around.
Qed.

Lemma isAllowedDay_spec (day : jsstring) :
  isAllowedDay day = true <->
  In (trim (toLowerCase day))
     [js "viernes"; js "vienes"; js "miércoles"; js "miercoles"].
Proof.
  unfold isAllowedDay. rewrite existsb_exists. split.
  - intros (a & Ha & E). apply eqb_eq in E. rewrite <- E.
    unfold allowedDays in Ha. simpl in Ha.
    repeat (destruct Ha as [<-|Ha]; [vm_compute; tauto|]). destruct Ha.
  - intros H. exists (trim (toLowerCase day)). split.
    + simpl in H. repeat (destruct H as [<-|H]; [vm_compute; tauto|]). destruct H.
    + apply eqb_eq. simpl in H.
      repeat (destruct H as [<-|H]; [vm_compute; reflexivity|]). destruct H.
Qed.

(** An allowed day is normalised to one of the two canonical names; the
    inherited properties of the mapping object are never reached. *)
Lemma normalizeDayName_allowed (day : jsstring) :
  isAllowedDay day = true ->
  normalizeDayName day = DayText (js "viernes")
  \/ normalizeDayName day = DayText (js "miércoles").
Proof.
  intros H. apply isAllowedDay_spec in H. unfold normalizeDayName.
  simpl in H.
  repeat (destruct H as [<-|H]; [vm_compute; tauto|]). destruct H.
Qed.

(** X1.  Day names.  [normalizeDayName] and [isAllowedDay] look only at the
    lower-cased day and ignore white space around it; the allowed days are
    viernes, vienes, miércoles and miercoles in any letter case; the first
    two are normalised to viernes and the last two to miércoles; lunes is
    not allowed. *)
Theorem day_names_normalized :
  (forall d1 d2 : jsstring,
      toLowerCase d1 = toLowerCase d2 ->
      normalizeDayName d1 = normalizeDayName d2
      /\ isAllowedDay d1 = isAllowedDay d2)
  /\ (forall ws1 day ws2 : jsstring,
      Forall (fun c => isWhiteSpace c = true) ws1 ->
      Forall (fun c => isWhiteSpace c = true) ws2 ->
      normalizeDayName (ws1 ++ day ++ ws2) = normalizeDayName day
      /\ isAllowedDay (ws1 ++ day ++ ws2) = isAllowedDay day)
  /\ (forall day : jsstring,
      isAllowedDay day = true <->
      In (trim (toLowerCase day))
         [js "viernes"; js "vienes"; js "miércoles"; js "miercoles"])
  /\ (forall day : jsstring,
      (In (trim (toLowerCase day)) [js "viernes"; js "vienes"] ->
       normalizeDayName day = DayText (js "viernes"))
      /\ (In (trim (toLowerCase day)) [js "miércoles"; js "miercoles"] ->
          normalizeDayName day = DayText (js "miércoles")))
  /\ isAllowedDay (js "lunes") = false.
Proof.
  split; [|split; [|split; [|split]]].
  - intros d1 d2 H. unfold normalizeDayName, isAllowedDay. now rewrite H.
  - intros ws1 day ws2 H1 H2. unfold normalizeDayName, isAllowedDay.
    now rewrite (day_whitespace_around ws1 day ws2 H1 H2).
  - apply isAllowedDay_spec.
  - intros day. unfold normalizeDayName. split; intros H; simpl in H;
      repeat (destruct H as [<-|H]; [reflexivity|]); destruct H.
  - reflexivity.
Qed.

Lemma day_names_normalized_witness :
  normalizeDayName (js "  MIERCOLES ") = DayText (js "miércoles")
  /\ normalizeDayName (js "Miércoles") = DayText (js "miércoles")
  /\ isAllowedDay (js " Vienes") = true.
Proof.
  destruct day_names_normalized as (_ & _ & Hallowed & Hcanon & _).
  split; [|split].
  - apply (proj2 (Hcanon (js "  MIERCOLES "))). vm_compute. tauto.
  - apply (proj2 (Hcanon (js "Miércoles"))). vm_compute. tauto.
  - apply Hallowed. vm_compute. tauto.
Defined.

(** X2.  The day gate of [parseEventFromMessage].  A message yields an event
    exactly when the day extracted from it is allowed.  The event then
    carries the canonical day, viernes or miércoles, the date text of the
    message's timestamp, the extracted roster with its length, and the
    message itself. *)
Theorem parseEventFromMessage_gate (message : WhatsAppMessage) :
  (isAllowedDay (xDay (extract message)) = false ->
   parseEventFromMessage message = None)
  /\ (isAllowedDay (xDay (extract message)) = true ->
      exists ev,
        parseEventFromMessage message = Some ev
        /\ (dayOfWeek ev = js "viernes" \/ dayOfWeek ev = js "miércoles")
        /\ normalizeDayName (xDay (extract message)) = DayText (dayOfWeek ev)
        /\ eventDate ev = extractDateFromTimestamp (timestamp message)
        /\ players ev = xPlayers (extract message)
        /\ totalPlayers ev = length (players ev)
        /\ messageTimestamp ev = timestamp message
        /\ originalMessage ev = message).
Proof.
  unfold parseEventFromMessage. split; intros H; rewrite H; simpl.
  - reflexivity.
  - destruct (normalizeDayName_allowed _ H) as [Hn|Hn]; rewrite Hn;
      eexists; (split; [reflexivity|]); simpl; repeat split; auto.
Qed.

Lemma parseEventFromMessage_gate_witness :
  parseEventFromMessage
    {| timestamp := js "25/07/25, 12:13:12 p. m."; sender := js "Ana";
       content := js "Pichanga" ++ [10%N] ++ js "Día: lunes";
       rawMessage := [] |} = None
  /\ option_map dayOfWeek
       (parseEventFromMessage
          {| timestamp := js "25/07/25, 12:13:12 p. m."; sender := js "Ana";
             content := js "Pichanga" ++ [10%N] ++ js "DÍA:  Miercoles "
                        ++ [10%N] ++ js "1. - Juan";
             rawMessage := [] |}) = Some (js "miércoles").
Proof.
  split.
  - apply parseEventFromMessage_gate. vm_compute. reflexivity.
  - match goal with
    | |- option_map _ (parseEventFromMessage ?m) = _ =>
      destruct (proj2 (parseEventFromMessage_gate m)) as (ev & Hev & _ & Hd & _)
    end.
    + vm_compute. reflexivity.
    + rewrite Hev. simpl. f_equal.
      match type of Hd with
      | ?l = _ => assert (Hn : l = DayText (js "miércoles"))
                    by (vm_compute; reflexivity)
      end.
      rewrite Hn in Hd. now injection Hd as <-.
Defined.

(** *** Lines with a label *)

Lemma lowerUnit_cases (c : N) :
  (lowerUnit c = [(c + 32)%N]
   /\ ((65 <= c <= 90)%N \/ ((192 <= c <= 222)%N /\ c <> 215%N)))
  \/ (c = 304%N /\ lowerUnit c = [105; 775]%N)
  \/ (c = 376%N /\ lowerUnit c = [255]%N)
  \/ (c = 7838%N /\ lowerUnit c = [223]%N)
  \/ (c = 8490%N /\ lowerUnit c = [107]%N)
  \/ (c = 8491%N /\ lowerUnit c = [229]%N)
  \/ lowerUnit c = [c].
Proof.
  unfold lowerUnit.
  destruct ((65 <=? c) && (c <=? 90))%N eqn:E1.
  { left. split; [reflexivity|]. left.
    apply andb_true_iff in E1. now rewrite !N.leb_le in E1. }
  destruct ((192 <=? c) && (c <=? 222) && negb (c =? 215))%N eqn:E2.
  { left. split; [reflexivity|]. right.
    rewrite !andb_true_iff, !N.leb_le, negb_true_iff, N.eqb_neq in E2. tauto. }
  destruct (N.eqb_spec c 304); [tauto|].
  destruct (N.eqb_spec c 376); [tauto|].
  destruct (N.eqb_spec c 7838); [tauto|].
  destruct (N.eqb_spec c 8490); [tauto|].
  destruct (N.eqb_spec c 8491); [tauto|].
  repeat right. reflexivity.
Qed.

(** The units whose lower case is a given unit of a label: the unit and, for
    a letter, its capital. *)
Lemma lowerUnit_label (c t : N) :
  lowerUnit c = [t] ->
  t <> 107%N -> t <> 229%N -> t <> 255%N -> t <> 223%N ->
  c = t \/ (c = (t - 32)%N
            /\ ((97 <= t <= 122)%N \/ ((224 <= t <= 254)%N /\ t <> 247%N))).
Proof.
  intros H Hk Ha Hy Hs.
  destruct (lowerUnit_cases c)
    as [[Hc Hr]|[[-> Hc]|[[-> Hc]|[[-> Hc]|[[-> Hc]|[[-> Hc]|Hc]]]]]];
    rewrite Hc in H; injection H as H; try discriminate; subst; lia.
Qed.

Lemma startsWith_lower_cons (c : N) (t : jsstring) (y : N) (p : jsstring) :
  startsWith (toLowerCase (c :: t)) (y :: p) = true ->
  y <> 105%N ->
  lowerUnit c = [y] /\ startsWith (toLowerCase t) p = true.
Proof.
  rewrite PlayerFacts.toLowerCase_cons. intros H Hy.
  destruct (PlayerFacts.lowerUnit_shape c) as [[z Hz]|Hz]; rewrite Hz in *;
    simpl in H; apply andb_true_iff in H as [H1 H2]; apply N.eqb_eq in H1.
  - subst z. split; [reflexivity | assumption].
  - contradiction.
Qed.

Lemma startsWith_nil_false (y : N) (p : jsstring) :
  startsWith (toLowerCase []) (y :: p) = false.
Proof. reflexivity. Qed.

(** Splits a text whose lower case starts with a label into the units under
    the label and the rest. *)
Ltac label_units H :=
  repeat match type of H with
         | startsWith (toLowerCase ?t) (_ :: _) = true =>
           destruct t as [|?c ?t];
           [rewrite startsWith_nil_false in H; discriminate|];
           let Hu := fresh "Hu" in
           apply startsWith_lower_cons in H as [Hu H]; [|discriminate];
           apply lowerUnit_label in Hu; try discriminate
         end.

(** A text that starts with the label, letter case aside, loses exactly
    those units. *)
Lemma run_texti (R : Type) (label prefix : jsstring) :
  Forall2 (fun c y => N.eqb (canonicalize c) (canonicalize y) = true)
          prefix label ->
  forall (t pre : jsstring) (caps : list jsstring)
         (k : jsstring -> jsstring -> list jsstring -> option R),
    run (texti label) pre (prefix ++ t) caps k = k (rev prefix ++ pre) t caps.
Proof.
  induction 1 as [|c y prefix label Hc Hrest IH]; intros t pre caps k.
  - reflexivity.
  - unfold texti in *. cbn [map seq].
    destruct (map liti label) as [|r rs] eqn:E.
    + destruct label; [|discriminate]. inversion Hrest; subst.
      cbn [app run liti]. unfold liti. cbn [run]. now rewrite Hc.
    + cbn [app]. cbn [run]. unfold liti at 1. cbn [run]. rewrite Hc.
      rewrite IH. cbn [rev]. now rewrite <- app_assoc.
Qed.

Lemma afterLabel_prefix (label prefix t : jsstring) :
  Forall2 (fun c y => N.eqb (canonicalize c) (canonicalize y) = true)
          prefix label ->
  afterLabel label (prefix ++ t) = trim t.
Proof.
  intros H. unfold afterLabel, replaceFirst, exec. f_equal.
  assert (Hm : matchHere (texti label) [] (prefix ++ t)
               = Some {| captures := [];
                         matched := rev (firstn (length (rev prefix ++ [])
                                                 - length (@nil N))
                                           (rev prefix ++ []));
                         rest := t |}).
  { unfold matchHere. now rewrite (run_texti _ _ _ H). }
  destruct (prefix ++ t); simpl; rewrite Hm; reflexivity.
Qed.

(** Closes the comparison of a unit of the text with a unit of the label. *)
Ltac label_unit :=
  match goal with
  | Hu : ?c = _ \/ _ |- N.eqb (canonicalize ?c) _ = true =>
    destruct Hu as [->|[-> ?]]; first [reflexivity | lia]
  end.

Lemma afterLabel_dia (t : jsstring) :
  startsWith (toLowerCase t) (js "día:") = true ->
  afterLabel (js "día:") t = trim (skipn 4 t).
Proof.
  intros H. change (js "día:") with [100; 237; 97; 58]%N in *.
  label_units H.
  change (afterLabel [100; 237; 97; 58]%N ([c; c0; c1; c2] ++ t)
          = trim t).
  apply afterLabel_prefix. repeat (constructor; [label_unit|]). constructor.
Qed.

Lemma afterLabel_hora (t : jsstring) :
  startsWith (toLowerCase t) (js "hora:") = true ->
  afterLabel (js "hora:") t = trim (skipn 5 t).
Proof.
  intros H. change (js "hora:") with [104; 111; 114; 97; 58]%N in *.
  label_units H.
  change (afterLabel [104; 111; 114; 97; 58]%N ([c; c0; c1; c2; c3] ++ t)
          = trim t).
  apply afterLabel_prefix. repeat (constructor; [label_unit|]). constructor.
Qed.

Lemma afterLabel_lugar (t : jsstring) :
  startsWith (toLowerCase t) (js "lugar:") = true ->
  afterLabel (js "lugar:") t = trim (skipn 6 t).
Proof.
  intros H. change (js "lugar:") with [108; 117; 103; 97; 114; 58]%N in *.
  label_units H.
  change (afterLabel [108; 117; 103; 97; 114; 58]%N
            ([c; c0; c1; c2; c3; c4] ++ t)
          = trim t).
  apply afterLabel_prefix. repeat (constructor; [label_unit|]). constructor.
Qed.

Lemma labelLine_nonblank (label rawLine : jsstring) (y : N) (p : jsstring) :
  label = y :: p -> labelLine label rawLine = true -> trim rawLine <> [].
Proof.
  intros -> H E. unfold labelLine in H. rewrite E in H.
  simpl in H. discriminate.
Qed.

(** The three labels start with different letters. *)
Lemma labels_exclusive (lower : jsstring) :
  (startsWith lower (js "día:") = true ->
   startsWith lower (js "hora:") = false
   /\ startsWith lower (js "lugar:") = false)
  /\ (startsWith lower (js "hora:") = true ->
      startsWith lower (js "día:") = false
      /\ startsWith lower (js "lugar:") = false)
  /\ (startsWith lower (js "lugar:") = true ->
      startsWith lower (js "día:") = false
      /\ startsWith lower (js "hora:") = false).
Proof.
  destruct lower as [|c lower]; [repeat split; discriminate|].
  change (js "día:") with (100 :: js "ía:")%N.
  change (js "hora:") with (104 :: js "ora:")%N.
  change (js "lugar:") with (108 :: js "ugar:")%N.
  cbn [startsWith].
  destruct (N.eqb_spec 100 c), (N.eqb_spec 104 c), (N.eqb_spec 108 c);
    try lia; repeat split; simpl; congruence.
Qed.

(** What one line does to the three labelled fields. *)
Lemma extractLine_fields (x : Extraction) (l : jsstring) :
  xDay (extractLine x l)
  = (if labelLine (js "día:") l then afterUnits 4 l else xDay x)
  /\ xTime (extractLine x l)
     = (if labelLine (js "hora:") l then afterUnits 5 l else xTime x)
  /\ xLocation (extractLine x l)
     = (if labelLine (js "lugar:") l then afterUnits 6 l else xLocation x).
Proof.
  unfold extractLine, labelLine, afterUnits.
  destruct (trim l) as [|c t] eqn:Et.
  - repeat split; reflexivity.
  - set (lower := toLowerCase (c :: t)).
    destruct (includes lower (js "pichanga") || includes lower (js "ipi"));
      simpl; [repeat split; reflexivity|].
    destruct (labels_exclusive lower) as (Hd & Hh & Hl).
    destruct (startsWith lower (js "día:")) eqn:Ed.
    { destruct (Hd eq_refl) as [-> ->]. simpl.
      rewrite (afterLabel_dia (c :: t) Ed). repeat split; reflexivity. }
    destruct (startsWith lower (js "hora:")) eqn:Eh.
    { destruct (Hh eq_refl) as [_ ->]. simpl.
      rewrite (afterLabel_hora (c :: t) Eh). repeat split; reflexivity. }
    destruct (startsWith lower (js "lugar:")) eqn:El.
    { simpl. rewrite (afterLabel_lugar (c :: t) El). repeat split; reflexivity. }
    destruct (test playerLineTest (c :: t)); [|repeat split; reflexivity].
    destruct (match_ playerLinePattern (c :: t)); [|repeat split; reflexivity].
    destruct (trim (replaceFirst editedMark [] (trim (nth 0 l0 []))));
      [repeat split; reflexivity|].
    destruct (eqb _ _); repeat split; reflexivity.
Qed.

(** One line leaves the roster as it is or appends one token to it. *)
Lemma extractLine_players (x : Extraction) (l : jsstring) :
  xPlayers (extractLine x l) = xPlayers x
  \/ exists p, xPlayers (extractLine x l) = xPlayers x ++ [p]
               /\ Vocabulary.rosterToken p.
Proof.
  unfold extractLine.
  destruct (trim l) as [|c t]; [now left|].
  destruct (includes _ _ || includes _ _); [now left|].
  destruct (startsWith _ (js "día:")); [now left|].
  destruct (startsWith _ (js "hora:")); [now left|].
  destruct (startsWith _ (js "lugar:")); [now left|].
  destruct (test playerLineTest (c :: t)); [|now left].
  destruct (match_ playerLinePattern (c :: t)) as [caps|]; [|now left].
  set (raw := replaceFirst editedMark [] (trim (nth 0 caps []))).
  destruct (trim raw) as [|d p] eqn:Ep; [now left|].
  destruct (eqb (d :: p) (js "-")) eqn:Eh; [now left|].
  right. exists (d :: p). split; [reflexivity|].
  split; [discriminate|]. split.
  - now apply eqb_neq.
  - rewrite <- Ep. apply trim_idempotent.
Qed.

Lemma extract_fold_fields (lines : list jsstring) (x : Extraction) :
  xDay (fold_left extractLine lines x)
  = fold_left (fun d l => if labelLine (js "día:") l then afterUnits 4 l else d)
              lines (xDay x)
  /\ xTime (fold_left extractLine lines x)
     = fold_left (fun d l => if labelLine (js "hora:") l then afterUnits 5 l else d)
                 lines (xTime x)
  /\ xLocation (fold_left extractLine lines x)
     = fold_left (fun d l => if labelLine (js "lugar:") l then afterUnits 6 l else d)
                 lines (xLocation x).
Proof.
  revert x. induction lines as [|l lines IH]; intros x; simpl.
  - repeat split; reflexivity.
  - destruct (IH (extractLine x l)) as (Hd & Ht & Hl).
    destruct (extractLine_fields x l) as (Ed & Et & El).
    rewrite Hd, Ht, Hl, Ed, Et, El. repeat split; reflexivity.
Qed.

Lemma fold_last_label (label : jsstring) (n : nat)
    (before : list jsstring) (l : jsstring) (after : list jsstring) (d : jsstring) :
  labelLine label l = true ->
  Forall (fun r => labelLine label r = false) after ->
  fold_left (fun d l => if labelLine label l then afterUnits n l else d)
            (before ++ l :: after) d
  = afterUnits n l.
Proof.
  intros Hl Ha. rewrite fold_left_app. simpl. rewrite Hl.
  induction Ha as [|r after Hr _ IH]; simpl; [reflexivity|].
  now rewrite Hr.
Qed.

Lemma fold_no_label (label : jsstring) (n : nat) (lines : list jsstring)
    (d : jsstring) :
  Forall (fun r => labelLine label r = false) lines ->
  fold_left (fun d l => if labelLine label l then afterUnits n l else d) lines d
  = d.
Proof.
  induction 1 as [|r lines Hr _ IH]; simpl; [reflexivity|]. now rewrite Hr.
Qed.

Lemma extract_players_fold (lines : list jsstring) (x : Extraction) :
  Forall Vocabulary.rosterToken (xPlayers x) ->
  Forall Vocabulary.rosterToken (xPlayers (fold_left extractLine lines x))
  /\ exists added,
       xPlayers (fold_left extractLine lines x) = xPlayers x ++ added
       /\ length added <= length lines.
Proof.
  revert x. induction lines as [|l lines IH]; intros x Hx; simpl.
  - split; [assumption|]. exists []. now rewrite app_nil_r.
  - destruct (extractLine_players x l) as [E|(p & E & Hp)].
    + destruct (IH (extractLine x l)) as (Hf & added & Ha & Hn).
      * now rewrite E.
      * split; [assumption|]. exists added. rewrite Ha, E. split; [reflexivity|lia].
    + destruct (IH (extractLine x l)) as (Hf & added & Ha & Hn).
      * rewrite E. apply Forall_app. split; [assumption|]. now constructor.
      * split; [assumption|]. exists (p :: added). rewrite Ha, E.
        rewrite <- app_assoc. split; [reflexivity | simpl; lia].
Qed.

(** X3.  Labelled lines of an event message.  The day, the time and the
    place are read from the last line that carries the label día:, hora: or
    lugar: in any letter case and names no event; the value is the text after
    the label, trimmed.  A message without a day line has an empty day and
    yields no event. *)
Theorem extract_labelled_fields (message : WhatsAppMessage) :
  (forall before l after,
      split 10 (content message) = before ++ l :: after ->
      labelLine (js "día:") l = true ->
      Forall (fun r => labelLine (js "día:") r = false) after ->
      xDay (extract message) = afterUnits 4 l)
  /\ (forall before l after,
      split 10 (content message) = before ++ l :: after ->
      labelLine (js "hora:") l = true ->
      Forall (fun r => labelLine (js "hora:") r = false) after ->
      xTime (extract message) = afterUnits 5 l)
  /\ (forall before l after,
      split 10 (content message) = before ++ l :: after ->
      labelLine (js "lugar:") l = true ->
      Forall (fun r => labelLine (js "lugar:") r = false) after ->
      xLocation (extract message) = afterUnits 6 l)
  /\ (Forall (fun r => labelLine (js "día:") r = false)
             (split 10 (content message)) ->
      xDay (extract message) = []
      /\ parseEventFromMessage message = None).
Proof.
  unfold extract.
  destruct (extract_fold_fields (split 10 (content message)) noExtraction)
    as (Hd & Ht & Hl).
  split; [|split; [|split]].
  - intros before l after E Hlab Hafter. rewrite Hd, E.
    now apply fold_last_label.
  - intros before l after E Hlab Hafter. rewrite Ht, E.
    now apply fold_last_label.
  - intros before l after E Hlab Hafter. rewrite Hl, E.
    now apply fold_last_label.
  - intros Hnone.
    assert (Hday : xDay (fold_left extractLine (split 10 (content message))
                           noExtraction) = []).
    { rewrite Hd. now apply fold_no_label. }
    split; [assumption|].
    unfold parseEventFromMessage, extract. now rewrite Hday.
Qed.

Lemma extract_labelled_fields_witness :
  let message :=
    {| timestamp := js "25/07/25, 12:13:12 p. m."; sender := js "Ana";
       content := js "Día: lunes" ++ [10%N] ++ js "DÍA:   Viernes  "
                  ++ [10%N] ++ js "1. Juan";
       rawMessage := [] |} in
  xDay (extract message) = js "Viernes"
  /\ parseEventFromMessage
       {| timestamp := []; sender := []; rawMessage := [];
          content := js "Día: viernes (pichanga)" |} = None.
Proof.
  intros message. split.
  - destruct (extract_labelled_fields message) as (H & _).
    rewrite (H [js "Día: lunes"] (js "DÍA:   Viernes  ") [js "1. Juan"]).
    + vm_compute. reflexivity.
    + vm_compute. reflexivity.
    + vm_compute. reflexivity.
    + repeat constructor.
  - match goal with
    | |- parseEventFromMessage ?m = None =>
      destruct (extract_labelled_fields m) as (_ & _ & _ & H)
    end.
    apply H. vm_compute. repeat constructor.
Defined.

(** X4.  Roster tokens.  Every player that [parseEventFromMessage] stores is
    a non-empty trimmed text other than the placeholder hyphen, and a message
    gives at most one player per line. *)
Theorem extract_roster_tokens (message : WhatsAppMessage) :
  Forall Vocabulary.rosterToken (xPlayers (extract message))
  /\ length (xPlayers (extract message))
     <= length (split 10 (content message))
  /\ (forall ev, parseEventFromMessage message = Some ev ->
                 Forall Vocabulary.rosterToken (players ev)
                 /\ totalPlayers ev <= length (split 10 (content message))).
Proof.
  destruct (extract_players_fold (split 10 (content message)) noExtraction)
    as (Hf & added & Ha & Hn); [constructor|].
  fold (extract message) in Hf, Ha. simpl in Ha.
  assert (Hlen : length (xPlayers (extract message))
                 <= length (split 10 (content message))) by now rewrite Ha.
  split; [assumption|]. split; [assumption|].
  intros ev Hev. unfold parseEventFromMessage in Hev.
  destruct (negb _); [discriminate|].
  destruct (normalizeDayName _); [|discriminate].
  injection Hev as <-. simpl. split; assumption.
Qed.

Lemma extract_roster_tokens_witness :
  Forall Vocabulary.rosterToken [js "Alex"; js "Moises(4)"].
Proof.
  pose (message :=
    {| timestamp := js "25/07/25, 12:13:12 p. m."; sender := js "Ana";
       rawMessage := [];
       content := js "Día: viernes" ++ [10%N] ++ js "1. - Alex" ++ [10%N]
                  ++ js "2. -" ++ [10%N] ++ js "3.   Moises(4)  " |}).
  destruct (extract_roster_tokens message) as (_ & _ & H).
  assert (E : exists ev, parseEventFromMessage message = Some ev
                         /\ players ev = [js "Alex"; js "Moises(4)"]).
  { eexists. split; vm_compute; reflexivity. }
  destruct E as (ev & E & Hp). rewrite <- Hp. apply (H ev E).
Defined.

End DayFacts.


(* ===================================================================== *)
(** * The matcher on texts of a known shape *)
(* ===================================================================== *)

Module MatchFacts.

Import Vocabulary.

(** A greedy quantifier takes a whole run of units of its class when the
    run cannot be extended and the rest of the match succeeds after it. *)
Lemma rep_greedy_exact (R : Type) (p : N -> bool) (a : jsstring) :
  forall (lo : nat) (hi : option nat) (pre s : jsstring)
         (k : jsstring -> jsstring -> option R) (res : R),
    Forall (fun c => p c = true) a ->
    lo <= length a ->
    (forall h, hi = Some h -> length a <= h) ->
    match s with
    | c :: _ => p c = false \/ hi = Some (length a)
    | [] => True
    end ->
    k (rev a ++ pre) s = Some res ->
    rep p true lo hi pre (a ++ s) k = Some res.
Proof.
  induction a as [|c a IH]; intros lo hi pre s k res Ha Hlo Hhi Hstop Hk.
  - simpl in *. assert (lo = 0) as -> by lia.
    destruct s as [|c s]; simpl.
    + assumption.
    + destruct Hstop as [Hp| ->].
      * rewrite Hp. simpl. assumption.
      * rewrite andb_false_r. assumption.
  - inversion Ha as [|? ? Hc Ha']; subst. simpl.
    rewrite Hc.
    assert (Hroom : roomLeft hi = true).
    { destruct hi as [[|h]|]; try reflexivity.
      specialize (Hhi 0 eq_refl). simpl in Hhi. lia. }
    rewrite Hroom. simpl.
    rewrite (IH (Nat.pred lo) (option_map Nat.pred hi) (c :: pre) s k res);
      trivial.
    + simpl in Hlo. lia.
    + intros h Hh. destruct hi as [h0|]; [|discriminate].
      simpl in Hh. injection Hh as <-.
      specialize (Hhi h0 eq_refl). simpl in Hhi. lia.
    + destruct s as [|c' s]; [exact I|].
      destruct Hstop as [Hp| ->]; [now left | right; reflexivity].
    + simpl in Hk. now rewrite <- app_assoc in Hk.
Qed.

Lemma Matches_eps (s : jsstring) : Matches Eps [] s [].
Proof.
  intros R pre caps k res H. simpl in *. now rewrite app_nil_r in H.
Qed.

Lemma Matches_class (p : N -> bool) (c : N) (s : jsstring) :
  p c = true -> Matches (Class p) [c] s [].
Proof.
  intros Hp R pre caps k res H. simpl in *. rewrite Hp.
  now rewrite app_nil_r in H.
Qed.

Lemma Matches_lit (c : N) (s : jsstring) : Matches (lit c) [c] s [].
Proof. apply Matches_class. apply N.eqb_refl. Qed.

Lemma Matches_rep (p : N -> bool) (lo : nat) (hi : option nat)
    (a s : jsstring) :
  Forall (fun c => p c = true) a ->
  lo <= length a ->
  (forall h, hi = Some h -> length a <= h) ->
  match s with
  | c :: _ => p c = false \/ hi = Some (length a)
  | [] => True
  end ->
  Matches (Rep p lo hi true) a s [].
Proof.
  intros Ha Hlo Hhi Hstop R pre caps k res H. simpl.
  apply rep_greedy_exact; trivial. now rewrite app_nil_r in H.
Qed.

Lemma Matches_cat (r1 r2 : regex) (a1 a2 s : jsstring)
    (g1 g2 : list jsstring) :
  Matches r1 a1 (a2 ++ s) g1 -> Matches r2 a2 s g2 ->
  Matches (Cat r1 r2) (a1 ++ a2) s (g1 ++ g2).
Proof.
  intros H1 H2 R pre caps k res H. simpl. rewrite <- app_assoc.
  apply H1. apply H2.
  rewrite rev_app_distr, <- (app_assoc (rev a2)) in H.
  rewrite <- app_assoc. exact H.
Qed.

Lemma firstn_consumed (a pre : jsstring) :
  rev (firstn (length (rev a ++ pre) - length pre) (rev a ++ pre)) = a.
Proof.
  rewrite length_app, Nat.add_sub.
  rewrite firstn_app, Nat.sub_diag, firstn_all. simpl.
  rewrite app_nil_r. apply rev_involutive.
Qed.

Lemma Matches_group (r : regex) (a s : jsstring) :
  Matches r a s [] -> Matches (Group r) a s [a].
Proof.
  intros H1 R pre caps k res H. simpl. apply H1.
  rewrite app_nil_r, firstn_consumed. exact H.
Qed.

Lemma Matches_eol : Matches Eol [] [] [].
Proof.
  intros R pre caps k res H. simpl in *. now rewrite app_nil_r in H.
Qed.

(** A pattern anchored at the start that can take the whole text matches
    it, and [match_] returns its groups. *)
Lemma match_anchored (r : regex) (text : jsstring) (groups : list jsstring) :
  Matches r text [] groups -> match_ (Cat Bol r) text = Some groups.
Proof.
  intros H. unfold match_, exec.
  assert (Hm : exists m, matchHere (Cat Bol r) [] text = Some m
                         /\ captures m = groups).
  { unfold matchHere. cbn [run]. eexists. split.
    - rewrite <- (app_nil_r text) at 1. apply H. reflexivity.
    - reflexivity. }
  destruct Hm as (m & Hm & Hc).
  destruct text; simpl; rewrite Hm; simpl; now rewrite Hc.
Qed.

Lemma execFrom_here (r : regex) (pre s : jsstring) (m : matchResult) :
  matchHere r pre s = Some m -> execFrom r pre s = Some (rev pre, m).
Proof. intros H. destruct s; simpl; now rewrite H. Qed.

(** *** Digits *)

Lemma isDigit_spec (c : N) : isDigit c = true <-> (48 <= c <= 57)%N.
Proof. unfold isDigit. now rewrite andb_true_iff, !N.leb_le. Qed.

Lemma digit_not_whitespace (c : N) :
  isDigit c = true -> isWhiteSpace c = false.
Proof.
  intros H. apply isDigit_spec in H.
  destruct (isWhiteSpace c) eqn:E; [|reflexivity].
  apply TrimFacts.isWhiteSpace_spec in E. lia.
Qed.

Lemma digitsValue_digits (s : jsstring) (acc n : Z) :
  digitsValue acc s = Some n -> Forall (fun c => isDigit c = true) s.
Proof.
  revert acc. induction s as [|c s IH]; intros acc H; simpl in H.
  - constructor.
  - destruct (isDigit c) eqn:E; [|discriminate].
    constructor; [assumption | now apply IH with (10 * acc + (Z.of_N c - 48))%Z].
Qed.

Lemma digitsValue_cons (acc : Z) (c : N) (s : jsstring) :
  digitsValue acc (c :: s)
  = if isDigit c then digitsValue (10 * acc + (Z.of_N c - 48))%Z s else None.
Proof. reflexivity. Qed.

Lemma Number_digits (s : jsstring) (n : Z) :
  Number_ s = Some n -> Forall (fun c => isDigit c = true) s.
Proof. apply digitsValue_digits. Qed.

Lemma digitsValue_bound (s : jsstring) :
  forall acc n : Z,
    digitsValue acc s = Some n -> (0 <= acc)%Z ->
    (acc * 10 ^ Z.of_nat (length s) <= n
     < (acc + 1) * 10 ^ Z.of_nat (length s))%Z.
Proof.
  induction s as [|c s IH]; intros acc n H Hacc.
  - simpl in H. injection H as <-. simpl. lia.
  - rewrite digitsValue_cons in H.
    destruct (isDigit c) eqn:Ec; [|discriminate].
    apply isDigit_spec in Ec.
    apply IH in H; [|lia].
    change (length (c :: s)) with (S (length s)).
    rewrite Nat2Z.inj_succ, Z.pow_succ_r by lia.
    assert (Hp : (0 < 10 ^ Z.of_nat (length s))%Z) by (apply Z.pow_pos_nonneg; lia).
    nia.
Qed.

Lemma Number_two_digits (s : jsstring) (n : Z) :
  Number_ s = Some n -> length s = 2 -> (0 <= n < 100)%Z.
Proof.
  intros H Hl. apply digitsValue_bound in H; [|lia].
  rewrite Hl in H. change (10 ^ Z.of_nat 2)%Z with 100%Z in H. lia.
Qed.

(** *** split *)

Lemma split_no_separator (sep : N) (s : jsstring) :
  Forall (fun c => N.eqb c sep = false) s -> split sep s = [s].
Proof.
  induction 1 as [|c s Hc _ IH]; simpl; [reflexivity|]. now rewrite IH, Hc.
Qed.

Lemma split_nonempty (sep : N) (s : jsstring) : split sep s <> [].
Proof.
  induction s as [|c s IH]; simpl; [discriminate|].
  destruct (split sep s); [contradiction|]. destruct (N.eqb c sep); discriminate.
Qed.

Lemma split_at_separator (sep : N) (a b : jsstring) :
  Forall (fun c => N.eqb c sep = false) a ->
  split sep (a ++ sep :: b) = a :: split sep b.
Proof.
  induction 1 as [|c a Hc _ IH]; simpl.
  - rewrite N.eqb_refl. pose proof (split_nonempty sep b).
    now destruct (split sep b).
  - now rewrite IH, Hc.
Qed.

Lemma digits_without (sep : N) (s : jsstring) :
  isDigit sep = false ->
  Forall (fun c => isDigit c = true) s ->
  Forall (fun c => N.eqb c sep = false) s.
Proof.
  intros Hs. apply Forall_impl. intros c Hc.
  apply N.eqb_neq. intros Heq. subst c. rewrite Hs in Hc. discriminate.
Qed.

(** *** replaceAll of a class that the text avoids *)

Lemma replaceAll_class_absent (p : N -> bool) (by_ s : jsstring) :
  Forall (fun c => p c = false) s -> replaceAll (Class p) by_ s = s.
Proof.
  intros H. unfold replaceAll. generalize (@nil N).
  induction H as [|c s Hc _ IH]; intros pre; simpl.
  - reflexivity.
  - unfold matchHere. simpl. rewrite Hc. now rewrite IH.
Qed.

End MatchFacts.


(* ===================================================================== *)
(** * MessageFilter: timestamps of the export shape *)
(* ===================================================================== *)

Module TimestampFacts.

Import MessageFilter Vocabulary MatchFacts TrimFacts.

Lemma Matches_cat0 (r1 r2 : regex) (a1 a2 s : jsstring) (g : list jsstring) :
  Matches r1 a1 (a2 ++ s) [] -> Matches r2 a2 s g ->
  Matches (Cat r1 r2) (a1 ++ a2) s g.
Proof. intros H1 H2. exact (Matches_cat r1 r2 a1 a2 s [] g H1 H2). Qed.

Lemma Matches_cat1 (r1 r2 : regex) (a1 a2 s x : jsstring) (g : list jsstring) :
  Matches r1 a1 (a2 ++ s) [x] -> Matches r2 a2 s g ->
  Matches (Cat r1 r2) (a1 ++ a2) s (x :: g).
Proof. intros H1 H2. exact (Matches_cat r1 r2 a1 a2 s [x] g H1 H2). Qed.

(** A run of digits of a permitted length, followed by something that is
    not a digit or having the greatest permitted length. *)
Lemma Matches_digits (lo hi : nat) (a s : jsstring) :
  Forall (fun c => isDigit c = true) a ->
  lo <= length a <= hi ->
  match s with
  | c :: _ => isDigit c = false \/ hi = length a
  | [] => True
  end ->
  Matches (times isDigit lo hi) a s [].
Proof.
  intros Ha [Hlo Hhi] Hs. apply Matches_rep; trivial.
  - intros h [= <-]. assumption.
  - destruct s; [exact I|]. destruct Hs as [?| ->]; [now left | now right].
Qed.

Lemma Matches_whitespace (a s : jsstring) :
  Forall (fun c => isWhiteSpace c = true) a ->
  match s with c :: _ => isWhiteSpace c = false | [] => True end ->
  Matches (star isWhiteSpace) a s [].
Proof.
  intros Ha Hs. apply Matches_rep; trivial.
  - lia.
  - discriminate.
  - destruct s; [exact I | now left].
Qed.

Lemma Matches_optional (c : N) (a s : jsstring) :
  a = [] \/ a = [c] ->
  match s with x :: _ => x <> c \/ a = [c] | [] => True end ->
  Matches (opt (N.eqb c)) a s [].
Proof.
  intros Ha Hs. apply Matches_rep.
  - destruct Ha as [->| ->]; repeat constructor. apply N.eqb_refl.
  - lia.
  - intros h [= <-]. destruct Ha as [->| ->]; simpl; lia.
  - destruct s as [|x s]; [exact I|].
    destruct Hs as [Hx| ->]; [left | now right].
    apply N.eqb_neq. congruence.
Qed.

(** The date [d/m/y]. *)
Lemma Matches_datePattern (D Mo Y s : jsstring) :
  Forall (fun c => isDigit c = true) D -> 1 <= length D <= 2 ->
  Forall (fun c => isDigit c = true) Mo -> 1 <= length Mo <= 2 ->
  Forall (fun c => isDigit c = true) Y -> 2 <= length Y <= 4 ->
  match s with c :: _ => isDigit c = false | [] => True end ->
  Matches datePattern (D ++ [47%N] ++ Mo ++ [47%N] ++ Y) s [].
Proof.
  intros HD LD HM LM HY LY Hs. unfold datePattern. cbn [seq].
  apply Matches_cat0; [apply Matches_digits; trivial; now left|].
  apply Matches_cat0; [apply Matches_lit|].
  apply Matches_cat0; [apply Matches_digits; trivial; now left|].
  apply Matches_cat0; [apply Matches_lit|].
  apply Matches_digits; trivial. destruct s; [exact I | now left].
Qed.

(** The time [h:mm:ss]. *)
Lemma Matches_timeSecondsPattern (H MI S s : jsstring) :
  Forall (fun c => isDigit c = true) H -> 1 <= length H <= 2 ->
  Forall (fun c => isDigit c = true) MI -> length MI = 2 ->
  Forall (fun c => isDigit c = true) S -> length S = 2 ->
  Matches timeSecondsPattern (H ++ [58%N] ++ MI ++ [58%N] ++ S) s [].
Proof.
  intros HH LH HM LM HS LS. unfold timeSecondsPattern. cbn [seq].
  apply Matches_cat0; [apply Matches_digits; trivial; now left|].
  apply Matches_cat0; [apply Matches_lit|].
  apply Matches_cat0; [apply Matches_digits; trivial; [lia | now left]|].
  apply Matches_cat0; [apply Matches_lit|].
  apply Matches_digits; trivial; [lia|].
  destruct s; [exact I | now right].
Qed.

(** The meridiem: a or p, an optional dot, white space, m, an optional
    dot, in any letter case, at the end of the text. *)
Lemma Matches_periodPattern (mer em : N) (dot1 dot2 ws : jsstring) :
  In mer (js "apAP") -> In em (js "mM") ->
  dot1 = [] \/ dot1 = [46%N] -> dot2 = [] \/ dot2 = [46%N] ->
  Forall (fun c => isWhiteSpace c = true) ws ->
  Matches periodPattern ([mer] ++ dot1 ++ ws ++ [em] ++ dot2) [] [].
Proof.
  intros Hmer Hem H1 H2 Hws. unfold periodPattern. cbn [seq].
  apply Matches_cat0.
  { apply Matches_class. simpl in Hmer.
    repeat (destruct Hmer as [<-|Hmer]; [reflexivity|]). destruct Hmer. }
  assert (Hem' : isWhiteSpace em = false /\ em <> 46%N).
  { simpl in Hem. repeat (destruct Hem as [<-|Hem]; [split; [reflexivity|discriminate]|]).
    destruct Hem. }
  apply Matches_cat0.
  { apply Matches_optional; trivial.
    destruct H1 as [->| ->]; [|destruct (_ ++ _); [exact I | now right]].
    inversion Hws as [|c ws' Hc Hws' E]; subst; simpl.
    - left. apply Hem'.
    - left. intros ->. discriminate. }
  apply Matches_cat0.
  { apply Matches_whitespace; trivial. simpl. apply Hem'. }
  apply Matches_cat0.
  { unfold liti. apply Matches_class. simpl in Hem.
    repeat (destruct Hem as [<-|Hem]; [reflexivity|]). destruct Hem. }
  rewrite <- (app_nil_r dot2). unfold opt. change (Rep (N.eqb 46) 0 (Some 1) true)
    with (opt (N.eqb 46)).
  rewrite app_nil_r. apply Matches_optional; trivial.
Qed.

(** [includes] of a one-unit text. *)
Lemma includes_unit (s : jsstring) (c : N) :
  includes s [c] = existsb (N.eqb c) s.
Proof.
  induction s as [|x s IH]; simpl; [reflexivity|].
  rewrite IH. destruct (N.eqb c x); destruct s; reflexivity.
Qed.

Lemma existsb_whitespace (c : N) (ws : jsstring) :
  isWhiteSpace c = false ->
  Forall (fun x => isWhiteSpace x = true) ws ->
  existsb (N.eqb c) ws = false.
Proof.
  intros Hc. induction 1 as [|x ws Hx _ IH]; simpl; [reflexivity|].
  rewrite IH, orb_false_r. apply N.eqb_neq. intros ->. congruence.
Qed.

(** Which meridiem texts contain p and which contain a. *)
Lemma period_flags (mer em : N) (dot1 dot2 ws : jsstring) :
  In mer (js "apAP") -> In em (js "mM") ->
  dot1 = [] \/ dot1 = [46%N] -> dot2 = [] \/ dot2 = [46%N] ->
  Forall (fun c => isWhiteSpace c = true) ws ->
  let period := [mer] ++ dot1 ++ ws ++ [em] ++ dot2 in
  includes (toLowerCase period) (js "p") = (N.eqb mer 112 || N.eqb mer 80)
  /\ includes (toLowerCase period) (js "a") = (N.eqb mer 97 || N.eqb mer 65).
Proof.
  intros Hmer Hem H1 H2 Hws period. unfold period.
  change (js "p") with [112%N]. change (js "a") with [97%N].
  rewrite !includes_unit, !toLowerCase_app, (toLowerCase_whitespace ws Hws).
  rewrite !existsb_app.
  rewrite (existsb_whitespace 112 ws eq_refl Hws).
  rewrite (existsb_whitespace 97 ws eq_refl Hws).
  simpl in Hmer, Hem.
  destruct H1 as [->| ->], H2 as [->| ->];
    repeat (destruct Hmer as [<-|Hmer];
            [repeat (destruct Hem as [<-|Hem]; [split; reflexivity|]);
             destruct Hem|]);
    destruct Hmer.
Qed.

(** The first format on a text of the full shape. *)
Lemma first_format_matches (date time period ws1 ws2 : jsstring) :
  (forall s, match s with c :: _ => isDigit c = false | [] => True end ->
             Matches datePattern date s []) ->
  (forall s, Matches timeSecondsPattern time s []) ->
  Matches periodPattern period [] [] ->
  Forall (fun c => isWhiteSpace c = true) ws1 ->
  Forall (fun c => isWhiteSpace c = true) ws2 ->
  match time with c :: _ => isWhiteSpace c = false | [] => False end ->
  match period with c :: _ => isWhiteSpace c = false | [] => False end ->
  firstMatch formats (date ++ [44%N] ++ ws1 ++ time ++ ws2 ++ period)
  = Some [date; time; period].
Proof.
  intros Hd Ht Hp H1 H2 Htime Hperiod.
  unfold formats. cbn [firstMatch seq].
  rewrite (match_anchored _ _ [date; time; period]); [reflexivity|].
  apply Matches_cat1; [apply Matches_group, Hd; reflexivity|].
  apply Matches_cat0; [apply Matches_lit|].
  apply Matches_cat0.
  { apply Matches_whitespace; trivial.
    destruct time as [|c time]; [contradiction | exact Htime]. }
  apply Matches_cat1; [apply Matches_group, Ht|].
  apply Matches_cat0.
  { apply Matches_whitespace; trivial.
    destruct period as [|c period]; [contradiction | exact Hperiod]. }
  rewrite <- (app_nil_r period) at 1.
  apply Matches_cat1; [apply Matches_group; exact Hp | exact Matches_eol].
Qed.

(** The text has no left-to-right mark and no white space at its ends, so
    [cleanTimestamp] returns it. *)
Lemma cleanTimestamp_clean (text : jsstring) :
  Forall (fun c => N.eqb LRM c = false) text ->
  trim text = text ->
  cleanTimestamp text = text.
Proof.
  intros Hl Ht. unfold cleanTimestamp.
  now rewrite (replaceAll_class_absent (N.eqb LRM) [] text Hl).
Qed.

Lemma digits_no_mark (s : jsstring) :
  Forall (fun c => isDigit c = true) s ->
  Forall (fun c => N.eqb LRM c = false) s.
Proof.
  apply Forall_impl. intros c Hc. apply isDigit_spec in Hc.
  apply N.eqb_neq. unfold LRM. lia.
Qed.

Lemma whitespace_no_mark (s : jsstring) :
  Forall (fun c => isWhiteSpace c = true) s ->
  Forall (fun c => N.eqb LRM c = false) s.
Proof.
  apply Forall_impl. intros c Hc. apply isWhiteSpace_spec in Hc.
  apply N.eqb_neq. unfold LRM. lia.
Qed.

Lemma split_three (sep : N) (a b c : jsstring) :
  isDigit sep = false ->
  Forall (fun x => isDigit x = true) a ->
  Forall (fun x => isDigit x = true) b ->
  Forall (fun x => isDigit x = true) c ->
  split sep (a ++ [sep] ++ b ++ [sep] ++ c) = [a; b; c].
Proof.
  intros Hs Ha Hb Hc. simpl.
  rewrite (split_at_separator sep a _ (digits_without sep a Hs Ha)).
  rewrite (split_at_separator sep b _ (digits_without sep b Hs Hb)).
  now rewrite (split_no_separator sep c (digits_without sep c Hs Hc)).
Qed.

(** The arguments of [new Date] from the groups of a match with a time and
    a meridiem. *)
Lemma dateArgsOfMatch_full (date time period : jsstring) (d mo y h mi s : Z) :
  map Number_ (split 47 date) = [Some d; Some mo; Some y] ->
  map Number_ (split 58 time) = [Some h; Some mi; Some s] ->
  time <> [] -> period <> [] ->
  dateArgsOfMatch [date; time; period] =
    {| year := Some (if (y <? 100)%Z then (2000 + y)%Z else y);
       monthIndex := Some (mo - 1)%Z;
       day := Some d;
       hours :=
         (if includes (toLowerCase period) (js "p") && negb (h =? 12)%Z
          then (h + 12)%Z
          else if includes (toLowerCase period) (js "a") && (h =? 12)%Z
               then 0%Z else h);
       minutes := mi;
       seconds := s |}.
Proof.
  intros Hd Ht Hne Hpe. unfold dateArgsOfMatch. cbn [nth nth_error].
  rewrite Hd. destruct time as [|c time]; [contradiction|].
  destruct period as [|p period]; [contradiction|].
  rewrite Ht. reflexivity.
Qed.

(** The Date arguments for a text of the export shape. *)
Lemma matchedDateArgs_export_shape
    (localTZA : Z -> Z) (clock : nat -> Z) (w : World)
    (D Mo Y H MI S ws1 ws2 ws3 dot1 dot2 : jsstring) (mer em : N)
    (d mo y h mi s : Z) :
  Number_ D = Some d -> 1 <= length D <= 2 ->
  Number_ Mo = Some mo -> 1 <= length Mo <= 2 ->
  Number_ Y = Some y -> length Y = 2 ->
  Number_ H = Some h -> 1 <= length H <= 2 ->
  Number_ MI = Some mi -> length MI = 2 ->
  Number_ S = Some s -> length S = 2 ->
  Forall (fun c => isWhiteSpace c = true) ws1 ->
  Forall (fun c => isWhiteSpace c = true) ws2 ->
  Forall (fun c => isWhiteSpace c = true) ws3 ->
  In mer (js "apAP") -> In em (js "mM") ->
  In dot1 [[]; js "."] -> In dot2 [[]; js "."] ->
  let date := D ++ js "/" ++ Mo ++ js "/" ++ Y in
  let time := H ++ js ":" ++ MI ++ js ":" ++ S in
  let period := [mer] ++ dot1 ++ ws3 ++ [em] ++ dot2 in
  let text := date ++ js "," ++ ws1 ++ time ++ ws2 ++ period in
  let pm := (N.eqb mer 112 || N.eqb mer 80) in
  let am := (N.eqb mer 97 || N.eqb mer 65) in
  let args :=
    {| year := Some (2000 + y)%Z;
       monthIndex := Some (mo - 1)%Z;
       day := Some d;
       hours := (if pm && negb (h =? 12)%Z then (h + 12)%Z
                 else if am && (h =? 12)%Z then 0%Z else h);
       minutes := mi;
       seconds := s |} in
  includes (toLowerCase period) (js "p") = pm
  /\ includes (toLowerCase period) (js "a") = am
  /\ matchedDateArgs text = Some args
  /\ parseTimestamp localTZA clock text w = (newDate localTZA args, w)
  /\ extractDateFromTimestamp text = date.
Proof.
  intros ND LD NMo LMo NY LY NH LH NMI LMI NS LS W1 W2 W3 Hmer Hem Hd1 Hd2
         date time period text pm am args.
  pose proof (Number_digits _ _ ND) as FD.
  pose proof (Number_digits _ _ NMo) as FMo.
  pose proof (Number_digits _ _ NY) as FY.
  pose proof (Number_digits _ _ NH) as FH.
  pose proof (Number_digits _ _ NMI) as FMI.
  pose proof (Number_digits _ _ NS) as FS.
  assert (Hdot1 : dot1 = [] \/ dot1 = [46%N]).
  { destruct Hd1 as [<-|[<-|[]]]; [now left | now right]. }
  assert (Hdot2 : dot2 = [] \/ dot2 = [46%N]).
  { destruct Hd2 as [<-|[<-|[]]]; [now left | now right]. }
  destruct (period_flags mer em dot1 dot2 ws3 Hmer Hem Hdot1 Hdot2 W3)
    as [Hpm Ham].
  fold period in Hpm, Ham. fold pm in Hpm. fold am in Ham.
  (* the two ends of the text *)
  assert (HD0 : match D with c :: _ => isDigit c = true | [] => False end).
  { destruct D; [simpl in LD; lia | now inversion FD]. }
  assert (HH0 : match time with c :: _ => isWhiteSpace c = false | [] => False end).
  { unfold time. destruct H as [|c H]; [simpl in LH; lia|].
    inversion FH; subst. simpl. now apply digit_not_whitespace. }
  assert (Hmer' : isWhiteSpace mer = false /\ N.eqb LRM mer = false).
  { simpl in Hmer.
    repeat (destruct Hmer as [<-|Hmer]; [split; reflexivity|]). destruct Hmer. }
  assert (Hem' : isWhiteSpace em = false /\ N.eqb LRM em = false).
  { simpl in Hem.
    repeat (destruct Hem as [<-|Hem]; [split; reflexivity|]). destruct Hem. }
  (* the match *)
  assert (Hmatch : firstMatch formats text = Some [date; time; period]).
  { apply first_format_matches; trivial.
    - intros s0 Hs0. apply Matches_datePattern; trivial. lia.
    - intros s0. now apply Matches_timeSecondsPattern.
    - now apply Matches_periodPattern.
    - apply Hmer'. }
  (* the text is clean *)
  assert (Hmark : Forall (fun c => N.eqb LRM c = false) text).
  { unfold text, date, time, period.
    repeat (apply Forall_app; split);
      try (now apply digits_no_mark); try (now apply whitespace_no_mark);
      try (repeat constructor; apply Hmer' || apply Hem').
    - destruct Hdot1 as [->| ->]; repeat constructor.
    - destruct Hdot2 as [->| ->]; repeat constructor. }
  assert (Htrim : trim text = text).
  { apply trim_fixed.
    - unfold text, date. destruct D as [|c D]; [contradiction|].
      simpl. now apply digit_not_whitespace.
    - unfold text, period. rewrite !app_assoc.
      destruct Hdot2 as [->| ->].
      + rewrite app_nil_r, rev_app_distr. simpl. apply Hem'.
      + rewrite rev_app_distr. reflexivity. }
  pose proof (cleanTimestamp_clean text Hmark Htrim) as Hclean.
  assert (Hy : (y <? 100)%Z = true).
  { apply Z.ltb_lt. apply (Number_two_digits Y y NY LY). }
  assert (Hargs : matchedDateArgs text = Some args).
  { unfold matchedDateArgs. rewrite Hclean, Hmatch. simpl option_map.
    f_equal.
    etransitivity;
      [apply (dateArgsOfMatch_full date time period d mo y h mi s)
      | rewrite Hpm, Ham, Hy; reflexivity].
    - unfold date. change (js "/") with [47%N].
      rewrite split_three by trivial. simpl. now rewrite ND, NMo, NY.
    - unfold time. change (js ":") with [58%N].
      rewrite split_three by trivial. simpl. now rewrite NH, NMI, NS.
    - intros E. rewrite E in HH0. exact HH0.
    - discriminate. }
  split; [assumption|]. split; [assumption|]. split; [assumption|].
  split.
  - unfold parseTimestamp. now rewrite Hargs.
  - unfold extractDateFromTimestamp. rewrite Hclean.
    unfold text. change (js ",") with [44%N]. simpl app.
    rewrite split_at_separator.
    + simpl nth. apply trim_fixed.
      * unfold date. destruct D as [|c D]; [contradiction|].
        simpl. now apply digit_not_whitespace.
      * unfold date. rewrite !app_assoc.
        destruct (rev Y) as [|c rY] eqn:E.
        { apply (f_equal (@length N)) in E. rewrite length_rev in E.
          simpl in E. lia. }
        rewrite rev_app_distr, E. simpl.
        apply digit_not_whitespace.
        assert (Hin : In c (rev Y)) by (rewrite E; now left).
        apply in_rev in Hin. rewrite Forall_forall in FY. now apply FY.
    + unfold date. change (js "/") with [47%N].
      repeat (apply Forall_app; split);
        try (now apply (digits_without 44)); repeat constructor.
Qed.

(** X5.  Timestamps of the export shape.  On a text
    [d/m/yy, h:mm:ss], white space, a or p, an optional dot, white space,
    m, an optional dot, in any letter case, [parseTimestamp] prints nothing
    and returns the Date built from the year 2000 + yy, the month m, the day
    d, the minutes and the seconds, and the hour h + 12 for p with h other
    than 12, 0 for a with h equal to 12, and h otherwise;
    [extractDateFromTimestamp] returns the text [d/m/yy]. *)
Theorem parseTimestamp_export_shape
    (localTZA : Z -> Z) (clock : nat -> Z) (w : World)
    (D Mo Y H MI S ws1 ws2 ws3 dot1 dot2 : jsstring) (mer em : N)
    (d mo y h mi s : Z) :
  Number_ D = Some d -> 1 <= length D <= 2 ->
  Number_ Mo = Some mo -> 1 <= length Mo <= 2 ->
  Number_ Y = Some y -> length Y = 2 ->
  Number_ H = Some h -> 1 <= length H <= 2 ->
  Number_ MI = Some mi -> length MI = 2 ->
  Number_ S = Some s -> length S = 2 ->
  Forall (fun c => isWhiteSpace c = true) ws1 ->
  Forall (fun c => isWhiteSpace c = true) ws2 ->
  Forall (fun c => isWhiteSpace c = true) ws3 ->
  In mer (js "apAP") -> In em (js "mM") ->
  In dot1 [[]; js "."] -> In dot2 [[]; js "."] ->
  let date := D ++ js "/" ++ Mo ++ js "/" ++ Y in
  let time := H ++ js ":" ++ MI ++ js ":" ++ S in
  let period := [mer] ++ dot1 ++ ws3 ++ [em] ++ dot2 in
  let text := date ++ js "," ++ ws1 ++ time ++ ws2 ++ period in
  let pm := (N.eqb mer 112 || N.eqb mer 80) in
  let am := (N.eqb mer 97 || N.eqb mer 65) in
  let args :=
    {| year := Some (2000 + y)%Z;
       monthIndex := Some (mo - 1)%Z;
       day := Some d;
       hours := (if pm && negb (h =? 12)%Z then (h + 12)%Z
                 else if am && (h =? 12)%Z then 0%Z else h);
       minutes := mi;
       seconds := s |} in
  includes (toLowerCase period) (js "p") = pm
  /\ includes (toLowerCase period) (js "a") = am
  /\ matchedDateArgs text = Some args
  /\ parseTimestamp localTZA clock text w = (newDate localTZA args, w)
  /\ extractDateFromTimestamp text = date.
Proof.
  apply matchedDateArgs_export_shape.
Qed.

Lemma parseTimestamp_export_shape_witness :
  matchedDateArgs (js "25/07/25, 12:13:12 p. m.")
  = Some {| year := Some 2025%Z; monthIndex := Some 6%Z; day := Some 25%Z;
            hours := 12; minutes := 13; seconds := 12 |}
  /\ matchedDateArgs (js "25/07/25, 1:05:00 a. m.")
     = Some {| year := Some 2025%Z; monthIndex := Some 6%Z; day := Some 25%Z;
               hours := 1; minutes := 5; seconds := 0 |}
  /\ matchedDateArgs (js "5/7/25,11:59:59PM")
     = Some {| year := Some 2025%Z; monthIndex := Some 6%Z; day := Some 5%Z;
               hours := 23; minutes := 59; seconds := 59 |}.
Proof.
  split; [|split].
  - apply (parseTimestamp_export_shape limaTZA sampleClock initialWorld
             (js "25") (js "07") (js "25") (js "12") (js "13") (js "12")
             (js " ") (js " ") (js " ") (js ".") (js ".") 112 109
             25 7 25 12 13 12);
      try reflexivity; try (simpl; lia); try (repeat constructor);
      vm_compute; tauto.
  - apply (parseTimestamp_export_shape limaTZA sampleClock initialWorld
             (js "25") (js "07") (js "25") (js "1") (js "05") (js "00")
             (js " ") (js " ") (js " ") (js ".") (js ".") 97 109
             25 7 25 1 5 0);
      try reflexivity; try (simpl; lia); try (repeat constructor);
      vm_compute; tauto.
  - apply (parseTimestamp_export_shape limaTZA sampleClock initialWorld
             (js "5") (js "7") (js "25") (js "11") (js "59") (js "59")
             [] [] [] [] [] 80 77
             5 7 25 11 59 59);
      try reflexivity; try (simpl; lia); try (repeat constructor);
      vm_compute; tauto.
Defined.

End TimestampFacts.


(* ===================================================================== *)
(** * Order of first appearance *)
(* ===================================================================== *)

Module OrderFacts.

Import Vocabulary.

Lemma existsb_eqb_iff (x : jsstring) (l : list jsstring) :
  existsb (eqb x) l = true <-> In x l.
Proof.
  rewrite existsb_exists. split.
  - intros (y & Hy & E). apply eqb_eq in E. now subst.
  - intros H. exists x. split; [assumption | apply eqb_refl].
Qed.

Lemma existsb_eqb_ext (x : jsstring) (l l' : list jsstring) :
  (In x l <-> In x l') -> existsb (eqb x) l = existsb (eqb x) l'.
Proof.
  intros H.
  destruct (existsb (eqb x) l) eqn:E, (existsb (eqb x) l') eqn:E';
    trivial.
  - apply existsb_eqb_iff, H, existsb_eqb_iff in E. congruence.
  - apply existsb_eqb_iff, H, existsb_eqb_iff in E'. congruence.
Qed.

Lemma firstOccurrences_In (x : jsstring) (l : list jsstring) :
  In x (firstOccurrences l) <-> In x l.
Proof.
  induction l as [|a l IH]; simpl; [tauto|].
  rewrite filter_In, IH. split.
  - intros [H|[H _]]; auto.
  - intros [H|H]; [now left|].
    destruct (eqb x a) eqn:E.
    + left. apply eqb_eq in E. now subst.
    + right. split; [assumption | reflexivity].
Qed.

Lemma firstOccurrences_NoDup (l : list jsstring) :
  NoDup (firstOccurrences l).
Proof.
  induction l as [|a l IH]; simpl; constructor.
  - rewrite filter_In. intros [_ H]. now rewrite eqb_refl in H.
  - now apply NoDup_filter.
Qed.

Lemma firstOccurrences_distinct (l : list jsstring) :
  NoDup l -> firstOccurrences l = l.
Proof.
  induction 1 as [|a l Ha Hnd IH]; simpl; [reflexivity|].
  rewrite IH. f_equal. apply forallb_filter_id. apply forallb_forall.
  intros y Hy. apply negb_true_iff, eqb_neq. intros ->. contradiction.
Qed.

(** Appending one text: it is added unless it is there already. *)
Lemma firstOccurrences_snoc (l : list jsstring) (x : jsstring) :
  firstOccurrences (l ++ [x]) =
    if existsb (eqb x) (firstOccurrences l) then firstOccurrences l
    else firstOccurrences l ++ [x].
Proof.
  induction l as [|a l IH]; simpl; [reflexivity|].
  rewrite IH. clear IH.
  set (f := fun y => negb (eqb y a)).
  destruct (eqb x a) eqn:Exa; simpl.
  - destruct (existsb (eqb x) (firstOccurrences l)); [reflexivity|].
    rewrite filter_app. simpl. unfold f at 2. rewrite Exa. simpl.
    now rewrite app_nil_r.
  - assert (E : existsb (eqb x) (filter f (firstOccurrences l))
                = existsb (eqb x) (firstOccurrences l)).
    { apply existsb_eqb_ext. rewrite filter_In. unfold f. rewrite Exa.
      simpl. tauto. }
    rewrite E.
    destruct (existsb (eqb x) (firstOccurrences l)); [reflexivity|].
    rewrite filter_app. simpl. unfold f at 2. now rewrite Exa.
Qed.

Lemma firstOccurrences_seen (l : list jsstring) (x : jsstring) :
  existsb (eqb x) (firstOccurrences l) = existsb (eqb x) l.
Proof. apply existsb_eqb_ext. apply firstOccurrences_In. Qed.

End OrderFacts.

(* ===================================================================== *)
(** * MessageFilter: the order of the events kept by removeDuplicates *)
(* ===================================================================== *)

Module DedupOrder.

Import MessageFilter Vocabulary EventMapFacts DedupFacts OrderFacts.

Section Hosted.

Variable localTZA : Z -> Z.
Variable clock : nat -> Z.

Local Abbreviation dedupStep := (dedupStep localTZA clock).
Local Abbreviation dedupLoop := (dedupLoop localTZA clock).
Local Abbreviation removeDuplicates := (removeDuplicates localTZA clock).

Lemma dedupStep_keys (m : EventMap) (e : FilteredEvent) (w : World) :
  map fst (fst (dedupStep m e w)) =
    if existsb (eqb (eventKey e)) (map fst m) then map fst m
    else map fst m ++ [eventKey e].
Proof.
  destruct (mapGet m (eventKey e)) as [old|] eqn:E.
  - assert (Hin : existsb (eqb (eventKey e)) (map fst m) = true).
    { apply existsb_eqb_iff. apply mapGet_Some_In in E.
      apply in_map_iff. now exists (eventKey e, old). }
    rewrite Hin.
    destruct (dedupStep_present localTZA clock _ _ _ w E) as [w' [H|H]];
      rewrite H; simpl; [reflexivity|].
    apply (mapSet_keys _ _ _ old E).
  - rewrite (dedupStep_fresh localTZA clock _ _ w E). simpl.
    rewrite map_app. simpl.
    destruct (existsb (eqb (eventKey e)) (map fst m)) eqn:Hin; [|reflexivity].
    apply existsb_eqb_iff in Hin. apply mapGet_None in E. contradiction.
Qed.

Lemma dedupLoop_keys (events done : list FilteredEvent) (m : EventMap)
    (w : World) :
  map fst m = firstOccurrences (map eventKey done) ->
  map fst (fst (dedupLoop events m w)) =
    firstOccurrences (map eventKey (done ++ events)).
Proof.
  revert done m w. induction events as [|e events IH]; intros done m w Hm.
  - simpl. now rewrite app_nil_r.
  - simpl. unfold bind.
    pose proof (dedupStep_keys m e w) as Hs.
    destruct (MessageFilter.dedupStep localTZA clock m e w) as [m' w'].
    simpl in Hs.
    replace (done ++ e :: events) with ((done ++ [e]) ++ events)
      by now rewrite <- app_assoc.
    apply IH. rewrite Hs, map_app. simpl.
    rewrite firstOccurrences_snoc, Hm. reflexivity.
Qed.

(** Events with keys that are new to the map and differ from each other are
    appended as they come, silently. *)
Lemma dedupLoop_distinct (events : list FilteredEvent) (m : EventMap)
    (w : World) :
  NoDup (map eventKey events) ->
  (forall e, In e events -> mapGet m (eventKey e) = None) ->
  dedupLoop events m w = (m ++ map (fun e => (eventKey e, e)) events, w).
Proof.
  revert m. induction events as [|e events IH]; intros m Hnd Hnew; simpl.
  - unfold ret. now rewrite app_nil_r.
  - unfold bind. inversion Hnd as [|? ? Hx Hnd']; subst.
    rewrite (dedupStep_fresh localTZA clock m e w (Hnew e (or_introl eq_refl))).
    rewrite IH; trivial.
    + now rewrite <- app_assoc.
    + intros x Hx'. rewrite <- (mapSet_fresh m (eventKey e) e)
        by (apply Hnew; now left).
      rewrite mapGet_mapSet_other.
      * apply Hnew. now right.
      * intros Heq. apply Hx. rewrite <- Heq. now apply in_map.
Qed.

Lemma removeDuplicates_distinct (events : list FilteredEvent) (w : World) :
  NoDup (map eventKey events) -> removeDuplicates events w = (events, w).
Proof.
  intros Hnd. unfold MessageFilter.removeDuplicates, bind, ret.
  rewrite dedupLoop_distinct; trivial.
  simpl. unfold mapValues. rewrite map_map. simpl. now rewrite map_id.
Qed.

Lemma removeDuplicates_keys (events : list FilteredEvent) (w : World) :
  map eventKey (fst (removeDuplicates events w)) =
    firstOccurrences (map eventKey events).
Proof.
  rewrite (removeDuplicates_values localTZA clock).
  rewrite wellKeyed_values
    by apply (dedupLoop_wellKeyed localTZA clock), wellKeyed_nil.
  now apply (dedupLoop_keys events [] [] w).
Qed.

(** X6.  Order and size of the result of [removeDuplicates].  The keys of
    the events returned are the keys of the input, each once, in the order
    in which they first occur.  When the keys of the input differ from each
    other the input is returned unchanged and nothing is printed; hence a
    second run on the result changes nothing. *)
Theorem removeDuplicates_first_occurrences
    (events : list FilteredEvent) (w : World) :
  let kept := fst (removeDuplicates events w) in
  map eventKey kept = firstOccurrences (map eventKey events)
  /\ (NoDup (map eventKey events) -> removeDuplicates events w = (events, w))
  /\ (forall w', removeDuplicates kept w' = (kept, w')).
Proof.
  intros kept. split; [apply removeDuplicates_keys|].
  split; [apply removeDuplicates_distinct|].
  intros w'. apply removeDuplicates_distinct.
  unfold kept. rewrite removeDuplicates_keys. apply firstOccurrences_NoDup.
Qed.

End Hosted.

Lemma removeDuplicates_first_occurrences_witness :
  let events := [sampleEvent (js "25/07/25, 12:13:12 p. m.") [js "Alex"];
                 wednesdayEvent (js "30/07/25, 9:00:00 a. m.") [js "Beto"]] in
  MessageFilter.removeDuplicates limaTZA sampleClock events initialWorld
  = (events, initialWorld).
Proof.
  intros events.
  destruct (removeDuplicates_first_occurrences limaTZA sampleClock events
              initialWorld) as (_ & H & _).
  apply H. vm_compute. repeat constructor; simpl; intuition discriminate.
Defined.

End DedupOrder.


(* ===================================================================== *)
(** * PlayerStatsAnalyzer: what processPlayers records for each player *)
(* ===================================================================== *)

Module AttendanceFacts.

Import PlayerStatsAnalyzer Vocabulary OrderFacts.

(** ** The map *)

Lemma has_keys (m : PlayerMap) (k : jsstring) :
  has m k = existsb (eqb k) (map fst m).
Proof.
  induction m as [|[k0 v] m IH]; simpl; [reflexivity|].
  now rewrite IH, (eqb_sym k0 k).
Qed.

Lemma get_has (m : PlayerMap) (k : jsstring) :
  has m k = match get m k with Some _ => true | None => false end.
Proof.
  induction m as [|[k0 v] m IH]; simpl; [reflexivity|].
  now destruct (eqb k0 k).
Qed.

Lemma get_snoc (m : PlayerMap) (k k' : jsstring) (v : PlayerStats) :
  get (m ++ [(k, v)]) k' =
    match get m k' with
    | Some p => Some p
    | None => if eqb k k' then Some v else None
    end.
Proof.
  induction m as [|[k0 v0] m IH]; simpl; [reflexivity|].
  now destruct (eqb k0 k').
Qed.

Lemma get_update (m : PlayerMap) (k k' : jsstring)
    (f : PlayerStats -> PlayerStats) :
  get (update m k f) k' =
    if eqb k k' then option_map f (get m k') else get m k'.
Proof.
  induction m as [|[k0 v0] m IH]; simpl.
  - now destruct (eqb k k').
  - destruct (eqb k0 k) eqn:E0; simpl.
    + apply eqb_eq in E0. subst k0.
      destruct (eqb k k'); reflexivity.
    + destruct (eqb k0 k') eqn:E1.
      * apply eqb_eq in E1. subst k0.
        rewrite eqb_sym in E0. now rewrite E0.
      * apply IH.
Qed.

Lemma update_keys (m : PlayerMap) (k : jsstring)
    (f : PlayerStats -> PlayerStats) :
  map fst (update m k f) = map fst m.
Proof.
  induction m as [|[k0 v0] m IH]; simpl; [reflexivity|].
  destruct (eqb k0 k); simpl; [reflexivity | now rewrite IH].
Qed.

Lemma In_get (m : PlayerMap) (k : jsstring) (p : PlayerStats) :
  NoDup (map fst m) -> In (k, p) m -> get m k = Some p.
Proof.
  induction m as [|[k0 v0] m IH]; simpl; [tauto|].
  intros Hnd [H|H].
  - injection H as -> ->. now rewrite eqb_refl.
  - inversion Hnd as [|? ? Hx Hnd']; subst.
    destruct (eqb k0 k) eqn:E.
    + apply eqb_eq in E. subst k0. exfalso. apply Hx.
      apply in_map_iff. now exists (k, p).
    + now apply IH.
Qed.

Section Aliases.

Variable aliases : list (jsstring * jsstring).

Local Abbreviation processPlayer := (processPlayer aliases).
Local Abbreviation processPlayers := (processPlayers aliases).
Local Abbreviation countedAs := (countedAs aliases).
Local Abbreviation countsFor := (countsFor aliases).
Local Abbreviation countedNames := (countedNames aliases).
Local Abbreviation record := (record aliases).

(** ** One roster entry *)

Lemma processPlayer_step (key : jsstring) (m : PlayerMap) (t : jsstring) :
  processPlayer key m t =
    match countedAs t with
    | None => m
    | Some n =>
      update (if has m n then m else m ++ [(n, newStats n)]) n (attend key t)
    end.
Proof.
  unfold PlayerStatsAnalyzer.processPlayer, Vocabulary.countedAs.
  destruct (skipped t); [reflexivity|].
  now destruct (normalizePlayerName aliases (cleanPlayerName t)).
Qed.

Lemma processPlayers_occurrences (events : list FilteredEvent) (m : PlayerMap) :
  fold_left (processEvent aliases) events m =
    fold_left record (occurrences events) m.
Proof.
  revert m. induction events as [|e events IH]; intros m; simpl; [reflexivity|].
  rewrite fold_left_app, IH. f_equal.
  unfold processEvent. generalize (players e). intros l. revert m.
  induction l as [|t l IHl]; intros m; simpl; [reflexivity|]. apply IHl.
Qed.

Lemma countedNames_app (l1 l2 : list (jsstring * jsstring)) :
  countedNames (l1 ++ l2) = countedNames l1 ++ countedNames l2.
Proof.
  induction l1 as [|kt l1 IH]; simpl; [reflexivity|].
  destruct (countedAs (snd kt)); simpl; now rewrite IH.
Qed.

Lemma statsFrom_snoc (n : jsstring) (occ : list (jsstring * jsstring))
    (x : jsstring * jsstring) :
  statsFrom n (occ ++ [x]) =
    Some (attend (fst x) (snd x)
            (match statsFrom n occ with
             | Some p => p
             | None => newStats n
             end)).
Proof.
  destruct occ as [|o occ]; [reflexivity|].
  change ((o :: occ) ++ [x]) with (o :: (occ ++ [x])).
  unfold statsFrom, attend. cbn [name cleanName attendance events variations].
  f_equal. f_equal.
  - cbn [length]. rewrite length_app. simpl. lia.
  - change (o :: occ ++ [x]) with ((o :: occ) ++ [x]).
    rewrite map_app. cbn [map]. now rewrite firstOccurrences_snoc.
  - change (o :: occ ++ [x]) with ((o :: occ) ++ [x]).
    rewrite map_app. cbn [map]. now rewrite firstOccurrences_snoc.
Qed.

Lemma statsFrom_Some (n : jsstring) (occ : list (jsstring * jsstring))
    (p : PlayerStats) :
  statsFrom n occ = Some p ->
  occ <> [] /\ name p = n /\ cleanName p = n
  /\ attendance p = Z.of_nat (length occ)
  /\ PlayerStatsAnalyzer.events p = firstOccurrences (map fst occ)
  /\ variations p = firstOccurrences (map (fun kt => trim (snd kt)) occ).
Proof.
  destruct occ as [|o occ]; [discriminate|]. intros H.
  unfold statsFrom in H. injection H as <-.
  repeat split; discriminate || reflexivity.
Qed.

(** ** The loop *)

Lemma record_spec (l : list (jsstring * jsstring)) :
  let m := fold_left record l [] in
  map fst m = firstOccurrences (countedNames l)
  /\ forall n, get m n = statsFrom n (filter (countsFor n) l).
Proof.
  induction l as [|x l IH] using rev_ind; [now split|].
  cbv zeta in *. rewrite fold_left_app. cbn [fold_left].
  destruct IH as [Hk Hg]. set (m := fold_left record l []) in *.
  unfold Vocabulary.record. rewrite processPlayer_step.
  rewrite countedNames_app. cbn [Vocabulary.countedNames].
  destruct (Vocabulary.countedAs aliases (snd x)) as [n0|] eqn:Ec.
  - split.
    + rewrite update_keys, firstOccurrences_snoc, <- Hk, <- has_keys.
      destruct (has m n0); [reflexivity|].
      now rewrite map_app.
    + intros n. rewrite get_update, filter_app. cbn [filter].
      unfold Vocabulary.countsFor at 2. rewrite Ec.
      destruct (eqb n0 n) eqn:E.
      * apply eqb_eq in E. subst n0.
        rewrite statsFrom_snoc, <- Hg. destruct x as [k t]. cbn [fst snd].
        rewrite get_has.
        destruct (get m n) as [p|] eqn:Eg.
        -- now rewrite Eg.
        -- rewrite get_snoc, Eg, eqb_refl. reflexivity.
      * rewrite app_nil_r, <- Hg.
        destruct (has m n0); [reflexivity|].
        rewrite get_snoc, E. now destruct (get m n).
  - split.
    + now rewrite app_nil_r.
    + intros n. rewrite filter_app. cbn [filter].
      unfold Vocabulary.countsFor at 2. rewrite Ec. rewrite app_nil_r.
      apply Hg.
Qed.

Lemma processPlayers_record (events : list FilteredEvent) :
  processPlayers events = fold_left record (occurrences events) [].
Proof. apply processPlayers_occurrences. Qed.

Lemma processPlayers_get (events : list FilteredEvent) (n : jsstring) :
  get (processPlayers events) n =
    statsFrom n (filter (countsFor n) (occurrences events)).
Proof.
  rewrite processPlayers_record. apply record_spec.
Qed.

Lemma processPlayers_names (events : list FilteredEvent) :
  map fst (processPlayers events)
  = firstOccurrences (countedNames (occurrences events)).
Proof.
  rewrite processPlayers_record. apply record_spec.
Qed.

Lemma processPlayers_entry (events : list FilteredEvent) (k : jsstring)
    (p : PlayerStats) :
  In (k, p) (processPlayers events) ->
  statsFrom k (filter (countsFor k) (occurrences events)) = Some p.
Proof.
  intros Hin. rewrite <- processPlayers_get. apply In_get; trivial.
  rewrite processPlayers_names. apply firstOccurrences_NoDup.
Qed.

(** X7.  The record of each player.  After [processPlayers], the map holds
    a record under the name [n] exactly when some roster entry is counted
    as [n]; its attendance is the number of those entries, its events are
    the keys of their events and its variations their trimmed spellings,
    each once, in order of first appearance. *)
Theorem processPlayers_player (events : list FilteredEvent) (n : jsstring) :
  get (processPlayers events) n =
    statsFrom n (filter (countsFor n) (occurrences events)).
Proof.
  apply processPlayers_get.
Qed.

Lemma firstOccurrences_length (l : list jsstring) :
  length (firstOccurrences l) <= length l.
Proof.
  induction l as [|a l IH]; simpl; [lia|].
  pose proof (filter_length_le (fun y => negb (eqb y a)) (firstOccurrences l)).
  lia.
Qed.

Lemma firstOccurrences_nonempty (l : list jsstring) :
  l <> [] -> 1 <= length (firstOccurrences l).
Proof. destruct l; [congruence|]. simpl. lia. Qed.

Lemma countedAs_nonempty (t n : jsstring) :
  countedAs t = Some n -> n <> [].
Proof.
  unfold Vocabulary.countedAs. destruct (skipped t); [discriminate|].
  destruct (normalizePlayerName aliases (cleanPlayerName t));
    [discriminate|].
  intros H. injection H as <-. discriminate.
Qed.

Lemma countedNames_nonempty (l : list (jsstring * jsstring)) (n : jsstring) :
  In n (countedNames l) -> n <> [].
Proof.
  induction l as [|kt l IH]; simpl; [tauto|].
  destruct (Vocabulary.countedAs aliases (snd kt)) as [m|] eqn:E;
    [|exact IH].
  intros [<-|H]; [now apply (countedAs_nonempty (snd kt)) | now apply IH].
Qed.

(** X8.  Shape of the result of [processPlayers].  The names of the map are
    the names of the counted entries, each once, in order of first
    appearance, and none of them is empty.  Every record carries the name it
    is stored under, has a positive attendance, and lists at least one event
    and one variation, each without repetition and no more of them than its
    attendance. *)
Theorem processPlayers_well_formed (events : list FilteredEvent) :
  let m := processPlayers events in
  map fst m = firstOccurrences (countedNames (occurrences events))
  /\ NoDup (map fst m)
  /\ forall k p, In (k, p) m ->
       k <> [] /\ name p = k /\ cleanName p = k
       /\ (1 <= attendance p)%Z
       /\ NoDup (PlayerStatsAnalyzer.events p) /\ NoDup (variations p)
       /\ (1 <= Z.of_nat (length (PlayerStatsAnalyzer.events p))
           <= attendance p)%Z
       /\ (1 <= Z.of_nat (length (variations p)) <= attendance p)%Z.
Proof.
  intros m.
  assert (Hk : map fst m = firstOccurrences (countedNames (occurrences events))).
  { apply processPlayers_names. }
  assert (Hnd : NoDup (map fst m)).
  { rewrite Hk. apply firstOccurrences_NoDup. }
  split; [assumption|]. split; [assumption|].
  intros k p Hin.
  assert (Hk0 : k <> []).
  { apply (countedNames_nonempty (occurrences events)).
    apply firstOccurrences_In. rewrite <- Hk.
    apply in_map_iff. now exists (k, p). }
  split; [exact Hk0|].
  apply processPlayers_entry in Hin.
  apply statsFrom_Some in Hin as (Hne & Hn & Hc & Ha & He & Hv).
  set (occ := filter (countsFor k) (occurrences events)) in *.
  rewrite Hn, Hc, Ha, He, Hv.
  pose proof (firstOccurrences_length (map fst occ)) as H1.
  pose proof (firstOccurrences_length
                (map (fun kt => trim (snd kt)) occ)) as H2.
  rewrite length_map in H1, H2.
  assert (H3 : 1 <= length (firstOccurrences (map fst occ))).
  { apply firstOccurrences_nonempty. now destruct occ. }
  assert (H4 : 1 <= length (firstOccurrences
                              (map (fun kt => trim (snd kt)) occ))).
  { apply firstOccurrences_nonempty. now destruct occ. }
  repeat split; try apply firstOccurrences_NoDup; lia.
Qed.

(** ** The total *)

Lemma attendances_update (m : PlayerMap) (n key t : jsstring) :
  has m n = true ->
  sumZ (attendances (update m n (attend key t)))
  = (sumZ (attendances m) + 1)%Z.
Proof.
  unfold attendances.
  induction m as [|[k0 v0] m IH]; simpl; [discriminate|].
  destruct (eqb k0 n) eqn:E; simpl.
  - intros _. lia.
  - intros H. rewrite (IH H). lia.
Qed.

Lemma attendances_snoc (m : PlayerMap) (n : jsstring) :
  sumZ (attendances (m ++ [(n, newStats n)])) = sumZ (attendances m).
Proof.
  unfold attendances. rewrite map_app, GroupingFacts.sumZ_app. simpl. lia.
Qed.

Lemma has_snoc (m : PlayerMap) (n : jsstring) (v : PlayerStats) :
  has (m ++ [(n, v)]) n = true.
Proof.
  induction m as [|[k0 v0] m IH]; simpl.
  - now rewrite eqb_refl.
  - rewrite IH. apply orb_true_r.
Qed.

Lemma record_total (l : list (jsstring * jsstring)) :
  sumZ (attendances (fold_left record l []))
  = Z.of_nat (length (countedNames l)).
Proof.
  induction l as [|x l IH] using rev_ind; [reflexivity|].
  rewrite fold_left_app. cbn [fold_left].
  set (m := fold_left record l []) in *.
  unfold Vocabulary.record. rewrite processPlayer_step.
  rewrite countedNames_app. cbn [Vocabulary.countedNames].
  destruct (Vocabulary.countedAs aliases (snd x)) as [n0|] eqn:Ec.
  - rewrite length_app. cbn [length].
    destruct (has m n0) eqn:Eh.
    + rewrite attendances_update by assumption. lia.
    + rewrite attendances_update by apply has_snoc.
      rewrite attendances_snoc. lia.
  - now rewrite app_nil_r.
Qed.

Lemma processPlayers_sum (events : list FilteredEvent) :
  sumZ (attendances (processPlayers events))
  = Z.of_nat (length (countedNames (occurrences events))).
Proof.
  rewrite processPlayers_record. apply record_total.
Qed.

(** X9.  Conservation of attendance.  The attendances recorded by
    [processPlayers] add up to the number of counted roster entries: every
    entry that is not skipped and does not clean to the empty name adds one
    attendance to one player, and nothing else does. *)
Theorem processPlayers_total (events : list FilteredEvent) :
  sumZ (map (fun kp => attendance (snd kp)) (processPlayers events))
  = Z.of_nat (length (countedNames (occurrences events)))
  /\ length (countedNames (occurrences events))
     <= length (concat (map players events)).
Proof.
  split.
  - rewrite processPlayers_record. apply record_total.
  - induction events as [|e events IH]; simpl; [lia|].
    unfold occurrences in *. simpl.
    rewrite countedNames_app, !length_app.
    assert (H : length (countedNames
                          (map (fun t => (eventKey e, t)) (players e)))
                <= length (players e)).
    { generalize (players e). intros l.
      induction l as [|t l IHl]; simpl; [lia|].
      destruct (Vocabulary.countedAs aliases t); simpl; lia. }
    lia.
Qed.

End Aliases.

Lemma processPlayers_well_formed_witness :
  match processPlayers playerAliases threeFridays with
  | (k, p) :: _ =>
    name p = k /\ (1 <= attendance p)%Z /\ NoDup (variations p)
  | [] => False
  end.
Proof.
  destruct (processPlayers_well_formed playerAliases threeFridays)
    as (_ & _ & H).
  destruct (processPlayers playerAliases threeFridays) as [|[k p] m] eqn:E;
    [vm_compute in E; discriminate|].
  destruct (H k p (or_introl eq_refl)) as (_ & Hn & _ & Ha & _ & Hv & _).
  split; [exact Hn|]. split; [exact Ha | exact Hv].
Defined.

End AttendanceFacts.


(* ===================================================================== *)
(** * Final grouping: first fit, and the name of a consolidated record *)
(* ===================================================================== *)

Module FirstFitFacts.

Import FinalGrouping Vocabulary GroupingFacts.

Lemma snoc_split (A : Type) (l G1 G2 : list A) (x g : A) :
  l ++ [x] = G1 ++ g :: G2 ->
  (G2 = [] /\ G1 = l /\ g = x)
  \/ (exists G2', G2 = G2' ++ [x] /\ l = G1 ++ g :: G2').
Proof.
  intros H. destruct G2 as [|y G2] using rev_ind.
  - left. apply app_inj_tail in H as [-> ->]. auto.
  - right. clear IHG2. exists G2.
    rewrite app_comm_cons, app_assoc in H.
    apply app_inj_tail in H as [-> ->]. auto.
Qed.

Lemma seeds_map (groups : list (list Entry)) :
  flat_map (firstn 1) (map (map snd) groups) = map snd (seeds groups).
Proof.
  unfold seeds. induction groups as [|g groups IH]; [reflexivity|].
  cbn [flat_map map]. rewrite map_app, IH. f_equal. now destruct g.
Qed.

Section Similarity.

Variable normalizeNFD : jsstring -> jsstring.
Variable compareTwoStrings : jsstring -> jsstring -> Q.

Local Abbreviation similar := (similar normalizeNFD compareTwoStrings).
Local Abbreviation collect := (collect normalizeNFD compareTwoStrings).
Local Abbreviation openGroup := (openGroup normalizeNFD compareTwoStrings).
Local Abbreviation groupEntries := (groupEntries normalizeNFD compareTwoStrings).
Local Abbreviation groupSimilarPlayers :=
  (groupSimilarPlayers normalizeNFD compareTwoStrings).
Local Abbreviation clustered := (clustered normalizeNFD compareTwoStrings).
Local Abbreviation firstFit := (firstFit normalizeNFD compareTwoStrings).
Local Abbreviation absorbed := (absorbed normalizeNFD compareTwoStrings).

(** After the inner loop every later entry that resembles the seed is
    processed. *)
Lemma collect_absorbs (seed : Entry) (l : list Entry) (group : list Entry)
    (processed : list nat) :
  (forall i, In i processed ->
             In i (snd (fold_left (collect seed) l (group, processed))))
  /\ (forall e, In e l -> fst seed < fst e ->
                similar (snd seed) (snd e) = true ->
                In (fst e) (snd (fold_left (collect seed) l (group, processed)))).
Proof.
  revert group processed.
  induction l as [|[j q] l IH]; intros group processed.
  - simpl. split; [trivial | intros e []].
  - simpl fold_left. unfold FinalGrouping.collect at 2 4.
    destruct seed as [i p]. cbn [fst snd].
    destruct ((j <=? i) || processedHas processed j) eqn:Hskip.
    + destruct (IH group processed) as [Hm Ha]. split; [exact Hm|].
      intros e [<-|He] Hlt Hsim; [|now apply Ha].
      cbn [fst snd] in *. apply orb_true_iff in Hskip as [H|H].
      * apply Nat.leb_le in H. lia.
      * apply Hm. now apply processedHas_In.
    + destruct (FinalGrouping.similar normalizeNFD compareTwoStrings p q)
        eqn:Hsim.
      * destruct (IH (group ++ [(j, q)]) (j :: processed)) as [Hm Ha].
        split.
        -- intros x Hx. apply Hm. now right.
        -- intros e [<-|He] Hlt Hs; [|now apply Ha].
           apply Hm. now left.
      * destruct (IH group processed) as [Hm Ha]. split; [exact Hm|].
        intros e [<-|He] Hlt Hs; [|now apply Ha].
        cbn [fst snd] in Hs. congruence.
Qed.

(** One run of the outer loop keeps the two invariants. *)
Lemma openGroup_first_fit (full : list Entry) (e0 : Entry)
    (groups : list (list Entry)) (processed : list nat) :
  NoDup processed ->
  In e0 full ->
  (forall s, In s (seeds groups) -> fst s < fst e0) ->
  absorbed full groups processed -> firstFit groups ->
  let st := openGroup full (groups, processed) e0 in
  absorbed full (fst st) (snd st) /\ firstFit (fst st)
  /\ (forall s, In s (seeds (fst st)) -> In s (seeds groups) \/ s = e0).
Proof.
  intros Hnd Hfull Hlt Habs Hff. unfold FinalGrouping.openGroup.
  destruct (processedHas processed (fst e0)) eqn:Hp.
  - simpl. repeat split; auto.
  - assert (Hnot : ~ In (fst e0) processed).
    { intros H. apply processedHas_In in H. congruence. }
    destruct (collect_fold normalizeNFD compareTwoStrings e0 full [e0]
                processed Hnd) as (added & Hf & Ha & Hn).
    destruct (collect_absorbs e0 full [e0] processed) as [Hm Hc].
    rewrite Hf in *. cbn [fst snd] in *.
    rewrite Forall_forall in Ha.
    split; [|split].
    + intros s e Hs He Hlt' Hsim. rewrite seeds_app in Hs. simpl in Hs.
      apply in_app_or in Hs as [Hs|[<-|[]]].
      * right. apply in_or_app. right. now apply (Habs s e).
      * right. now apply Hc.
    + intros G1 g G2 s e HG Hs He.
      apply snoc_split in HG as [(-> & -> & ->)|(G2' & -> & ->)].
      * destruct (FinalGrouping.similar normalizeNFD compareTwoStrings
                    (snd s) (snd e)) eqn:Hsim; [exfalso|reflexivity].
        destruct He as [<-|He].
        -- apply Hnot. apply (Habs s e0); auto.
        -- destruct (Ha e He) as (Hin & Hlt' & _).
           assert (Hproc : In (fst e) processed).
           { apply (Habs s e); auto. specialize (Hlt s Hs). lia. }
           apply NoDup_app_remove_l in Hn as Hn'.
           revert Hn Hproc. clear - He.
           intros Hn Hproc.
           assert (Hr : In (fst e) (rev (map fst added))).
           { apply -> in_rev. now apply in_map. }
           apply in_split in Hr as (l1 & l2 & Hr). rewrite Hr in Hn.
           rewrite <- app_assoc in Hn. simpl in Hn.
           apply NoDup_remove_2 in Hn. apply Hn.
           apply in_or_app. right. apply in_or_app. now right.
      * apply (Hff G1 g G2' s e); auto.
    + intros s Hs. rewrite seeds_app in Hs. simpl in Hs.
      apply in_app_or in Hs as [Hs|[<-|[]]]; auto.
Qed.

Lemma openGroup_fold_first_fit (full l : list Entry)
    (groups : list (list Entry)) (processed : list nat) :
  clustered full groups processed ->
  (forall e, In e l -> In e full) ->
  StronglySorted lt (map fst l) ->
  StronglySorted lt (map fst (seeds groups)) ->
  (forall s e, In s (seeds groups) -> In e l -> fst s < fst e) ->
  absorbed full groups processed -> firstFit groups ->
  firstFit (fst (fold_left (openGroup full) l (groups, processed))).
Proof.
  revert groups processed.
  induction l as [|e0 l IH];
    intros groups processed Hc Hfull Hsorted Hseeds Hlt Habs Hff.
  - assumption.
  - cbn [fold_left].
    destruct (openGroup_fold normalizeNFD compareTwoStrings full [e0]
                groups processed Hc) as (g' & p' & Hf & Hc' & _ & _ & Hss).
    + intros e [<-|[]]. apply Hfull. now left.
    + repeat constructor.
    + assumption.
    + intros s e Hs [<-|[]]. apply Hlt; [assumption | now left].
    + cbn [fold_left] in Hf.
      destruct (openGroup_first_fit full e0 groups processed)
        as (Habs' & Hff' & Hsd); trivial.
      * apply Hc.
      * apply Hfull. now left.
      * intros s Hs. apply Hlt; [assumption | now left].
      * rewrite Hf in *. cbn [fst snd] in *.
        simpl in Hsorted. inversion Hsorted as [|? ? Hs' Hall]; subst.
        rewrite Forall_forall in Hall.
        apply IH; trivial.
        -- intros e He. apply Hfull. now right.
        -- intros s e Hs He. destruct (Hsd s Hs) as [H| ->].
           ++ apply Hlt; [assumption | now right].
           ++ apply Hall. now apply in_map.
Qed.

Lemma groupEntries_first_fit (players : list Player) :
  firstFit (groupEntries players).
Proof.
  unfold FinalGrouping.groupEntries.
  apply openGroup_fold_first_fit.
  - repeat split; try constructor. intros e [].
  - trivial.
  - rewrite indexed_fst. apply seq_sorted.
  - constructor.
  - intros s e [].
  - intros s e [].
  - intros G1 g G2 s e HG. destruct G1; discriminate.
Qed.

(** X10.  First fit.  In the result of [groupSimilarPlayers] no player of a
    group reaches the threshold with the first player of an earlier group: a
    player joins the first group, in input order, whose first player it
    resembles, and the first players of the groups do not resemble the first
    players of earlier groups. *)
Theorem groupSimilarPlayers_first_fit (players : list Player)
    (G1 G2 : list (list Player)) (g : list Player) (s p : Player) :
  groupSimilarPlayers players = G1 ++ g :: G2 ->
  In s (flat_map (firstn 1) G1) -> In p g ->
  similar s p = false
  /\ ~ (SIMILARITY_THRESHOLDS SIMILARITY_LEVEL
        <= compareTwoStrings (cleanName_ normalizeNFD (name s))
                             (cleanName_ normalizeNFD (name p)))%Q.
Proof.
  intros HG Hs Hp.
  assert (H : similar s p = false).
  { unfold FinalGrouping.groupSimilarPlayers in HG.
    apply map_eq_app in HG as (E1 & E2' & HE & <- & HE2).
    destruct E2' as [|eg E2]; [discriminate|]. simpl in HE2.
    injection HE2 as <- <-.
    rewrite seeds_map in Hs. apply in_map_iff in Hs as (s' & <- & Hs').
    apply in_map_iff in Hp as (e & <- & He).
    apply (groupEntries_first_fit players E1 eg E2 s' e HE Hs' He). }
  split; [assumption|].
  intros Hq. unfold FinalGrouping.similar in H.
  apply Qle_bool_iff in Hq. congruence.
Qed.

End Similarity.

Lemma groupSimilarPlayers_first_fit_witness :
  similar sampleNFD sampleCompare
    (samplePlayer (js "Jose Perez") 5 [js "Jose Perez"; js "jose perez"])
    (samplePlayer (js "Ana") 4 [js "Ana"]) = false.
Proof.
  apply (groupSimilarPlayers_first_fit sampleNFD sampleCompare sampleRanking
           [[samplePlayer (js "Jose Perez") 5 [js "Jose Perez"; js "jose perez"];
             samplePlayer (js "Jose Peres") 2 [js "Jose Peres"; js "Jose Perez"]]]
           [] [samplePlayer (js "Ana") 4 [js "Ana"]]).
  - vm_compute. reflexivity.
  - simpl. now left.
  - simpl. now left.
Defined.

End FirstFitFacts.


(* ===================================================================== *)
(** * Final grouping: getMostFrequentName *)
(* ===================================================================== *)

Module NameFacts.

Import FinalGrouping Vocabulary GroupingFacts.

(** ** The frequency object *)

Lemma inheritedFunctions_names (k : jsstring) :
  In k V5.inheritedFunctions -> In k inheritedNames.
Proof.
  unfold V5.inheritedFunctions, inheritedNames.
  intros [H|H]; [now left | right; right; exact H].
Qed.

(** What the assignment tests about a name that is not inherited. *)
Lemma ordinary_tests (k : jsstring) :
  ~ In k inheritedNames ->
  eqb k (js "__proto__") = false
  /\ existsb (eqb k) V5.inheritedFunctions = false.
Proof.
  intros H. split.
  - apply eqb_neq. intros ->. apply H. simpl. tauto.
  - destruct (existsb (eqb k) V5.inheritedFunctions) eqn:E; [|reflexivity].
    apply existsb_eqb_In in E. apply inheritedFunctions_names in E.
    contradiction.
Qed.

Lemma count_countsOnly (f : V5.Frequency) (k : jsstring) (v : V5.Count) :
  countsOnly f -> V5.count f k = Some v -> exists n, v = V5.Times n.
Proof.
  unfold countsOnly.
  induction 1 as [|[k0 v0] f [n Hv] Hf IH]; cbn [V5.count]; [discriminate|].
  destruct (eqb k0 k); [|exact IH].
  intros [= <-]. now exists n.
Qed.

Lemma count_In (f : V5.Frequency) (k : jsstring) :
  In k (map fst f) -> exists v, V5.count f k = Some v.
Proof.
  induction f as [|[k0 n] f IH]; simpl; [tauto|].
  destruct (eqb k0 k) eqn:E; [eauto|].
  intros [H|H]; [|now apply IH].
  subst. now rewrite eqb_refl in E.
Qed.

(** ** Object.keys *)

Lemma insertIndex_keys (n : Z) (k k0 : jsstring) (acc : list (Z * jsstring)) :
  In k0 (map snd (V5.insertIndex n k acc)) -> k0 = k \/ In k0 (map snd acc).
Proof.
  induction acc as [|[m j] acc IH]; simpl.
  - intros [H|[]]. now left.
  - destruct (n <? m)%Z; simpl; intuition.
Qed.

Lemma objectKeys_of (f : V5.Frequency) (k : jsstring) :
  In k (V5.objectKeys f) -> In k (map fst f).
Proof.
  unfold V5.objectKeys. intros H. apply in_app_or in H as [H|H].
  - assert (G : forall acc,
               In k (map snd
                  (fold_left (fun acc kv =>
                     match V5.arrayIndex (fst kv) with
                     | Some n => V5.insertIndex n (fst kv) acc
                     | None => acc
                     end) f acc)) ->
               In k (map snd acc) \/ In k (map fst f)).
    { clear H. induction f as [|[k' n'] f IH]; intros acc H; simpl in *;
        [tauto|].
      destruct (IH _ H) as [H'|H']; [|tauto].
      destruct (V5.arrayIndex k'); [|tauto].
      apply insertIndex_keys in H' as [->|H']; tauto. }
    destruct (G [] H) as [[]|G']. exact G'.
  - now apply filter_In in H.
Qed.

Lemma objectKeys_ordinary (f : V5.Frequency) :
  Forall (fun k => V5.arrayIndex k = None) (map fst f) ->
  V5.objectKeys f = map fst f.
Proof.
  intros H. unfold V5.objectKeys.
  assert (G : forall acc,
             fold_left (fun acc kv =>
                match V5.arrayIndex (fst kv) with
                | Some n => V5.insertIndex n (fst kv) acc
                | None => acc
                end) f acc = acc).
  { induction f as [|[k' n'] f IH]; intros acc; simpl in *; [reflexivity|].
    inversion H as [|? ? Hk Hf]; subst. rewrite Hk. now apply IH. }
  rewrite G. simpl. apply forallb_filter_id. apply forallb_forall.
  intros k Hk. rewrite Forall_forall in H. now rewrite (H k Hk).
Qed.

(** ** The reduction *)

Lemma moreFrequent_countOf (f : V5.Frequency) (a b : jsstring) :
  countsOnly f -> In a (map fst f) -> In b (map fst f) ->
  V5.moreFrequent f a b = (countOf f b <? countOf f a)%Z.
Proof.
  intros Hf Ha Hb. unfold V5.moreFrequent, countOf.
  destruct (count_In f a Ha) as [x Hx], (count_In f b Hb) as [y Hy].
  rewrite Hx, Hy.
  destruct (count_countsOnly f a x Hf Hx) as [n ->].
  destruct (count_countsOnly f b y Hf Hy) as [n' ->].
  reflexivity.
Qed.

(** The reduction keeps a key of greatest count, the last of them. *)
Lemma reduce_greatest (f : V5.Frequency) (keys : list jsstring)
    (k0 : jsstring) :
  countsOnly f ->
  (forall k, In k (k0 :: keys) -> In k (map fst f)) ->
  let r := fold_left (fun a b => if V5.moreFrequent f a b then a else b)
                     keys k0 in
  In r (k0 :: keys)
  /\ forall k, In k (k0 :: keys) -> (countOf f k <= countOf f r)%Z.
Proof.
  intros Hf. revert k0.
  induction keys as [|b keys IH]; intros k0 Hdom; cbn [fold_left].
  - cbv zeta. split; [now left|]. intros k [<-|[]]. lia.
  - cbv zeta.
    rewrite moreFrequent_countOf
      by (trivial; apply Hdom; simpl; tauto).
    destruct (countOf f b <? countOf f k0)%Z eqn:E.
    + apply Z.ltb_lt in E.
      destruct (IH k0) as [Hin Hmax].
      { intros k [<-|Hk]; apply Hdom; [now left | right; now right]. }
      split.
      * destruct Hin as [<-|Hin]; [now left | right; now right].
      * intros k [<-|[<-|Hk]].
        -- apply Hmax. now left.
        -- specialize (Hmax k0 (or_introl eq_refl)). lia.
        -- apply Hmax. now right.
    + apply Z.ltb_ge in E.
      destruct (IH b) as [Hin Hmax].
      { intros k Hk. apply Hdom. now right. }
      split.
      * now right.
      * intros k [<-|Hk].
        -- specialize (Hmax b (or_introl eq_refl)). lia.
        -- now apply Hmax.
Qed.

(** Without a count above another, the reduction ends on the last key. *)
Lemma reduce_last (f : V5.Frequency) (keys : list jsstring) (k0 : jsstring) :
  (forall a b, V5.moreFrequent f a b = false) ->
  fold_left (fun a b => if V5.moreFrequent f a b then a else b) keys k0
  = last (k0 :: keys) [].
Proof.
  intros H. revert k0. induction keys as [|b keys IH]; intros k0;
    [reflexivity|].
  cbn [fold_left]. rewrite H, IH. reflexivity.
Qed.

Lemma count_ones (vs : list jsstring) (k : jsstring) (v : V5.Count) :
  V5.count (map (fun v => (v, V5.Times 1)) vs) k = Some v -> v = V5.Times 1.
Proof.
  induction vs as [|x vs IH]; simpl; [discriminate|].
  destruct (eqb x k); [congruence | assumption].
Qed.

Lemma ltb_irrefl (s : jsstring) : ltb s s = false.
Proof.
  induction s as [|c s IH]; simpl; [reflexivity|].
  now rewrite N.ltb_irrefl, N.eqb_refl, IH.
Qed.

(** ** Counting *)

Section Prototype.

Variable functionSource : jsstring -> jsstring.

Local Abbreviation increment := (V5.increment functionSource).
Local Abbreviation getMostFrequentName :=
  (V5.getMostFrequentName functionSource).

Lemma count_increment (f : V5.Frequency) (k k' : jsstring) :
  ~ In k inheritedNames ->
  V5.count (increment f k) k' =
    if eqb k k'
    then Some (match V5.count f k' with
               | Some v => V5.addOne v
               | None => V5.Times 1
               end)
    else V5.count f k'.
Proof.
  intros Hk. destruct (ordinary_tests k Hk) as [Hp Hi].
  induction f as [|[k0 n] f IH]; cbn [V5.increment V5.count].
  - rewrite Hp, Hi. reflexivity.
  - destruct (eqb k0 k) eqn:E0; cbn [V5.count].
    + apply eqb_eq in E0. subst k0. now destruct (eqb k k').
    + rewrite IH. destruct (eqb k0 k') eqn:E1; [|reflexivity].
      apply eqb_eq in E1. subst k0. rewrite eqb_sym in E0. now rewrite E0.
Qed.

Lemma increment_countsOnly (f : V5.Frequency) (k : jsstring) :
  ~ In k inheritedNames -> countsOnly f -> countsOnly (increment f k).
Proof.
  intros Hk. destruct (ordinary_tests k Hk) as [Hp Hi]. unfold countsOnly.
  induction 1 as [|[k0 v] f [n Hv] Hf IH]; cbn [V5.increment].
  - rewrite Hp, Hi. repeat constructor. now exists 1%Z.
  - simpl in Hv. subst v. destruct (eqb k0 k).
    + constructor; [|assumption]. now exists (n + 1)%Z.
    + constructor; [|assumption]. now exists n.
Qed.

Lemma countOf_increment (f : V5.Frequency) (k k' : jsstring) :
  ~ In k inheritedNames -> countsOnly f ->
  countOf (increment f k) k'
  = (countOf f k' + if eqb k k' then 1 else 0)%Z.
Proof.
  intros Hk Hf. unfold countOf. rewrite count_increment by assumption.
  destruct (V5.count f k') as [v|] eqn:E.
  - destruct (count_countsOnly f k' v Hf E) as [n ->].
    destruct (eqb k k'); simpl; lia.
  - destruct (eqb k k'); simpl; lia.
Qed.

Lemma countOf_fold (vs : list jsstring) (f : V5.Frequency) (k : jsstring) :
  (forall v, In v vs -> ~ In v inheritedNames) -> countsOnly f ->
  countsOnly (fold_left increment vs f)
  /\ countOf (fold_left increment vs f) k
     = (countOf f k + occurrencesIn k vs)%Z.
Proof.
  revert f. unfold occurrencesIn.
  induction vs as [|v vs IH]; intros f Hvs Hf; cbn [fold_left].
  - split; [assumption | simpl; lia].
  - assert (Hv : ~ In v inheritedNames) by (apply Hvs; now left).
    destruct (IH (increment f v)) as [Hc Hn].
    + intros x Hx. apply Hvs. now right.
    + now apply increment_countsOnly.
    + split; [exact Hc|].
      rewrite Hn, countOf_increment, (eqb_sym v k) by assumption.
      cbn [filter]. destruct (eqb k v); simpl length; lia.
Qed.

Lemma increment_keys (f : V5.Frequency) (k k0 : jsstring) :
  In k0 (map fst (increment f k)) -> k0 = k \/ In k0 (map fst f).
Proof.
  induction f as [|[k' n] f IH]; cbn [V5.increment].
  - destruct (eqb k (js "__proto__")); [intros []|].
    destruct (existsb (eqb k) V5.inheritedFunctions);
      intros [H|[]]; now left.
  - destruct (eqb k' k); simpl; tauto.
Qed.

Lemma frequency_keys_of (vs : list jsstring) (f : V5.Frequency)
    (k : jsstring) :
  In k (map fst (fold_left increment vs f)) ->
  In k vs \/ In k (map fst f).
Proof.
  revert f. induction vs as [|v vs IH]; intros f; simpl; [tauto|].
  intros H. destruct (IH _ H) as [H'|H']; [tauto|].
  apply increment_keys in H' as [->|H']; tauto.
Qed.

(** ** A list without repetition *)

Lemma increment_fresh (f : V5.Frequency) (k : jsstring) :
  ~ In k inheritedNames ->
  ~ In k (map fst f) -> increment f k = f ++ [(k, V5.Times 1)].
Proof.
  intros Hk. destruct (ordinary_tests k Hk) as [Hp Hi].
  induction f as [|[k0 n] f IH]; cbn [V5.increment].
  - now rewrite Hp, Hi.
  - simpl. intros H. destruct (eqb k0 k) eqn:E.
    + apply eqb_eq in E. tauto.
    + rewrite IH; tauto.
Qed.

Lemma frequency_distinct (vs : list jsstring) (f : V5.Frequency) :
  (forall v, In v vs -> ~ In v inheritedNames) ->
  NoDup vs -> (forall v, In v vs -> ~ In v (map fst f)) ->
  fold_left increment vs f = f ++ map (fun v => (v, V5.Times 1)) vs.
Proof.
  revert f. induction vs as [|v vs IH]; intros f Hord Hnd Hnew;
    cbn [fold_left map].
  - now rewrite app_nil_r.
  - inversion Hnd as [|? ? Hv Hnd']; subst.
    rewrite increment_fresh by (apply Hord || apply Hnew; now left).
    rewrite IH; trivial.
    + now rewrite <- app_assoc.
    + intros x Hx. apply Hord. now right.
    + intros x Hx. rewrite map_app. simpl. intros H.
      apply in_app_or in H as [H|[<-|[]]].
      * apply (Hnew x); [now right | assumption].
      * contradiction.
Qed.

Lemma getMostFrequentName_distinct (vs : list jsstring) :
  NoDup vs -> vs <> [] ->
  Forall ordinaryKey vs ->
  getMostFrequentName vs = Some (last vs []).
Proof.
  intros Hnd Hne Hord. unfold V5.getMostFrequentName.
  rewrite Forall_forall in Hord.
  rewrite frequency_distinct; trivial;
    [|intros v Hv; now apply Hord|now intros v _ []].
  simpl app.
  rewrite objectKeys_ordinary; rewrite map_map; simpl; rewrite map_id;
    [|apply Forall_forall; intros k Hk; now apply Hord].
  destruct vs as [|k keys]; [contradiction|].
  rewrite reduce_last; [reflexivity|].
  intros a b. unfold V5.moreFrequent.
  destruct (V5.count _ a) as [x|] eqn:Ea; [|reflexivity].
  destruct (V5.count _ b) as [y|] eqn:Eb;
    [|destruct x; reflexivity].
  apply count_ones in Ea, Eb. subst. reflexivity.
Qed.

(** ** Names inherited from Object.prototype *)

(** The first assignment under a name other than [__proto__]. *)
Lemma increment_first (f : V5.Frequency) (k : jsstring) :
  k <> js "__proto__" -> ~ In k (map fst f) ->
  increment f k
  = f ++ [(k, if existsb (eqb k) V5.inheritedFunctions
              then V5.Text (functionSource k ++ js "1")
              else V5.Times 1)].
Proof.
  intros Hk. apply eqb_neq in Hk.
  induction f as [|[k0 n] f IH]; cbn [V5.increment].
  - rewrite Hk. now destruct (existsb (eqb k) V5.inheritedFunctions).
  - simpl. intros H. destruct (eqb k0 k) eqn:E.
    + apply eqb_eq in E. tauto.
    + rewrite IH; tauto.
Qed.

(** The assignment under [__proto__] leaves the object as it is. *)
Lemma increment_prototype (f : V5.Frequency) :
  ~ In (js "__proto__") (map fst f) -> increment f (js "__proto__") = f.
Proof.
  induction f as [|[k0 n] f IH]; cbn [V5.increment]; [reflexivity|].
  simpl. intros H. destruct (eqb k0 (js "__proto__")) eqn:E.
  - apply eqb_eq in E. tauto.
  - rewrite IH; tauto.
Qed.

Lemma frequency_skips_prototype (vs : list jsstring) (f : V5.Frequency) :
  ~ In (js "__proto__") (map fst f) ->
  fold_left increment vs f
  = fold_left increment
      (filter (fun k => negb (eqb k (js "__proto__"))) vs) f.
Proof.
  revert f. induction vs as [|v vs IH]; intros f Hf; [reflexivity|].
  cbn [fold_left filter]. destruct (eqb v (js "__proto__")) eqn:E.
  - apply eqb_eq in E. subst v. simpl negb. cbv iota.
    rewrite increment_prototype by assumption. now apply IH.
  - simpl negb. cbv iota. cbn [fold_left]. apply IH.
    intros H. apply increment_keys in H as [H|H]; [|contradiction].
    rewrite <- H, eqb_refl in E. discriminate.
Qed.

Lemma frequency_first (vs : list jsstring) (f : V5.Frequency) :
  NoDup vs -> ~ In (js "__proto__") vs ->
  (forall v, In v vs -> ~ In v (map fst f)) ->
  fold_left increment vs f
  = f ++ map (fun k => (k, if existsb (eqb k) V5.inheritedFunctions
                           then V5.Text (functionSource k ++ js "1")
                           else V5.Times 1)) vs.
Proof.
  revert f. induction vs as [|v vs IH]; intros f Hnd Hp Hnew;
    cbn [fold_left map].
  - now rewrite app_nil_r.
  - inversion Hnd as [|? ? Hv Hnd']; subst.
    rewrite increment_first;
      [|intros ->; apply Hp; now left|apply Hnew; now left].
    rewrite IH; trivial.
    + now rewrite <- app_assoc.
    + intros H. apply Hp. now right.
    + intros x Hx. rewrite map_app. simpl. intros H.
      apply in_app_or in H as [H|[<-|[]]].
      * apply (Hnew x); [now right | assumption].
      * contradiction.
Qed.

Lemma count_first (vs : list jsstring) (k : jsstring) (v : V5.Count) :
  V5.count (map (fun k => (k, if existsb (eqb k) V5.inheritedFunctions
                              then V5.Text (functionSource k ++ js "1")
                              else V5.Times 1)) vs) k = Some v ->
  In k vs
  /\ v = (if existsb (eqb k) V5.inheritedFunctions
          then V5.Text (functionSource k ++ js "1")
          else V5.Times 1).
Proof.
  induction vs as [|x vs IH]; simpl; [discriminate|].
  destruct (eqb x k) eqn:E.
  - apply eqb_eq in E. subst x. intros [= <-]. split; [now left | reflexivity].
  - intros H. destruct (IH H) as [Hin Hv]. split; [now right | assumption].
Qed.

End Prototype.

Lemma isInherited_spec (k : jsstring) :
  isInherited k = false -> ~ In k inheritedNames.
Proof.
  unfold isInherited. intros H Hin.
  assert (E : existsb (eqb k) inheritedNames = true).
  { apply existsb_exists. exists k. split; [assumption | apply eqb_refl]. }
  congruence.
Qed.

Lemma isOrdinaryKey_spec (vs : list jsstring) :
  forallb isOrdinaryKey vs = true -> Forall ordinaryKey vs.
Proof.
  intros H. apply Forall_forall. intros k Hk.
  rewrite forallb_forall in H. specialize (H k Hk).
  unfold isOrdinaryKey in H. unfold ordinaryKey.
  destruct (V5.arrayIndex k); [discriminate|].
  split; [reflexivity|]. apply isInherited_spec.
  now apply negb_true_iff.
Qed.

(** X11.  The name of a consolidated record, revision with
    [getMostFrequentName].  [consolidateGroup] hands the variations to
    [getMostFrequentName] with the repetitions already removed, so every
    count is 1 and the reduction keeps the later key each time: when no
    variation is an array index or an inherited name, the record carries
    the last of the de-duplicated variations as its name, however often
    another spelling occurs in the group. *)
Theorem V5_consolidateGroup_name (functionSource : jsstring -> jsstring)
    (group : list Player) :
  let uniqueVariations := unique (allVariations group) in
  uniqueVariations <> [] ->
  Forall ordinaryKey uniqueVariations ->
  V5.getMostFrequentName functionSource uniqueVariations
  = Some (last uniqueVariations [])
  /\ V5.consolidateGroup functionSource group =
       Some {| consolidatedName := last uniqueVariations [];
               totalAttendance := sumZ (map attendance group);
               consolidatedVariations := join (js ", ") uniqueVariations |}.
Proof.
  intros uvs Hne Hord.
  assert (H : V5.getMostFrequentName functionSource uvs
              = Some (last uvs [])).
  { apply getMostFrequentName_distinct; trivial. apply unique_spec. }
  split; [assumption|].
  unfold V5.consolidateGroup. fold uvs. rewrite H.
  now rewrite sumAttendance_sum.
Qed.

Lemma V5_consolidateGroup_name_witness :
  option_map consolidatedName (V5.consolidateGroup sampleSource sampleGroup)
  = Some (js "Jose Peres")
  /\ occurrencesIn (js "Jose Perez") (allVariations sampleGroup) = 2%Z
  /\ occurrencesIn (js "Jose Peres") (allVariations sampleGroup) = 1%Z.
Proof.
  split; [|split; reflexivity].
  destruct (V5_consolidateGroup_name sampleSource sampleGroup) as [_ H].
  - vm_compute. discriminate.
  - apply isOrdinaryKey_spec. vm_compute. reflexivity.
  - rewrite H. reflexivity.
Defined.

(** X12.  [getMostFrequentName] on any list.  The name returned is one of
    the variations, and none of them occurs more often; it throws (no
    result) only for the empty list. *)
Theorem getMostFrequentName_greatest (functionSource : jsstring -> jsstring)
    (vs : list jsstring) :
  (forall v, In v vs -> ~ In v inheritedNames) ->
  (vs <> [] -> exists r, V5.getMostFrequentName functionSource vs = Some r)
  /\ forall r, V5.getMostFrequentName functionSource vs = Some r ->
       In r vs
       /\ forall v, In v vs -> (occurrencesIn v vs <= occurrencesIn r vs)%Z.
Proof.
  intros Hord.
  assert (Hp : forall v, In v vs -> v <> js "__proto__").
  { intros v Hv ->. apply (Hord _ Hv). simpl. tauto. }
  split.
  { intros Hne. apply getMostFrequentName_some.
    destruct vs as [|v vs']; [contradiction|].
    exists v. split; [now left | apply Hp; now left]. }
  intros r. unfold V5.getMostFrequentName.
  set (f := fold_left (V5.increment functionSource) vs []).
  assert (Hf : countsOnly f
               /\ forall k, countOf f k = occurrencesIn k vs).
  { split.
    - apply (countOf_fold functionSource vs [] [] Hord). constructor.
    - intros k.
      destruct (countOf_fold functionSource vs [] k Hord) as [_ Hc];
        [constructor|].
      exact Hc. }
  destruct Hf as [Hf Hc].
  destruct (V5.objectKeys f) as [|k0 keys] eqn:Ek; [discriminate|].
  intros H. injection H as <-.
  destruct (reduce_greatest f keys k0 Hf) as [Hin Hmax].
  { intros k Hk. rewrite <- Ek in Hk. now apply objectKeys_of. }
  split.
  - rewrite <- Ek in Hin. apply objectKeys_of in Hin.
    apply frequency_keys_of in Hin as [Hin|[]]. exact Hin.
  - intros v Hv. rewrite <- !Hc. apply Hmax. rewrite <- Ek.
    apply objectKeys_In. apply frequency_keys. left.
    split; [assumption | now apply Hp].
Qed.

Lemma getMostFrequentName_greatest_witness :
  V5.getMostFrequentName sampleSource (allVariations sampleGroup)
  = Some (js "Jose Perez").
Proof.
  destruct (getMostFrequentName_greatest sampleSource
              (allVariations sampleGroup))
    as [He Hg].
  - intros v Hv. apply isInherited_spec.
    assert (Hall : forallb (fun k => negb (isInherited k))
                           (allVariations sampleGroup) = true)
      by (vm_compute; reflexivity).
    rewrite forallb_forall in Hall. apply negb_true_iff. now apply Hall.
  - destruct He as [r Hr]; [discriminate|].
    rewrite Hr. vm_compute in Hr. symmetry. exact Hr.
Defined.

(** X23.  Names that the frequency object inherits.  The variation
    [__proto__] is not counted: [getMostFrequentName] answers as if it were
    not in the list.  On a list without repetition, without array indices
    and with at most one name of a function of [Object.prototype]
    (constructor, toString and the like), it returns the last variation:
    the value stored under such a name is a text, and a text is not greater
    than a count, nor a count greater than a text. *)
Theorem getMostFrequentName_inherited_names
    (functionSource : jsstring -> jsstring) (vs : list jsstring) :
  V5.getMostFrequentName functionSource vs
  = V5.getMostFrequentName functionSource
      (filter (fun k => negb (eqb k (js "__proto__"))) vs)
  /\ (NoDup vs -> vs <> [] -> ~ In (js "__proto__") vs ->
      Forall (fun k => V5.arrayIndex k = None) vs ->
      (forall a b, In a vs -> In b vs ->
                   In a V5.inheritedFunctions -> In b V5.inheritedFunctions ->
                   a = b) ->
      V5.getMostFrequentName functionSource vs = Some (last vs [])).
Proof.
  split.
  - unfold V5.getMostFrequentName.
    now rewrite <- frequency_skips_prototype by (intros []).
  - intros Hnd Hne Hp Hidx Hone. unfold V5.getMostFrequentName.
    rewrite frequency_first; trivial; [|now intros v _ []].
    simpl app.
    rewrite objectKeys_ordinary; rewrite map_map; simpl; rewrite map_id;
      [|assumption].
    destruct vs as [|k keys]; [contradiction|].
    rewrite reduce_last; [reflexivity|].
    intros a b. unfold V5.moreFrequent.
    destruct (V5.count _ a) as [x|] eqn:Ea; [|reflexivity].
    destruct (V5.count _ b) as [y|] eqn:Eb; [|destruct x; reflexivity].
    apply count_first in Ea as [Ha ->], Eb as [Hb ->].
    destruct (existsb (eqb a) V5.inheritedFunctions) eqn:Ia;
      destruct (existsb (eqb b) V5.inheritedFunctions) eqn:Ib;
      try reflexivity.
    apply GroupingFacts.existsb_eqb_In in Ia, Ib.
    rewrite (Hone a b Ha Hb Ia Ib). apply ltb_irrefl.
Qed.

Lemma getMostFrequentName_inherited_names_witness :
  V5.getMostFrequentName sampleSource [js "constructor"; js "Ana"]
  = Some (js "Ana")
  /\ V5.getMostFrequentName sampleSource [js "Ana"; js "constructor"]
     = Some (js "constructor")
  /\ V5.getMostFrequentName sampleSource [js "__proto__"; js "Ana"]
     = V5.getMostFrequentName sampleSource [js "Ana"].
Proof.
  assert (Hone : forall x a b : jsstring,
             In a [x; js "Ana"] \/ In a [js "Ana"; x] ->
             In b [x; js "Ana"] \/ In b [js "Ana"; x] ->
             In a V5.inheritedFunctions -> In b V5.inheritedFunctions ->
             ~ In (js "Ana") V5.inheritedFunctions -> a = b).
  { intros x a b Ha Hb Ia Ib Hana. simpl in Ha, Hb.
    assert (a = x) as ->
      by (destruct Ha as [[<-|[<-|[]]]|[<-|[<-|[]]]]; tauto).
    destruct Hb as [[<-|[<-|[]]]|[<-|[<-|[]]]]; tauto. }
  assert (Hana : ~ In (js "Ana") V5.inheritedFunctions).
  { intros H. apply inheritedFunctions_names, isInherited_spec in H;
      [assumption | vm_compute; reflexivity]. }
  split; [|split].
  - apply (proj2 (getMostFrequentName_inherited_names sampleSource
                    [js "constructor"; js "Ana"])).
    + repeat constructor; simpl; intuition discriminate.
    + discriminate.
    + simpl. intuition discriminate.
    + repeat constructor.
    + intros a b Ha Hb Ia Ib.
      exact (Hone (js "constructor") a b (or_introl Ha) (or_introl Hb)
               Ia Ib Hana).
  - apply (proj2 (getMostFrequentName_inherited_names sampleSource
                    [js "Ana"; js "constructor"])).
    + repeat constructor; simpl; intuition discriminate.
    + discriminate.
    + simpl. intuition discriminate.
    + repeat constructor.
    + intros a b Ha Hb Ia Ib.
      exact (Hone (js "constructor") a b (or_intror Ha) (or_intror Hb)
               Ia Ib Hana).
  - apply (proj1 (getMostFrequentName_inherited_names sampleSource
                    [js "__proto__"; js "Ana"])).
Defined.

End NameFacts.


(* ===================================================================== *)
(** * WhatsAppParser: which lines are headers *)
(* ===================================================================== *)

Module HeaderFacts.

Import WhatsAppParser Vocabulary MatchFacts TrimFacts TimestampFacts.

(** ** Lines of the export shape *)

Lemma Matches_headerTime (H MI S ws2 ws3 s : jsstring) (mer : N) :
  Forall (fun c => isDigit c = true) H -> 1 <= length H <= 2 ->
  Forall (fun c => isDigit c = true) MI -> length MI = 2 ->
  Forall (fun c => isDigit c = true) S -> length S = 2 ->
  Forall (fun c => isWhiteSpace c = true) ws2 ->
  Forall (fun c => isWhiteSpace c = true) ws3 ->
  In mer (js "ap") ->
  Matches headerTime
    (H ++ [58%N] ++ MI ++ [58%N] ++ S ++ ws2 ++ [mer] ++ [46%N] ++ ws3
       ++ [109%N] ++ [46%N]) s [].
Proof.
  intros HH LH HM LM HS LS W2 W3 Hmer. unfold headerTime. cbn [seq].
  assert (Hmer' : isWhiteSpace mer = false /\ anyOf (js "ap") mer = true).
  { simpl in Hmer.
    repeat (destruct Hmer as [<-|Hmer]; [split; reflexivity|]). destruct Hmer. }
  apply Matches_cat0; [apply Matches_digits; trivial; now left|].
  apply Matches_cat0; [apply Matches_lit|].
  apply Matches_cat0; [apply Matches_digits; trivial; [lia | now left]|].
  apply Matches_cat0; [apply Matches_lit|].
  apply Matches_cat0.
  { apply Matches_digits; trivial; [lia|].
    match goal with
    | |- match ?x with _ => _ end => destruct x; [exact I | right; lia]
    end. }
  apply Matches_cat0; [apply Matches_whitespace; trivial; apply Hmer'|].
  apply Matches_cat0; [apply Matches_class; apply Hmer'|].
  apply Matches_cat0; [apply Matches_lit|].
  apply Matches_cat0; [apply Matches_whitespace; trivial; reflexivity|].
  apply Matches_cat0; [apply Matches_lit|].
  rewrite <- (app_nil_r [46%N]) at 1. simpl app. apply Matches_lit.
Qed.

Lemma match_messagePattern
    (date time ws1 ws4 ws5 sender content : jsstring) :
  (forall s, match s with c :: _ => isDigit c = false | [] => True end ->
             Matches headerDate date s []) ->
  (forall s, Matches headerTime time s []) ->
  Forall (fun c => isWhiteSpace c = true) ws1 ->
  Forall (fun c => isWhiteSpace c = true) ws4 ->
  Forall (fun c => isWhiteSpace c = true) ws5 ->
  match time with c :: _ => isWhiteSpace c = false | [] => False end ->
  match sender with c :: _ => isWhiteSpace c = false | [] => False end ->
  Forall (fun c => c <> 58%N) sender ->
  match content with c :: _ => isWhiteSpace c = false | [] => True end ->
  Forall (fun c => isLineTerminator c = false) content ->
  match_ messagePattern
    ([91%N] ++ date ++ [44%N] ++ ws1 ++ time ++ [93%N] ++ ws4 ++ sender
       ++ [58%N] ++ ws5 ++ content)
  = Some [date; time; sender; content].
Proof.
  intros Hd Ht W1 W4 W5 Htime Hsender Hcolon Hcontent Hdot.
  unfold messagePattern. cbn [seq].
  apply match_anchored.
  apply Matches_cat0; [apply Matches_lit|].
  apply Matches_cat1; [apply Matches_group, Hd; reflexivity|].
  apply Matches_cat0; [apply Matches_lit|].
  apply Matches_cat0.
  { apply Matches_whitespace; trivial.
    destruct time as [|c time]; [contradiction | exact Htime]. }
  apply Matches_cat1; [apply Matches_group, Ht|].
  apply Matches_cat0; [apply Matches_lit|].
  apply Matches_cat0.
  { apply Matches_whitespace; trivial.
    destruct sender as [|c sender]; [contradiction | exact Hsender]. }
  apply Matches_cat1.
  { apply Matches_group. apply Matches_rep.
    - eapply Forall_impl; [|exact Hcolon].
      intros c Hc. unfold noneOf, anyOf. simpl.
      apply N.eqb_neq in Hc. now rewrite Hc.
    - destruct sender; [contradiction | simpl; lia].
    - discriminate.
    - now left. }
  apply Matches_cat0; [apply Matches_lit|].
  apply Matches_cat0.
  { apply Matches_whitespace; trivial.
    destruct content as [|c content]; [exact I | exact Hcontent]. }
  apply Matches_group. apply Matches_rep.
  - eapply Forall_impl; [|exact Hdot].
    intros c Hc. unfold dot. now rewrite Hc.
  - lia.
  - discriminate.
  - exact I.
Qed.

Section ExportShape.

Variables D Mo Y H MI S ws1 ws2 ws3 ws4 ws5 author body : jsstring.
Variable mer : N.

Hypothesis day_digits : Forall (fun c => isDigit c = true) D.
Hypothesis day_length : 1 <= length D <= 2.
Hypothesis month_digits : Forall (fun c => isDigit c = true) Mo.
Hypothesis month_length : 1 <= length Mo <= 2.
Hypothesis year_digits : Forall (fun c => isDigit c = true) Y.
Hypothesis year_length : 2 <= length Y <= 4.
Hypothesis hour_digits : Forall (fun c => isDigit c = true) H.
Hypothesis hour_length : 1 <= length H <= 2.
Hypothesis minute_digits : Forall (fun c => isDigit c = true) MI.
Hypothesis minute_length : length MI = 2.
Hypothesis second_digits : Forall (fun c => isDigit c = true) S.
Hypothesis second_length : length S = 2.
Hypothesis space1 : Forall (fun c => isWhiteSpace c = true) ws1.
Hypothesis space2 : Forall (fun c => isWhiteSpace c = true) ws2.
Hypothesis space3 : Forall (fun c => isWhiteSpace c = true) ws3.
Hypothesis space4 : Forall (fun c => isWhiteSpace c = true) ws4.
Hypothesis space5 : Forall (fun c => isWhiteSpace c = true) ws5.
Hypothesis meridiem : In mer (js "ap").
Hypothesis author_start :
  match author with c :: _ => isWhiteSpace c = false | [] => False end.
Hypothesis author_colon : Forall (fun c => c <> 58%N) author.
Hypothesis body_start :
  match body with c :: _ => isWhiteSpace c = false | [] => True end.
Hypothesis body_line : Forall (fun c => isLineTerminator c = false) body.

Local Abbreviation date := (D ++ js "/" ++ Mo ++ js "/" ++ Y).
Local Abbreviation time :=
  (H ++ js ":" ++ MI ++ js ":" ++ S ++ ws2 ++ [mer] ++ js "." ++ ws3
     ++ js "m.").
Local Abbreviation line :=
  (js "[" ++ date ++ js "," ++ ws1 ++ time ++ js "]" ++ ws4 ++ author
     ++ js ":" ++ ws5 ++ body).

Lemma messageMatch_export_shape :
  messageMatch line = Some [date; time; author; body].
Proof.
  unfold messageMatch.
  change (js "[") with [91%N]. change (js ",") with [44%N].
  change (js "]") with [93%N]. change (js ":") with [58%N].
  rewrite match_messagePattern; trivial.
  - intros s Hs. change (js "/") with [47%N].
    now apply Matches_datePattern.
  - intros s. change (js ".") with [46%N].
    change (js "m.") with ([109%N] ++ [46%N]).
    now apply Matches_headerTime.
  - destruct H as [|c H']; [simpl in hour_length; lia|].
    inversion hour_digits; subst. simpl. now apply digit_not_whitespace.
Qed.

Lemma headerMessage_export_shape (rawLine : jsstring) :
  trim rawLine = line ->
  headerMessage rawLine =
    {| timestamp := date ++ js ", " ++ time;
       sender := trim author;
       content := body;
       rawMessage := line |}.
Proof.
  intros Hraw. unfold headerMessage.
  rewrite Hraw, messageMatch_export_shape. reflexivity.
Qed.

(** X13.  Header lines of the export shape.  A line
    [[d/m/y, h:mm:ss a. m.] sender: content], with a or p, white space
    where the pattern allows it, a sender without colon and a content
    without line terminator, is a header: the four groups are the date, the
    time with its meridiem, the sender and the content, and the message it
    starts has the timestamp [date, time], the trimmed sender, the content
    and the line as raw text. *)
Theorem header_export_shape :
  messageMatch line = Some [date; time; author; body]
  /\ forall rawLine, trim rawLine = line ->
       isHeader rawLine = true
       /\ headerMessage rawLine =
            {| timestamp := date ++ js ", " ++ time;
               sender := trim author;
               content := body;
               rawMessage := line |}.
Proof.
  split; [apply messageMatch_export_shape|].
  intros rawLine Hraw. split; [|now apply headerMessage_export_shape].
  unfold isHeader. now rewrite Hraw, messageMatch_export_shape.
Qed.

(** X15.  From the chat to the instant.  The timestamp that the parser
    stores for a header of the export shape with a two-digit year is
    recognised by [parseTimestamp] of the filter: it prints nothing, reads
    no clock and returns the Date of the day, month, year 2000 + yy and the
    time of the header, with the hour adjusted for the meridiem; and
    [extractDateFromTimestamp] returns the date of the header. *)
Theorem header_timestamp_recognised
    (localTZA : Z -> Z) (clock : nat -> Z) (w : World)
    (d mo y h mi s : Z) (rawLine : jsstring) :
  Number_ D = Some d -> Number_ Mo = Some mo -> Number_ Y = Some y ->
  Number_ H = Some h -> Number_ MI = Some mi -> Number_ S = Some s ->
  length Y = 2 ->
  trim rawLine = line ->
  let stamp := timestamp (headerMessage rawLine) in
  let args :=
    {| year := Some (2000 + y)%Z;
       monthIndex := Some (mo - 1)%Z;
       day := Some d;
       hours := (if N.eqb mer 112 && negb (h =? 12)%Z then (h + 12)%Z
                 else if N.eqb mer 97 && (h =? 12)%Z then 0%Z else h);
       minutes := mi;
       seconds := s |} in
  MessageFilter.parseTimestamp localTZA clock stamp w
  = (newDate localTZA args, w)
  /\ MessageFilter.extractDateFromTimestamp stamp = date.
Proof.
  intros ND NMo NY NH NMI NS LY Hraw stamp args.
  unfold stamp. rewrite (headerMessage_export_shape rawLine Hraw).
  cbn [timestamp].
  assert (Hmer : In mer (js "apAP")).
  { simpl in meridiem. simpl. tauto. }
  destruct (matchedDateArgs_export_shape localTZA clock w
              D Mo Y H MI S (js " ") ws2 ws3 (js ".") (js ".") mer 109
              d mo y h mi s) as (_ & _ & _ & Hp & He); trivial.
  - repeat constructor.
  - simpl. tauto.
  - simpl. tauto.
  - simpl. tauto.
  - assert (Ht : date ++ js ", " ++ time
                 = date ++ js "," ++ js " " ++ (H ++ js ":" ++ MI ++ js ":" ++ S)
                     ++ ws2 ++ [mer] ++ js "." ++ ws3 ++ [109%N] ++ js ".").
    { change (js ", ") with (js "," ++ js " ").
      change (js "m.") with ([109%N] ++ js ".").
      now rewrite <- !app_assoc. }
    rewrite Ht. split; [|exact He].
    rewrite Hp. f_equal. unfold args. f_equal.
    assert (E80 : N.eqb mer 80 = false /\ N.eqb mer 65 = false).
    { simpl in meridiem.
      destruct meridiem as [<-|[<-|[]]]; split; reflexivity. }
    destruct E80 as [-> ->]. now rewrite !orb_false_r.
Qed.

End ExportShape.

Lemma header_export_shape_witness :
  headerMessage (js "  [25/07/25, 12:13:12 p. m.] Ana Luz: Pichanga viernes ")
  = {| timestamp := js "25/07/25, 12:13:12 p. m.";
       sender := js "Ana Luz";
       content := js "Pichanga viernes";
       rawMessage := js "[25/07/25, 12:13:12 p. m.] Ana Luz: Pichanga viernes" |}.
Proof.
  destruct (header_export_shape
              (js "25") (js "07") (js "25") (js "12") (js "13") (js "12")
              (js " ") (js " ") (js " ") (js " ") (js " ")
              (js "Ana Luz") (js "Pichanga viernes") 112) as [_ H];
    lazymatch goal with
    | |- headerMessage _ = _ => idtac
    | |- _ =>
      first [ solve [repeat constructor]
            | solve [simpl; lia]
            | solve [vm_compute; tauto]
            | solve [repeat constructor; discriminate] ]
    end.
  destruct (H (js "  [25/07/25, 12:13:12 p. m.] Ana Luz: Pichanga viernes "))
    as [_ Hh]; [vm_compute; reflexivity|].
  rewrite Hh. vm_compute. reflexivity.
Defined.

Lemma header_timestamp_recognised_witness :
  MessageFilter.parseTimestamp limaTZA sampleClock
    (timestamp
       (headerMessage (js "[25/07/25, 1:05:00 a. m.] Ana Luz: Pichanga")))
    initialWorld
  = (Some 1753423500000%Z, initialWorld).
Proof.
  destruct (header_timestamp_recognised
              (js "25") (js "07") (js "25") (js "1") (js "05") (js "00")
              (js " ") (js " ") (js " ") (js " ") (js " ")
              (js "Ana Luz") (js "Pichanga") 97
              ltac:(repeat constructor) ltac:(simpl; lia)
              ltac:(repeat constructor) ltac:(simpl; lia)
              ltac:(repeat constructor) ltac:(simpl; lia)
              ltac:(repeat constructor) ltac:(simpl; lia)
              ltac:(repeat constructor) ltac:(reflexivity)
              ltac:(repeat constructor) ltac:(reflexivity)
              ltac:(repeat constructor) ltac:(repeat constructor)
              ltac:(repeat constructor) ltac:(repeat constructor)
              ltac:(repeat constructor) ltac:(simpl; tauto)
              ltac:(reflexivity) ltac:(repeat constructor; discriminate)
              ltac:(reflexivity) ltac:(repeat constructor)
              limaTZA sampleClock initialWorld 25 7 25 1 5 0
              (js "[25/07/25, 1:05:00 a. m.] Ana Luz: Pichanga"))
    as [Hp _];
    lazymatch goal with
    | |- MessageFilter.parseTimestamp _ _ _ _ = _ => idtac
    | |- _ => vm_compute; reflexivity
    end.
  etransitivity; [exact Hp|]. vm_compute. reflexivity.
Defined.

(** ** Other lines *)

Lemma execFrom_bol (r : regex) (s pre : jsstring) :
  pre <> [] -> execFrom (Cat Bol r) pre s = None.
Proof.
  revert pre. induction s as [|c s IH]; intros pre Hpre.
  - simpl. unfold matchHere. simpl. destruct pre; [contradiction|reflexivity].
  - simpl. unfold matchHere. simpl. destruct pre; [contradiction|].
    apply IH. discriminate.
Qed.

Lemma match_other_start (c x : N) (r : regex) (s : jsstring) :
  x <> c -> match_ (Cat Bol (Cat (lit c) r)) (x :: s) = None.
Proof.
  intros Hx. unfold match_, exec. simpl. unfold matchHere. simpl.
  apply N.eqb_neq in Hx. rewrite N.eqb_sym, Hx.
  rewrite execFrom_bol; [reflexivity | discriminate].
Qed.

(** X14.  Lines that are no header.  A line whose first unit after
    trimming is not an opening bracket matches neither header pattern: it
    starts no message, and is appended to the message under way or, before
    the first header, dropped. *)
Theorem line_without_bracket (rawLine rest : jsstring) (c : N)
    (a : Assembly) :
  trim rawLine = c :: rest -> c <> 91%N ->
  messageMatch (trim rawLine) = None
  /\ isHeader rawLine = false
  /\ assembleLine a rawLine =
       match currentMessage a with
       | Some m =>
         {| messages := messages a;
            currentMessage := Some (continueMessage m (trim rawLine)) |}
       | None => a
       end.
Proof.
  intros Ht Hc.
  assert (Hm : messageMatch (trim rawLine) = None).
  { rewrite Ht. unfold messageMatch, messagePattern, systemPattern.
    cbn [seq]. now rewrite !match_other_start. }
  split; [exact Hm|]. split.
  - unfold isHeader. now rewrite Hm.
  - unfold assembleLine. rewrite Hm. rewrite Ht. reflexivity.
Qed.

Lemma line_without_bracket_witness :
  isHeader (js "  1. - Alex ") = false.
Proof.
  apply (line_without_bracket (js "  1. - Alex ") (js ". - Alex") 49
           {| messages := []; currentMessage := None |}).
  - vm_compute. reflexivity.
  - discriminate.
Defined.

End HeaderFacts.


(* ===================================================================== *)
(** * Rankings: sort, filter and the derived statistics *)
(* ===================================================================== *)

Module SortFacts.

Import JsArray Vocabulary.

Section ByKey.

Variable A : Type.
Variable key : A -> Z.

(** The comparator [(a, b) => key(b) - key(a)]. *)
Local Abbreviation downward := (fun a b : A => (key b - key a)%Z).

Lemma insert_Permutation (x : A) (l : list A) :
  Permutation (insert downward x l) (x :: l).
Proof.
  induction l as [|y l IH]; simpl; [reflexivity|].
  destruct (key y - key x <=? 0)%Z; [reflexivity|].
  rewrite IH. apply perm_swap.
Qed.

Lemma sort_Permutation (l : list A) : Permutation (sort downward l) l.
Proof.
  induction l as [|x l IH]; simpl; [reflexivity|].
  rewrite insert_Permutation. now apply perm_skip.
Qed.

Lemma insert_descending (x : A) (l : list A) :
  descending key l -> descending key (insert downward x l).
Proof.
  unfold descending.
  induction 1 as [|y l Hs IH Hy]; simpl.
  - repeat constructor.
  - destruct (key y - key x <=? 0)%Z eqn:E.
    + apply Z.leb_le in E. constructor.
      * now constructor.
      * constructor; [lia|].
        eapply Forall_impl; [|exact Hy]. intros b Hb. simpl in Hb. lia.
    + apply Z.leb_gt in E. constructor; [assumption|].
      apply (Permutation_Forall (Permutation_sym (insert_Permutation x l))).
      constructor; [lia | assumption].
Qed.

Lemma sort_descending (l : list A) : descending key (sort downward l).
Proof.
  induction l as [|x l IH]; simpl.
  - constructor.
  - now apply insert_descending.
Qed.

Lemma insert_withKey (n : Z) (x : A) (l : list A) :
  withKey key n (insert downward x l) = withKey key n (x :: l).
Proof.
  unfold withKey. induction l as [|y l IH]; simpl; [reflexivity|].
  destruct (key y - key x <=? 0)%Z eqn:E; [reflexivity|].
  apply Z.leb_gt in E. simpl. rewrite IH. simpl.
  destruct (key x =? n)%Z eqn:Ex, (key y =? n)%Z eqn:Ey; trivial.
  apply Z.eqb_eq in Ex, Ey. lia.
Qed.

Lemma sort_withKey (n : Z) (l : list A) :
  withKey key n (sort downward l) = withKey key n l.
Proof.
  induction l as [|x l IH]; simpl; [reflexivity|].
  rewrite insert_withKey. unfold withKey in *. simpl. now rewrite IH.
Qed.

End ByKey.

Lemma firstn_subset (A : Type) (n : nat) (l : list A) (x : A) :
  In x (firstn n l) -> In x l.
Proof.
  revert l. induction n as [|n IH]; intros [|y l]; simpl; try tauto.
  intros [H|H]; [now left | right; now apply IH].
Qed.

Lemma NoDup_map_eq (A B : Type) (f : A -> B) (l : list A) (p q : A) :
  NoDup (map f l) -> In p l -> In q l -> f q = f p -> q = p.
Proof.
  induction l as [|r l IH]; simpl; [tauto|].
  intros Hnd Hp Hq E. inversion Hnd as [|? ? Hr Hnd']; subst.
  destruct Hp as [->|Hp], Hq as [->|Hq]; trivial.
  - exfalso. apply Hr. rewrite <- E. now apply in_map.
  - exfalso. apply Hr. rewrite E. now apply in_map.
  - now apply IH.
Qed.

Lemma mapOrThrow_all (A B : Type) (f : A -> option B) (l : list A)
    (ys : list B) :
  map f l = map Some ys -> mapOrThrow f l = Some ys.
Proof.
  revert ys. induction l as [|x l IH]; intros [|y ys]; simpl;
    try discriminate; [reflexivity|].
  intros H. injection H as Hx Hl. now rewrite Hx, (IH ys Hl).
Qed.

Lemma mapOrThrow_first (A B : Type) (f : A -> option B) (x : A)
    (l : list A) :
  f x = None -> mapOrThrow f (x :: l) = None.
Proof. intros H. simpl. now rewrite H. Qed.

End SortFacts.

(* ===================================================================== *)
(** * PlayerStatsAnalyzer: the ranking *)
(* ===================================================================== *)

Module RankingFacts.

Import PlayerStatsAnalyzer Vocabulary OrderFacts AttendanceFacts SortFacts.

Section Aliases.

Variable aliases : list (jsstring * jsstring).

Local Abbreviation processPlayers := (processPlayers aliases).
Local Abbreviation analyzePlayerStats := (analyzePlayerStats aliases).
Local Abbreviation countedNames := (countedNames aliases).

Lemma rankings_sorted (events : list FilteredEvent) :
  rankings (analyzePlayerStats (Some events))
  = JsArray.sort (fun a b => (attendance b - attendance a)%Z)
                 (map snd (processPlayers events)).
Proof. reflexivity. Qed.

Lemma rankings_Permutation (events : list FilteredEvent) :
  Permutation (rankings (analyzePlayerStats (Some events)))
              (map snd (processPlayers events)).
Proof. rewrite rankings_sorted. apply sort_Permutation. Qed.

Lemma rankings_positive (data : option (list FilteredEvent)) :
  Forall (fun p => (1 <= attendance p)%Z) (rankings (analyzePlayerStats data)).
Proof.
  destruct data as [events|]; [|constructor].
  apply (Permutation_Forall (Permutation_sym (rankings_Permutation events))).
  apply Forall_forall. intros p Hp.
  apply in_map_iff in Hp as ([k p'] & <- & Hin). simpl.
  apply processPlayers_entry in Hin.
  apply statsFrom_Some in Hin as (Hne & _ & _ & Ha & _).
  rewrite Ha. destruct (filter _ _); [contradiction | simpl; lia].
Qed.

(** X16.  The ranking.  [analyzePlayerStats] returns the records of
    [processPlayers] ordered by attendance, greatest first; players with
    the same attendance keep the order in which they first appeared.  The
    player count of the metadata is the number of distinct names, and the
    attendances of the ranking add up to the number of counted roster
    entries.  When the file cannot be read the ranking is empty. *)
Theorem analyzePlayerStats_ranking (events : list FilteredEvent) :
  let ranking := analyzePlayerStats (Some events) in
  let records := map snd (processPlayers events) in
  Permutation (rankings ranking) records
  /\ descending attendance (rankings ranking)
  /\ (forall n, withKey attendance n (rankings ranking)
                = withKey attendance n records)
  /\ metadataTotalEvents ranking = length events
  /\ metadataTotalPlayers ranking
     = length (firstOccurrences (countedNames (occurrences events)))
  /\ sumZ (map attendance (rankings ranking))
     = Z.of_nat (length (countedNames (occurrences events)))
  /\ rankings (analyzePlayerStats None) = [].
Proof.
  intros ranking records.
  pose proof (rankings_Permutation events) as Hperm.
  fold ranking records in Hperm.
  split; [exact Hperm|]. split; [|split; [|split; [|split; [|split]]]].
  - unfold ranking. rewrite rankings_sorted. apply sort_descending.
  - intros n. unfold ranking. rewrite rankings_sorted. apply sort_withKey.
  - reflexivity.
  - change (metadataTotalPlayers ranking) with (length (rankings ranking)).
    rewrite (Permutation_length Hperm). unfold records.
    rewrite length_map, <- (length_map fst), processPlayers_names.
    reflexivity.
  - rewrite (GroupingFacts.sumZ_Permutation _ _ (Permutation_map attendance Hperm)).
    unfold records. rewrite map_map. apply processPlayers_sum.
  - reflexivity.
Qed.

Lemma range_of_attendance (a : Z) :
  (1 <= a)%Z ->
  fold_right Nat.add 0
    (map (fun range => if inRange range a then 1 else 0) ranges) = 1.
Proof.
  intros Ha. unfold ranges, inRange. cbn [map fold_right fst snd].
  destruct (Z.leb_spec 20 a); [|destruct (Z.leb_spec 15 a);
    [|destruct (Z.leb_spec 10 a); [|destruct (Z.leb_spec 5 a)]]];
    repeat match goal with
           | |- context [(?x <=? ?y)%Z] => destruct (Z.leb_spec x y); try lia
           end; reflexivity.
Qed.

Lemma distribution_sum (l : list Z) :
  Forall (fun a => (1 <= a)%Z) l ->
  fold_right Nat.add 0
    (map (fun range => length (filter (inRange range) l)) ranges)
  = length l.
Proof.
  induction 1 as [|a l Ha _ IH]; [reflexivity|].
  pose proof (range_of_attendance a Ha) as H1.
  unfold ranges in *. cbn [map fold_right filter] in *.
  repeat match goal with
         | |- context [inRange ?r a] => destruct (inRange r a)
         end; cbn [length] in *; lia.
Qed.

(** X17.  The distribution printed by [printStatistics] is complete: every
    player of a ranking made by [analyzePlayerStats] has at least one
    attendance and so falls in exactly one of the five ranges; the counts of
    the ranges add up to the number of players. *)
Theorem distribution_complete (data : option (list FilteredEvent)) :
  let ranking := analyzePlayerStats data in
  Forall (fun p => (1 <= attendance p)%Z) (rankings ranking)
  /\ fold_right Nat.add 0 (distribution ranking) = metadataTotalPlayers ranking
  /\ length (distribution ranking) = 5.
Proof.
  intros ranking. pose proof (rankings_positive data) as Hpos.
  fold ranking in Hpos. split; [exact Hpos|]. split; [|reflexivity].
  unfold distribution. rewrite distribution_sum.
  - rewrite length_map. unfold ranking.
    destruct data; reflexivity.
  - apply Forall_map. exact Hpos.
Qed.

Lemma rankings_names (events : list FilteredEvent) :
  NoDup (map name (rankings (analyzePlayerStats (Some events)))).
Proof.
  apply (Permutation_NoDup
           (Permutation_sym (Permutation_map name (rankings_Permutation events)))).
  rewrite map_map.
  assert (E : map (fun kp => name (snd kp)) (processPlayers events)
              = map fst (processPlayers events)).
  { apply map_ext_in. intros [k p] Hin. simpl.
    apply processPlayers_entry in Hin.
    now apply statsFrom_Some in Hin as (_ & Hn & _). }
  rewrite E, processPlayers_names. apply firstOccurrences_NoDup.
Qed.

(** X18.  The lists of [exportDetailedStats].  The players to review are
    at most twenty players of the ranking, in ranking order, each with three
    attendances or more and a single spelling; none of them is also listed
    under [aliasesUsed], which holds exactly the players with more than one
    spelling. *)
Theorem playersToReview_spec (events : list FilteredEvent) :
  let ranking := analyzePlayerStats (Some events) in
  length (playersToReview ranking) <= 20
  /\ (forall n a, In (n, a) (playersToReview ranking) ->
        (3 <= a)%Z
        /\ (exists p, In p (rankings ranking) /\ name p = n
                      /\ attendance p = a /\ length (variations p) = 1)
        /\ ~ In n (map mainName (aliasesUsed ranking)))
  /\ (forall u, In u (aliasesUsed ranking) <->
        exists p, In p (rankings ranking) /\ 1 < length (variations p)
                  /\ u = {| mainName := name p;
                            aliasVariations := variations p;
                            aliasAttendance := attendance p |}).
Proof.
  intros ranking. split; [|split].
  - unfold playersToReview. rewrite length_map. apply firstn_le_length.
  - intros n a Hin. unfold playersToReview in Hin.
    apply in_map_iff in Hin as (p & Hp & Hin). injection Hp as <- <-.
    apply firstn_subset in Hin. apply filter_In in Hin as [Hin Hc].
    apply andb_true_iff in Hc as [Ha Hv].
    apply Z.leb_le in Ha. apply Nat.eqb_eq in Hv.
    split; [assumption|]. split; [now exists p|].
    intros Hal. unfold aliasesUsed in Hal. rewrite map_map in Hal. simpl in Hal.
    apply in_map_iff in Hal as (q & Hq & Hqin).
    apply filter_In in Hqin as [Hqin Hqv]. apply Nat.ltb_lt in Hqv.
    assert (q = p).
    { apply (NoDup_map_eq _ _ name (rankings ranking)); trivial.
      apply rankings_names. }
    subst q. lia.
  - intros u. unfold aliasesUsed. rewrite in_map_iff. split.
    + intros (p & <- & Hp). apply filter_In in Hp as [Hp Hv].
      apply Nat.ltb_lt in Hv. now exists p.
    + intros (p & Hp & Hv & ->). exists p. split; [reflexivity|].
      apply filter_In. split; [assumption|]. now apply Nat.ltb_lt.
Qed.

End Aliases.

Lemma playersToReview_spec_witness :
  ~ In (js "A")
       (map mainName
          (aliasesUsed (PlayerStatsAnalyzer.analyzePlayerStats playerAliases
                          (Some fourFridays)))).
Proof.
  destruct (playersToReview_spec playerAliases fourFridays) as (_ & H & _).
  refine (proj2 (proj2 (H (js "A") 3%Z _))).
  vm_compute. now left.
Defined.

End RankingFacts.

(* ===================================================================== *)
(** * Final grouping: what is written to the CSV file *)
(* ===================================================================== *)

Module FinalFacts.

Import FinalGrouping Vocabulary GroupingFacts SortFacts.

Section Similarity.

Variable normalizeNFD : jsstring -> jsstring.
Variable compareTwoStrings : jsstring -> jsstring -> Q.
Variable functionSource : jsstring -> jsstring.

Local Abbreviation groupSimilarPlayers :=
  (groupSimilarPlayers normalizeNFD compareTwoStrings).

Lemma groups_of_players (p : Player) (players : list Player) :
  groupSimilarPlayers (p :: players) <> [].
Proof.
  intros H.
  pose proof (groupSimilarPlayers_Permutation normalizeNFD compareTwoStrings
                (p :: players)) as Hp.
  rewrite H in Hp. simpl in Hp. now apply Permutation_nil in Hp.
Qed.

(** X19.  The CSV of the revision with the filter.  For a non-empty ranking
    [processPlayersData] never fails: it writes the consolidated groups
    whose total attendance is at least [MIN_ATTENDANCE], ordered by total
    attendance, greatest first, groups with the same total in the order of
    their first players.  Each record is named after the first player of
    its group, and before the filter the totals add up to the attendance of
    the input.  Without rankings nothing is written. *)
Theorem V4_processPlayersData_written (p : Player) (players : list Player) :
  let groups := groupSimilarPlayers (p :: players) in
  exists consolidated records,
    map V4.consolidateGroup groups = map Some consolidated
    /\ V4.processPlayersData normalizeNFD compareTwoStrings
         (Some (p :: players)) = Written records
    /\ Permutation records
         (filter (fun c => (MIN_ATTENDANCE <=? totalAttendance c)%Z)
                 consolidated)
    /\ descending totalAttendance records
    /\ Forall (fun c => (2 <= totalAttendance c)%Z) records
    /\ (forall n, withKey totalAttendance n records
                  = withKey totalAttendance n consolidated \/ (n < 2)%Z)
    /\ map (fun c => Some (consolidatedName c)) consolidated
       = map V4.getOriginalName groups
    /\ sumZ (map totalAttendance consolidated)
       = sumZ (map attendance (p :: players))
    /\ V4.processPlayersData normalizeNFD compareTwoStrings None = NoRankings
    /\ V4.processPlayersData normalizeNFD compareTwoStrings (Some [])
       = NoRankings.
Proof.
  intros groups.
  pose proof (groupSimilarPlayers_nonempty normalizeNFD compareTwoStrings
                (p :: players)) as Hne.
  fold groups in Hne.
  destruct (V4_consolidate_all groups) as (cs & Hcs & Ht).
  { eapply Forall_impl; [|exact Hne]. now intros g [H _]. }
  set (kept := filter (fun c => (MIN_ATTENDANCE <=? totalAttendance c)%Z) cs).
  exists cs, (JsArray.sort (fun a b => (totalAttendance b - totalAttendance a)%Z)
                           kept).
  split; [exact Hcs|]. split.
  { unfold V4.processPlayersData. fold groups.
    now rewrite (mapOrThrow_all _ _ _ _ _ Hcs). }
  split; [apply sort_Permutation|]. split; [apply sort_descending|].
  split.
  { apply (Permutation_Forall (Permutation_sym (sort_Permutation _ _ kept))).
    apply Forall_forall. intros c Hc. apply filter_In in Hc as [_ Hc].
    apply Z.leb_le in Hc. exact Hc. }
  split.
  { intros n. destruct (Z_lt_le_dec n 2) as [Hn|Hn]; [now right|]. left.
    rewrite sort_withKey. unfold withKey, kept.
    clear - Hn. induction cs as [|c cs IH]; simpl; [reflexivity|].
    destruct (MIN_ATTENDANCE <=? totalAttendance c)%Z eqn:E; simpl.
    - now rewrite IH.
    - rewrite IH. destruct (totalAttendance c =? n)%Z eqn:En; [|reflexivity].
      apply Z.eqb_eq in En. apply Z.leb_gt in E. unfold MIN_ATTENDANCE in E.
      lia. }
  split.
  { clear - Hcs. revert cs Hcs.
    induction groups as [|g gs IH]; intros [|c cs] Hcs; simpl in *;
      try discriminate; [reflexivity|].
    injection Hcs as Hc Hcs'. rewrite (IH cs Hcs'). f_equal.
    unfold V4.consolidateGroup in Hc.
    destruct (V4.getOriginalName g); [|discriminate].
    injection Hc as <-. reflexivity. }
  split.
  { rewrite Ht. apply groupSimilarPlayers_sum. }
  split; reflexivity.
Qed.

(** X20.  The CSV of the revision with [getMostFrequentName].  When every
    player of a non-empty ranking has a name or a variation to show, none of
    them an inherited property name, every consolidated group is written, ordered by total attendance, greatest
    first, and the totals written add up to the attendance of the input.
    When no player has any variation (each carries an empty list), the
    reduction over no keys throws and the run fails. *)
Theorem V5_processPlayersData_written (p : Player) (players : list Player) :
  let groups := groupSimilarPlayers (p :: players) in
  ((forall q, In q (p :: players) ->
      variationsOf q <> []
      /\ forall v, In v (variationsOf q) -> ~ In v inheritedNames) ->
   exists records,
     V5.processPlayersData functionSource normalizeNFD compareTwoStrings
       (Some (p :: players)) = Written records
     /\ length records = length groups
     /\ descending totalAttendance records
     /\ sumZ (map totalAttendance records)
        = sumZ (map attendance (p :: players)))
  /\ ((forall q, In q (p :: players) -> variationsOf q = []) ->
      V5.processPlayersData functionSource normalizeNFD compareTwoStrings
        (Some (p :: players)) = Failed).
Proof.
  intros groups.
  pose proof (groupSimilarPlayers_nonempty normalizeNFD compareTwoStrings
                (p :: players)) as Hne.
  fold groups in Hne. rewrite Forall_forall in Hne.
  split.
  - intros Hv.
    destruct (V5_consolidate_all functionSource groups) as (cs & Hcs & Ht).
    { apply Forall_forall. intros g Hg. destruct (Hne g Hg) as [Hg0 Hin].
      destruct g as [|q g]; [contradiction|]. simpl.
      destruct (Hv q (Hin q (or_introl eq_refl))) as [Hq Hi].
      destruct (variationsOf q) as [|v vs]; [contradiction|].
      exists v. split; [now left|].
      intros ->. apply (Hi (js "__proto__")); simpl; tauto. }
    exists (JsArray.sort (fun a b => (totalAttendance b - totalAttendance a)%Z)
                         cs).
    split.
    { unfold V5.processPlayersData. fold groups.
      now rewrite (mapOrThrow_all _ _ _ _ _ Hcs). }
    split.
    { rewrite (Permutation_length (sort_Permutation _ _ cs)).
      rewrite <- (length_map Some cs), <- Hcs. apply length_map. }
    split; [apply sort_descending|].
    rewrite (sumZ_Permutation _ _
               (Permutation_map totalAttendance (sort_Permutation _ _ cs))).
    rewrite Ht. apply groupSimilarPlayers_sum.
  - intros Hv. unfold V5.processPlayersData. fold groups.
    destruct groups as [|g gs] eqn:Eg.
    { exfalso. now apply (groups_of_players p players). }
    rewrite mapOrThrow_first; [reflexivity|].
    destruct (Hne g (or_introl eq_refl)) as [_ Hin].
    unfold V5.consolidateGroup.
    assert (E : allVariations g = []).
    { rewrite allVariations_concat.
      clear - Hin Hv. induction g as [|q g IH]; [reflexivity|].
      simpl. rewrite (Hv q (Hin q (or_introl eq_refl))). simpl.
      apply IH. intros x Hx. apply Hin. now right. }
    rewrite E. reflexivity.
Qed.

End Similarity.

Lemma V5_processPlayersData_written_witness :
  (exists records,
     V5.processPlayersData sampleSource sampleNFD sampleCompare
       (Some sampleRanking)
     = Written records
     /\ sumZ (map totalAttendance records) = 11%Z)
  /\ V5.processPlayersData sampleSource sampleNFD sampleCompare
       (Some [samplePlayer (js "Ana") 4 []]) = Failed.
Proof.
  split.
  - destruct (V5_processPlayersData_written sampleNFD sampleCompare
                sampleSource
                (samplePlayer (js "Jose Perez") 5
                   [js "Jose Perez"; js "jose perez"])
                [samplePlayer (js "Ana") 4 [js "Ana"];
                 samplePlayer (js "Jose Peres") 2
                   [js "Jose Peres"; js "Jose Perez"]]) as [H _].
    destruct H as (records & Hw & _ & _ & Hsum).
    + intros q Hq. simpl in Hq.
      repeat (destruct Hq as [<-|Hq];
              [split; [discriminate|];
               intros v Hv; apply NameFacts.isInherited_spec; simpl in Hv;
               repeat (destruct Hv as [<-|Hv]; [vm_compute; reflexivity|]);
               destruct Hv|]).
      destruct Hq.
    + exists records. split; [exact Hw | exact Hsum].
  - apply (V5_processPlayersData_written sampleNFD sampleCompare
             sampleSource
             (samplePlayer (js "Ana") 4 []) []).
    intros q [<-|[]]. reflexivity.
Defined.

End FinalFacts.

(* ===================================================================== *)
(** * JSONToCSVConverter: escapeCSVField *)
(* ===================================================================== *)

Module CsvFacts.

Import JSONToCSVConverter Vocabulary MatchFacts TimestampFacts.

Lemma replaceAll_units (p : N -> bool) (by_ s pre : jsstring) :
  replaceAllFrom (Class p) by_ 0 pre s
  = flat_map (fun c => if p c then by_ else [c]) s.
Proof.
  revert pre. induction s as [|c s IH]; intros pre.
  - reflexivity.
  - cbn [replaceAllFrom flat_map]. unfold matchHere. cbn [run].
    destruct (p c) eqn:E.
    + unfold matched. cbn [length].
      rewrite Nat.sub_succ_l, Nat.sub_diag by lia.
      cbn [firstn rev app length]. now rewrite IH.
    + now rewrite IH.
Qed.

Lemma readQuoted_mark (s : jsstring) :
  readQuoted (34%N :: 34%N :: s) =
    match readQuoted s with
    | Some (f, r) => Some (34%N :: f, r)
    | None => None
    end.
Proof. reflexivity. Qed.

Lemma readQuoted_unit (c : N) (s : jsstring) :
  N.eqb c 34 = false ->
  readQuoted (c :: s) =
    match readQuoted s with
    | Some (f, r) => Some (c :: f, r)
    | None => None
    end.
Proof. intros H. simpl. now rewrite H. Qed.

Lemma readQuoted_doubled (field rest : jsstring) :
  match rest with c :: _ => N.eqb c 34 = false | [] => True end ->
  readQuoted (flat_map (fun c => if N.eqb 34 c then [34; 34]%N else [c]) field
                ++ [34%N] ++ rest)
  = Some (field, rest).
Proof.
  intros Hrest. induction field as [|c field IH].
  - simpl. destruct rest as [|c rest]; [reflexivity|]. now rewrite Hrest.
  - cbn [flat_map]. destruct (N.eqb 34 c) eqn:E.
    + apply N.eqb_eq in E. subst c.
      rewrite <- app_assoc. cbn [app] in *.
      now rewrite readQuoted_mark, IH.
    + rewrite <- app_assoc. cbn [app] in *.
      rewrite readQuoted_unit by now rewrite N.eqb_sym.
      now rewrite IH.
Qed.

Lemma readBare_plain (field rest : jsstring) :
  Forall (fun c => N.eqb c 44 || N.eqb c 10 = false) field ->
  match rest with c :: _ => N.eqb c 44 || N.eqb c 10 = true | [] => True end ->
  readBare (field ++ rest) = (field, rest).
Proof.
  intros Hf Hrest. induction Hf as [|c field Hc _ IH]; cbn [app readBare].
  - destruct rest as [|c rest]; [reflexivity|].
    cbn [readBare]. now rewrite Hrest.
  - now rewrite Hc, IH.
Qed.

(** X21.  Escaping of CSV fields.  A field without comma, quotation mark
    and line feed is returned unchanged; a field that holds one of them is
    returned between quotation marks with its own marks doubled.  Either
    way a reader of CSV gets the field back, and what follows it, when the
    field is followed by a comma, a line feed or the end of the text. *)
Theorem escapeCSVField_round_trip (field : jsstring) :
  ((forall c, In c field -> c <> 44%N /\ c <> 34%N /\ c <> 10%N) ->
   escapeCSVField field = field)
  /\ ((exists c, In c field /\ (c = 44%N \/ c = 34%N \/ c = 10%N)) ->
      escapeCSVField field
      = [34%N]
          ++ flat_map (fun c => if N.eqb 34 c then [34; 34]%N else [c]) field
          ++ [34%N])
  /\ forall rest,
       match rest with
       | c :: _ => c = 44%N \/ c = 10%N
       | [] => True
       end ->
       readField (escapeCSVField field ++ rest) = Some (field, rest).
Proof.
  assert (Hf : forall x, existsb (N.eqb x) field = false ->
                         Forall (fun c => N.eqb c x = false) field).
  { intros x Hx. apply Forall_forall. intros c Hc.
    destruct (N.eqb c x) eqn:Ec; [|reflexivity].
    apply N.eqb_eq in Ec. subst c.
    assert (existsb (N.eqb x) field = true).
    { apply existsb_exists. exists x. split; [assumption | apply N.eqb_refl]. }
    congruence. }
  assert (Ht : forall x, existsb (N.eqb x) field = true -> In x field).
  { intros x Hx. apply existsb_exists in Hx as (c & Hc & E).
    apply N.eqb_eq in E. now subst c. }
  unfold escapeCSVField, quotationMark.
  change (js ",") with [44%N]. rewrite !includes_unit.
  destruct (existsb (N.eqb 44) field || existsb (N.eqb 34) field
            || existsb (N.eqb 10) field) eqn:E.
  - unfold replaceAll, lit. rewrite replaceAll_units.
    split; [|split].
    + intros Hnone. exfalso.
      apply orb_true_iff in E as [E|E];
        [apply orb_true_iff in E as [E|E]|];
        apply Ht in E; destruct (Hnone _ E) as (H1 & H2 & H3); congruence.
    + reflexivity.
    + intros rest Hrest. cbn [app readField]. cbn [N.eqb Pos.eqb].
      rewrite <- app_assoc. apply readQuoted_doubled.
      destruct rest as [|c rest]; [exact I|].
      destruct Hrest as [->| ->]; reflexivity.
  - apply orb_false_iff in E as [E E10].
    apply orb_false_iff in E as [E44 E34].
    pose proof (Hf _ E44) as F44. pose proof (Hf _ E34) as F34.
    pose proof (Hf _ E10) as F10.
    split; [reflexivity|]. split.
    + intros (c & Hc & Hm). exfalso. rewrite Forall_forall in *.
      specialize (F44 c Hc). specialize (F34 c Hc). specialize (F10 c Hc).
      destruct Hm as [->|[->| ->]]; discriminate.
    + intros rest Hrest.
      assert (Hb : readBare (field ++ rest) = (field, rest)).
      { apply readBare_plain.
        - rewrite Forall_forall in *. intros c Hc.
          now rewrite (F44 c Hc), (F10 c Hc).
        - destruct rest as [|c rest]; [exact I|].
          destruct Hrest as [->| ->]; reflexivity. }
      unfold readField. destruct field as [|c field].
      * simpl app in *. destruct rest as [|c rest]; [reflexivity|].
        destruct Hrest as [->| ->]; simpl N.eqb; cbv iota; now rewrite Hb.
      * cbn [app] in *. inversion F34 as [|? ? Hc _]; subst.
        rewrite Hc. now rewrite Hb.
Qed.

Lemma escapeCSVField_round_trip_witness :
  escapeCSVField (js "Jose Perez") = js "Jose Perez"
  /\ escapeCSVField (js "Perez, Jose") = [34%N] ++ js "Perez, Jose" ++ [34%N]
  /\ readField (escapeCSVField (js "Perez, Jose") ++ js ",3")
     = Some (js "Perez, Jose", js ",3").
Proof.
  split; [|split].
  - apply (escapeCSVField_round_trip (js "Jose Perez")).
    intros c Hc. simpl in Hc.
    repeat (destruct Hc as [<-|Hc]; [repeat split; discriminate|]).
    destruct Hc.
  - destruct (escapeCSVField_round_trip (js "Perez, Jose")) as (_ & H & _).
    rewrite H; [reflexivity|].
    exists 44%N. split; [vm_compute; tauto | now left].
  - destruct (escapeCSVField_round_trip (js "Perez, Jose")) as (_ & _ & H).
    apply H. now left.
Defined.

End CsvFacts.


(* ===================================================================== *)
(** * Final grouping: players with the same cleaned name *)
(* ===================================================================== *)

Module MergeFacts.

Import FinalGrouping Vocabulary GroupingFacts FirstFitFacts.

Section Similarity.

Variable normalizeNFD : jsstring -> jsstring.
Variable compareTwoStrings : jsstring -> jsstring -> Q.

(** The library gives identical texts a similarity at the threshold or
    above (it gives them 1). *)
Hypothesis identical_similar :
  forall a, (SIMILARITY_THRESHOLDS SIMILARITY_LEVEL <= compareTwoStrings a a)%Q.

Local Abbreviation similar := (similar normalizeNFD compareTwoStrings).
Local Abbreviation cleanName := (cleanName_ normalizeNFD).
Local Abbreviation groupEntries := (groupEntries normalizeNFD compareTwoStrings).
Local Abbreviation groupSimilarPlayers :=
  (groupSimilarPlayers normalizeNFD compareTwoStrings).

Lemma similar_same_name (s p q : Player) :
  cleanName (name p) = cleanName (name q) -> similar s p = similar s q.
Proof. intros E. unfold FinalGrouping.similar. now rewrite E. Qed.

Lemma similar_self (p : Player) : similar p p = true.
Proof.
  unfold FinalGrouping.similar. apply Qle_bool_iff. apply identical_similar.
Qed.

Lemma groupEntries_same_name (players : list Player)
    (E1 E2 : list (list Entry)) (eg : list Entry) (e1 e2 : Entry) :
  groupEntries players = E1 ++ eg :: E2 ->
  In e1 eg -> In e2 (concat E2) ->
  cleanName (name (snd e1)) <> cleanName (name (snd e2)).
Proof.
  intros HE H1 H2 E.
  destruct (groupEntries_clustered normalizeNFD compareTwoStrings players)
    as (processed & (_ & _ & _ & Hs) & _ & _).
  rewrite HE in Hs. apply Forall_app in Hs as [_ Hs].
  inversion Hs as [|? ? (seed & members & -> & Hm) _]; subst.
  assert (Hsim : similar (snd seed) (snd e1) = true).
  { destruct H1 as [<-|H1]; [apply similar_self|].
    rewrite Forall_forall in Hm. now apply (Hm e1 H1). }
  rewrite (similar_same_name _ _ _ E) in Hsim.
  apply in_concat in H2 as (g' & Hg' & He2).
  apply in_split in Hg' as (F1 & F2 & ->).
  assert (Hff : similar (snd seed) (snd e2) = false).
  { apply (groupEntries_first_fit normalizeNFD compareTwoStrings players
             (E1 ++ (seed :: members) :: F1) g' F2 seed e2).
    - rewrite HE, <- app_assoc. reflexivity.
    - unfold seeds. rewrite flat_map_app. apply in_or_app. right.
      simpl. now left.
    - exact He2. }
  congruence.
Qed.

(** X22.  Same cleaned name, same group.  As the library gives identical
    texts a similarity at or above the threshold, two players whose names
    clean to the same text are never placed in different groups: names that
    differ only in letter case, accents, punctuation or spacing are always
    consolidated into one record. *)
Theorem same_clean_name_same_group (players : list Player)
    (G1 G2 : list (list Player)) (g : list Player) (p q : Player) :
  groupSimilarPlayers players = G1 ++ g :: G2 ->
  In p g -> In q (concat G2) ->
  cleanName (name p) <> cleanName (name q).
Proof.
  intros HG Hp Hq.
  unfold FinalGrouping.groupSimilarPlayers in HG.
  apply map_eq_app in HG as (E1 & E2' & HE & <- & HE2).
  destruct E2' as [|eg E2]; [discriminate|]. simpl in HE2.
  injection HE2 as <- <-.
  apply in_map_iff in Hp as (e1 & <- & He1).
  rewrite <- concat_map in Hq. apply in_map_iff in Hq as (e2 & <- & He2).
  apply (groupEntries_same_name players E1 E2 eg e1 e2 HE He1 He2).
Qed.

End Similarity.

Lemma sampleCompare_identical (a : jsstring) :
  (SIMILARITY_THRESHOLDS SIMILARITY_LEVEL <= sampleCompare a a)%Q.
Proof.
  unfold sampleCompare. rewrite eqb_refl. vm_compute. discriminate.
Qed.

Lemma same_clean_name_same_group_witness :
  cleanName_ sampleNFD (js "Jose Perez") <> cleanName_ sampleNFD (js "Ana").
Proof.
  apply (same_clean_name_same_group sampleNFD sampleCompare
           sampleCompare_identical sampleRanking []
           [[samplePlayer (js "Ana") 4 [js "Ana"]]]
           [samplePlayer (js "Jose Perez") 5 [js "Jose Perez"; js "jose perez"];
            samplePlayer (js "Jose Peres") 2 [js "Jose Peres"; js "Jose Perez"]]
           (samplePlayer (js "Jose Perez") 5 [js "Jose Perez"; js "jose perez"])
           (samplePlayer (js "Ana") 4 [js "Ana"])).
  - vm_compute. reflexivity.
  - simpl. now left.
  - simpl. now left.
Defined.

End MergeFacts.


(* ===================================================================== *)
(** * MessageFilter: what parseTimestamp recognises *)
(* ===================================================================== *)

Module ParseFacts.

Import MessageFilter Vocabulary MatchFacts TimestampFacts TrimFacts DedupFacts.

(** ** A match found by the engine is a match of the pattern *)

Lemma rep_sound (R : Type) (p : N -> bool) (greedy : bool) (s : jsstring) :
  forall (lo : nat) (hi : option nat) (pre : jsstring)
         (k : jsstring -> jsstring -> option R) (x : R),
    rep p greedy lo hi pre s k = Some x ->
    exists a s',
      s = a ++ s'
      /\ Forall (fun c => p c = true) a
      /\ lo <= length a
      /\ match hi with Some h => length a <= h | None => True end
      /\ k (rev a ++ pre) s' = Some x.
Proof.
  assert (Hstop : forall lo hi pre s0 (k : jsstring -> jsstring -> option R) x,
             match lo with O => k pre s0 | S _ => None end = Some x ->
             exists a s', s0 = a ++ s'
               /\ Forall (fun c => p c = true) a /\ lo <= length a
               /\ match hi with Some h => length a <= h | None => True end
               /\ k (rev a ++ pre) s' = Some x).
  { intros lo hi pre s0 k x H. destruct lo; [|discriminate].
    exists [], s0. repeat split; simpl; trivial.
    destruct hi; [lia | exact I]. }
  induction s as [|c s IH]; intros lo hi pre k x H.
  - cbn [rep] in H. apply (Hstop lo hi pre [] k x).
    destruct greedy; [exact H|].
    destruct (match lo with O => _ | S _ => None end); [exact H | discriminate].
  - cbn [rep] in H.
    assert (Hmore :
      (if p c && roomLeft hi
       then rep p greedy (Nat.pred lo) (option_map Nat.pred hi) (c :: pre) s k
       else None) = Some x ->
      exists a s', c :: s = a ++ s'
        /\ Forall (fun c => p c = true) a /\ lo <= length a
        /\ match hi with Some h => length a <= h | None => True end
        /\ k (rev a ++ pre) s' = Some x).
    { intros Hm. destruct (p c) eqn:Hc; [|discriminate].
      destruct (roomLeft hi) eqn:Hr; [|discriminate]. simpl in Hm.
      destruct (IH _ _ _ _ _ Hm) as (a & s' & -> & Ha & Hlo & Hhi & Hk).
      exists (c :: a), s'. split; [reflexivity|].
      split; [now constructor|]. split; [simpl; lia|]. split.
      - destruct hi as [[|h]|]; simpl in *; trivial; [discriminate | lia].
      - simpl. now rewrite <- app_assoc. }
    destruct greedy.
    + destruct (if p c && roomLeft hi then _ else None) as [y|] eqn:E.
      * apply Hmore. congruence.
      * now apply (Hstop lo hi pre (c :: s) k x).
    + destruct (match lo with O => _ | S _ => None end) as [y|] eqn:E.
      * apply (Hstop lo hi pre (c :: s) k x). congruence.
      * now apply Hmore.
Qed.

Lemma run_sound (R : Type) (r : regex) :
  forall (pre s : jsstring) (caps : list jsstring)
         (k : jsstring -> jsstring -> list jsstring -> option R) (x : R),
    run r pre s caps k = Some x ->
    exists a s' groups,
      s = a ++ s'
      /\ Takes r pre a s' groups
      /\ k (rev a ++ pre) s' (caps ++ groups) = Some x.
Proof.
  induction r as [|p|r1 IH1 r2 IH2|p lo hi greedy|r IH| |];
    intros pre s caps k x H; cbn [run] in H.
  - exists [], s, []. rewrite app_nil_r. repeat split; trivial. constructor.
  - destruct s as [|c s]; [discriminate|].
    destruct (p c) eqn:Hc; [|discriminate].
    exists [c], s, []. rewrite app_nil_r.
    repeat split; trivial. now constructor.
  - destruct (IH1 _ _ _ _ _ H) as (a1 & s1 & g1 & -> & T1 & H1).
    destruct (IH2 _ _ _ _ _ H1) as (a2 & s2 & g2 & -> & T2 & H2).
    exists (a1 ++ a2), s2, (g1 ++ g2). split; [now rewrite app_assoc|].
    split; [now constructor|].
    rewrite rev_app_distr, <- !app_assoc. now rewrite <- app_assoc in H2.
  - destruct (rep_sound _ _ _ _ _ _ _ _ _ H)
      as (a & s' & -> & Ha & Hlo & Hhi & Hk).
    exists a, s', []. rewrite app_nil_r. repeat split; trivial.
    now constructor.
  - destruct (IH _ _ _ _ _ H) as (a & s' & g & -> & T & Hk).
    exists a, s', (g ++ [a]). split; [reflexivity|].
    split; [now constructor|].
    rewrite firstn_consumed in Hk. now rewrite app_assoc.
  - destruct pre; [|discriminate].
    exists [], s, []. simpl. rewrite app_nil_r.
    repeat split; trivial. constructor.
  - destruct s; [|discriminate].
    exists [], [], []. simpl. rewrite app_nil_r.
    repeat split; trivial. constructor.
Qed.

Lemma execFrom_sound (r : regex) (s : jsstring) :
  forall (pre before : jsstring) (m : matchResult),
    execFrom r pre s = Some (before, m) ->
    exists pre' a s',
      Takes r pre' a s' (captures m)
      /\ rev pre' ++ a ++ s' = rev pre ++ s.
Proof.
  assert (Hhere : forall pre s0 m, matchHere r pre s0 = Some m ->
            exists a s', Takes r pre a s' (captures m) /\ a ++ s' = s0).
  { intros pre s0 m H. unfold matchHere in H.
    destruct (run_sound _ _ _ _ _ _ _ H) as (a & s' & g & -> & T & Hk).
    injection Hk as <-. simpl. now exists a, s'. }
  induction s as [|c s IH]; intros pre before m H; cbn [execFrom] in H.
  - destruct (matchHere r pre []) as [m'|] eqn:E; [|discriminate].
    injection H as _ <-. destruct (Hhere _ _ _ E) as (a & s' & T & Hs).
    exists pre, a, s'. now rewrite Hs.
  - destruct (matchHere r pre (c :: s)) as [m'|] eqn:E.
    + injection H as _ <-. destruct (Hhere _ _ _ E) as (a & s' & T & Hs).
      exists pre, a, s'. now rewrite Hs.
    + destruct (IH _ _ _ H) as (pre' & a & s' & T & Hs).
      exists pre', a, s'. split; [assumption|].
      rewrite Hs. simpl. now rewrite <- app_assoc.
Qed.

(** The groups that [match_] returns are those of a place where the pattern
    takes a part of the text. *)
Lemma match_sound (r : regex) (s : jsstring) (caps : list jsstring) :
  match_ r s = Some caps ->
  exists pre a s', Takes r pre a s' caps /\ rev pre ++ a ++ s' = s.
Proof.
  unfold match_, exec. intros H.
  destruct (execFrom r [] s) as [[before m]|] eqn:E; [|discriminate].
  injection H as <-. apply (execFrom_sound _ _ _ _ _ E).
Qed.

(** ** Inversion of [Takes] *)

Lemma Takes_cat_inv (r1 r2 : regex) (pre a s : jsstring)
    (g : list jsstring) :
  Takes (Cat r1 r2) pre a s g ->
  exists a1 a2 g1 g2,
    a = a1 ++ a2 /\ g = g1 ++ g2
    /\ Takes r1 pre a1 (a2 ++ s) g1
    /\ Takes r2 (rev a1 ++ pre) a2 s g2.
Proof. inversion 1; subst. now exists a1, a2, g1, g2. Qed.

Lemma Takes_class_inv (p : N -> bool) (pre a s : jsstring)
    (g : list jsstring) :
  Takes (Class p) pre a s g -> exists c, a = [c] /\ g = [] /\ p c = true.
Proof. inversion 1; subst. now exists c. Qed.

Lemma Takes_lit_inv (c : N) (pre a s : jsstring) (g : list jsstring) :
  Takes (lit c) pre a s g -> a = [c] /\ g = [].
Proof.
  intros H. apply Takes_class_inv in H as (x & -> & -> & Hx).
  apply N.eqb_eq in Hx. now subst.
Qed.

Lemma Takes_rep_inv (p : N -> bool) (lo : nat) (hi : option nat)
    (greedy : bool) (pre a s : jsstring) (g : list jsstring) :
  Takes (Rep p lo hi greedy) pre a s g ->
  g = [] /\ Forall (fun c => p c = true) a /\ lo <= length a
  /\ match hi with Some h => length a <= h | None => True end.
Proof. inversion 1; subst. auto. Qed.

Lemma Takes_digits_inv (lo hi : nat) (pre a s : jsstring)
    (g : list jsstring) :
  Takes (times isDigit lo hi) pre a s g -> g = [] /\ digitRun lo hi a.
Proof.
  intros H. apply Takes_rep_inv in H as (-> & Ha & Hlo & Hhi).
  repeat split; assumption.
Qed.

Lemma Takes_whitespace_inv (pre a s : jsstring) (g : list jsstring) :
  Takes (star isWhiteSpace) pre a s g -> g = [] /\ whiteSpaceRun a.
Proof.
  intros H. apply Takes_rep_inv in H as (-> & Ha & _). now split.
Qed.

Lemma Takes_optional_inv (c : N) (pre a s : jsstring) (g : list jsstring) :
  Takes (opt (N.eqb c)) pre a s g -> g = [] /\ In a [[]; [c]].
Proof.
  intros H. apply Takes_rep_inv in H as (-> & Ha & _ & Hhi).
  split; [reflexivity|].
  destruct a as [|x [|y a]]; simpl in Hhi; [now left | | lia].
  inversion Ha as [|? ? Hx _]; subst. apply N.eqb_eq in Hx. subst.
  right. now left.
Qed.

Lemma Takes_group_inv (r : regex) (pre a s : jsstring) (g : list jsstring) :
  Takes (Group r) pre a s g -> exists g', g = g' ++ [a] /\ Takes r pre a s g'.
Proof. inversion 1; subst. now exists g0. Qed.

Lemma Takes_bol_inv (pre a s : jsstring) (g : list jsstring) :
  Takes Bol pre a s g -> pre = [] /\ a = [] /\ g = [].
Proof. inversion 1; subst. auto. Qed.

Lemma Takes_eol_inv (pre a s : jsstring) (g : list jsstring) :
  Takes Eol pre a s g -> a = [] /\ s = [] /\ g = [].
Proof. inversion 1; subst. auto. Qed.

(** ** The ignore-case flag on a letter of Basic Latin *)

Lemma canonicalize_capital (c u : N) :
  canonicalize c = u -> (65 <= u <= 90)%N -> c = u \/ c = (u + 32)%N.
Proof.
  unfold canonicalize, upperUnit. intros H Hu.
  repeat match type of H with
         | context [if ?b then _ else _] => destruct b eqn:?
         end;
    repeat match goal with
           | E : (_ && _)%bool = true |- _ => apply andb_true_iff in E as [? ?]
           | E : (_ && _)%bool = false |- _ => apply andb_false_iff in E
           | E : negb _ = true |- _ => apply negb_true_iff in E
           | E : negb _ = false |- _ => apply negb_false_iff in E
           | E : (_ <=? _)%N = true |- _ => apply N.leb_le in E
           | E : (_ <=? _)%N = false |- _ => apply N.leb_gt in E
           | E : (_ <? _)%N = true |- _ => apply N.ltb_lt in E
           | E : (_ <? _)%N = false |- _ => apply N.ltb_ge in E
           | E : (_ =? _)%N = true |- _ => apply N.eqb_eq in E
           | E : (_ =? _)%N = false |- _ => apply N.eqb_neq in E
           end;
    try lia.
Qed.

Lemma anyOfi_ap (c : N) : anyOfi (js "ap") c = true -> In c (js "apAP").
Proof.
  unfold anyOfi. intros H.
  change (js "apAP") with [97; 112; 65; 80]%N.
  change (js "ap") with [97; 112]%N in H. cbn [existsb] in H.
  rewrite orb_false_r in H. apply orb_true_iff in H as [H|H];
    apply N.eqb_eq in H;
    apply canonicalize_capital in H;
    try (vm_compute; split; discriminate);
    destruct H as [->| ->]; vm_compute; tauto.
Qed.

Lemma liti_m (c : N) :
  N.eqb (canonicalize c) (canonicalize 109) = true -> In c (js "mM").
Proof.
  intros H. apply N.eqb_eq in H. apply canonicalize_capital in H;
    [|vm_compute; split; discriminate].
  change (js "mM") with [109; 77]%N.
  destruct H as [->| ->]; vm_compute; tauto.
Qed.

(** ** The patterns of [parseTimestamp] *)

Lemma Takes_datePattern (pre a s : jsstring) (g : list jsstring) :
  Takes datePattern pre a s g -> g = [] /\ dateText a.
Proof.
  unfold datePattern. cbn [seq]. intros H.
  apply Takes_cat_inv in H as (D & a1 & g0 & g1 & -> & -> & HD & H).
  apply Takes_digits_inv in HD as [-> HD].
  apply Takes_cat_inv in H as (x1 & a2 & g0 & g2 & -> & -> & Hx1 & H).
  apply Takes_lit_inv in Hx1 as [-> ->].
  apply Takes_cat_inv in H as (Mo & a3 & g0 & g3 & -> & -> & HM & H).
  apply Takes_digits_inv in HM as [-> HM].
  apply Takes_cat_inv in H as (x2 & Y & g0 & g4 & -> & -> & Hx2 & H).
  apply Takes_lit_inv in Hx2 as [-> ->].
  apply Takes_digits_inv in H as [-> HY].
  split; [reflexivity|]. now exists D, Mo, Y.
Qed.

Lemma Takes_timeSecondsPattern (pre a s : jsstring) (g : list jsstring) :
  Takes timeSecondsPattern pre a s g -> g = [] /\ timeSecondsText a.
Proof.
  unfold timeSecondsPattern. cbn [seq]. intros H.
  apply Takes_cat_inv in H as (D & a1 & g0 & g1 & -> & -> & HD & H).
  apply Takes_digits_inv in HD as [-> HD].
  apply Takes_cat_inv in H as (x1 & a2 & g0 & g2 & -> & -> & Hx1 & H).
  apply Takes_lit_inv in Hx1 as [-> ->].
  apply Takes_cat_inv in H as (Mo & a3 & g0 & g3 & -> & -> & HM & H).
  apply Takes_digits_inv in HM as [-> HM].
  apply Takes_cat_inv in H as (x2 & Y & g0 & g4 & -> & -> & Hx2 & H).
  apply Takes_lit_inv in Hx2 as [-> ->].
  apply Takes_digits_inv in H as [-> HY].
  split; [reflexivity|]. now exists D, Mo, Y.
Qed.

Lemma Takes_timeMinutesPattern (pre a s : jsstring) (g : list jsstring) :
  Takes timeMinutesPattern pre a s g -> g = [] /\ timeMinutesText a.
Proof.
  unfold timeMinutesPattern. cbn [seq]. intros H.
  apply Takes_cat_inv in H as (D & a1 & g0 & g1 & -> & -> & HD & H).
  apply Takes_digits_inv in HD as [-> HD].
  apply Takes_cat_inv in H as (x1 & Mo & g0 & g2 & -> & -> & Hx1 & H).
  apply Takes_lit_inv in Hx1 as [-> ->].
  apply Takes_digits_inv in H as [-> HM].
  split; [reflexivity|]. now exists D, Mo.
Qed.

Lemma Takes_periodPattern (pre a s : jsstring) (g : list jsstring) :
  Takes periodPattern pre a s g -> g = [] /\ periodText a.
Proof.
  unfold periodPattern. cbn [seq]. intros H.
  apply Takes_cat_inv in H as (m1 & a1 & g0 & g1 & -> & -> & Hm & H).
  apply Takes_class_inv in Hm as (mer & -> & -> & Hmer).
  apply anyOfi_ap in Hmer.
  apply Takes_cat_inv in H as (dot1 & a2 & g0 & g2 & -> & -> & Hd1 & H).
  apply Takes_optional_inv in Hd1 as [-> Hd1].
  apply Takes_cat_inv in H as (ws & a3 & g0 & g3 & -> & -> & Hws & H).
  apply Takes_whitespace_inv in Hws as [-> Hws].
  apply Takes_cat_inv in H as (m2 & dot2 & g0 & g4 & -> & -> & Hem & H).
  apply Takes_class_inv in Hem as (em & -> & -> & Hem).
  apply liti_m in Hem.
  apply Takes_optional_inv in H as [-> Hd2].
  split; [reflexivity|]. now exists mer, dot1, ws, em, dot2.
Qed.

(** ** The four formats *)

Ltac take_cat H a g Hfirst :=
  let a' := fresh "a" in
  let g' := fresh "g" in
  apply Takes_cat_inv in H as (a & a' & g & g' & -> & -> & Hfirst & H).

Ltac take_group H inv :=
  let g := fresh "g" in
  let E := fresh "E" in
  apply Takes_group_inv in H as (g & -> & H);
  apply inv in H as [E H]; subst g.

Lemma format_seconds_period (s : jsstring) (caps : list jsstring) :
  match_ (seq [Bol; Group datePattern; lit 44; star isWhiteSpace;
               Group timeSecondsPattern; star isWhiteSpace;
               Group periodPattern; Eol]) s = Some caps ->
  timestampShape s caps.
Proof.
  intros H. apply match_sound in H as (pre & a & s' & H & <-).
  cbn [seq] in H.
  take_cat H a0 g0 H0. apply Takes_bol_inv in H0 as (-> & -> & ->).
  take_cat H dt g1 Hdate. take_group Hdate Takes_datePattern.
  take_cat H c g2 Hc. apply Takes_lit_inv in Hc as [-> ->].
  take_cat H ws1 g3 Hws1. apply Takes_whitespace_inv in Hws1 as [-> Hws1].
  take_cat H tm g4 Htime. take_group Htime Takes_timeSecondsPattern.
  take_cat H ws2 g5 Hws2. apply Takes_whitespace_inv in Hws2 as [-> Hws2].
  take_cat H pd g6 Hperiod. take_group Hperiod Takes_periodPattern.
  apply Takes_eol_inv in H as (-> & -> & ->).
  simpl. rewrite !app_nil_r. now constructor.
Qed.

Lemma format_minutes_period (s : jsstring) (caps : list jsstring) :
  match_ (seq [Bol; Group datePattern; lit 44; star isWhiteSpace;
               Group timeMinutesPattern; star isWhiteSpace;
               Group periodPattern; Eol]) s = Some caps ->
  timestampShape s caps.
Proof.
  intros H. apply match_sound in H as (pre & a & s' & H & <-).
  cbn [seq] in H.
  take_cat H a0 g0 H0. apply Takes_bol_inv in H0 as (-> & -> & ->).
  take_cat H dt g1 Hdate. take_group Hdate Takes_datePattern.
  take_cat H c g2 Hc. apply Takes_lit_inv in Hc as [-> ->].
  take_cat H ws1 g3 Hws1. apply Takes_whitespace_inv in Hws1 as [-> Hws1].
  take_cat H tm g4 Htime. take_group Htime Takes_timeMinutesPattern.
  take_cat H ws2 g5 Hws2. apply Takes_whitespace_inv in Hws2 as [-> Hws2].
  take_cat H pd g6 Hperiod. take_group Hperiod Takes_periodPattern.
  apply Takes_eol_inv in H as (-> & -> & ->).
  simpl. rewrite !app_nil_r. now apply ShapeMinutesPeriod.
Qed.

Lemma format_seconds (s : jsstring) (caps : list jsstring) :
  match_ (seq [Bol; Group datePattern; lit 44; star isWhiteSpace;
               Group timeSecondsPattern; Eol]) s = Some caps ->
  timestampShape s caps.
Proof.
  intros H. apply match_sound in H as (pre & a & s' & H & <-).
  cbn [seq] in H.
  take_cat H a0 g0 H0. apply Takes_bol_inv in H0 as (-> & -> & ->).
  take_cat H dt g1 Hdate. take_group Hdate Takes_datePattern.
  take_cat H c g2 Hc. apply Takes_lit_inv in Hc as [-> ->].
  take_cat H ws1 g3 Hws1. apply Takes_whitespace_inv in Hws1 as [-> Hws1].
  take_cat H tm g4 Htime. take_group Htime Takes_timeSecondsPattern.
  apply Takes_eol_inv in H as (-> & -> & ->).
  simpl. rewrite !app_nil_r. now apply ShapeSeconds.
Qed.

Lemma format_date (s : jsstring) (caps : list jsstring) :
  match_ (seq [Bol; Group datePattern; Eol]) s = Some caps ->
  timestampShape s caps.
Proof.
  intros H. apply match_sound in H as (pre & a & s' & H & <-).
  cbn [seq] in H.
  take_cat H a0 g0 H0. apply Takes_bol_inv in H0 as (-> & -> & ->).
  take_cat H dt g1 Hdate. take_group Hdate Takes_datePattern.
  apply Takes_eol_inv in H as (-> & -> & ->).
  simpl. rewrite !app_nil_r. now apply ShapeDate.
Qed.

(** The groups of the first format that matches belong to one of the four
    shapes of the text. *)
Lemma formats_sound (s : jsstring) (caps : list jsstring) :
  firstMatch formats s = Some caps -> timestampShape s caps.
Proof.
  unfold formats. cbn [firstMatch]. intros H.
  destruct (match_ _ s) as [c1|] eqn:E1;
    [injection H as <-; now apply format_seconds_period|].
  destruct (match_ _ s) as [c2|] eqn:E2 in H;
    [injection H as <-; now apply format_minutes_period|].
  destruct (match_ _ s) as [c3|] eqn:E3 in H;
    [injection H as <-; now apply format_seconds|].
  destruct (match_ _ s) as [c4|] eqn:E4 in H; [|discriminate].
  injection H as <-. now apply format_date.
Qed.

(** ** The numbers of a recognised text *)

Lemma digits_Number (s : jsstring) :
  Forall (fun c => isDigit c = true) s -> exists n, Number_ s = Some n.
Proof.
  unfold Number_. intros H. generalize 0%Z.
  induction H as [|c s Hc _ IH]; intros acc; simpl; [eauto|].
  rewrite Hc. apply IH.
Qed.

Lemma digitRun_Number (lo hi : nat) (s : jsstring) :
  digitRun lo hi s ->
  exists n, Number_ s = Some n /\ (0 <= n < 10 ^ Z.of_nat hi)%Z.
Proof.
  intros [Hd [_ Hhi]]. destruct (digits_Number s Hd) as [n Hn].
  exists n. split; [assumption|].
  apply digitsValue_bound in Hn; [|lia].
  assert (10 ^ Z.of_nat (length s) <= 10 ^ Z.of_nat hi)%Z
    by (apply Z.pow_le_mono_r; lia).
  lia.
Qed.

Lemma split_two (sep : N) (a b : jsstring) :
  isDigit sep = false ->
  Forall (fun x => isDigit x = true) a ->
  Forall (fun x => isDigit x = true) b ->
  split sep (a ++ [sep] ++ b) = [a; b].
Proof.
  intros Hs Ha Hb. simpl.
  rewrite (split_at_separator sep a _ (digits_without sep a Hs Ha)).
  now rewrite (split_no_separator sep b (digits_without sep b Hs Hb)).
Qed.

Lemma dateText_numbers (s : jsstring) :
  dateText s ->
  exists d mo y,
    map Number_ (split 47 s) = [Some d; Some mo; Some y]
    /\ (0 <= d < 100)%Z /\ (0 <= mo < 100)%Z /\ (0 <= y < 10000)%Z.
Proof.
  intros (D & Mo & Y & HD & HMo & HY & ->).
  destruct (digitRun_Number _ _ _ HD) as (d & Nd & Bd).
  destruct (digitRun_Number _ _ _ HMo) as (mo & Nmo & Bmo).
  destruct (digitRun_Number _ _ _ HY) as (y & Ny & By).
  exists d, mo, y. change (js "/") with [47%N].
  rewrite split_three; [|reflexivity|apply HD|apply HMo|apply HY].
  simpl map. rewrite Nd, Nmo, Ny. auto.
Qed.

Lemma timeSecondsText_numbers (s : jsstring) :
  timeSecondsText s ->
  s <> []
  /\ exists h mi sec,
       map Number_ (split 58 s) = [Some h; Some mi; Some sec]
       /\ (0 <= h < 100)%Z /\ (0 <= mi < 100)%Z /\ (0 <= sec < 100)%Z.
Proof.
  intros (H & MI & S & HH & HMI & HS & ->). split.
  { destruct H as [|c H]; [|discriminate].
    destruct HH as [_ [HH _]]. simpl in HH. lia. }
  destruct (digitRun_Number _ _ _ HH) as (h & Nh & Bh).
  destruct (digitRun_Number _ _ _ HMI) as (mi & Nmi & Bmi).
  destruct (digitRun_Number _ _ _ HS) as (sec & Ns & Bs).
  exists h, mi, sec. change (js ":") with [58%N].
  rewrite split_three; [|reflexivity|apply HH|apply HMI|apply HS].
  simpl map. rewrite Nh, Nmi, Ns. auto.
Qed.

Lemma timeMinutesText_numbers (s : jsstring) :
  timeMinutesText s ->
  s <> []
  /\ exists h mi,
       map Number_ (split 58 s) = [Some h; Some mi]
       /\ (0 <= h < 100)%Z /\ (0 <= mi < 100)%Z.
Proof.
  intros (H & MI & HH & HMI & ->). split.
  { destruct H as [|c H]; [|discriminate].
    destruct HH as [_ [HH _]]. simpl in HH. lia. }
  destruct (digitRun_Number _ _ _ HH) as (h & Nh & Bh).
  destruct (digitRun_Number _ _ _ HMI) as (mi & Nmi & Bmi).
  exists h, mi. change (js ":") with [58%N].
  rewrite split_two; [|reflexivity|apply HH|apply HMI].
  simpl map. rewrite Nh, Nmi. auto.
Qed.

(** The arguments that [parseTimestamp] hands to [new Date] for a text of
    one of the four shapes are numbers, none of them NaN, within the range
    that the digits allow. *)
Lemma shape_dateArgs (s : jsstring) (caps : list jsstring) :
  timestampShape s caps ->
  exists y m d,
    year (dateArgsOfMatch caps) = Some y
    /\ monthIndex (dateArgsOfMatch caps) = Some m
    /\ day (dateArgsOfMatch caps) = Some d
    /\ (100 <= y <= 9999)%Z /\ (-1 <= m <= 98)%Z /\ (0 <= d <= 99)%Z
    /\ (0 <= hours (dateArgsOfMatch caps) <= 111)%Z
    /\ (0 <= minutes (dateArgsOfMatch caps) <= 99)%Z
    /\ (0 <= seconds (dateArgsOfMatch caps) <= 99)%Z.
Proof.
  assert (Hyear : forall y, (0 <= y < 10000)%Z ->
            (100 <= (if (y <? 100)%Z then 2000 + y else y) <= 9999)%Z).
  { intros y Hy. destruct (y <? 100)%Z eqn:E;
      [apply Z.ltb_lt in E | apply Z.ltb_ge in E]; lia. }
  assert (Hhours : forall (pm am : bool) h, (0 <= h < 100)%Z ->
            (0 <= (if pm && negb (h =? 12)%Z then h + 12
                   else if am && (h =? 12)%Z then 0 else h) <= 111)%Z).
  { intros pm am h Hh.
    destruct (pm && negb (h =? 12)%Z); [lia|].
    destruct (am && (h =? 12)%Z); lia. }
  intros [dt ws1 tm ws2 pd Hd _ Ht _ Hp
         |dt ws1 tm ws2 pd Hd _ Ht _ Hp
         |dt ws1 tm Hd _ Ht
         |dt Hd];
    destruct (dateText_numbers dt Hd) as (d & mo & y & Ed & Bd & Bmo & By);
    exists (if (y <? 100)%Z then 2000 + y else y)%Z, (mo - 1)%Z, d;
    unfold dateArgsOfMatch; cbn [nth nth_error]; rewrite Ed.
  - destruct (timeSecondsText_numbers tm Ht)
      as (Hne & h & mi & sec & Et & Bh & Bmi & Bs).
    destruct tm as [|c tm]; [contradiction|]. rewrite Et.
    destruct Hp as (mer & dot1 & ws & em & dot2 & _ & _ & _ & _ & _ & ->).
    cbn -[includes toLowerCase Z.add].
    repeat split; try lia; try apply Hyear; try apply Hhours; trivial.
  - destruct (timeMinutesText_numbers tm Ht)
      as (Hne & h & mi & Et & Bh & Bmi).
    destruct tm as [|c tm]; [contradiction|]. rewrite Et.
    destruct Hp as (mer & dot1 & ws & em & dot2 & _ & _ & _ & _ & _ & ->).
    cbn -[includes toLowerCase Z.add].
    repeat split; try lia; try apply Hyear; try apply Hhours; trivial.
  - destruct (timeSecondsText_numbers tm Ht)
      as (Hne & h & mi & sec & Et & Bh & Bmi & Bs).
    destruct tm as [|c tm]; [contradiction|]. rewrite Et.
    cbn -[Z.add]. repeat split; try lia; try apply Hyear; trivial.
  - cbn -[Z.add]. repeat split; try lia; try apply Hyear; trivial.
Qed.

(** ** A valid Date *)

Lemma DaysBeforeMonth_bound (leap : bool) (m : Z) :
  (0 <= DaysBeforeMonth leap m <= 335)%Z.
Proof.
  unfold DaysBeforeMonth.
  repeat match goal with
         | |- context [if ?b then _ else _] => destruct b
         end; lia.
Qed.

(** [new Date] on arguments in the range of the digits is a valid Date
    when local time is within a day of UTC. *)
Lemma newDate_valid (localTZA : Z -> Z) (a : DateArgs) (y m d : Z) :
  (forall t, Z.abs (localTZA t) <= msPerDay)%Z ->
  year a = Some y -> monthIndex a = Some m -> day a = Some d ->
  (100 <= y <= 9999)%Z -> (-1 <= m <= 98)%Z -> (0 <= d <= 99)%Z ->
  (0 <= hours a <= 111)%Z -> (0 <= minutes a <= 99)%Z ->
  (0 <= seconds a <= 99)%Z ->
  exists t, newDate localTZA a = Some t.
Proof.
  intros Htz Ey Em Ed By Bm Bd Bh Bmi Bs.
  unfold newDate. rewrite Ey, Em, Ed.
  replace ((0 <=? y) && (y <=? 99))%Z with false
    by (symmetry; apply andb_false_iff; right; apply Z.leb_gt; lia).
  unfold TimeClip, UTC.
  set (t := MakeDate _ _).
  assert (Ht : (Z.abs t <= 8000000000000000)%Z).
  { unfold t, MakeDate, MakeDay, MakeTime, DayFromYear, msPerDay.
    pose proof (DaysBeforeMonth_bound (InLeapYear (y + m / 12)) (m mod 12)).
    set (dbm := DaysBeforeMonth _ _) in *. clearbody dbm.
    Z.div_mod_to_equations. lia. }
  specialize (Htz t). unfold msPerDay in Htz.
  replace (8640000000000000 <? Z.abs (t - localTZA t))%Z with false
    by (symmetry; apply Z.ltb_ge; lia).
  eauto.
Qed.

(** ** Every text of the four shapes is recognised *)

Lemma firstMatch_some (fs : list regex) (f : regex) (s : jsstring)
    (caps : list jsstring) :
  In f fs -> match_ f s = Some caps ->
  exists caps', firstMatch fs s = Some caps'.
Proof.
  induction fs as [|f0 fs IH]; intros Hin Hm; [destruct Hin|].
  cbn [firstMatch]. destruct (match_ f0 s) as [c0|] eqn:E; [eauto|].
  destruct Hin as [->|Hin]; [congruence | now apply IH].
Qed.

Lemma dateText_Matches (dt s : jsstring) :
  dateText dt ->
  match s with c :: _ => isDigit c = false | [] => True end ->
  Matches datePattern dt s [].
Proof.
  intros (D & Mo & Y & [FD LD] & [FMo LMo] & [FY LY] & ->) Hs.
  now apply Matches_datePattern.
Qed.

Lemma timeSecondsText_Matches (tm s : jsstring) :
  timeSecondsText tm -> Matches timeSecondsPattern tm s [].
Proof.
  intros (H & MI & S & [FH LH] & [FMI LMI] & [FS LS] & ->).
  apply Matches_timeSecondsPattern; trivial; lia.
Qed.

Lemma timeMinutesText_Matches (tm s : jsstring) :
  timeMinutesText tm -> Matches timeMinutesPattern tm s [].
Proof.
  intros (H & MI & [FH LH] & [FMI LMI] & ->).
  unfold timeMinutesPattern. cbn [seq]. change (js ":") with [58%N].
  apply Matches_cat0; [apply Matches_digits; trivial; now left|].
  apply Matches_cat0; [apply Matches_lit|].
  apply Matches_digits; trivial.
  destruct s; [exact I | right; lia].
Qed.

Lemma periodText_Matches (pd : jsstring) :
  periodText pd -> Matches periodPattern pd [] [].
Proof.
  intros (mer & dot1 & ws & em & dot2 & Hmer & Hd1 & Hws & Hem & Hd2 & ->).
  apply Matches_periodPattern; trivial.
  - destruct Hd1 as [<-|[<-|[]]]; [now left | now right].
  - destruct Hd2 as [<-|[<-|[]]]; [now left | now right].
Qed.

Lemma timeText_start (tm : jsstring) :
  timeSecondsText tm \/ timeMinutesText tm ->
  match tm with c :: _ => isWhiteSpace c = false | [] => False end.
Proof.
  intros [(H & MI & S & [FH LH] & _ & _ & ->)|(H & MI & [FH LH] & _ & ->)];
    (destruct H as [|c H]; [simpl in LH; lia|]);
    inversion FH; subst; simpl; now apply digit_not_whitespace.
Qed.

Lemma periodText_start (pd : jsstring) :
  periodText pd ->
  match pd with c :: _ => isWhiteSpace c = false | [] => False end.
Proof.
  intros (mer & dot1 & ws & em & dot2 & Hmer & _ & _ & _ & _ & ->).
  simpl in *.
  repeat (destruct Hmer as [<-|Hmer]; [reflexivity|]). destruct Hmer.
Qed.

Lemma formats_complete (s : jsstring) (caps : list jsstring) :
  timestampShape s caps -> exists caps', firstMatch formats s = Some caps'.
Proof.
  intros [dt ws1 tm ws2 pd Hd H1 Ht H2 Hp
         |dt ws1 tm ws2 pd Hd H1 Ht H2 Hp
         |dt ws1 tm Hd H1 Ht
         |dt Hd].
  - exists [dt; tm; pd]. change (js ",") with [44%N].
    apply first_format_matches; trivial.
    + intros s0 Hs0. now apply dateText_Matches.
    + intros s0. now apply timeSecondsText_Matches.
    + now apply periodText_Matches.
    + apply timeText_start. now left.
    + now apply periodText_start.
  - apply (firstMatch_some formats
             (seq [Bol; Group datePattern; lit 44; star isWhiteSpace;
                   Group timeMinutesPattern; star isWhiteSpace;
                   Group periodPattern; Eol]) _ [dt; tm; pd]).
    { unfold formats. simpl. tauto. }
    cbn [seq]. change (js ",") with [44%N].
    apply match_anchored.
    apply Matches_cat1;
      [apply Matches_group, dateText_Matches; [assumption | reflexivity]|].
    apply Matches_cat0; [apply Matches_lit|].
    apply Matches_cat0.
    { apply Matches_whitespace; trivial.
      pose proof (timeText_start tm (or_intror Ht)) as Hs.
      destruct tm as [|c tm]; [contradiction | exact Hs]. }
    apply Matches_cat1; [apply Matches_group; now apply timeMinutesText_Matches|].
    apply Matches_cat0.
    { apply Matches_whitespace; trivial.
      pose proof (periodText_start pd Hp) as Hs.
      destruct pd as [|c pd]; [contradiction | exact Hs]. }
    rewrite <- (app_nil_r pd) at 1.
    apply Matches_cat1;
      [apply Matches_group; now apply periodText_Matches | exact Matches_eol].
  - apply (firstMatch_some formats
             (seq [Bol; Group datePattern; lit 44; star isWhiteSpace;
                   Group timeSecondsPattern; Eol]) _ [dt; tm]).
    { unfold formats. simpl. tauto. }
    cbn [seq]. change (js ",") with [44%N].
    apply match_anchored.
    apply Matches_cat1;
      [apply Matches_group, dateText_Matches; [assumption | reflexivity]|].
    apply Matches_cat0; [apply Matches_lit|].
    apply Matches_cat0.
    { apply Matches_whitespace; trivial.
      pose proof (timeText_start tm (or_introl Ht)) as Hs.
      destruct tm as [|c tm]; [contradiction | exact Hs]. }
    rewrite <- (app_nil_r tm) at 1.
    apply Matches_cat1;
      [apply Matches_group; now apply timeSecondsText_Matches
      | exact Matches_eol].
  - apply (firstMatch_some formats
             (seq [Bol; Group datePattern; Eol]) _ [dt]).
    { unfold formats. simpl. tauto. }
    cbn [seq]. apply match_anchored.
    rewrite <- (app_nil_r dt) at 1.
    apply Matches_cat1;
      [apply Matches_group, dateText_Matches; [assumption | exact I]
      | exact Matches_eol].
Qed.

(** ** The groups of a text are determined *)

(** Two ways to cut a text after a run of units of a class, each followed
    by a unit outside the class or by nothing, are the same. *)
Lemma prefix_unique (P : N -> bool) (a a' r r' : jsstring) :
  Forall (fun c => P c = true) a -> Forall (fun c => P c = true) a' ->
  match r with c :: _ => P c = false | [] => True end ->
  match r' with c :: _ => P c = false | [] => True end ->
  a ++ r = a' ++ r' -> a = a' /\ r = r'.
Proof.
  intros Ha. revert a'. induction Ha as [|c a Hc _ IH]; intros a' Ha' Hr Hr' E.
  - destruct Ha' as [|c' a' Hc' _]; [now split|].
    simpl in E. subst r. simpl in Hr. congruence.
  - destruct Ha' as [|c' a' Hc' Ha'].
    + simpl in E. subst r'. simpl in Hr'. congruence.
    + simpl in E. injection E as <- E.
      destruct (IH a' Ha' Hr Hr' E) as [-> ->]. now split.
Qed.

Lemma digits_class (P : N -> bool) (lo hi : nat) (a : jsstring) :
  (forall c, isDigit c = true -> P c = true) ->
  digitRun lo hi a -> Forall (fun c => P c = true) a.
Proof.
  intros HP [Ha _]. eapply Forall_impl; [|exact Ha]. exact HP.
Qed.

Lemma dateText_units (dt : jsstring) :
  dateText dt -> Forall (fun c => negb (N.eqb c 44) = true) dt.
Proof.
  assert (HP : forall c, isDigit c = true -> negb (N.eqb c 44) = true).
  { intros c Hc. apply isDigit_spec in Hc. apply negb_true_iff, N.eqb_neq.
    lia. }
  intros (D & Mo & Y & HD & HMo & HY & ->).
  repeat (apply Forall_app; split);
    try (eapply digits_class; [exact HP | eassumption]);
    repeat constructor.
Qed.

Lemma timeText_units (tm : jsstring) :
  timeSecondsText tm \/ timeMinutesText tm ->
  Forall (fun c => isDigit c || N.eqb c 58 = true) tm.
Proof.
  assert (HP : forall c, isDigit c = true -> isDigit c || N.eqb c 58 = true).
  { intros c Hc. now rewrite Hc. }
  intros [(H & MI & S & HH & HMI & HS & ->)|(H & MI & HH & HMI & ->)];
    repeat (apply Forall_app; split);
    try (eapply digits_class; [exact HP | eassumption]);
    repeat constructor.
Qed.

Lemma whitespace_not_timeUnit (c : N) :
  isWhiteSpace c = true -> isDigit c || N.eqb c 58 = false.
Proof.
  intros H. apply isWhiteSpace_spec in H. apply orb_false_iff. split.
  - destruct (isDigit c) eqn:E; [|reflexivity].
    apply isDigit_spec in E. lia.
  - apply N.eqb_neq. lia.
Qed.

Lemma periodText_first (pd : jsstring) :
  periodText pd ->
  match pd with
  | c :: _ => isWhiteSpace c = false /\ isDigit c || N.eqb c 58 = false
  | [] => False
  end.
Proof.
  intros (mer & dot1 & ws & em & dot2 & Hmer & _ & _ & _ & _ & ->).
  simpl in *.
  repeat (destruct Hmer as [<-|Hmer]; [split; reflexivity|]). destruct Hmer.
Qed.

(** What follows the time: nothing, or white space and the meridiem. *)
Lemma after_time (ws2 pd : jsstring) :
  whiteSpaceRun ws2 -> periodText pd ->
  match ws2 ++ pd with
  | c :: _ => isDigit c || N.eqb c 58 = false
  | [] => True
  end.
Proof.
  intros Hws Hp. destruct Hws as [|c ws2 Hc _]; simpl.
  - pose proof (periodText_first pd Hp) as H.
    destruct pd; [exact I | apply H].
  - now apply whitespace_not_timeUnit.
Qed.

(** The three forms of a shaped text: with time and meridiem, with time,
    and the date alone. *)
Lemma timestampShape_forms (s : jsstring) (caps : list jsstring) :
  timestampShape s caps ->
  (exists dt ws1 tm ws2 pd,
      dateText dt /\ whiteSpaceRun ws1
      /\ (timeSecondsText tm \/ timeMinutesText tm)
      /\ whiteSpaceRun ws2 /\ periodText pd
      /\ s = dt ++ 44%N :: ws1 ++ tm ++ ws2 ++ pd
      /\ caps = [dt; tm; pd])
  \/ (exists dt ws1 tm,
        dateText dt /\ whiteSpaceRun ws1 /\ timeSecondsText tm
        /\ s = dt ++ 44%N :: ws1 ++ tm ++ []
        /\ caps = [dt; tm])
  \/ (dateText s /\ caps = [s]).
Proof.
  intros [dt ws1 tm ws2 pd Hd H1 Ht H2 Hp
         |dt ws1 tm ws2 pd Hd H1 Ht H2 Hp
         |dt ws1 tm Hd H1 Ht
         |dt Hd].
  - left. exists dt, ws1, tm, ws2, pd. tauto.
  - left. exists dt, ws1, tm, ws2, pd. tauto.
  - right. left. exists dt, ws1, tm. rewrite app_nil_r. tauto.
  - right. right. tauto.
Qed.

(** A text has one of the shapes in one way only: its groups are
    determined. *)
Lemma timestampShape_unique (s : jsstring) (c1 c2 : list jsstring) :
  timestampShape s c1 -> timestampShape s c2 -> c1 = c2.
Proof.
  (* the cut after the date, after the white space and after the time *)
  assert (Hdate : forall dt dt' r r',
            dateText dt -> dateText dt' ->
            dt ++ 44%N :: r = dt' ++ 44%N :: r' -> dt = dt' /\ r = r').
  { intros dt dt' r r' Hd Hd' E.
    destruct (prefix_unique (fun c => negb (N.eqb c 44)) dt dt'
                (44%N :: r) (44%N :: r')) as [-> E'];
      trivial; try reflexivity; try now apply dateText_units.
    injection E' as ->. now split. }
  assert (Halone : forall dt dt' r,
            dateText dt -> dateText dt' -> dt ++ 44%N :: r = dt' -> False).
  { intros dt dt' r Hd Hd' E.
    destruct (prefix_unique (fun c => negb (N.eqb c 44)) dt dt'
                (44%N :: r) []) as [_ E'];
      trivial; try reflexivity; try now apply dateText_units.
    - now rewrite app_nil_r.
    - discriminate. }
  assert (Hspace : forall ws ws' tm tm' r r',
            whiteSpaceRun ws -> whiteSpaceRun ws' ->
            timeSecondsText tm \/ timeMinutesText tm ->
            timeSecondsText tm' \/ timeMinutesText tm' ->
            ws ++ tm ++ r = ws' ++ tm' ++ r' ->
            ws = ws' /\ tm ++ r = tm' ++ r').
  { intros ws ws' tm tm' r r' Hw Hw' Ht Ht' E.
    apply (prefix_unique isWhiteSpace); trivial.
    - pose proof (timeText_start tm Ht) as H.
      destruct tm; [contradiction | exact H].
    - pose proof (timeText_start tm' Ht') as H.
      destruct tm'; [contradiction | exact H]. }
  assert (Htime : forall tm tm' r r',
            timeSecondsText tm \/ timeMinutesText tm ->
            timeSecondsText tm' \/ timeMinutesText tm' ->
            match r with
            | c :: _ => isDigit c || N.eqb c 58 = false
            | [] => True
            end ->
            match r' with
            | c :: _ => isDigit c || N.eqb c 58 = false
            | [] => True
            end ->
            tm ++ r = tm' ++ r' -> tm = tm' /\ r = r').
  { intros tm tm' r r' Ht Ht' Hr Hr' E.
    apply (prefix_unique (fun c => isDigit c || N.eqb c 58)); trivial;
      now apply timeText_units. }
  assert (Hperiod : forall ws ws' pd pd',
            whiteSpaceRun ws -> whiteSpaceRun ws' ->
            periodText pd -> periodText pd' ->
            ws ++ pd = ws' ++ pd' -> pd = pd').
  { intros ws ws' pd pd' Hw Hw' Hp Hp' E.
    apply (prefix_unique isWhiteSpace ws ws'); trivial.
    - pose proof (periodText_first pd Hp) as H.
      destruct pd; [contradiction | apply H].
    - pose proof (periodText_first pd' Hp') as H.
      destruct pd'; [contradiction | apply H]. }
  assert (Hnone : forall ws pd,
            whiteSpaceRun ws -> periodText pd -> ws ++ pd = [] -> False).
  { intros ws pd _ Hp E. apply app_eq_nil in E as [_ ->].
    exact (periodText_first [] Hp). }
  intros H1 H2.
  apply timestampShape_forms in H1, H2.
  destruct H1 as [(dt & ws1 & tm & ws2 & pd & Hd & W1 & Ht & W2 & Hp & Es & ->)
                 |[(dt & ws1 & tm & Hd & W1 & Ht & Es & ->)|[Hd ->]]];
    destruct H2
      as [(dt' & ws1' & tm' & ws2' & pd' & Hd' & W1' & Ht' & W2' & Hp' & Es' & ->)
         |[(dt' & ws1' & tm' & Hd' & W1' & Ht' & Es' & ->)|[Hd' ->]]].
  - rewrite Es in Es'.
    destruct (Hdate _ _ _ _ Hd Hd' Es') as [<- E1].
    destruct (Hspace _ _ _ _ _ _ W1 W1' Ht Ht' E1) as [<- E2].
    destruct (Htime tm tm' _ _ Ht Ht' (after_time _ _ W2 Hp)
                (after_time _ _ W2' Hp') E2) as [<- E3].
    now rewrite (Hperiod _ _ _ _ W2 W2' Hp Hp' E3).
  - rewrite Es in Es'.
    destruct (Hdate _ _ _ _ Hd Hd' Es') as [<- E1].
    destruct (Hspace _ _ _ _ _ _ W1 W1' Ht (or_introl Ht') E1) as [<- E2].
    destruct (Htime tm tm' (ws2 ++ pd) [] Ht (or_introl Ht')
                (after_time _ _ W2 Hp) I E2)
      as [_ E3].
    exfalso. now apply (Hnone ws2 pd).
  - exfalso. rewrite Es in Hd'. exact (Halone _ _ _ Hd Hd' eq_refl).
  - rewrite Es in Es'.
    destruct (Hdate _ _ _ _ Hd Hd' Es') as [<- E1].
    destruct (Hspace _ _ _ _ _ _ W1 W1' (or_introl Ht) Ht' E1) as [<- E2].
    destruct (Htime tm tm' [] (ws2' ++ pd') (or_introl Ht) Ht' I
                (after_time _ _ W2' Hp') E2)
      as [_ E3].
    exfalso. symmetry in E3. now apply (Hnone ws2' pd').
  - rewrite Es in Es'.
    destruct (Hdate _ _ _ _ Hd Hd' Es') as [<- E1].
    destruct (Hspace _ _ _ _ _ _ W1 W1' (or_introl Ht) (or_introl Ht') E1)
      as [<- E2].
    destruct (Htime tm tm' [] [] (or_introl Ht) (or_introl Ht') I I E2)
      as [<- _].
    reflexivity.
  - exfalso. rewrite Es in Hd'. exact (Halone _ _ _ Hd Hd' eq_refl).
  - exfalso. rewrite Es' in Hd. exact (Halone _ _ _ Hd' Hd eq_refl).
  - exfalso. rewrite Es' in Hd. exact (Halone _ _ _ Hd' Hd eq_refl).
  - reflexivity.
Qed.

(** The groups that [parseTimestamp] reads from a text of one of the four
    shapes are those of the shape. *)
Lemma formats_exact (s : jsstring) (caps : list jsstring) :
  firstMatch formats s = Some caps <-> timestampShape s caps.
Proof.
  split; [apply formats_sound|].
  intros H. destruct (formats_complete _ _ H) as [caps' E].
  rewrite E. f_equal. apply (timestampShape_unique s); [|assumption].
  now apply formats_sound.
Qed.

(** [parseTimestamp] recognises a text exactly when, cleaned, it has one
    of the four shapes. *)
Lemma recognised_iff_shaped (ts : jsstring) :
  matchedDateArgs ts <> None <-> timestampShaped (cleanTimestamp ts).
Proof.
  unfold matchedDateArgs, timestampShaped. split.
  - destruct (firstMatch formats (cleanTimestamp ts)) as [caps|] eqn:E;
      [|now intros []].
    intros _. exists caps. now apply formats_sound.
  - intros [caps Hs]. destruct (formats_complete _ _ Hs) as [caps' ->].
    discriminate.
Qed.

(** ** parseTimestamp on every text *)

Section Hosted.

Variable localTZA : Z -> Z.
Variable clock : nat -> Z.

Local Abbreviation parseTimestamp := (parseTimestamp localTZA clock).
Local Abbreviation removeDuplicates := (removeDuplicates localTZA clock).

Lemma parseTimestamp_unshaped (ts : jsstring) (w : World) :
  ~ timestampShaped (cleanTimestamp ts) ->
  parseTimestamp ts w =
    (Some (clock (ticks w)),
     {| ticks := S (ticks w);
        console := console w ++ [unrecognisedWarning ts] |}).
Proof.
  intros H. apply parseTimestamp_fallback.
  destruct (matchedDateArgs ts) eqn:E; [|reflexivity].
  exfalso. apply H, recognised_iff_shaped. congruence.
Qed.

Lemma parseTimestamp_shaped (ts : jsstring) (w : World)
    (caps : list jsstring) :
  timestampShape (cleanTimestamp ts) caps ->
  parseTimestamp ts w = (newDate localTZA (dateArgsOfMatch caps), w).
Proof.
  intros H. apply parseTimestamp_recognised. unfold matchedDateArgs.
  apply formats_exact in H. now rewrite H.
Qed.

Lemma shaped_or_not (s : jsstring) :
  timestampShaped s \/ ~ timestampShaped s.
Proof.
  destruct (firstMatch formats s) as [caps|] eqn:E.
  - left. exists caps. now apply formats_sound.
  - right. intros [caps H]. destruct (formats_complete _ _ H) as [c E'].
    congruence.
Qed.

Lemma parseTimestamp_instant (ts : jsstring) (w : World) :
  (forall t, Z.abs (localTZA t) <= msPerDay)%Z ->
  exists t w', parseTimestamp ts w = (Some t, w').
Proof.
  intros Htz. destruct (shaped_or_not (cleanTimestamp ts)) as [Hs|Hs].
  - destruct Hs as [caps Hc]. rewrite (parseTimestamp_shaped ts w caps Hc).
    destruct (shape_dateArgs _ _ Hc)
      as (y & m & d & Ey & Em & Ed & By & Bm & Bd & Bh & Bmi & Bs).
    destruct (newDate_valid localTZA (dateArgsOfMatch caps) y m d)
      as [t ->]; trivial.
    now exists t, w.
  - rewrite (parseTimestamp_unshaped ts w Hs). eauto.
Qed.

(** An event whose key no other event of the input has is kept. *)
Lemma removeDuplicates_keeps_alone (events : list FilteredEvent) (w : World)
    (e : FilteredEvent) :
  In e events ->
  (forall e', In e' events -> eventKey e' = eventKey e -> e' = e) ->
  In e (fst (removeDuplicates events w)).
Proof.
  intros Hin Halone.
  destruct (removeDuplicates_keeps_keys localTZA clock events w e Hin)
    as (e' & Hout & Hkey).
  pose proof (removeDuplicates_subset localTZA clock events w e' Hout) as Hin'.
  now rewrite <- (Halone e' Hin' Hkey).
Qed.

(** C9.  [parseTimestamp] returns an instant on every text, a valid Date
    and never the NaN of an invalid one, when local time is within a day
    of UTC; no exception leaves it, its body being a [try] block whose
    [catch] answers the clock, and on a text the [try] block does not
    throw.  A text that, cleaned, has none of the four shapes gets the
    reading of the clock, and one warning is printed; a text of one of the
    shapes gets the Date of the date, time and meridiem that the shape
    shows in it, without a reading of the clock and without a warning.  An event is not lost for a timestamp without
    shape: [removeDuplicates] keeps every event whose key no other event
    has and an event for every key of its input, and against a recognised
    event of its key the event is ranked by the reading of the clock. *)
Theorem parseTimestamp_never_fails :
  ((forall t, Z.abs (localTZA t) <= msPerDay)%Z ->
   forall (ts : jsstring) (w : World),
     exists (t : Z) (w' : World), parseTimestamp ts w = (Some t, w'))
  /\ (forall (ts : jsstring) (w : World),
      ~ timestampShaped (cleanTimestamp ts) ->
      parseTimestamp ts w =
        (Some (clock (ticks w)),
         {| ticks := S (ticks w);
            console := console w ++ [unrecognisedWarning ts] |}))
  /\ (forall (ts : jsstring) (w : World) (groups : list jsstring),
      timestampShape (cleanTimestamp ts) groups ->
      parseTimestamp ts w = (newDate localTZA (dateArgsOfMatch groups), w))
  /\ (forall (events : list FilteredEvent) (w : World) (e : FilteredEvent),
      In e events ->
      (exists e', In e' (fst (removeDuplicates events w))
                  /\ eventKey e' = eventKey e)
      /\ ((forall e', In e' events -> eventKey e' = eventKey e -> e' = e) ->
          In e (fst (removeDuplicates events w))))
  /\ (forall (w : World) (e1 e2 : FilteredEvent) (t1 : Z),
      pairKey e1 = pairKey e2 ->
      instantOf localTZA e1 = Some t1 ->
      ~ timestampShaped (cleanTimestamp (messageTimestamp e2)) ->
      fst (removeDuplicates [e1; e2] w)
      = [if (t1 <? clock (ticks w))%Z then e2 else e1]).
Proof.
  split; [|split; [|split; [|split]]].
  - intros Htz ts w. now apply parseTimestamp_instant.
  - apply parseTimestamp_unshaped.
  - apply parseTimestamp_shaped.
  - intros events w e Hin. split.
    + now apply removeDuplicates_keeps_keys.
    + now apply removeDuplicates_keeps_alone.
  - intros w e1 e2 t1 Hk H1 H2.
    rewrite (removeDuplicates_pair localTZA clock e1 e2 w
               (pairKey_eventKey _ _ Hk)).
    rewrite (parseTimestamp_unshaped _ w H2). simpl.
    rewrite (parseTimestamp_valid localTZA clock e1 t1 _ H1). reflexivity.
Qed.

End Hosted.

Lemma parseTimestamp_never_fails_witness :
  let e1 := sampleEvent (js "25/07/25, 12:13:12 p. m.") [js "Juan"] in
  let e2 := sampleEvent (js "ayer") [js "Ana"] in
  (exists t w',
      parseTimestamp limaTZA sampleClock (js "31/12/99, 23:59:59")
        initialWorld = (Some t, w'))
  /\ parseTimestamp limaTZA sampleClock (js "ayer") initialWorld
     = (Some 1753500000000%Z,
        {| ticks := 1; console := [unrecognisedWarning (js "ayer")] |})
  /\ In e2 (fst (removeDuplicates limaTZA sampleClock
                   [wednesdayEvent (js "ayer") []; e2] initialWorld))
  /\ fst (removeDuplicates limaTZA sampleClock [e1; e2] initialWorld) = [e2].
Proof.
  intros e1 e2.
  destruct (parseTimestamp_never_fails limaTZA sampleClock)
    as (Hinstant & Hfallback & _ & Hkept & Hranked).
  assert (Hayer : ~ timestampShaped (cleanTimestamp (js "ayer"))).
  { intros Hs. apply recognised_iff_shaped in Hs. apply Hs.
    vm_compute. reflexivity. }
  split; [|split; [|split]].
  - apply Hinstant. intros t. unfold limaTZA, msPerDay. simpl. lia.
  - apply (Hfallback (js "ayer") initialWorld Hayer).
  - apply Hkept; [right; now left|].
    intros e' [<-|[<-|[]]] Hkey; [|reflexivity].
    vm_compute in Hkey. discriminate.
  - apply (Hranked initialWorld e1 e2 1753463592000%Z);
      [vm_compute; reflexivity | vm_compute; reflexivity | exact Hayer].
Defined.

(** ** The meridiem *)

Ltac shape_side :=
  first [ reflexivity
        | split; [repeat constructor | simpl; lia]
        | vm_compute; tauto
        | repeat constructor ].

(** C2.  A timestamp of the full shape [d/m/yy, h:mm:ss] with a meridiem
    (a or p, an optional dot, white space, m, an optional dot, in either
    letter case).  [parseTimestamp] returns, without a warning and without
    a reading of the clock, the Date of the year 2000 + yy, the month m,
    the day d, the minutes, the seconds and the hour h + 12 when the
    meridiem contains p and h is not 12, 0 when it contains a and h is 12,
    and h otherwise.  So [25/07/25, 12:13:12 p. m.] has the hour 12 and
    [25/07/25, 1:05:00 a. m.] the hour 1. *)
Theorem parseTimestamp_meridiem
    (localTZA : Z -> Z) (clock : nat -> Z) (w : World)
    (D Mo Y H MI S ws1 ws2 ws3 dot1 dot2 : jsstring) (mer em : N)
    (d mo y h mi s : Z) :
  Number_ D = Some d -> digitRun 1 2 D ->
  Number_ Mo = Some mo -> digitRun 1 2 Mo ->
  Number_ Y = Some y -> digitRun 2 2 Y ->
  Number_ H = Some h -> digitRun 1 2 H ->
  Number_ MI = Some mi -> digitRun 2 2 MI ->
  Number_ S = Some s -> digitRun 2 2 S ->
  whiteSpaceRun ws1 -> whiteSpaceRun ws2 -> whiteSpaceRun ws3 ->
  In mer (js "apAP") -> In em (js "mM") ->
  In dot1 [[]; js "."] -> In dot2 [[]; js "."] ->
  let meridiem := [mer] ++ dot1 ++ ws3 ++ [em] ++ dot2 in
  let text :=
    (D ++ js "/" ++ Mo ++ js "/" ++ Y) ++ js "," ++ ws1
    ++ (H ++ js ":" ++ MI ++ js ":" ++ S) ++ ws2 ++ meridiem in
  let containsP := includes (toLowerCase meridiem) (js "p") in
  let containsA := includes (toLowerCase meridiem) (js "a") in
  parseTimestamp localTZA clock text w
  = (newDate localTZA
       {| year := Some (2000 + y)%Z;
          monthIndex := Some (mo - 1)%Z;
          day := Some d;
          hours := (if containsP && negb (h =? 12)%Z then (h + 12)%Z
                    else if containsA && (h =? 12)%Z then 0%Z else h);
          minutes := mi;
          seconds := s |}, w)
  /\ (containsP = true <-> In mer (js "pP"))
  /\ (containsA = true <-> In mer (js "aA")).
Proof.
  intros ND [_ LD] NMo [_ LMo] NY [_ LY] NH [_ LH] NMI [_ LMI] NS [_ LS]
         W1 W2 W3 Hmer Hem Hd1 Hd2 meridiem text containsP containsA.
  destruct (matchedDateArgs_export_shape localTZA clock w
              D Mo Y H MI S ws1 ws2 ws3 dot1 dot2 mer em d mo y h mi s)
    as (Hp & Ha & _ & Hparse & _); trivial; try lia.
  cbv zeta in Hp, Ha, Hparse.
  unfold text, containsP, containsA, meridiem.
  split; [|split].
  - rewrite Hparse, Hp, Ha. reflexivity.
  - rewrite Hp. change (js "pP") with [112%N; 80%N]. simpl.
    rewrite orb_true_iff, !N.eqb_eq.
    split; [intros [->| ->]; tauto | intros [<-|[<-|[]]]; tauto].
  - rewrite Ha. change (js "aA") with [97%N; 65%N]. simpl.
    rewrite orb_true_iff, !N.eqb_eq.
    split; [intros [->| ->]; tauto | intros [<-|[<-|[]]]; tauto].
Qed.

Lemma parseTimestamp_meridiem_witness :
  parseTimestamp limaTZA sampleClock (js "25/07/25, 12:13:12 p. m.")
    initialWorld
  = (newDate limaTZA
       {| year := Some 2025%Z; monthIndex := Some 6%Z; day := Some 25%Z;
          hours := 12; minutes := 13; seconds := 12 |}, initialWorld)
  /\ parseTimestamp limaTZA sampleClock (js "25/07/25, 1:05:00 a. m.")
       initialWorld
     = (newDate limaTZA
          {| year := Some 2025%Z; monthIndex := Some 6%Z; day := Some 25%Z;
             hours := 1; minutes := 5; seconds := 0 |}, initialWorld)
  /\ parseTimestamp limaTZA sampleClock (js "5/7/25,11:59:59PM")
       initialWorld
     = (newDate limaTZA
          {| year := Some 2025%Z; monthIndex := Some 6%Z; day := Some 5%Z;
             hours := 23; minutes := 59; seconds := 59 |}, initialWorld)
  /\ parseTimestamp limaTZA sampleClock (js "25/07/25, 12:00:00 a. m.")
       initialWorld
     = (newDate limaTZA
          {| year := Some 2025%Z; monthIndex := Some 6%Z; day := Some 25%Z;
             hours := 0; minutes := 0; seconds := 0 |}, initialWorld).
Proof.
  split; [|split; [|split]].
  - refine (proj1 (parseTimestamp_meridiem limaTZA sampleClock initialWorld
             (js "25") (js "07") (js "25") (js "12") (js "13") (js "12")
             (js " ") (js " ") (js " ") (js ".") (js ".") 112 109
             25 7 25 12 13 12 _ _ _ _ _ _ _ _ _ _ _ _ _ _ _ _ _ _ _));
      shape_side.
  - refine (proj1 (parseTimestamp_meridiem limaTZA sampleClock initialWorld
             (js "25") (js "07") (js "25") (js "1") (js "05") (js "00")
             (js " ") (js " ") (js " ") (js ".") (js ".") 97 109
             25 7 25 1 5 0 _ _ _ _ _ _ _ _ _ _ _ _ _ _ _ _ _ _ _));
      shape_side.
  - refine (proj1 (parseTimestamp_meridiem limaTZA sampleClock initialWorld
             (js "5") (js "7") (js "25") (js "11") (js "59") (js "59")
             [] [] [] [] [] 80 77
             5 7 25 11 59 59 _ _ _ _ _ _ _ _ _ _ _ _ _ _ _ _ _ _ _));
      shape_side.
  - refine (proj1 (parseTimestamp_meridiem limaTZA sampleClock initialWorld
             (js "25") (js "07") (js "25") (js "12") (js "00") (js "00")
             (js " ") (js " ") (js " ") (js ".") (js ".") 97 109
             25 7 25 12 0 0 _ _ _ _ _ _ _ _ _ _ _ _ _ _ _ _ _ _ _));
      shape_side.
Defined.

End ParseFacts.

(* ===================================================================== *)
(** * MessageFilter: the day filter *)
(* ===================================================================== *)

Module DayFilterFacts.

Import MessageFilter Vocabulary TrimFacts DayFacts.

Lemma parsedEvents_from (messages : list WhatsAppMessage)
    (acc : list FilteredEvent) :
  fold_left (fun events message =>
               match parseEventFromMessage message with
               | Some event => events ++ [event]
               | None => events
               end) messages acc
  = acc ++ parsedEvents messages.
Proof.
  unfold parsedEvents. revert acc.
  induction messages as [|m messages IH]; intros acc; cbn [fold_left].
  - now rewrite app_nil_r.
  - rewrite IH, (IH (match parseEventFromMessage m with
                     | Some event => [] ++ [event]
                     | None => []
                     end)).
    destruct (parseEventFromMessage m); [|reflexivity].
    now rewrite <- app_assoc.
Qed.

(** The events collected are those of the messages that yield one. *)
Lemma parsedEvents_In (messages : list WhatsAppMessage) (ev : FilteredEvent) :
  In ev (parsedEvents messages) <->
  exists message,
    In message messages /\ parseEventFromMessage message = Some ev.
Proof.
  induction messages as [|m messages IH].
  - simpl. split; [intros [] | intros (? & [] & _)].
  - unfold parsedEvents. cbn [fold_left]. rewrite parsedEvents_from.
    rewrite in_app_iff, IH. split.
    + intros [H|(m' & Hin & Hp)].
      * destruct (parseEventFromMessage m) as [e|] eqn:E; [|destruct H].
        destruct H as [<-|[]]. exists m. split; [now left | assumption].
      * exists m'. split; [now right | assumption].
    + intros (m' & [<-|Hin] & Hp).
      * left. rewrite Hp. now left.
      * right. now exists m'.
Qed.

Lemma parseEventFromMessage_original (message : WhatsAppMessage)
    (ev : FilteredEvent) :
  parseEventFromMessage message = Some ev ->
  originalMessage ev = message
  /\ isAllowedDay (xDay (extract message)) = true
  /\ normalizeDayName (xDay (extract message)) = DayText (dayOfWeek ev).
Proof.
  unfold parseEventFromMessage.
  destruct (isAllowedDay (xDay (extract message))); [|discriminate].
  simpl. destruct (normalizeDayName (xDay (extract message)));
    [|discriminate].
  intros [= <-]. auto.
Qed.

(** C6.  The day filter.  [normalizeDayName] and [isAllowedDay] ignore the
    letter case of the day and the white space around it.  The days
    miercoles and miércoles are both normalised to miércoles, and a message
    whose day is either of them, in any letter case and with white space
    around it, yields an event with the day miércoles among the events
    collected.  A message whose day is outside the list of allowed days,
    such as lunes, yields no event: [parseEventFromMessage] returns null
    for it and the events collected hold no event of that message. *)
Theorem isAllowedDay_filter :
  (forall ws1 d1 ws2 d2 : jsstring,
      whiteSpaceRun ws1 -> whiteSpaceRun ws2 ->
      toLowerCase d1 = toLowerCase d2 ->
      normalizeDayName (ws1 ++ d1 ++ ws2) = normalizeDayName d2
      /\ isAllowedDay (ws1 ++ d1 ++ ws2) = isAllowedDay d2)
  /\ normalizeDayName (js "miercoles") = DayText (js "miércoles")
  /\ normalizeDayName (js "miércoles") = DayText (js "miércoles")
  /\ (forall (messages : list WhatsAppMessage) (message : WhatsAppMessage),
      In message messages ->
      In (trim (toLowerCase (xDay (extract message))))
         [js "miercoles"; js "miércoles"] ->
      exists ev,
        parseEventFromMessage message = Some ev
        /\ In ev (parsedEvents messages)
        /\ originalMessage ev = message
        /\ dayOfWeek ev = js "miércoles")
  /\ (forall (messages : list WhatsAppMessage) (message : WhatsAppMessage),
      ~ In (trim (toLowerCase (xDay (extract message))))
           [js "viernes"; js "vienes"; js "miércoles"; js "miercoles"] ->
      parseEventFromMessage message = None
      /\ forall ev, In ev (parsedEvents messages) ->
                    originalMessage ev <> message)
  /\ ~ In (js "lunes")
          [js "viernes"; js "vienes"; js "miércoles"; js "miercoles"].
Proof.
  split; [|split; [|split; [|split; [|split]]]].
  - intros ws1 d1 ws2 d2 H1 H2 Hd. unfold normalizeDayName, isAllowedDay.
    now rewrite (day_whitespace_around ws1 d1 ws2 H1 H2), Hd.
  - reflexivity.
  - reflexivity.
  - intros messages message Hin Hday.
    assert (Ha : isAllowedDay (xDay (extract message)) = true).
    { apply isAllowedDay_spec. simpl in Hday |- *. tauto. }
    assert (Hn : normalizeDayName (xDay (extract message))
                 = DayText (js "miércoles")).
    { unfold normalizeDayName. simpl in Hday.
      destruct Hday as [<-|[<-|[]]]; reflexivity. }
    unfold parseEventFromMessage. rewrite Ha, Hn. simpl.
    eexists. split; [reflexivity|]. split; [|split; reflexivity].
    apply parsedEvents_In. exists message. split; [assumption|].
    unfold parseEventFromMessage. now rewrite Ha, Hn.
  - intros messages message Hday.
    assert (Ha : isAllowedDay (xDay (extract message)) = false).
    { destruct (isAllowedDay (xDay (extract message))) eqn:E; [|reflexivity].
      apply isAllowedDay_spec in E. contradiction. }
    split.
    + unfold parseEventFromMessage. now rewrite Ha.
    + intros ev Hev Ho. apply parsedEvents_In in Hev as (m & _ & Hp).
      apply parseEventFromMessage_original in Hp as (Hm & Hallowed & _).
      rewrite Ho in Hm. subst m. congruence.
  - vm_compute. intros [H|[H|[H|[H|[]]]]]; discriminate.
Qed.

Lemma isAllowedDay_filter_witness :
  let lunes :=
    {| timestamp := js "21/07/25, 8:00:00 a. m."; sender := js "Ana";
       content := js "Pichanga" ++ [10%N] ++ js "Día: lunes";
       rawMessage := [] |} in
  let miercoles :=
    {| timestamp := js "23/07/25, 8:00:00 a. m."; sender := js "Ana";
       content := js "Pichanga" ++ [10%N] ++ js "DÍA:  Miercoles "
                  ++ [10%N] ++ js "1. - Juan";
       rawMessage := [] |} in
  (exists ev, In ev (parsedEvents [lunes; miercoles])
              /\ originalMessage ev = miercoles
              /\ dayOfWeek ev = js "miércoles")
  /\ parseEventFromMessage lunes = None
  /\ (forall ev, In ev (parsedEvents [lunes; miercoles]) ->
                 originalMessage ev <> lunes)
  /\ normalizeDayName (js "  MIÉRCOLES ") = normalizeDayName (js "miércoles").
Proof.
  intros lunes miercoles.
  destruct isAllowedDay_filter as (Hcase & _ & _ & Hkept & Hdrop & _).
  split; [|split; [|split]].
  - destruct (Hkept [lunes; miercoles] miercoles) as (ev & _ & H);
      [right; now left | vm_compute; tauto | now exists ev].
  - apply (Hdrop [lunes; miercoles] lunes).
    vm_compute. intros [H|[H|[H|[H|[]]]]]; discriminate.
  - apply (Hdrop [lunes; miercoles] lunes).
    vm_compute. intros [H|[H|[H|[H|[]]]]]; discriminate.
  - apply (Hcase (js "  ") (js "MIÉRCOLES") (js " ") (js "miércoles"));
      [repeat constructor | repeat constructor | reflexivity].
Defined.

End DayFilterFacts.
